(** * dtcwt: the 2-D dual-tree complex wavelet transform

    A shallow embedding of [dtcwt/lowlevel.py] and [dtcwt/transform2d.py]
    and the properties of their column filters, boundary reflection,
    quad/complex packing and forward transform.

    Conventions.  Array shapes, indices and loop counters are [nat] and [Z].
    Index arithmetic that involves the half-sample boundaries [-0.5] and
    [r - 0.5] is done in [Q].  Sample values are taken in a type of scalars
    given by the class [Scalar]: the instance over [R] is the exact-arithmetic
    reading of numpy's floats, the instance over [Q] runs.  Python exceptions
    are values of [error]; code that can raise returns a [result]. *)

From Stdlib Require Import String.
From Stdlib Require Import List ZArith QArith Qround Reals Psatz Lia Bool.
Import ListNotations.

Set Implicit Arguments.

(* ================================================================= *)
(** * Definitions *)
(* ================================================================= *)

(** ** Boolean-mask indexing of a one-dimensional array *)

(** [y[t]] for a boolean array [t]: the elements of [y] where [t] holds. *)
Fixpoint mask_get {A : Type} (y : list A) (t : list bool) : list A :=
  match y, t with
  | v :: y', b :: t' => if b then v :: mask_get y' t' else mask_get y' t'
  | _, _ => []
  end.

(** [y[t] = vals]: the selected positions receive [vals] in order.  In
    every use [vals] has one value per selected position. *)
Fixpoint mask_set {A : Type} (y : list A) (t : list bool) (vals : list A) : list A :=
  match y, t with
  | v :: y', b :: t' =>
      if b
      then match vals with
           | w :: vals' => w :: mask_set y' t' vals'
           | [] => v :: mask_set y' t' []
           end
      else v :: mask_set y' t' vals
  | _, _ => y
  end.

(** [l[k] = v] for an index inside the list. *)
Fixpoint list_set {A : Type} (l : list A) (k : nat) (v : A) : list A :=
  match l, k with
  | [], _ => []
  | _ :: l', O => v :: l'
  | w :: l', S k' => w :: list_set l' k' v
  end.

(** ** A store of arrays

    [reflect] copies its argument and then writes into the copy; the store
    makes the difference between the two arrays visible. *)

Definition heap := list (list Q).

Definition load (h : heap) (a : nat) : list Q := nth a h [].

Definition store (h : heap) (a : nat) (v : list Q) : heap := list_set h a v.

(** [np.array(x, copy=True)]: a fresh array with the contents of [x]. *)
Definition array_copy (h : heap) (x : nat) : nat * heap :=
  (length h, h ++ [load h x]).

(** ** reflect in exact arithmetic (lowlevel.py, lines 57-84)

    The values of the array are rationals and the arithmetic is exact:
    this is [reflect] as the filters use it, on index arrays with the
    bounds [-0.5] and [r - 0.5].  For integer values and bounds whose
    doubles are integers every assigned value is an integer (lemma
    [reflect_integral]), so the int64 array of numpy holds it as it is,
    and below [2^53] no double is rounded.  What numpy computes on an
    array with its dtype, where a store into an int64 array drops the
    fraction and float64 rounds, is the [reflect] of the module [Ndarray]
    below; lemma [reflect_idx_dtype] shows that the two give the same
    indices for images of up to [2^49] rows. *)

Definition Qltb (a b : Q) : bool := negb (Qle_bool b a).

(** [t = y > maxx; y[t] = 2*maxx - y[t]] *)
Definition reflect_in_maxx (maxx : Q) (y : nat) (h : heap) : heap :=
  let t := map (fun v => Qltb maxx v) (load h y) in
  store h y (mask_set (load h y) t
               (map (fun v => 2 * maxx - v) (mask_get (load h y) t))).

(** [t = y < minx; y[t] = 2*minx - y[t]] *)
Definition reflect_in_minx (minx : Q) (y : nat) (h : heap) : heap :=
  let t := map (fun v => Qltb v minx) (load h y) in
  store h y (mask_set (load h y) t
               (map (fun v => 2 * minx - v) (mask_get (load h y) t))).

(** The [while np.any(y < minx)] loop; [None] when [fuel] passes do not
    bring every value up to [minx]. *)
Fixpoint reflect_while (fuel : nat) (minx maxx : Q) (y : nat) (h : heap)
  : option heap :=
  if existsb (fun v => Qltb v minx) (load h y) then
    match fuel with
    | O => None
    | S fuel' =>
        reflect_while fuel' minx maxx y
          (reflect_in_maxx maxx y (reflect_in_minx minx y h))
    end
  else Some h.

(** [reflect] on the array at address [x]: the address of the result and
    the store after the call. *)
Definition reflect_at (fuel : nat) (x : nat) (minx maxx : Q) (h : heap)
  : option (nat * heap) :=
  let '(y, h0) := array_copy h x in
  let h1 := reflect_in_maxx maxx y h0 in
  match reflect_while fuel minx maxx y h1 with
  | Some h2 => Some (y, h2)
  | None => None
  end.

(** A number of passes that is enough for a value [v]: one pass moves a
    value below [minx] up by twice the width of the range. *)
Definition passes_for (minx maxx v : Q) : nat :=
  Nat.max (Z.to_nat (Qceiling ((minx - v) / (2 * (maxx - minx)))))
          (Z.to_nat (Qceiling ((v - maxx) / (2 * (maxx - minx))))).

Definition reflect_passes (x : list Q) (minx maxx : Q) : nat :=
  fold_right (fun v n => Nat.max (passes_for minx maxx v) n) O x.

(** [reflect] as a function of the array value.  [None] stands for a call
    that does not return. *)
Definition reflect (x : list Q) (minx maxx : Q) : option (list Q) :=
  match reflect_at (reflect_passes x minx maxx) 0 minx maxx [x] with
  | Some (y, h) => Some (load h y)
  | None => None
  end.

(** *** reflect, one value at a time

    What the two masked assignments do to a single value; used to state
    and prove the properties of [reflect]. *)

Definition fold_down (maxx v : Q) : Q := if Qltb maxx v then 2 * maxx - v else v.
Definition fold_up (minx v : Q) : Q := if Qltb v minx then 2 * minx - v else v.

(** The loop on the value of the array. *)
Fixpoint reflect_loop (fuel : nat) (minx maxx : Q) (l : list Q) : option (list Q) :=
  if existsb (fun v => Qltb v minx) l then
    match fuel with
    | O => None
    | S fuel' =>
        reflect_loop fuel' minx maxx (map (fold_down maxx) (map (fold_up minx) l))
    end
  else Some l.


(** [v] lies in the closed range. *)
Definition in_range (minx maxx v : Q) : Prop := minx <= v /\ v <= maxx.

(** [v] is at most [maxx] and at most [n] passes below [minx]. *)
Definition within (minx maxx : Q) (n : nat) (v : Q) : Prop :=
  minx - inject_Z (Z.of_nat n) * (2 * (maxx - minx)) <= v /\ v <= maxx.

(** What [reflect] promises about one value [v] of its argument and the
    value [v'] it returns in the same place. *)
Definition reflected (minx maxx v v' : Q) : Prop :=
  in_range minx maxx v' /\ (in_range minx maxx v -> v' = v).

(** The call [reflect(x, minx, maxx)] in a store, run for as many passes
    as the contents of [x] ask for. *)
Definition reflect_call (x : nat) (minx maxx : Q) (h : heap) : option (nat * heap) :=
  reflect_at (reflect_passes (load h x) minx maxx) x minx maxx h.

(** A value that an integer array can hold. *)
Definition integral (q : Q) : Prop := inject_Z (Qfloor q) == q.

(** ** Exceptions and results *)

Inductive error : Type :=
| ValueError (msg : string)   (* [raise ValueError(msg)], and the shape errors of numpy and scipy *)
| IndexError                  (* an index outside the array *)
| NoReturn.                   (* the call does not return *)

Inductive result (A : Type) : Type :=
| Ok (a : A)
| Err (e : error).

Arguments Ok {A} a.
Arguments Err {A} e.

Definition bind {A B : Type} (r : result A) (k : A -> result B) : result B :=
  match r with
  | Ok a => k a
  | Err e => Err e
  end.

Notation "'let*' x ':=' e 'in' k" := (bind e (fun x => k))
  (at level 10, x name, e at level 200, k at level 200).

Fixpoint mapM {A B : Type} (f : A -> result B) (l : list A) : result (list B) :=
  match l with
  | [] => Ok []
  | a :: l' => let* b := f a in let* bs := mapM f l' in Ok (b :: bs)
  end.

(** ** Scalars

    The arithmetic the filters need from the samples: ring operations,
    [np.sqrt(0.5)], and the tests [x > 0] and [x != 0]. *)

Class Scalar (F : Type) : Type := {
  s0 : F;
  s1 : F;
  sadd : F -> F -> F;
  ssub : F -> F -> F;
  smul : F -> F -> F;
  sopp : F -> F;
  sqrt_half : F;
  spos : F -> bool;
  snonzero : F -> bool
}.

(** Exact real arithmetic: what the floats of numpy approximate. *)
#[export] Instance Scalar_R : Scalar R := {
  s0 := 0%R;
  s1 := 1%R;
  sadd := Rplus;
  ssub := Rminus;
  smul := Rmult;
  sopp := Ropp;
  sqrt_half := sqrt (1 / 2);
  spos := fun x => if Rlt_dec 0 x then true else false;
  snonzero := fun x => if Req_dec_T x 0 then false else true
}.

(** Rationals, to run the definitions; [sqrt_half] is the decimal expansion
    of the double nearest to the square root of one half. *)
#[export] Instance Scalar_Q : Scalar Q := {
  s0 := 0%Q;
  s1 := 1%Q;
  sadd := fun a b => Qred (a + b);
  ssub := fun a b => Qred (a - b);
  smul := fun a b => Qred (a * b);
  sopp := fun a => Qred (- a);
  sqrt_half := 7071067811865476 # 10000000000000000;
  spos := fun x => Qltb 0 x;
  snonzero := fun x => negb (Qeq_bool x 0)
}.

(** ** Index arrays *)

(** [np.arange(start, stop, step)] for a positive [step]. *)
Definition arange (start stop step : Z) : list Z :=
  map (fun k => start + step * Z.of_nat k)%Z
      (seq 0 (Z.to_nat ((stop - start + step - 1) / step))).

(** An index [i] into an axis of length [n]: negative indices count from
    the end, anything else outside [0 .. n-1] raises [IndexError]. *)
Definition norm_index (n : nat) (i : Z) : result nat :=
  if ((0 <=? i) && (i <? Z.of_nat n))%Z then Ok (Z.to_nat i)
  else if ((- Z.of_nat n <=? i) && (i <? 0))%Z then Ok (Z.to_nat (i + Z.of_nat n))
  else Err IndexError.

(** [l[idx]] for an integer index array [idx]; on a matrix (a list of rows)
    this is [X[idx,:]]. *)
Definition take {A : Type} (l : list A) (idx : list Z) : result (list A) :=
  mapM (fun i =>
          let* k := norm_index (length l) i in
          match nth_error l k with
          | Some a => Ok a
          | None => Err IndexError
          end) idx.

(** [reflect] on an index array of dtype int, in exact arithmetic: the
    form in which the filters call it.  With the bounds of the filters the
    values it returns are integers (lemma [reflect_integral]) and
    [Qfloor] reads them back; they are the values that the int64 array of
    numpy holds (lemma [reflect_idx_dtype], up to [2^49] rows).  For other
    bounds, where numpy drops a fraction at every store, see
    [Ndarray.reflect]. *)
Definition reflect_idx (x : list Z) (minx maxx : Q) : result (list Z) :=
  match reflect (map inject_Z x) minx maxx with
  | Some y => Ok (map Qfloor y)
  | None => Err NoReturn
  end.

(** The extended slices [l[start::2]] and [l[start:stop:2]]. *)
Fixpoint every_other {A : Type} (l : list A) : list A :=
  match l with
  | a :: _ :: l' => a :: every_other l'
  | [a] => [a]
  | [] => []
  end.

Definition from_step2 {A : Type} (start : nat) (l : list A) : list A :=
  every_other (skipn start l).

Definition slice_step2 {A : Type} (start stop : nat) (l : list A) : list A :=
  every_other (skipn start (firstn stop l)).

(** The slice [l[start:stop]] of Python: negative bounds count from the
    end, bounds beyond the ends are clipped. *)
Definition slice_bound (n : nat) (i : Z) : nat :=
  if (i <? 0)%Z then Z.to_nat (Z.max 0 (i + Z.of_nat n))
  else Nat.min (Z.to_nat i) n.

Definition py_slice {A : Type} (start stop : Z) (l : list A) : list A :=
  let a := slice_bound (length l) start in
  let b := slice_bound (length l) stop in
  firstn (b - a) (skipn a l).

(** Broadcasting a list along one axis to length [n]. *)
Definition broadcast_msg : string := "operands could not be broadcast together".

Definition bcast {A : Type} (n : nat) (l : list A) : result (list A) :=
  if (length l =? n)%nat then Ok l
  else match l with
       | [a] => Ok (repeat a n)
       | _ => Err (ValueError broadcast_msg)
       end.

(** An element-wise operation on two arrays along one axis. *)
Fixpoint zip_with {A B C : Type} (f : A -> B -> C) (l1 : list A) (l2 : list B) : list C :=
  match l1, l2 with
  | a :: l1', b :: l2' => f a b :: zip_with f l1' l2'
  | _, _ => []
  end.

Section Matrices.

Context {F : Type} {SF : Scalar F}.

(** ** Matrices: lists of rows *)

Definition matrix : Type := list (list F).

Definition nrows (X : matrix) : nat := length X.
Definition ncols (X : matrix) : nat := length (hd [] X).

(** [X.shape] *)
Definition shape (X : matrix) : nat * nat := (nrows X, ncols X).

(** [X] is an array of [r] rows and [c] columns. *)
Definition has_shape (X : matrix) (r c : nat) : Prop :=
  length X = r /\ Forall (fun row => length row = c) X.

(** [np.zeros((r, c))] *)
Definition zeros (r c : nat) : matrix := repeat (repeat s0 c) r.

(** [X.T] *)
Definition transpose (X : matrix) : matrix :=
  map (fun j => map (fun row => nth j row s0) X) (seq 0 (ncols X)).

(** [np.atleast_2d(v)] and [as_column_vector(v)] for a one-dimensional [v] *)
Definition atleast_2d (v : list F) : matrix := [v].

Definition as_column_vector (v : list F) : matrix :=
  let v := atleast_2d v in
  if (nrows v =? 1)%nat then transpose v else v.

(** ** Arithmetic on rows and matrices *)

Definition vadd (u v : list F) : list F := zip_with sadd u v.
Definition vmul (u v : list F) : list F := zip_with smul u v.
Definition vscale (a : F) (v : list F) : list F := map (smul a) v.

(** [np.sum(v)] *)
Definition vsum (v : list F) : F := fold_right sadd s0 v.

(** [A + B] with the broadcasting of numpy along both axes. *)
Definition bzip {A : Type} (f : A -> A -> result A) (l1 l2 : list A) : result (list A) :=
  if (length l1 =? length l2)%nat
  then mapM (fun p => f (fst p) (snd p)) (combine l1 l2)
  else match l1, l2 with
       | [a], _ => mapM (f a) l2
       | _, [b] => mapM (fun a => f a b) l1
       | _, _ => Err (ValueError broadcast_msg)
       end.

Definition madd (A B : matrix) : result matrix :=
  bzip (bzip (fun a b => Ok (sadd a b))) A B.

(** The row [h[0]*rows[0] + h[1]*rows[1] + ...] of width [c]. *)
Fixpoint lincomb (c : nat) (h : list F) (rows : list (list F)) : list F :=
  match h, rows with
  | a :: h', row :: rows' => vadd (vscale a row) (lincomb c h' rows')
  | _, _ => repeat s0 c
  end.

(** ** Convolution of the columns (lowlevel.py, lines 12-55) *)

(** [scipy.signal.convolve2d(X, H, 'valid')] for a kernel [H] of one
    column.  The function is scipy's, not the repository's: modelled from
    its documentation for a kernel that fits into the image, where row [i]
    of the output is [sum_k H[k] * X[i + m - 1 - k]]; the remaining cases,
    on which scipy's releases differ, are reported as errors. *)
Definition convolve2d_valid (X H : matrix) : result matrix :=
  let h := concat H in
  let m := length h in
  if ((1 <=? m) && (m <=? nrows X) && (1 <=? ncols X))%nat then
    Ok (map (fun i => lincomb (ncols X) h (rev (firstn m (skipn i X))))
            (seq 0 (nrows X - m + 1)))
  else Err (ValueError "convolve2d: invalid shapes for valid mode").

(** [_irfft(_rfft(X, n) * _rfft(h, n)[:, np.newaxis], n)]: by the
    convolution theorem, the circular convolution with period [n] of the
    columns of [X] and of [h], both cut or padded with zeros to [n] rows. *)
Definition fft_pad {A : Type} (zero : A) (n : nat) (l : list A) : list A :=
  firstn n (l ++ repeat zero (n - length l)).

Definition circular_convolve (n : nat) (X : matrix) (h : list F) : matrix :=
  let c := ncols X in
  let Xp := fft_pad (repeat s0 c) n X in
  let hp := fft_pad s0 n h in
  map (fun i =>
         lincomb c hp
           (map (fun k => nth ((i + n - k) mod n) Xp (repeat s0 c)) (seq 0 n)))
      (seq 0 n).

(** [_centered(arr, newsize)] *)
Definition _centered (arr : matrix) (newsize : nat * nat) : matrix :=
  let currsize := shape arr in
  let startind0 := ((Z.of_nat (fst currsize) - Z.of_nat (fst newsize)) / 2)%Z in
  let startind1 := ((Z.of_nat (snd currsize) - Z.of_nat (snd newsize)) / 2)%Z in
  let endind0 := (startind0 + Z.of_nat (fst newsize))%Z in
  let endind1 := (startind1 + Z.of_nat (snd newsize))%Z in
  map (py_slice startind1 endind1) (py_slice startind0 endind0 arr).

(** [_column_convolve(X, h)] *)
Definition _column_convolve (X h : matrix) : result matrix :=
  let h := concat h in                                   (* h.flatten() *)
  let h_size := length h in
  let full_size := (Z.of_nat (nrows X) + Z.of_nat h_size - 1)%Z in
  if (full_size <? 32)%Z then
    convolve2d_valid X (as_column_vector h)
  else
    let fsize := Z.to_nat (2 ^ Z.log2_up full_size) in
    let Xconv := firstn (Z.to_nat full_size) (circular_convolve fsize X h) in
    Ok (_centered Xconv
          (Z.abs_nat (Z.of_nat (nrows X) - Z.of_nat h_size) + 1, ncols X)%nat).

(** ** colfilter (lowlevel.py, lines 86-113) *)

Definition colfilter (X : matrix) (h : list F) : result matrix :=
  let h := as_column_vector h in
  let '(r, c) := shape X in
  let m := nrows h in
  let m2 := (m / 2)%nat in                               (* np.fix(m*0.5) *)
  let* xe := reflect_idx (arange (- Z.of_nat m2) (Z.of_nat r + Z.of_nat m2) 1)
                         (-(1#2)) (inject_Z (Z.of_nat r) - (1#2)) in
  let* Xe := take X xe in
  _column_convolve Xe h.

(** ** Assignment to rows *)

(** [Y[s,:] = V]: the rows of [V], broadcast to [len(s)] rows of the width
    of [Y], are written to the rows of [Y] that [s] lists. *)
Fixpoint write_rows (Y : matrix) (s : list nat) (V : matrix) : matrix :=
  match s, V with
  | k :: s', v :: V' => write_rows (list_set Y k v) s' V'
  | _, _ => Y
  end.

Definition set_rows (Y : matrix) (s : list Z) (V : matrix) : result matrix :=
  let* ks := mapM (norm_index (nrows Y)) s in
  let* V := mapM (bcast (ncols Y)) V in
  let* V := bcast (length s) V in
  Ok (write_rows Y ks V).

(** [_column_convolve(X[xe[t],:], h)] *)
Definition filter_rows (X : matrix) (xe t : list Z) (h : matrix) : result matrix :=
  let* i := take xe t in
  let* Xi := take X i in
  _column_convolve Xi h.

Definition shift (d : Z) (t : list Z) : list Z := map (fun k => k + d)%Z t.

(** ** coldfilt (lowlevel.py, lines 115-183) *)

Definition coldfilt (X : matrix) (ha hb : list F) : result matrix :=
  let '(r, c) := shape X in
  if negb (r mod 4 =? 0)%nat then
    Err (ValueError "No. of rows in X must be a multiple of 4")
  else if negb (length ha =? length hb)%nat then
    Err (ValueError "Shapes of ha and hb must be the same")
  else if negb (length ha mod 2 =? 0)%nat then
    Err (ValueError "Lengths of ha and hb must be even")
  else
    let m := length ha in
    let* xe := reflect_idx (arange (- Z.of_nat m) (Z.of_nat r + Z.of_nat m) 1)
                           (-(1#2)) (inject_Z (Z.of_nat r) - (1#2)) in
    let hao := as_column_vector (slice_step2 0 m ha) in
    let hae := as_column_vector (slice_step2 1 m ha) in
    let hbo := as_column_vector (slice_step2 0 m hb) in
    let hbe := as_column_vector (slice_step2 1 m hb) in
    let t := arange 5 (Z.of_nat r + 2 * Z.of_nat m - 2) 4 in
    let r2 := (r / 2)%nat in
    let Y := zeros r2 c in
    let '(s1, s2) :=
      if spos (vsum (vmul ha hb))
      then (arange 0 (Z.of_nat r2) 2, shift 1 (arange 0 (Z.of_nat r2) 2))
      else (shift 1 (arange 0 (Z.of_nat r2) 2), arange 0 (Z.of_nat r2) 2) in
    let* a1 := filter_rows X xe (shift (-1) t) hao in
    let* a2 := filter_rows X xe (shift (-3) t) hae in
    let* ya := madd a1 a2 in
    let* Y := set_rows Y s1 ya in
    let* b1 := filter_rows X xe t hbo in
    let* b2 := filter_rows X xe (shift (-2) t) hbe in
    let* yb := madd b1 b2 in
    let* Y := set_rows Y s2 yb in
    Ok Y.

(** ** colifilt (lowlevel.py, lines 185-287) *)

(** [np.nonzero(X)]: the row indices and the column indices of the
    non-zero entries. *)
Definition nonzero (X : matrix) : list nat * list nat :=
  let entries :=
    concat (map (fun ir =>
                   map (fun jv => (fst ir, fst jv))
                       (filter (fun jv => snonzero (snd jv))
                               (combine (seq 0 (length (snd ir))) (snd ir))))
                (combine (seq 0 (length X)) X)) in
  (map fst entries, map snd entries).

(** [np.any] of an array of integers *)
Definition np_any (l : list nat) : bool := existsb (fun i => negb (i =? 0)%nat) l.

(** The convolutions of [colifilt], lines 232-287: what runs when the test
    for a zero input does not return early. *)
Definition colifilt_convolve (X : matrix) (ha hb : list F) (Y : matrix) : result matrix :=
  let '(r, c) := shape X in
  let m := length ha in
  let m2 := (m / 2)%nat in
  if (m2 mod 2 =? 0)%nat then
    let* xe := reflect_idx (arange (- Z.of_nat m2) (Z.of_nat r + Z.of_nat m2) 1)
                           (-(1#2)) (inject_Z (Z.of_nat r) - (1#2)) in
    let t := arange 3 (Z.of_nat r + Z.of_nat m) 2 in
    let '(ta, tb) :=
      if spos (vsum (vmul ha hb)) then (t, shift (-1) t) else (shift (-1) t, t) in
    let hao := as_column_vector (slice_step2 0 m ha) in
    let hae := as_column_vector (slice_step2 1 m ha) in
    let hbo := as_column_vector (slice_step2 0 m hb) in
    let hbe := as_column_vector (slice_step2 1 m hb) in
    let s := arange 0 (Z.of_nat r * 2) 4 in
    let* y0 := filter_rows X xe (shift (-2) tb) hae in
    let* Y := set_rows Y s y0 in
    let* y1 := filter_rows X xe (shift (-2) ta) hbe in
    let* Y := set_rows Y (shift 1 s) y1 in
    let* y2 := filter_rows X xe tb hao in
    let* Y := set_rows Y (shift 2 s) y2 in
    let* y3 := filter_rows X xe ta hbo in
    let* Y := set_rows Y (shift 3 s) y3 in
    Ok Y
  else
    let* xe := reflect_idx (arange (- Z.of_nat m2) (Z.of_nat r + Z.of_nat m2) 1)
                           (-(1#2)) (inject_Z (Z.of_nat r) - (1#2)) in
    let t := arange 2 (Z.of_nat r + Z.of_nat m - 1) 2 in
    let '(ta, tb) :=
      if spos (vsum (vmul ha hb)) then (t, shift (-1) t) else (shift (-1) t, t) in
    let hao := as_column_vector (slice_step2 0 m ha) in
    let hae := as_column_vector (slice_step2 1 m ha) in
    let hbo := as_column_vector (slice_step2 0 m hb) in
    let hbe := as_column_vector (slice_step2 1 m hb) in
    let s := arange 0 (Z.of_nat r * 2) 4 in
    let* y0 := filter_rows X xe tb hao in
    let* Y := set_rows Y s y0 in
    let* y1 := filter_rows X xe ta hbo in
    let* Y := set_rows Y (shift 1 s) y1 in
    let* y2 := filter_rows X xe tb hae in
    let* Y := set_rows Y (shift 2 s) y2 in
    let* y3 := filter_rows X xe ta hbe in
    let* Y := set_rows Y (shift 3 s) y3 in
    Ok Y.

Definition colifilt (X : matrix) (ha hb : list F) : result matrix :=
  let '(r, c) := shape X in
  if negb (r mod 2 =? 0)%nat then
    Err (ValueError "No. of rows in X must be a multiple of 2")
  else if negb (length ha =? length hb)%nat then
    Err (ValueError "Shapes of ha and hb must be the same")
  else if negb (length ha mod 2 =? 0)%nat then
    Err (ValueError "Lengths of ha and hb must be even")
  else
    let Y := zeros (r * 2) c in
    if negb (np_any (fst (nonzero X))) then Ok Y
    else colifilt_convolve X ha hb Y.

(** ** Properties of rows that the filters preserve

    A matrix of [r] rows that all satisfy [P].  With [P] the rows of width
    [c] this is [has_shape]; with [P] the zero row of width [c] it is the
    zero matrix. *)
Definition rows_in (P : list F -> Prop) (X : matrix) (r : nat) : Prop :=
  length X = r /\ Forall P X.

(** A property of rows of width [c] that the zero row has and that sums
    and multiples keep. *)
Record row_invariant (c : nat) (P : list F -> Prop) : Prop := {
  inv_length : forall row, P row -> length row = c;
  inv_zero : P (repeat s0 c);
  inv_add : forall u v, P u -> P v -> P (vadd u v);
  inv_scale : forall a u, P u -> P (vscale a u)
}.

(** What the arithmetic of the scalars has to satisfy for a zero input to
    give a zero output. *)
Record zero_laws : Prop := {
  zero_is_zero : snonzero s0 = false;
  zero_mul : forall a, smul a s0 = s0;
  zero_add : sadd s0 s0 = s0
}.

End Matrices.

(** ** Strided assignment and stacking *)

(** [l[0::2]] receives [f l[2k] vals[k]]; the other elements stay. *)
Fixpoint upd_step2 {A B : Type} (f : A -> B -> A) (l : list A) (vals : list B) : list A :=
  match l with
  | [] => []
  | a :: l1 =>
      match vals with
      | [] => l
      | v :: vals' =>
          f a v :: match l1 with
                   | [] => []
                   | b :: l2 => b :: upd_step2 f l2 vals'
                   end
      end
  end.

Definition upd_from {A B : Type} (start : nat) (f : A -> B -> A) (l : list A) (vals : list B)
  : list A :=
  firstn start l ++ upd_step2 f (skipn start l) vals.

(** Lists of the same length, element by element; [ValueError] otherwise. *)
Definition zip_exact {A B C : Type} (msg : string) (f : A -> B -> result C)
    (l1 : list A) (l2 : list B) : result (list C) :=
  if (length l1 =? length l2)%nat
  then mapM (fun p => f (fst p) (snd p)) (combine l1 l2)
  else Err (ValueError msg).

Definition nth_res {A : Type} (l : list A) (k : nat) : result A :=
  match nth_error l k with
  | Some a => Ok a
  | None => Err IndexError
  end.

Section Transform.

Context {F : Type} {SF : Scalar F}.

Local Abbreviation matrix := (@matrix F).

(** [x[r0::2, c0::2] = M], with [M] broadcast to the shape of the slice. *)
Definition set_strided (x : matrix) (r0 c0 : nat) (M : matrix) : result matrix :=
  let* M := mapM (bcast (length (from_step2 c0 (hd [] x)))) M in
  let* M := bcast (length (from_step2 r0 x)) M in
  Ok (upd_from r0 (fun row mrow => upd_from c0 (fun _ v => v) row mrow) x M).

(** ** Complex numbers *)

Record complex : Type := Cx { re : F; im : F }.

Definition czero : complex := Cx s0 s0.
Definition cadd (a b : complex) : complex := Cx (sadd (re a) (re b)) (sadd (im a) (im b)).
Definition csub (a b : complex) : complex := Cx (ssub (re a) (re b)) (ssub (im a) (im b)).

(** A real times a complex number, and a complex times a real number. *)
Definition rc_mul (y : F) (z : complex) : complex := Cx (smul y (re z)) (smul y (im z)).
Definition cr_mul (z : complex) (y : F) : complex := Cx (smul (re z) y) (smul (im z) y).

Definition cmatrix : Type := list (list complex).

(** A subband tensor: rows, columns, bands. *)
Definition tensor : Type := list (list (list complex)).

Definition shape3 (T : tensor) : nat * nat * nat :=
  (length T, length (hd [] T), length (hd [] (hd [] T))).

Definition has_shape3 (T : tensor) (h w b : nat) : Prop :=
  length T = h
  /\ Forall (fun row => length row = w /\ Forall (fun cell => length cell = b) row) T.

Definition cmadd (A B : cmatrix) : result cmatrix :=
  bzip (bzip (fun a b => Ok (cadd a b))) A B.

Definition cmsub (A B : cmatrix) : result cmatrix :=
  bzip (bzip (fun a b => Ok (csub a b))) A B.

(** [y[r0::2, c0::2]] *)
Definition sub2 {A : Type} (r0 c0 : nat) (y : list (list A)) : list (list A) :=
  map (from_step2 c0) (from_step2 r0 y).

(** [np.dstack((A, B))] *)
Definition dstack (A B : cmatrix) : result tensor :=
  let msg := "all the input array dimensions must match exactly"%string in
  zip_exact msg (zip_exact msg (fun a b => Ok [a; b])) A B.

(** ** q2c and c2q (transform2d.py, lines 279-327) *)

(** [j2 = np.sqrt(0.5) * np.array([1, 1j])] *)
Definition j2 : complex * complex :=
  (rc_mul sqrt_half (Cx s1 s0), rc_mul sqrt_half (Cx s0 s1)).

Definition q2c (y : matrix) : result tensor :=
  let scale (M : matrix) (j : complex) : cmatrix := map (map (fun v => rc_mul v j)) M in
  let* p := cmadd (scale (sub2 0 0 y) (fst j2)) (scale (sub2 0 1 y) (snd j2)) in
  let* q := cmsub (scale (sub2 1 1 y) (fst j2)) (scale (sub2 1 0 y) (snd j2)) in
  let* d := cmsub p q in
  let* e := cmadd p q in
  dstack d e.

(** [w[:,:,k]] *)
Definition plane (k : nat) (w : tensor) : result cmatrix :=
  mapM (mapM (fun cell => nth_res cell k)) w.

Definition c2q (w : tensor) (gain : list F) : result matrix :=
  let x := zeros (length w * 2) (length (hd [] w) * 2) in
  let sc := map (smul sqrt_half) gain in
  let scale (M : cmatrix) (s : F) : cmatrix := map (map (fun z => cr_mul z s)) M in
  let* w0 := plane 0 w in
  let* w1 := plane 1 w in
  let* sc0 := nth_res sc 0 in
  let* sc1 := nth_res sc 1 in
  let* P := cmadd (scale w0 sc0) (scale w1 sc1) in
  let* Q := cmsub (scale w0 sc0) (scale w1 sc1) in
  let* x := set_strided x 0 0 (map (map re) P) in
  let* x := set_strided x 0 1 (map (map im) P) in
  let* x := set_strided x 1 0 (map (map im) Q) in
  let* x := set_strided x 1 1 (map (map (fun z => sopp (re z))) Q) in
  Ok x.

(** ** dtwavexfm2 (transform2d.py, lines 8-168)

    The filters are given as coefficient vectors; loading them by name
    reads data files that are not part of the sources.  The warnings that
    the function logs when it has extended the image are not modelled. *)

Record biort_filters : Type := {
  h0o : list F; g0o : list F; h1o : list F; g1o : list F
}.

Record qshift_filters : Type := {
  h0a : list F; h0b : list F; g0a : list F; g0b : list F;
  h1a : list F; h1b : list F; g1a : list F; g1b : list F
}.

(** [np.zeros((h, w, 6))] *)
Definition zeros3 (h w : nat) : tensor := repeat (repeat (repeat czero 6) w) h.

(** [T[:,:,[b0, b1]] = z], with [z] broadcast to the shape of the slice. *)
Definition set_bands (T : tensor) (b0 b1 : nat) (z : tensor) : result tensor :=
  let* z := mapM (mapM (bcast 2)) z in
  let* z := mapM (bcast (length (hd [] T))) z in
  let* z := bcast (length T) z in
  Ok (zip_with
        (zip_with (fun cell zc =>
                     list_set (list_set cell b0 (nth 0 zc czero)) b1 (nth 1 zc czero)))
        T z).

(** The image with its last row, or its last column, repeated. *)
Definition repeat_last_row (X : matrix) : matrix := X ++ [last X []].
Definition repeat_last_col (X : matrix) : matrix := map (fun row => row ++ [last row s0]) X.

(** The input made even in both dimensions (lines 74-86). *)
Definition extend_odd (X : matrix) : matrix :=
  let original_size := shape X in
  let X := if negb (fst original_size mod 2 =? 0)%nat then repeat_last_row X else X in
  let X := if negb (snd original_size mod 2 =? 0)%nat then repeat_last_col X else X in
  X.

(** The lowpass image made a multiple of 4 in both dimensions
    (lines 118-125). *)
Definition pad_lowpass (LoLo : matrix) : matrix :=
  let '(row_size, col_size) := shape LoLo in
  let LoLo :=
    if negb (row_size mod 4 =? 0)%nat
    then hd [] LoLo :: LoLo ++ [last LoLo []] else LoLo in
  let LoLo :=
    if negb (col_size mod 4 =? 0)%nat
    then map (fun row => hd s0 row :: row ++ [last row s0]) LoLo else LoLo in
  LoLo.

(** Level 1 (lines 100-111): the lowpass image and the subbands. *)
Definition level1 (X : matrix) (biort : biort_filters) : result (matrix * tensor) :=
  let* Lo := colfilter X (h0o biort) in
  let Lo := transpose Lo in
  let* Hi := colfilter X (h1o biort) in
  let Hi := transpose Hi in
  let* LoLo := colfilter Lo (h0o biort) in
  let LoLo := transpose LoLo in
  let T := zeros3 (nrows LoLo / 2) (ncols LoLo / 2) in
  let* y := colfilter Hi (h0o biort) in
  let* z := q2c (transpose y) in
  let* T := set_bands T 0 5 z in
  let* y := colfilter Lo (h1o biort) in
  let* z := q2c (transpose y) in
  let* T := set_bands T 2 3 z in
  let* y := colfilter Hi (h1o biort) in
  let* z := q2c (transpose y) in
  let* T := set_bands T 1 4 z in
  Ok (LoLo, T).

(** A level [>= 2] (lines 118-137): the lowpass image and the subbands. *)
Definition level_ge2 (LoLo : matrix) (qshift : qshift_filters) : result (matrix * tensor) :=
  let LoLo := pad_lowpass LoLo in
  let* Lo := coldfilt LoLo (h0b qshift) (h0a qshift) in
  let Lo := transpose Lo in
  let* Hi := coldfilt LoLo (h1b qshift) (h1a qshift) in
  let Hi := transpose Hi in
  let* LoLo := coldfilt Lo (h0b qshift) (h0a qshift) in
  let LoLo := transpose LoLo in
  let T := zeros3 (nrows LoLo / 2) (ncols LoLo / 2) in
  let* y := coldfilt Hi (h0b qshift) (h0a qshift) in
  let* z := q2c (transpose y) in
  let* T := set_bands T 0 5 z in
  let* y := coldfilt Lo (h1b qshift) (h1a qshift) in
  let* z := q2c (transpose y) in
  let* T := set_bands T 2 3 z in
  let* y := coldfilt Hi (h1b qshift) (h1a qshift) in
  let* z := q2c (transpose y) in
  let* T := set_bands T 1 4 z in
  Ok (LoLo, T).

(** The variables that the loop over the levels updates. *)
Record xfm_state : Type := {
  st_LoLo : matrix;
  st_Yh : list (option tensor);
  st_Yscale : list (option matrix)
}.

(** The body of [for level in xrange(1, nlevels)], lines 118-140. *)
Definition level_step (qshift : qshift_filters) (include_scale : bool)
    (level : nat) (st : xfm_state) : result xfm_state :=
  let* r := level_ge2 (st_LoLo st) qshift in
  let LoLo := fst r in
  let Yh := list_set (st_Yh st) level (Some (snd r)) in
  let Yscale :=
    if include_scale then list_set (st_Yscale st) 0 (Some LoLo) else st_Yscale st in
  Ok {| st_LoLo := LoLo; st_Yh := Yh; st_Yscale := Yscale |}.

Fixpoint levels_loop (qshift : qshift_filters) (include_scale : bool)
    (levels : list nat) (st : xfm_state) : result xfm_state :=
  match levels with
  | [] => Ok st
  | level :: levels' =>
      let* st' := level_step qshift include_scale level st in
      levels_loop qshift include_scale levels' st'
  end.

(** What [dtwavexfm2] returns: [(Yl, Yh)], and [Yscale] when it is asked
    for.  A slot of [Yh] or [Yscale] that was never assigned holds
    [None]. *)
Record xfm_result : Type := {
  Yl : matrix;
  Yh : list (option tensor);
  Yscale : option (list (option matrix))
}.

Definition dtwavexfm2 (X : matrix) (nlevels : nat)
    (biort : biort_filters) (qshift : qshift_filters) (include_scale : bool)
  : result xfm_result :=
  let X := extend_odd X in
  if (nlevels =? 0)%nat then
    Ok {| Yl := X; Yh := []; Yscale := if include_scale then Some [] else None |}
  else
    let Yh := repeat None nlevels in
    let Yscale := if include_scale then repeat None nlevels else [] in
    let* r := level1 X biort in
    let LoLo := fst r in
    let Yh := list_set Yh 0 (Some (snd r)) in
    let Yscale := if include_scale then list_set Yscale 0 (Some LoLo) else Yscale in
    let* st := levels_loop qshift include_scale (seq 1 (nlevels - 1))
                 {| st_LoLo := LoLo; st_Yh := Yh; st_Yscale := Yscale |} in
    Ok {| Yl := st_LoLo st;
          Yh := st_Yh st;
          Yscale := if include_scale then Some (st_Yscale st) else None |}.

End Transform.

Arguments Cx {F} re im.

(** ** Quads

    A matrix with an even number of rows and of columns, read as a matrix
    of 2x2 quads [((a, b), (c, d))]: used to state what [q2c] and [c2q] do
    to each quad. *)

Definition unpairs {A : Type} (ps : list (A * A)) : list A :=
  flat_map (fun p => [fst p; snd p]) ps.

Definition of_quads {A : Type} (qs : list (list ((A * A) * (A * A)))) : list (list A) :=
  unpairs (map (fun qrow => (unpairs (map fst qrow), unpairs (map snd qrow))) qs).

(** [p[k] = f p[k] v] for [k] the first ([false]) or the second ([true])
    component of a pair. *)
Definition upd_pair {A B : Type} (second : bool) (f : A -> B -> A) (p : A * A) (v : B) : A * A :=
  if second then (fst p, f (snd p) v) else (f (fst p) v, snd p).

Section QuadDefinitions.

Context {F : Type} {SF : Scalar F}.

Local Abbreviation quad := ((F * F) * (F * F))%type.

(** [y[r0::2, c0::2]] picks one corner of every quad. *)
Definition corner (r0 c0 : bool) (q : quad) : F :=
  (if c0 then snd else fst) ((if r0 then snd else fst) q).

(** [q2c], quad by quad. *)
Definition q2c_quad (q : quad) : list (@complex F) :=
  let p := cadd (rc_mul (corner false false q) (fst j2))
                (rc_mul (corner false true q) (snd j2)) in
  let q' := csub (rc_mul (corner true true q) (fst j2))
                 (rc_mul (corner true false q) (snd j2)) in
  [csub p q'; cadd p q'].

(** [x[r0::2, c0::2] = M] writes one corner of every quad. *)
Definition set_corner (r0 c0 : bool) (q : quad) (v : F) : quad :=
  upd_pair r0 (fun p v => upd_pair c0 (fun _ v => v) p v) q v.

(** [c2q], quad by quad. *)
Definition c2q_quad (z0 z1 : @complex F) (g0 g1 : F) : quad :=
  let sc0 := smul sqrt_half g0 in
  let sc1 := smul sqrt_half g1 in
  let P := cadd (cr_mul z0 sc0) (cr_mul z1 sc1) in
  let Q := csub (cr_mul z0 sc0) (cr_mul z1 sc1) in
  ((re P, im P), (im Q, sopp (re Q))).

End QuadDefinitions.

(** ** The sizes of the lowpass images *)

Definition even_up (n : nat) : nat := if (n mod 2 =? 0)%nat then n else (n + 1)%nat.

Definition pad4 (n : nat) : nat := if (n mod 4 =? 0)%nat then n else (n + 2)%nat.

(** The number of rows (or of columns) of the lowpass image after [level]
    levels, for an extended input of [n0] rows (or columns). *)
Fixpoint lowpass_dim (n0 : nat) (level : nat) : nat :=
  match level with
  | O => n0
  | S l =>
      match l with
      | O => n0
      | S _ => (pad4 (lowpass_dim n0 l) / 2)%nat
      end
  end.

(** ** Filter sets that the transform accepts

    The level 1 filters have odd lengths, so that [colfilter] keeps the
    size of the image; the filters of the levels above come in pairs of
    the same even length, as [coldfilt] asks. *)

Definition biort_ok {F : Type} (b : @biort_filters F) : Prop :=
  Nat.odd (length (h0o b)) = true /\ Nat.odd (length (h1o b)) = true.

Definition qshift_ok {F : Type} (q : @qshift_filters F) : Prop :=
  length (h0b q) = length (h0a q)
  /\ (length (h0b q) mod 2 = 0)%nat /\ (1 <= length (h0b q))%nat
  /\ length (h1b q) = length (h1a q)
  /\ (length (h1b q) mod 2 = 0)%nat /\ (1 <= length (h1b q))%nat.

(** What holds of the loop variables of [dtwavexfm2] once [l >= 1] levels
    are done, for an extended input of [R] rows and [C] columns, [n]
    levels asked for, and [include_scale = sc]. *)
Definition xfm_inv {F : Type} (R C n : nat) (sc : bool) (l : nat) (st : @xfm_state F) : Prop :=
  has_shape (st_LoLo st) (lowpass_dim R l) (lowpass_dim C l)
  /\ length (st_Yh st) = n
  /\ (forall i, (i < l)%nat ->
        exists T, nth i (st_Yh st) None = Some T
                  /\ has_shape3 T (lowpass_dim R (S i) / 2) (lowpass_dim C (S i) / 2) 6)
  /\ st_Yscale st = (if sc then Some (st_LoLo st) :: repeat None (n - 1) else []).

(** ** A small image and small filter sets, to run the transform *)

(** Level-1 filters of 5 and 3 taps in the form of the LeGall pair (the
    scaling of the table that the library loads by name is not fixed here;
    the forward transform reads [h0o] and [h1o] only), and two-tap pairs
    for the levels above. *)
Definition legall : biort_filters :=
  {| h0o := [-(1#8); 1#4; 3#4; 1#4; -(1#8)];
     g0o := [1#2; 1; 1#2];
     h1o := [-(1#2); 1; -(1#2)];
     g1o := [-(1#8); -(1#4); 3#4; -(1#4); -(1#8)] |}.

Definition two_taps : qshift_filters :=
  {| h0a := [1#2; 1#2]; h0b := [1#2; 1#2]; g0a := [1#2; 1#2]; g0b := [1#2; 1#2];
     h1a := [1#2; -(1#2)]; h1b := [-(1#2); 1#2]; g1a := [-(1#2); 1#2]; g1b := [1#2; -(1#2)] |}.

Definition image4 : list (list Q) :=
  [[1; 2; 3; 4]; [5; 6; 7; 8]; [9; 10; 11; 12]; [13; 14; 15; 16]].


(** ** Symmetric extension

    The row of an image of [r] rows that stands at position [i] of its
    symmetric extension with repeated end samples: the rows run forwards
    and then backwards, with period [2r].  Used to state what [reflect]
    computes for the filters. *)
Definition sym_ext (r : nat) (i : Z) : Z :=
  let p := (i mod (2 * Z.of_nat r))%Z in
  if (p <? Z.of_nat r)%Z then p else (2 * Z.of_nat r - 1 - p)%Z.

(** Two values that stand for the same row of the extension. *)
Definition same_row (r : nat) (v0 v : Q) : Prop :=
  exists z0 z, v0 == inject_Z z0 /\ v == inject_Z z /\ sym_ext r z = sym_ext r z0.

Section InverseTransform.

Context {F : Type} {SF : Scalar F}.

Local Abbreviation matrix := (@matrix F).
Local Abbreviation tensor := (@tensor F).

(** ** as_column_vector on a two-dimensional array (lowlevel.py, lines 4-10) *)

Definition as_column_vector_2d (v : matrix) : matrix :=
  if (nrows v =? 1)%nat then transpose v else v.

(** ** dtwaveifm2 (transform2d.py, lines 171-273)

    As in [dtwavexfm2] the filters are given as coefficient vectors.  [Yh]
    is the tuple of the subband tensors, [gain_mask] an array of 6 rows
    and one column per level, or [None]. *)

(** [T[:,:,[b0, b1]]] *)
Definition bands (T : tensor) (b0 b1 : nat) : result tensor :=
  mapM (mapM (fun cell =>
                let* z0 := nth_res cell b0 in
                let* z1 := nth_res cell b1 in
                Ok [z0; z1])) T.

(** [gain_mask[[d0, d1], level]] *)
Definition gains (gain_mask : matrix) (d0 d1 level : nat) : result (list F) :=
  let* row0 := nth_res gain_mask d0 in
  let* g0 := nth_res row0 level in
  let* row1 := nth_res gain_mask d1 in
  let* g1 := nth_res row1 level in
  Ok [g0; g1].

(** [np.ones((r, c))] *)
Definition ones (r c : nat) : matrix := repeat (repeat s1 c) r.

(** The quad images [lh], [hl] and [hh] of a level (lines 239-241 and
    263-265). *)
Definition subband_quads (Yh : list tensor) (gain_mask : matrix) (current_level : nat)
  : result (matrix * matrix * matrix) :=
  let* T := nth_res Yh (current_level - 1) in
  let* w := bands T 0 5 in
  let* g := gains gain_mask 0 5 (current_level - 1) in
  let* lh := c2q w g in
  let* w := bands T 2 3 in
  let* g := gains gain_mask 2 3 (current_level - 1) in
  let* hl := c2q w g in
  let* w := bands T 1 4 in
  let* g := gains gain_mask 1 4 (current_level - 1) in
  let* hh := c2q w g in
  Ok (lh, hl, hh).

Definition invalid_sizes_msg : string := "Sizes of subbands are not valid for DTWAVEIFM2".

(** The body of [while current_level >= 2] (lines 239-258): the image [Z]
    one level up. *)
Definition inverse_level_ge2 (qshift : qshift_filters) (Yh : list tensor)
    (gain_mask : matrix) (current_level : nat) (Z : matrix) : result matrix :=
  let* q := subband_quads Yh gain_mask current_level in
  let '(lh, hl, hh) := q in
  let* a := colifilt Z (g0b qshift) (g0a qshift) in
  let* b := colifilt lh (g1b qshift) (g1a qshift) in
  let* y1 := madd a b in
  let* a := colifilt hl (g0b qshift) (g0a qshift) in
  let* b := colifilt hh (g1b qshift) (g1a qshift) in
  let* y2 := madd a b in
  let* a := colifilt (transpose y1) (g0b qshift) (g0a qshift) in
  let* b := colifilt (transpose y2) (g1b qshift) (g1a qshift) in
  let* Zt := madd a b in
  let Z := transpose Zt in
  let '(row_size, col_size) := shape Z in
  let* Tprev := nth_res Yh (current_level - 2) in
  let S := (2 * length Tprev, 2 * length (hd [] Tprev))%nat in
  let Z := if negb (row_size =? fst S)%nat then py_slice 1 (-1) Z else Z in
  let Z := if negb (col_size =? snd S)%nat then map (py_slice 1 (-1)) Z else Z in
  if negb (nrows Z =? fst S)%nat || negb (ncols Z =? snd S)%nat
  then Err (ValueError invalid_sizes_msg)
  else Ok Z.

(** The loop [while current_level >= 2]: the level it stops at and the
    image there. *)
Fixpoint inverse_loop (qshift : qshift_filters) (Yh : list tensor)
    (gain_mask : matrix) (current_level : nat) (Z : matrix) : result (nat * matrix) :=
  match current_level with
  | S (S _ as next) =>
      let* Z := inverse_level_ge2 qshift Yh gain_mask current_level Z in
      inverse_loop qshift Yh gain_mask next Z
  | _ => Ok (current_level, Z)
  end.

(** Level 1 (lines 263-271). *)
Definition inverse_level1 (biort : biort_filters) (Yh : list tensor)
    (gain_mask : matrix) (current_level : nat) (Z : matrix) : result matrix :=
  let* q := subband_quads Yh gain_mask current_level in
  let '(lh, hl, hh) := q in
  let* a := colfilter Z (g0o biort) in
  let* b := colfilter lh (g1o biort) in
  let* y1 := madd a b in
  let* a := colfilter hl (g0o biort) in
  let* b := colfilter hh (g1o biort) in
  let* y2 := madd a b in
  let* a := colfilter (transpose y1) (g0o biort) in
  let* b := colfilter (transpose y2) (g1o biort) in
  let* Zt := madd a b in
  Ok (transpose Zt).

Definition dtwaveifm2 (Yl : matrix) (Yh : list tensor)
    (biort : biort_filters) (qshift : qshift_filters) (gain_mask : option matrix)
  : result matrix :=
  let a := length Yh in
  let gain_mask := match gain_mask with None => ones 6 a | Some g => g end in
  let* st := inverse_loop qshift Yh gain_mask a Yl in
  let '(current_level, Z) := st in
  if (current_level =? 1)%nat then inverse_level1 biort Yh gain_mask current_level Z
  else Ok Z.

End InverseTransform.

(** ** Filter sets that the inverse transform accepts *)

Definition biort_inv_ok {F : Type} (b : @biort_filters F) : Prop :=
  Nat.odd (length (g0o b)) = true /\ Nat.odd (length (g1o b)) = true.

Definition qshift_inv_ok {F : Type} (q : @qshift_filters F) : Prop :=
  length (g0b q) = length (g0a q)
  /\ (length (g0b q) mod 2 = 0)%nat /\ (1 <= length (g0b q))%nat
  /\ length (g1b q) = length (g1a q)
  /\ (length (g1b q) mod 2 = 0)%nat /\ (1 <= length (g1b q))%nat.

(** ** Loading filter coefficients (coeffs.py)

    A dict with string keys is a list of bindings; an assignment to a key
    replaces its binding. *)

Definition dict (A : Type) : Type := list (string * A).

Fixpoint dict_get {A : Type} (d : dict A) (k : string) : option A :=
  match d with
  | [] => None
  | (k', v) :: d' => if String.eqb k k' then Some v else dict_get d' k
  end.

Definition dict_set {A : Type} (d : dict A) (k : string) (v : A) : dict A :=
  (k, v) :: filter (fun p => negb (String.eqb k (fst p))) d.

(** What a call of [loadmat] does: it returns the variables of the file
    or it raises, [IOError] for a file that it cannot open and scipy's own
    exceptions for a file that is there but is not a MAT file it can read.
    [E] is the type of these exceptions. *)
Inductive loadmat_result (E M : Type) : Type :=
| LoadmatReturns (m : M)
| LoadmatRaises (e : E).

Arguments LoadmatReturns {E M} m.
Arguments LoadmatRaises {E M} e.

(** The exceptions of the loader: one that [loadmat] raised, passed on as
    it is, and the [ValueError] that [_load_from_file] raises itself. *)
Inductive load_error (E : Type) : Type :=
| LoadmatError (e : E)
| LoadValueError (msg : string).

Arguments LoadmatError {E} e.
Arguments LoadValueError {E} msg.

Inductive loaded (E A : Type) : Type :=
| Loaded (a : A)
| Raised (e : load_error E).

Arguments Loaded {E A} a.
Arguments Raised {E A} e.

Section Coeffs.

(** The arrays of a data file are not looked into; [DATADIR] depends on
    where the package is installed, and [os.path.join] is the library's. *)
Variable V : Type.
Variable E : Type.
Variable DATADIR : string.
Variable path_join : string -> string -> string.

(** What [loadmat] returns: the variables of the file. *)
Definition mat : Type := dict V.

(** The data files: what [loadmat(filename)] does for each file name. *)
Definition file_system : Type := string -> loadmat_result E mat.

(** [tuple(mat[k] for k in varnames)], [None] on [KeyError]. *)
Fixpoint coefficients (m : mat) (varnames : list string) : option (list V) :=
  match varnames with
  | [] => Some []
  | k :: varnames' =>
      match dict_get m k with
      | Some v =>
          match coefficients m varnames' with
          | Some vs => Some (v :: vs)
          | None => None
          end
      | None => None
      end
  end.

Definition missing_msg (varnames : list string) : string :=
  ("Wavelet does not define (" ++ String.concat ", " varnames ++ ") coefficients")%string.

(** [_load_from_file(basename, varnames)] (lines 8-20), with the global
    [COEFF_CACHE] passed in and returned.  When [loadmat] raises, the
    assignment to the cache is not reached. *)
Definition _load_from_file (fs : file_system) (basename : string)
    (varnames : list string) (COEFF_CACHE : dict mat)
  : loaded E (list V) * dict mat :=
  let filename := path_join DATADIR (basename ++ ".mat")%string in
  let found :=
    match dict_get COEFF_CACHE filename with
    | Some m => LoadmatReturns (m, COEFF_CACHE)
    | None =>
        match fs filename with
        | LoadmatReturns m => LoadmatReturns (m, dict_set COEFF_CACHE filename m)
        | LoadmatRaises e => LoadmatRaises e
        end
    end in
  match found with
  | LoadmatRaises e => (Raised (LoadmatError e), COEFF_CACHE)
  | LoadmatReturns (m, COEFF_CACHE) =>
      match coefficients m varnames with
      | Some vs => (Loaded vs, COEFF_CACHE)
      | None => (Raised (LoadValueError (missing_msg varnames)), COEFF_CACHE)
      end
  end.

(** [biort(name)] and [qshift(name)] (lines 22-61). *)
Definition biort (fs : file_system) (name : string) (COEFF_CACHE : dict mat)
  : loaded E (list V) * dict mat :=
  _load_from_file fs name ["h0o"; "g0o"; "h1o"; "g1o"]%string COEFF_CACHE.

Definition qshift (fs : file_system) (name : string) (COEFF_CACHE : dict mat)
  : loaded E (list V) * dict mat :=
  _load_from_file fs name
    ["h0a"; "h0b"; "g0a"; "g0b"; "h1a"; "h1b"; "g1a"; "g1b"]%string COEFF_CACHE.

End Coeffs.

(** ** reflect on arrays that carry their dtype (lowlevel.py, lines 57-84)

    [np.array(x, copy=True)] keeps the dtype of [x], and an assignment
    [y[t] = ...] converts what it stores to that dtype.  For an index array
    (dtype int64, as [np.arange(..., dtype=np.int)] makes it) and float
    bounds, [y > maxx] compares the doubles of the integers with [maxx],
    [2*maxx - y[t]] is computed in float64, rounded to nearest, and the
    store truncates the result toward zero.  The definitions of this module
    follow that; the bounds are Python floats, as at every call of the
    repository ([-0.5] and [r - 0.5]).

    The exact-arithmetic [reflect] above computes the same values where
    nothing is rounded and nothing is truncated: integers and bounds whose
    doubles are integers, all of magnitude below [2^51] (lemma
    [reflect_idx_dtype]). *)
Module Ndarray.

(** *** float64

    A double by its value.  The two zeros are one value: they compare equal
    and give the same results in the operations below. *)
Inductive f64 : Type :=
| Fin (q : Q)
| Inf (neg : bool)
| NaN.

(** [floor (log2 |q|)] for [q <> 0] *)
Definition Qlog2 (q : Q) : Z :=
  let n := Z.abs (Qnum q) in
  let d := Zpos (Qden q) in
  let k := (Z.log2 n - Z.log2 d)%Z in
  if (n * 2 ^ Z.max 0 (- k) <? d * 2 ^ Z.max 0 k)%Z then (k - 1)%Z else k.

(** [2^e] *)
Definition Q2pow (e : Z) : Q :=
  if (0 <=? e)%Z then inject_Z (2 ^ e) else 1 # Z.to_pos (2 ^ (- e)).

(** The integer nearest to [num / den], the even one of two that are
    equally near; [den > 0]. *)
Definition round_half_even (num den : Z) : Z :=
  let f := (num / den)%Z in
  let r2 := (2 * (num mod den))%Z in
  if (r2 <? den)%Z then f
  else if (den <? r2)%Z then (f + 1)%Z
  else if Z.even f then f else (f + 1)%Z.

(** The double nearest to [q] (IEEE 754 binary64, round to nearest, ties
    to even): 53 bits of mantissa in units of [2^e], the smallest unit
    [2^-1074], and [inf] from [2^1024] on. *)
Definition round64 (q : Q) : f64 :=
  let q := Qred q in
  if (Qnum q =? 0)%Z then Fin 0
  else
    let e := Z.max (Qlog2 q - 52) (-1074) in
    let m := round_half_even (Qnum q * 2 ^ Z.max 0 (- e)) (Zpos (Qden q) * 2 ^ Z.max 0 e) in
    if (2 ^ 1024 <=? Z.abs m * 2 ^ e)%Z then Inf (m <? 0)%Z
    else Fin (Qred (inject_Z m * Q2pow e)).

(** The conversion of an int64 to float64. *)
Definition f64_of_Z (z : Z) : f64 := round64 (inject_Z z).

Definition f64_mul (a b : f64) : f64 :=
  match a, b with
  | NaN, _ | _, NaN => NaN
  | Fin p, Fin q => round64 (p * q)
  | Inf s, Inf t => Inf (xorb s t)
  | Inf s, Fin q | Fin q, Inf s =>
      if Qeq_bool q 0 then NaN else Inf (xorb s (Qltb q 0))
  end.

Definition f64_sub (a b : f64) : f64 :=
  match a, b with
  | NaN, _ | _, NaN => NaN
  | Fin p, Fin q => round64 (p - q)
  | Inf s, Inf t => if Bool.eqb s t then NaN else Inf s
  | Inf s, Fin _ => Inf s
  | Fin _, Inf t => Inf (negb t)
  end.

(** [a < b] *)
Definition f64_ltb (a b : f64) : bool :=
  match a, b with
  | NaN, _ | _, NaN => false
  | Fin p, Fin q => Qltb p q
  | Fin _, Inf t => negb t
  | Inf s, Fin _ => s
  | Inf s, Inf t => s && negb t
  end.

(** The conversion of a float64 to int64 drops the fraction; C leaves it
    undefined for a value that no int64 holds. *)
Definition Qtrunc (q : Q) : Z := Z.quot (Qnum q) (Zpos (Qden q)).

Definition int64_of_f64 (v : f64) : option Z :=
  match v with
  | Fin q =>
      let z := Qtrunc q in
      if ((- 2 ^ 63 <=? z) && (z <? 2 ^ 63))%Z then Some z else None
  | _ => None
  end.

Fixpoint traverse {A B : Type} (f : A -> option B) (l : list A) : option (list B) :=
  match l with
  | [] => Some []
  | a :: l' =>
      match f a, traverse f l' with
      | Some b, Some bs => Some (b :: bs)
      | _, _ => None
      end
  end.

(** *** Arrays *)

Inductive ndarray : Type :=
| IntArray (l : list Z)         (* dtype int64 *)
| FloatArray (l : list f64).    (* dtype float64 *)

(** The values of an array as doubles: what an operation with a Python
    float works on. *)
Definition values (a : ndarray) : list f64 :=
  match a with
  | IntArray l => map f64_of_Z l
  | FloatArray l => l
  end.

(** [a[t] = vals] for a float64 array [vals]; [None] when the conversion
    to the dtype of [a] is undefined. *)
Definition assign (a : ndarray) (t : list bool) (vals : list f64) : option ndarray :=
  match a with
  | FloatArray l => Some (FloatArray (mask_set l t vals))
  | IntArray l =>
      match traverse int64_of_f64 vals with
      | Some zs => Some (IntArray (mask_set l t zs))
      | None => None
      end
  end.

Definition heap := list ndarray.

Definition load (h : heap) (a : nat) : ndarray := nth a h (IntArray []).

Definition store (h : heap) (a : nat) (v : ndarray) : heap := list_set h a v.

(** [np.array(x, copy=True)] *)
Definition array_copy (h : heap) (x : nat) : nat * heap :=
  (length h, h ++ [load h x]).

(** What a call does. *)
Inductive outcome (A : Type) : Type :=
| Returned (a : A)
| Running      (* the loop has not ended after the passes it was given *)
| Undefined.   (* a value that no int64 holds was stored in an int64 array *)

Arguments Returned {A} a.
Arguments Running {A}.
Arguments Undefined {A}.

(** *** reflect *)

(** [t = y > maxx; y[t] = 2*maxx - y[t]] *)
Definition reflect_in_maxx (maxx : f64) (y : nat) (h : heap) : option heap :=
  let t := map (fun v => f64_ltb maxx v) (values (load h y)) in
  match assign (load h y) t
          (map (fun v => f64_sub (f64_mul (Fin 2) maxx) v)
               (mask_get (values (load h y)) t)) with
  | Some a => Some (store h y a)
  | None => None
  end.

(** [t = y < minx; y[t] = 2*minx - y[t]] *)
Definition reflect_in_minx (minx : f64) (y : nat) (h : heap) : option heap :=
  let t := map (fun v => f64_ltb v minx) (values (load h y)) in
  match assign (load h y) t
          (map (fun v => f64_sub (f64_mul (Fin 2) minx) v)
               (mask_get (values (load h y)) t)) with
  | Some a => Some (store h y a)
  | None => None
  end.

(** The [while np.any(y < minx)] loop, for at most [fuel] passes. *)
Fixpoint reflect_while (fuel : nat) (minx maxx : f64) (y : nat) (h : heap)
  : outcome heap :=
  if existsb (fun v => f64_ltb v minx) (values (load h y)) then
    match fuel with
    | O => Running
    | S fuel' =>
        match reflect_in_minx minx y h with
        | None => Undefined
        | Some h1 =>
            match reflect_in_maxx maxx y h1 with
            | None => Undefined
            | Some h2 => reflect_while fuel' minx maxx y h2
            end
        end
    end
  else Returned h.

(** [reflect(x, minx, maxx)] on the array at address [x]: the address of
    the result and the store after the call. *)
Definition reflect_at (fuel : nat) (x : nat) (minx maxx : f64) (h : heap)
  : outcome (nat * heap) :=
  let '(y, h0) := array_copy h x in
  match reflect_in_maxx maxx y h0 with
  | None => Undefined
  | Some h1 =>
      match reflect_while fuel minx maxx y h1 with
      | Returned h2 => Returned (y, h2)
      | Running => Running
      | Undefined => Undefined
      end
  end.

(** [reflect] as a function of the array value. *)
Definition reflect (fuel : nat) (x : ndarray) (minx maxx : f64) : outcome ndarray :=
  match reflect_at fuel 0 minx maxx [x] with
  | Returned (y, h) => Returned (load h y)
  | Running => Running
  | Undefined => Undefined
  end.

(** *** The same on integers

    For an int64 array and bounds [A/2] and [B/2], where nothing is
    rounded: what one masked assignment and one pass of the loop do to a
    value. *)
Definition fold_down (B y : Z) : Z := if (B <? 2 * y)%Z then (B - y)%Z else y.
Definition fold_up (A y : Z) : Z := if (2 * y <? A)%Z then (A - y)%Z else y.

Fixpoint reflect_loop (fuel : nat) (A B : Z) (l : list Z) : option (list Z) :=
  if existsb (fun y => 2 * y <? A)%Z l then
    match fuel with
    | O => None
    | S fuel' => reflect_loop fuel' A B (map (fun y => fold_down B (fold_up A y)) l)
    end
  else Some l.

(** An integer [y] for which the doubles of [y] and of [B - y] are exact. *)
Definition fits (B : Z) (y : Z) : Prop :=
  (Z.abs y < 2 ^ 53)%Z /\ (Z.abs (B - y) < 2 ^ 53)%Z.

(** What holds of a value [y] of the array while the loop runs. *)
Definition folded (B : Z) (y : Z) : Prop := (- 2 ^ 51 <= y)%Z /\ (2 * y <= B)%Z.

(** What [reflect] promises about a value [y] of its argument and the
    value [y'] it returns in the same place, for the bounds [A/2] and
    [B/2]: [y'] is in range, it is [y] when [y] was in range, and it comes
    from [y] by reflections in the two bounds, so that a function that
    does not see these reflections does not tell [y'] from [y]. *)
Definition settled (A B : Z) (y y' : Z) : Prop :=
  (A <= 2 * y' <= B)%Z
  /\ ((A <= 2 * y <= B)%Z -> y' = y)
  /\ (forall f : Z -> Z,
        (forall v, f (A - v)%Z = f v) -> (forall v, f (B - v)%Z = f v) -> f y' = f y).

End Ndarray.

(** ** Filter sets with perfect reconstruction

    The LeGall 5,3 pair in the scaling in which [g0o * h0o + g1o * h1o] is
    the unit impulse, and the two-tap orthogonal pair [sqrt(0.5) * [1, 1]],
    [sqrt(0.5) * [1, -1]] in the layout of a qshift set. *)
Definition legall_pr : @biort_filters Q :=
  {| h0o := [-(1#8); 1#4; 3#4; 1#4; -(1#8)];
     g0o := [1#4; 1#2; 1#4];
     h1o := [-(1#4); 1#2; -(1#4)];
     g1o := [-(1#8); -(1#4); 3#4; -(1#4); -(1#8)] |}.

Definition haar : @qshift_filters Q :=
  let a := @sqrt_half Q Scalar_Q in
  {| h0a := [a; a]; h0b := [a; a]; g0a := [a; a]; g0b := [a; a];
     h1a := [a; -a]; h1b := [-a; a]; g1a := [-a; a]; g1b := [a; -a] |}.

(** The inverse transform of what the forward transform returns for [X]. *)
Definition roundtrip (X : list (list Q)) (nlevels : nat)
    (biort : @biort_filters Q) (qshift : @qshift_filters Q) : result (list (list Q)) :=
  let* res := dtwavexfm2 X nlevels biort qshift false in
  let* Ts := mapM (fun o => match o with Some T => Ok T | None => Err IndexError end)
                  (Yh res) in
  dtwaveifm2 (Yl res) Ts biort qshift None.

(** An image whose lowpass image after two levels is zero outside its
    first row. *)
Definition image_row0 : list (list Q) :=
  [[7; 7; 7; 7]; [0; 0; 0; 0]; [0; 0; 0; 0]; [-(1#1); -(1#1); -(1#1); -(1#1)]].

(** Every entry of [Z] is within [eps] of the entry of [X] at its place,
    and every entry of [Z] is further than [eps] from it. *)
Definition close_to (eps : Q) (X Z : list (list Q)) : bool :=
  (length X =? length Z)%nat
  && forallb (fun p =>
                (length (fst p) =? length (snd p))%nat
                && forallb (fun q => Qle_bool (fst q - snd q) eps
                                     && Qle_bool (snd q - fst q) eps)
                           (combine (fst p) (snd p)))
             (combine X Z).

Definition apart_from (eps : Q) (X Z : list (list Q)) : bool :=
  (length X =? length Z)%nat
  && forallb (fun p =>
                (length (fst p) =? length (snd p))%nat
                && forallb (fun q => Qltb eps (fst q - snd q) || Qltb eps (snd q - fst q))
                           (combine (fst p) (snd p)))
             (combine X Z).

(* ================================================================= *)
(** * Properties *)
(* ================================================================= *)

(** ** The store *)

Lemma length_list_set {A : Type} (l : list A) (k : nat) (v : A) :
  length (list_set l k v) = length l.
Proof.
  revert k; induction l as [|w l IH]; intros [|k]; simpl; auto.
Qed.

Lemma Forall_list_set {A : Type} (P : A -> Prop) (l : list A) (k : nat) (v : A) :
  Forall P l -> P v -> Forall P (list_set l k v).
Proof.
  intros Hl Hv. revert k; induction Hl as [|w l Hw Hl IH]; intros [|k]; simpl; auto.
Qed.

Lemma length_store (h : heap) (a : nat) (v : list Q) :
  length (store h a v) = length h.
Proof. apply length_list_set. Qed.

Lemma load_store_same (h : heap) (a : nat) (v : list Q) :
  (a < length h)%nat -> load (store h a v) a = v.
Proof.
  unfold load, store; revert a; induction h as [|w h IH]; intros [|a] Ha; simpl in *;
    try lia; auto.
  apply IH; lia.
Qed.

Lemma load_store_other (h : heap) (a b : nat) (v : list Q) :
  a <> b -> load (store h a v) b = load h b.
Proof.
  unfold load, store; revert a b; induction h as [|w h IH]; intros [|a] [|b] Hab;
    simpl; auto; try congruence.
Qed.

Lemma store_store (h : heap) (a : nat) (v w : list Q) :
  store (store h a v) a w = store h a w.
Proof.
  unfold store; revert a; induction h as [|u h IH]; intros [|a]; simpl; auto.
  now rewrite IH.
Qed.

Lemma store_load (h : heap) (a : nat) : store h a (load h a) = h.
Proof.
  unfold load, store; revert a; induction h as [|u h IH]; intros [|a]; simpl; auto.
  now rewrite IH.
Qed.

Lemma load_app_old (h : heap) (v : list Q) (a : nat) :
  (a < length h)%nat -> load (h ++ [v]) a = load h a.
Proof. intros Ha; unfold load; now rewrite app_nth1. Qed.

Lemma load_app_new (h : heap) (v : list Q) : load (h ++ [v]) (length h) = v.
Proof. unfold load; rewrite app_nth2, Nat.sub_diag; auto. Qed.

Lemma store_app_new (h : heap) (v l : list Q) :
  store (h ++ [v]) (length h) l = h ++ [l].
Proof. unfold store; induction h as [|w h IH]; simpl; auto. now rewrite IH. Qed.

(** ** Masked assignment is an element-wise update *)

Lemma mask_set_get {A : Type} (p : A -> bool) (f : A -> A) (y : list A) :
  mask_set y (map p y) (map f (mask_get y (map p y)))
  = map (fun v => if p v then f v else v) y.
Proof.
  induction y as [|v y IH]; simpl; auto.
  destruct (p v); simpl; now rewrite IH.
Qed.

(** ** reflect, one value at a time *)


Lemma Qltb_lt (a b : Q) : Qltb a b = true <-> a < b.
Proof.
  unfold Qltb; rewrite negb_true_iff.
  split; intros H.
  - apply Qnot_le_lt; intros Hle; apply Qle_bool_iff in Hle; congruence.
  - destruct (Qle_bool b a) eqn:E; auto.
    apply Qle_bool_iff in E; apply Qle_not_lt in E; contradiction.
Qed.

Lemma Qltb_ge (a b : Q) : Qltb a b = false <-> b <= a.
Proof.
  unfold Qltb; rewrite negb_false_iff; apply Qle_bool_iff.
Qed.

Lemma reflect_in_maxx_map (maxx : Q) (y : nat) (h : heap) :
  reflect_in_maxx maxx y h = store h y (map (fold_down maxx) (load h y)).
Proof.
  unfold reflect_in_maxx; cbv zeta.
  now rewrite (mask_set_get (fun v => Qltb maxx v) (fun v => 2 * maxx - v)).
Qed.

Lemma reflect_in_minx_map (minx : Q) (y : nat) (h : heap) :
  reflect_in_minx minx y h = store h y (map (fold_up minx) (load h y)).
Proof.
  unfold reflect_in_minx; cbv zeta.
  now rewrite (mask_set_get (fun v => Qltb v minx) (fun v => 2 * minx - v)).
Qed.

Lemma reflect_while_loop (fuel : nat) (minx maxx : Q) (y : nat) (h : heap) :
  (y < length h)%nat ->
  reflect_while fuel minx maxx y h
  = option_map (store h y) (reflect_loop fuel minx maxx (load h y)).
Proof.
  revert h; induction fuel as [|fuel IH]; intros h Hy; simpl.
  - destruct (existsb _ _); simpl; auto. now rewrite store_load.
  - destruct (existsb _ _); simpl; [|now rewrite store_load].
    rewrite reflect_in_minx_map, reflect_in_maxx_map.
    rewrite load_store_same by auto.
    rewrite store_store.
    rewrite IH by (now rewrite length_store).
    rewrite load_store_same by auto.
    destruct (reflect_loop _ _ _ _); simpl; auto.
    now rewrite store_store.
Qed.

Lemma reflect_at_loop (fuel x : nat) (minx maxx : Q) (h : heap) :
  reflect_at fuel x minx maxx h
  = option_map (fun l => (length h, h ++ [l]))
      (reflect_loop fuel minx maxx (map (fold_down maxx) (load h x))).
Proof.
  unfold reflect_at, array_copy.
  rewrite reflect_in_maxx_map, load_app_new.
  rewrite store_app_new, reflect_while_loop by (rewrite length_app; simpl; lia).
  rewrite load_app_new.
  destruct (reflect_loop _ _ _ _); simpl; auto.
  now rewrite store_app_new.
Qed.

(** ** Every pass brings the values closer to the range *)

Lemma existsb_false_Forall {A : Type} (p : A -> bool) (l : list A) :
  existsb p l = false <-> Forall (fun v => p v = false) l.
Proof.
  induction l as [|v l IH]; simpl.
  - split; auto.
  - rewrite orb_false_iff, IH. split.
    + intros [H1 H2]; constructor; auto.
    + intros H; inversion H; auto.
Qed.

Lemma inject_Z_succ (n : nat) :
  inject_Z (Z.of_nat (S n)) == inject_Z (Z.of_nat n) + 1.
Proof. rewrite Nat2Z.inj_succ, <- Z.add_1_r, inject_Z_plus. reflexivity. Qed.

Lemma within_le (minx maxx : Q) (n n' : nat) (v : Q) :
  minx < maxx -> (n <= n')%nat -> within minx maxx n v -> within minx maxx n' v.
Proof.
  intros Hlt Hn [H1 H2]; split; auto.
  assert (Hz : inject_Z (Z.of_nat n) <= inject_Z (Z.of_nat n')).
  { rewrite <- Zle_Qle. lia. }
  assert (inject_Z (Z.of_nat n) * (2 * (maxx - minx))
          <= inject_Z (Z.of_nat n') * (2 * (maxx - minx))).
  { apply Qmult_le_compat_r; auto. lra. }
  lra.
Qed.

Lemma within_0 (minx maxx v : Q) : within minx maxx 0 v <-> in_range minx maxx v.
Proof.
  unfold within, in_range; simpl.
  setoid_replace (minx - inject_Z 0 * (2 * (maxx - minx))) with minx
    by (unfold inject_Z; ring).
  tauto.
Qed.

(** One pass of the loop on one value. *)
Lemma pass_within (minx maxx : Q) (n : nat) (v : Q) :
  minx < maxx -> within minx maxx (S n) v ->
  within minx maxx n (fold_down maxx (fold_up minx v))
  /\ (in_range minx maxx v -> fold_down maxx (fold_up minx v) = v).
Proof.
  intros Hlt [H1 H2]. unfold within, in_range.
  rewrite inject_Z_succ in H1.
  set (K := inject_Z (Z.of_nat n) * (2 * (maxx - minx))) in *.
  assert (HK : (inject_Z (Z.of_nat n) + 1) * (2 * (maxx - minx))
               == K + 2 * (maxx - minx)) by (unfold K; ring).
  rewrite HK in H1.
  assert (HK0 : 0 <= K).
  { unfold K. apply Qmult_le_0_compat; [|lra].
    change 0 with (inject_Z 0). rewrite <- Zle_Qle. lia. }
  unfold fold_up.
  destruct (Qltb v minx) eqn:E1.
  - apply Qltb_lt in E1. unfold fold_down.
    destruct (Qltb maxx (2 * minx - v)) eqn:E2.
    + apply Qltb_lt in E2. split; [split; lra | intros [? ?]; lra].
    + apply Qltb_ge in E2. split; [split; lra | intros [? ?]; lra].
  - apply Qltb_ge in E1. unfold fold_down.
    destruct (Qltb maxx v) eqn:E2.
    + apply Qltb_lt in E2. lra.
    + split; [split; lra | reflexivity].
Qed.

(** A pass moves every value below [minx] strictly up, and never above
    [maxx]. *)
Lemma pass_shrinks (minx maxx v : Q) :
  minx < maxx -> v < minx ->
  v < fold_down maxx (fold_up minx v) /\ fold_down maxx (fold_up minx v) <= maxx.
Proof.
  intros Hlt Hv. unfold fold_up.
  apply Qltb_lt in Hv as E1. rewrite E1. unfold fold_down.
  destruct (Qltb maxx (2 * minx - v)) eqn:E2.
  - apply Qltb_lt in E2. lra.
  - apply Qltb_ge in E2. lra.
Qed.

Lemma Forall2_reflected_refl (minx maxx : Q) (l : list Q) :
  Forall (in_range minx maxx) l -> Forall2 (reflected minx maxx) l l.
Proof.
  induction 1; constructor; auto. split; auto.
Qed.

(** The loop returns as soon as the fuel covers the distance of the values
    from the range, and the result is the same for any larger fuel. *)
Lemma reflect_loop_within (minx maxx : Q) (n : nat) :
  minx < maxx ->
  forall l, Forall (within minx maxx n) l ->
  exists l',
    (forall fuel, (n <= fuel)%nat -> reflect_loop fuel minx maxx l = Some l')
    /\ Forall2 (reflected minx maxx) l l'.
Proof.
  intros Hlt. induction n as [|n IH]; intros l Hl.
  - exists l. split.
    + intros fuel _.
      assert (E : existsb (fun v => Qltb v minx) l = false).
      { apply existsb_false_Forall. eapply Forall_impl; [|exact Hl].
        intros v Hv. apply Qltb_ge. apply (proj1 (within_0 minx maxx v) Hv). }
      destruct fuel; simpl; now rewrite E.
    + apply Forall2_reflected_refl. eapply Forall_impl; [|exact Hl].
      intros v Hv; exact (proj1 (within_0 minx maxx v) Hv).
  - destruct (existsb (fun v => Qltb v minx) l) eqn:E.
    + destruct (IH (map (fold_down maxx) (map (fold_up minx) l))) as (l' & Hrun & Hrel).
      { rewrite map_map. apply Forall_map. eapply Forall_impl; [|exact Hl].
        intros v Hv. now apply pass_within. }
      exists l'. split.
      * intros [|fuel] Hf; [lia|]. simpl. rewrite E. apply Hrun. lia.
      * rewrite map_map in Hrel.
        clear - Hrel Hl Hlt. revert l' Hrel.
        induction Hl as [|v l Hv Hl IHl]; intros l' Hrel; simpl in Hrel;
          inversion Hrel as [|? w ? l'' [Hw1 Hw2] Hrest]; subst; constructor; auto.
        split; auto. intros Hin.
        destruct (pass_within Hlt Hv) as [_ Hid].
        rewrite Hw2; rewrite (Hid Hin); auto.
    + exists l. split.
      * intros fuel _. destruct fuel; simpl; now rewrite E.
      * apply Forall2_reflected_refl.
        apply existsb_false_Forall in E.
        rewrite Forall_forall in *. intros v Hv. split.
        -- apply Qltb_ge. now apply E.
        -- now apply Hl.
Qed.

(** ** The fuel that [reflect_passes] computes is enough *)

Lemma ceiling_passes (x w : Q) :
  0 < w -> x <= inject_Z (Z.of_nat (Z.to_nat (Qceiling (x / w)))) * w.
Proof.
  intros Hw.
  assert (H1 : x / w <= inject_Z (Z.of_nat (Z.to_nat (Qceiling (x / w))))).
  { eapply Qle_trans; [apply Qle_ceiling|]. rewrite <- Zle_Qle. lia. }
  assert (H2 : x == x / w * w) by (field; lra).
  rewrite H2 at 1. apply Qmult_le_compat_r; auto. lra.
Qed.

Lemma passes_for_within (minx maxx v : Q) :
  minx < maxx ->
  within minx maxx (passes_for minx maxx v) (fold_down maxx v)
  /\ (in_range minx maxx v -> fold_down maxx v = v).
Proof.
  intros Hlt. unfold passes_for.
  set (W := 2 * (maxx - minx)).
  assert (HW : 0 < W) by (unfold W; lra).
  set (a := Z.to_nat (Qceiling ((minx - v) / W))).
  set (b := Z.to_nat (Qceiling ((v - maxx) / W))).
  pose proof (ceiling_passes (minx - v) HW) as Ha. fold a in Ha.
  pose proof (ceiling_passes (v - maxx) HW) as Hb. fold b in Hb.
  unfold fold_down. destruct (Qltb maxx v) eqn:E.
  - apply Qltb_lt in E. split; [|intros [? ?]; lra].
    apply within_le with (n := b); auto; [lia|].
    unfold within. fold W. split; lra.
  - apply Qltb_ge in E. split; [|reflexivity].
    apply within_le with (n := a); auto; [lia|].
    unfold within. fold W. split; lra.
Qed.

Lemma reflect_passes_within (minx maxx : Q) (l : list Q) :
  minx < maxx ->
  Forall (within minx maxx (reflect_passes l minx maxx)) (map (fold_down maxx) l).
Proof.
  intros Hlt. induction l as [|v l IH]; simpl; constructor.
  - eapply within_le; [auto| |apply passes_for_within; auto]. lia.
  - eapply Forall_impl; [|exact IH]. intros w Hw.
    eapply within_le; [auto| |exact Hw]. unfold reflect_passes. lia.
Qed.

(** The whole call: it returns a fresh array, every value of which is in
    range and equal to the argument's where that was in range already. *)
Lemma reflect_at_spec (minx maxx : Q) (x : nat) (h : heap) :
  minx < maxx ->
  exists l',
    (forall fuel, (reflect_passes (load h x) minx maxx <= fuel)%nat ->
       reflect_at fuel x minx maxx h = Some (length h, h ++ [l']))
    /\ Forall2 (reflected minx maxx) (load h x) l'.
Proof.
  intros Hlt.
  destruct (reflect_loop_within Hlt (reflect_passes_within (load h x) Hlt))
    as (l' & Hrun & Hrel).
  exists l'. split.
  - intros fuel Hf. rewrite reflect_at_loop, (Hrun fuel Hf). reflexivity.
  - clear Hrun. revert l' Hrel.
    induction (load h x) as [|v l IHl]; intros l' Hrel; simpl in Hrel;
      inversion Hrel as [|? w ? l'' [Hw1 Hw2] Hrest]; subst; constructor; auto.
    split; auto. intros Hin.
    destruct (passes_for_within v Hlt) as [_ Hid].
    rewrite Hw2; rewrite (Hid Hin); auto.
Qed.

(** [reflect] on an array value. *)
Lemma reflect_spec (x : list Q) (minx maxx : Q) :
  minx < maxx ->
  exists l', reflect x minx maxx = Some l' /\ Forall2 (reflected minx maxx) x l'.
Proof.
  intros Hlt. unfold reflect.
  destruct (reflect_at_spec 0 [x] Hlt) as (l' & Hrun & Hrel).
  exists l'. split; auto.
  change (load [x] 0) with x in Hrun.
  rewrite (Hrun _ (Nat.le_refl _)). simpl. reflexivity.
Qed.

(** With bounds whose doubles are integers, as the [-0.5] and [r - 0.5]
    of the filters, integer indices stay integers: an array of dtype int
    holds the reflected values exactly. *)
Lemma integral_inject (z : Z) : integral (inject_Z z).
Proof. unfold integral. now rewrite Qfloor_Z. Qed.

Lemma integral_iff (q : Q) : integral q <-> exists z, q == inject_Z z.
Proof.
  split.
  - intros H. exists (Qfloor q). symmetry. exact H.
  - intros [z Hz]. unfold integral. rewrite (Qfloor_comp _ _ Hz), Qfloor_Z.
    symmetry; exact Hz.
Qed.

Lemma integral_reflected (b v : Q) :
  integral (2 * b) -> integral v -> integral (2 * b - v).
Proof.
  rewrite !integral_iff. intros [m Hm] [z Hz]. exists (m - z)%Z.
  rewrite Hm, Hz. unfold Zminus. rewrite inject_Z_plus, inject_Z_opp. ring.
Qed.

Lemma reflect_loop_integral (minx maxx : Q) (fuel : nat) :
  integral (2 * minx) -> integral (2 * maxx) ->
  forall l l', Forall integral l ->
  reflect_loop fuel minx maxx l = Some l' -> Forall integral l'.
Proof.
  intros Hmin Hmax. induction fuel as [|fuel IH]; intros l l' Hl; simpl;
    destruct (existsb _ l); try discriminate; try (intros [= <-]; auto).
  apply IH. rewrite map_map. apply Forall_map.
  eapply Forall_impl; [|exact Hl]. intros v Hv.
  unfold fold_up, fold_down.
  destruct (Qltb v minx); [|destruct (Qltb maxx v)]; auto using integral_reflected.
  destruct (Qltb maxx (2 * minx - v)); auto using integral_reflected.
Qed.

Lemma reflect_integral (x l' : list Q) (minx maxx : Q) :
  integral (2 * minx) -> integral (2 * maxx) -> Forall integral x ->
  reflect x minx maxx = Some l' -> Forall integral l'.
Proof.
  intros Hmin Hmax Hx. unfold reflect. rewrite reflect_at_loop. simpl.
  destruct (reflect_loop _ _ _ _) as [l|] eqn:E; simpl; [|discriminate].
  intros [= <-]. unfold load; simpl.
  eapply reflect_loop_integral; [exact Hmin|exact Hmax| |exact E].
  unfold load; simpl. apply Forall_map.
  eapply Forall_impl; [|exact Hx]. intros v Hv.
  unfold fold_down. destruct (Qltb maxx v); auto using integral_reflected.
Qed.

(** The ramp of the docstring: a long increasing series is folded into
    [0 .. 2], with the end samples repeated. *)
Example reflect_ramp :
  option_map (map Qfloor)
    (reflect (map inject_Z [-4; -3; -2; -1; 0; 1; 2; 3; 4; 5; 6; 7]%Z) (-(1#2)) (5#2))
  = Some [2; 2; 1; 0; 0; 1; 2; 2; 1; 0; 0; 1]%Z.
Proof. vm_compute. reflexivity. Qed.

(** ** When [reflect] does not return

    With [maxx <= minx] a pass leaves below [minx] what was below it, so
    the loop runs for ever once it is entered: the [None] of [reflect] is
    a call that does not return, whatever the budget. *)

Lemma fold_down_le (maxx v : Q) : fold_down maxx v <= maxx.
Proof.
  unfold fold_down. destruct (Qltb maxx v) eqn:E.
  - apply Qltb_lt in E. lra.
  - now apply Qltb_ge in E.
Qed.

Lemma reflect_loop_diverges (minx maxx : Q) (fuel : nat) :
  maxx <= minx ->
  forall l, Forall (fun v => v <= maxx) l ->
  existsb (fun v => Qltb v minx) l = true ->
  reflect_loop fuel minx maxx l = None.
Proof.
  intros Hle. induction fuel as [|fuel IH]; intros l Hl Hex; simpl; rewrite Hex; auto.
  apply IH.
  - rewrite map_map. apply Forall_map. apply Forall_forall. intros v _.
    apply fold_down_le.
  - apply existsb_exists in Hex. destruct Hex as (v & Hin & Hv).
    apply existsb_exists. exists (fold_down maxx (fold_up minx v)). split.
    + rewrite map_map. apply in_map_iff. eauto.
    + rewrite Forall_forall in Hl. specialize (Hl v Hin).
      apply Qltb_lt in Hv. apply Qltb_lt.
      unfold fold_up. rewrite (proj2 (Qltb_lt v minx) Hv).
      unfold fold_down.
      assert (E : Qltb maxx (2 * minx - v) = true) by (apply Qltb_lt; lra).
      rewrite E. lra.
Qed.

Lemma reflect_None_no_return (x : list Q) (minx maxx : Q) :
  reflect x minx maxx = None ->
  forall fuel, reflect_at fuel 0 minx maxx [x] = None.
Proof.
  intros Hnone fuel.
  destruct (Qlt_le_dec minx maxx) as [Hlt|Hle].
  - destruct (reflect_spec x Hlt) as (l' & Hl' & _). congruence.
  - unfold reflect in Hnone. rewrite reflect_at_loop in *.
    change (load [x] 0) with x in *.
    destruct (existsb (fun v => Qltb v minx) (map (fold_down maxx) x)) eqn:E.
    + rewrite (reflect_loop_diverges fuel Hle); auto.
      apply Forall_map. apply Forall_forall. intros v _. apply fold_down_le.
    + destruct (reflect_passes x minx maxx); simpl in Hnone; rewrite E in Hnone;
        discriminate.
Qed.

(** An image without rows gives [minx = maxx = -0.5]: the filters that
    extend it do not return. *)
Example reflect_no_rows :
  reflect (map inject_Z [-2; -1; 0; 1]%Z) (-(1#2)) (inject_Z 0 - (1#2)) = None.
Proof. vm_compute. reflexivity. Qed.

Example colfilter_odd :
  colfilter [[1]; [2]; [3]; [4]] [1; 2; 1] = Ok [[5]; [8]; [12]; [15]].
Proof. vm_compute. reflexivity. Qed.

Example colfilter_even :
  colfilter [[1; 0]; [2; 0]; [3; 1]] [1; 1] = Ok [[2; 0]; [3; 0]; [5; 1]; [6; 2]].
Proof. vm_compute. reflexivity. Qed.

(** ** Results *)

Lemma mapM_Ok {A B : Type} (f : A -> result B) (P : B -> Prop) (l : list A) :
  Forall (fun a => exists b, f a = Ok b /\ P b) l ->
  exists l', mapM f l = Ok l' /\ length l' = length l /\ Forall P l'.
Proof.
  induction 1 as [|a l (b & Hb & HP) _ (l' & Hl' & Hlen & HF)]; simpl.
  - exists []. auto.
  - exists (b :: l'). rewrite Hb, Hl'. simpl. auto.
Qed.

(** ** Index arrays *)

Lemma length_arange (start stop step : Z) :
  length (arange start stop step) = Z.to_nat ((stop - start + step - 1) / step).
Proof. unfold arange. now rewrite length_map, length_seq. Qed.

Lemma length_arange_1 (start stop : Z) :
  length (arange start stop 1) = Z.to_nat (stop - start).
Proof. rewrite length_arange. f_equal. rewrite Z.div_1_r. lia. Qed.

Lemma arange_bounds (start stop step : Z) :
  (0 < step)%Z ->
  Forall (fun x => start <= x < stop)%Z (arange start stop step).
Proof.
  intros Hs. unfold arange. apply Forall_map. apply Forall_forall.
  intros k Hk. apply in_seq in Hk. simpl in Hk.
  destruct Hk as [_ Hk].
  assert (H : (Z.of_nat k < (stop - start + step - 1) / step)%Z) by lia.
  assert (H1 : (step * ((stop - start + step - 1) / step) <= stop - start + step - 1)%Z)
    by (apply Z.mul_div_le; lia).
  nia.
Qed.

Lemma take_Ok {A : Type} (P : A -> Prop) (l : list A) (idx : list Z) :
  Forall (fun i => 0 <= i < Z.of_nat (length l))%Z idx -> Forall P l ->
  exists l', take l idx = Ok l' /\ length l' = length idx /\ Forall P l'.
Proof.
  intros Hidx HP. unfold take. apply mapM_Ok.
  eapply Forall_impl; [|exact Hidx]. intros i Hi. cbv beta in Hi. unfold norm_index.
  replace ((0 <=? i)%Z && (i <? Z.of_nat (length l))%Z) with true
    by (symmetry; apply andb_true_iff; split; [apply Z.leb_le|apply Z.ltb_lt]; lia).
  simpl.
  destruct (nth_error l (Z.to_nat i)) as [a|] eqn:E.
  - exists a. split; auto. rewrite Forall_forall in HP. apply HP.
    eapply nth_error_In; eauto.
  - apply nth_error_None in E. lia.
Qed.

(** The indices that the filters extend their input with: for an image of
    [r >= 1] rows every reflected index is a row of the image. *)
Lemma reflect_idx_rows (x : list Z) (r : nat) :
  (1 <= r)%nat ->
  exists xe,
    reflect_idx x (-(1#2)) (inject_Z (Z.of_nat r) - (1#2)) = Ok xe
    /\ length xe = length x
    /\ Forall (fun i => 0 <= i < Z.of_nat r)%Z xe.
Proof.
  intros Hr. unfold reflect_idx.
  set (maxx := inject_Z (Z.of_nat r) - (1#2)).
  assert (Hlt : -(1#2) < maxx).
  { unfold maxx. assert (inject_Z 1 <= inject_Z (Z.of_nat r)) by (rewrite <- Zle_Qle; lia).
    change (inject_Z 1) with 1 in H. lra. }
  destruct (reflect_spec (map inject_Z x) Hlt) as (l' & Hrun & Hrel).
  rewrite Hrun. exists (map Qfloor l'). split; auto. split.
  - rewrite length_map. apply Forall2_length in Hrel. rewrite length_map in Hrel. lia.
  - assert (Hint : Forall integral l').
    { eapply reflect_integral; [| | |exact Hrun].
      - apply integral_iff. exists (-1)%Z. reflexivity.
      - apply integral_iff. exists (2 * Z.of_nat r - 1)%Z. unfold maxx.
        unfold Zminus. rewrite inject_Z_plus, inject_Z_mult. simpl. ring.
      - apply Forall_map. apply Forall_forall. intros; apply integral_inject. }
    apply Forall_map.
    assert (Hin : Forall (in_range (-(1#2)) maxx) l').
    { clear - Hrel. induction Hrel as [|? ? ? ? [H _] _ IH]; constructor; auto. }
    clear - Hint Hin. induction Hint as [|v l Hv _ IH]; inversion Hin as [|? ? [H1 H2] Hin']; subst;
      constructor; auto.
    unfold integral in Hv. unfold maxx in H2.
    rewrite <- Hv in H1, H2.
    set (z := Qfloor v) in *.
    split.
    + assert (inject_Z (-1) < inject_Z z) by (change (inject_Z (-1)) with (-(1)); lra).
      rewrite <- Zlt_Qlt in H. lia.
    + assert (inject_Z z < inject_Z (Z.of_nat r)) by lra.
      rewrite <- Zlt_Qlt in H. lia.
Qed.

(** ** Lists *)

Lemma length_zip_with {A B C : Type} (f : A -> B -> C) (l1 : list A) (l2 : list B) :
  length (zip_with f l1 l2) = Nat.min (length l1) (length l2).
Proof.
  revert l2; induction l1 as [|a l1 IH]; intros [|b l2]; simpl; auto.
Qed.

Lemma Forall_firstn {A : Type} (P : A -> Prop) (n : nat) (l : list A) :
  Forall P l -> Forall P (firstn n l).
Proof.
  intros H. revert n. induction H as [|a l Ha _ IH]; intros [|n]; simpl; auto.
Qed.

Lemma Forall_skipn {A : Type} (P : A -> Prop) (n : nat) (l : list A) :
  Forall P l -> Forall P (skipn n l).
Proof.
  intros H. revert n. induction H as [|a l Ha Hl IH]; intros [|n]; simpl; auto.
Qed.

Lemma Forall_repeat {A : Type} (P : A -> Prop) (a : A) (n : nat) :
  P a -> Forall P (repeat a n).
Proof. intros Ha. induction n; simpl; auto. Qed.

Lemma map_nth_seq {A : Type} (d : A) (l : list A) :
  map (fun j => nth j l d) (seq 0 (length l)) = l.
Proof.
  induction l as [|a l IH]; simpl; auto.
  f_equal. rewrite <- seq_shift, map_map. exact IH.
Qed.

Lemma concat_singletons {A : Type} (l : list A) : concat (map (fun a => [a]) l) = l.
Proof. induction l; simpl; congruence. Qed.

Lemma length_fft_pad {A : Type} (zero : A) (n : nat) (l : list A) :
  length (fft_pad zero n l) = n.
Proof.
  unfold fft_pad. rewrite length_firstn, length_app, repeat_length. lia.
Qed.

Lemma py_slice_length {A : Type} (a b : nat) (l : list A) :
  (a <= b)%nat -> (b <= length l)%nat ->
  py_slice (Z.of_nat a) (Z.of_nat b) l = firstn (b - a) (skipn a l).
Proof.
  intros Hab Hb. unfold py_slice, slice_bound.
  replace (Z.of_nat a <? 0)%Z with false by (symmetry; apply Z.ltb_ge; lia).
  replace (Z.of_nat b <? 0)%Z with false by (symmetry; apply Z.ltb_ge; lia).
  rewrite !Nat2Z.id. now rewrite !Nat.min_l by lia.
Qed.

Lemma py_slice_all {A : Type} (l : list A) :
  py_slice 0 (Z.of_nat (length l)) l = l.
Proof.
  change 0%Z with (Z.of_nat 0).
  rewrite (@py_slice_length A 0 (length l) l) by lia.
  simpl. rewrite Nat.sub_0_r. apply firstn_all.
Qed.

Lemma length_every_other {A : Type} (l : list A) :
  length (every_other l) = ((length l + 1) / 2)%nat.
Proof.
  enough (H : length (every_other l) = ((length l + 1) / 2)%nat
              /\ forall a, length (every_other (a :: l)) = ((length l + 2) / 2)%nat)
    by apply H.
  induction l as [|b l [IH1 IH2]].
  - simpl; split; auto.
  - split.
    + rewrite IH2. simpl length. f_equal; lia.
    + intros a. change (every_other (a :: b :: l)) with (a :: every_other l).
      simpl length. rewrite IH1.
      replace (S (length l) + 2)%nat with (length l + 1 + 1 * 2)%nat by lia.
      rewrite Nat.div_add by lia. lia.
Qed.

(** ** Index arithmetic *)

Lemma arange_Forall (P : Z -> Prop) (start stop step : Z) :
  (forall i, 0 <= i < (stop - start + step - 1) / step -> P (start + step * i))%Z ->
  Forall P (arange start stop step).
Proof.
  intros H. unfold arange. apply Forall_map. apply Forall_forall.
  intros k Hk. apply in_seq in Hk. apply H. lia.
Qed.

Lemma div_exact (q d : Z) (e : Z) : (0 < d)%Z -> e = (q * d)%Z -> (e / d = q)%Z.
Proof. intros Hd ->. now apply Z.div_mul; lia. Qed.

Lemma div_exact_rem (q d r e : Z) :
  (0 <= r < d)%Z -> e = (q * d + r)%Z -> (e / d = q)%Z.
Proof.
  intros Hr ->. rewrite Z.mul_comm. symmetry.
  apply (Z.div_unique_pos _ _ q r); lia.
Qed.

Lemma mod4_split (r : nat) : (r mod 4 = 0)%nat -> exists k, r = (4 * k)%nat.
Proof. intros H. exists (r / 4)%nat. pose proof (Nat.div_mod_eq r 4). lia. Qed.

Lemma mod2_split (m : nat) : (m mod 2 = 0)%nat -> exists j, m = (2 * j)%nat.
Proof. intros H. exists (m / 2)%nat. pose proof (Nat.div_mod_eq m 2). lia. Qed.

Lemma shift_bounds (d lo hi : Z) (t : list Z) :
  Forall (fun k => lo <= k < hi)%Z t ->
  Forall (fun k => lo + d <= k < hi + d)%Z (shift d t).
Proof.
  intros H. unfold shift. apply Forall_map.
  eapply Forall_impl; [|exact H]. intros k Hk. cbv beta in Hk. lia.
Qed.

Lemma length_shift (d : Z) (t : list Z) : length (shift d t) = length t.
Proof. apply length_map. Qed.

Lemma Forall_weaken_bounds (lo hi lo' hi' : Z) (t : list Z) :
  (lo' <= lo)%Z -> (hi <= hi')%Z ->
  Forall (fun k => lo <= k < hi)%Z t -> Forall (fun k => lo' <= k < hi')%Z t.
Proof.
  intros H1 H2 H. eapply Forall_impl; [|exact H]. intros k Hk. cbv beta in Hk. lia.
Qed.

Lemma norm_index_in_range (n : nat) (i : Z) :
  (0 <= i < Z.of_nat n)%Z -> norm_index n i = Ok (Z.to_nat i).
Proof.
  intros Hi. unfold norm_index.
  replace ((0 <=? i)%Z && (i <? Z.of_nat n)%Z) with true; auto.
  symmetry; apply andb_true_iff; split; [apply Z.leb_le|apply Z.ltb_lt]; lia.
Qed.

(** ** Results, continued *)

Lemma mapM_combine_Ok {A B : Type} (f : A -> A -> result B) (P : A -> Prop) (Q : B -> Prop)
    (l1 l2 : list A) :
  length l1 = length l2 -> Forall P l1 -> Forall P l2 ->
  (forall a b, P a -> P b -> exists y, f a b = Ok y /\ Q y) ->
  exists l', mapM (fun p => f (fst p) (snd p)) (combine l1 l2) = Ok l'
             /\ length l' = length l1 /\ Forall Q l'.
Proof.
  intros Hlen H1 H2 Hf. revert l2 Hlen H2.
  induction H1 as [|a l1 Ha _ IH]; intros [|b l2] Hlen H2; simpl in *; try discriminate.
  - exists []. auto.
  - inversion H2 as [|? ? Hb H2']; subst.
    destruct (Hf a b Ha Hb) as (y & Hy & HQ).
    destruct (IH l2 ltac:(lia) H2') as (l' & Hl' & Hlen' & HQ').
    exists (y :: l'). rewrite Hy, Hl'. simpl. auto.
Qed.

Lemma mapM_id {A : Type} (f : A -> result A) (l : list A) :
  Forall (fun a => f a = Ok a) l -> mapM f l = Ok l.
Proof.
  induction 1 as [|a l Ha _ IH]; simpl; auto. now rewrite Ha, IH.
Qed.

Lemma mapM_map {A B : Type} (f : A -> result B) (g : A -> B) (l : list A) :
  Forall (fun a => f a = Ok (g a)) l -> mapM f l = Ok (map g l).
Proof.
  induction 1 as [|a l Ha _ IH]; simpl; auto. now rewrite Ha, IH.
Qed.

Lemma bcast_same {A : Type} (n : nat) (l : list A) :
  length l = n -> bcast n l = Ok l.
Proof. intros H. unfold bcast. now rewrite (proj2 (Nat.eqb_eq _ _) H). Qed.

Section RowInvariants.

Context {F : Type} {SF : Scalar F}.

Local Abbreviation matrix := (@matrix F).

(** ** Filters as columns *)

(** [as_column_vector] of a one-dimensional [h]: [len(h)] rows of one
    value each. *)
Lemma as_column_vector_column (h : list F) :
  as_column_vector h = map (fun a => [a]) h.
Proof.
  unfold as_column_vector, atleast_2d, transpose, ncols. simpl.
  rewrite <- (map_nth_seq s0 h) at 2. now rewrite map_map.
Qed.

Lemma concat_as_column_vector (h : list F) : concat (as_column_vector h) = h.
Proof. rewrite as_column_vector_column. apply concat_singletons. Qed.

Lemma nrows_as_column_vector (h : list F) : nrows (as_column_vector h) = length h.
Proof. rewrite as_column_vector_column. unfold nrows. apply length_map. Qed.

Lemma length_polyphase (h : list F) (start : nat) :
  (length h mod 2 = 0)%nat -> (start <= 1)%nat ->
  length (concat (as_column_vector (slice_step2 start (length h) h)))
  = (length h / 2)%nat.
Proof.
  intros Heven Hs. rewrite concat_as_column_vector. unfold slice_step2.
  rewrite firstn_all, length_every_other, length_skipn.
  pose proof (Nat.div_mod_eq (length h) 2) as Hd. rewrite Heven in Hd.
  destruct start as [|[|start]]; try lia.
  - rewrite Nat.sub_0_r. rewrite Hd at 1.
    rewrite Nat.add_0_r, Nat.mul_comm, Nat.div_add_l by lia. simpl. lia.
  - destruct (length h / 2)%nat as [|q] eqn:Eq.
    + rewrite Hd. simpl. reflexivity.
    + replace (length h - 1 + 1)%nat with (S q * 2)%nat by lia.
      now rewrite Nat.div_mul.
Qed.

(** ** Shapes *)

Lemma has_shape_zeros (r c : nat) : has_shape (zeros r c) r c.
Proof.
  unfold zeros; split.
  - apply repeat_length.
  - apply Forall_repeat. apply repeat_length.
Qed.

Lemma has_shape_transpose (X : matrix) (r c : nat) :
  has_shape X r c -> (1 <= r)%nat -> has_shape (transpose X) c r.
Proof.
  intros [Hlen Hrows] Hr. unfold transpose, ncols.
  destruct X as [|row X]; simpl in Hlen; [lia|].
  inversion Hrows as [|? ? Hrow _]; subst. simpl hd. split.
  - now rewrite length_map, length_seq.
  - apply Forall_map. apply Forall_forall. intros j _. now rewrite length_map.
Qed.

(** ** The filters keep a row invariant *)

Variable c : nat.
Variable P : list F -> Prop.
Hypothesis HP : row_invariant c P.

Lemma rows_in_ncols (X : matrix) (r : nat) :
  rows_in P X r -> (1 <= r)%nat -> ncols X = c.
Proof.
  intros [Hr Hc] H1. unfold ncols. destruct X as [|row X]; simpl in *; [lia|].
  inversion Hc; subst. now apply (inv_length HP).
Qed.

Lemma rows_in_nrows (X : matrix) (r : nat) : rows_in P X r -> nrows X = r.
Proof. now intros [Hr _]. Qed.

Lemma rows_in_zeros (r : nat) : rows_in P (zeros r c) r.
Proof.
  unfold zeros; split; [apply repeat_length|].
  apply Forall_repeat. apply (inv_zero HP).
Qed.

Lemma lincomb_inv (h : list F) (rows : list (list F)) :
  Forall P rows -> P (lincomb c h rows).
Proof.
  intros Hrows. revert h. induction Hrows as [|row rows Hrow _ IH]; intros [|a h]; simpl;
    try apply (inv_zero HP).
  apply (inv_add HP); auto. now apply (inv_scale HP).
Qed.

Lemma convolve2d_valid_rows (X H : matrix) (r : nat) :
  rows_in P X r ->
  (1 <= length (concat H))%nat -> (length (concat H) <= r)%nat -> (1 <= c)%nat ->
  exists Y, convolve2d_valid X H = Ok Y
            /\ rows_in P Y (r - length (concat H) + 1).
Proof.
  intros HX Hm1 Hmr Hc. unfold convolve2d_valid.
  assert (Hr : (1 <= r)%nat) by lia.
  rewrite (rows_in_ncols HX Hr), (rows_in_nrows HX).
  replace ((1 <=? length (concat H))%nat && (length (concat H) <=? r)%nat && (1 <=? c)%nat)
    with true
    by (symmetry; rewrite !andb_true_iff; repeat split; apply Nat.leb_le; lia).
  eexists; split; [reflexivity|]. split.
  - now rewrite length_map, length_seq.
  - apply Forall_map. apply Forall_forall. intros i _.
    apply lincomb_inv. apply Forall_rev. apply Forall_firstn, Forall_skipn.
    apply HX.
Qed.

Lemma circular_convolve_rows (n : nat) (X : matrix) (h : list F) (r : nat) :
  rows_in P X r -> (1 <= r)%nat -> rows_in P (circular_convolve n X h) n.
Proof.
  intros HX Hr. unfold circular_convolve. rewrite (rows_in_ncols HX Hr). split.
  - now rewrite length_map, length_seq.
  - apply Forall_map. apply Forall_forall. intros i _.
    apply lincomb_inv. apply Forall_map. apply Forall_forall. intros k _.
    assert (Hp : Forall P (fft_pad (repeat s0 c) n X)).
    { unfold fft_pad. apply Forall_firstn. apply Forall_app. split; [apply HX|].
      apply Forall_repeat. apply (inv_zero HP). }
    destruct (nth_in_or_default ((i + n - k) mod n) (fft_pad (repeat s0 c) n X) (repeat s0 c))
      as [Hin|Hd].
    + rewrite Forall_forall in Hp. now apply Hp.
    + rewrite Hd. apply (inv_zero HP).
Qed.

Lemma centered_rows (arr : matrix) (n m : nat) :
  rows_in P arr (n + 2 * m) -> (1 <= n + 2 * m)%nat ->
  rows_in P (_centered arr (n, c)) n.
Proof.
  intros Harr H1. unfold _centered, shape.
  rewrite (rows_in_ncols Harr H1), (rows_in_nrows Harr). cbn [fst snd].
  assert (E0 : ((Z.of_nat (n + 2 * m) - Z.of_nat n) / 2 = Z.of_nat m)%Z).
  { replace (Z.of_nat (n + 2 * m) - Z.of_nat n)%Z with (Z.of_nat m * 2)%Z by lia.
    now rewrite Z.div_mul. }
  rewrite E0, Z.sub_diag. change (0 / 2)%Z with 0%Z. rewrite Z.add_0_l.
  rewrite <- Nat2Z.inj_add.
  destruct Harr as [Hlen Hrows].
  rewrite py_slice_length by lia.
  replace (m + n - m)%nat with n by lia. split.
  - rewrite length_map, length_firstn, length_skipn. lia.
  - apply Forall_map. apply Forall_firstn, Forall_skipn.
    eapply Forall_impl; [|exact Hrows]. intros row Hrow.
    rewrite <- (inv_length HP _ Hrow) at 1. now rewrite py_slice_all.
Qed.

(** A kernel of [m >= 1] taps on [r >= m] rows leaves [r - m + 1] rows,
    on either path. *)
Lemma column_convolve_rows (X h : matrix) (r : nat) :
  rows_in P X r ->
  (1 <= length (concat h))%nat -> (length (concat h) <= r)%nat -> (1 <= c)%nat ->
  exists Y, _column_convolve X h = Ok Y
            /\ rows_in P Y (r - length (concat h) + 1).
Proof.
  intros HX Hm1 Hmr Hc. unfold _column_convolve.
  set (m := length (concat h)) in *.
  rewrite (rows_in_nrows HX).
  assert (Hr : (1 <= r)%nat) by lia.
  destruct (Z.of_nat r + Z.of_nat m - 1 <? 32)%Z eqn:E.
  - destruct (@convolve2d_valid_rows X (as_column_vector (concat h)) r)
      as (Y & HY & HYshape); rewrite ?concat_as_column_vector; auto.
    exists Y. rewrite concat_as_column_vector in HYshape. auto.
  - eexists; split; [reflexivity|].
    apply Z.ltb_ge in E.
    rewrite (rows_in_ncols HX Hr).
    replace (Z.abs_nat (Z.of_nat r - Z.of_nat m) + 1)%nat with (r - m + 1)%nat by lia.
    apply centered_rows with (m := (m - 1)%nat); [|lia].
    set (full := (Z.of_nat r + Z.of_nat m - 1)%Z) in *.
    assert (Hf : (full <= 2 ^ Z.log2_up full)%Z)
      by (apply Z.log2_up_spec; lia).
    pose proof (circular_convolve_rows (Z.to_nat (2 ^ Z.log2_up full)) (concat h) HX Hr)
      as [Hlen Hrows].
    split.
    + rewrite length_firstn, Hlen. lia.
    + now apply Forall_firstn.
Qed.

(** ** colfilter *)

Lemma colfilter_rows (X : matrix) (h : list F) (r : nat) :
  rows_in P X r -> (1 <= r)%nat -> (1 <= c)%nat -> (1 <= length h)%nat ->
  exists Y, colfilter X h = Ok Y
            /\ rows_in P Y (if Nat.odd (length h) then r else r + 1).
Proof.
  intros HX Hr Hc Hm. unfold colfilter, shape.
  rewrite (rows_in_nrows HX), nrows_as_column_vector.
  set (m := length h) in *. set (m2 := (m / 2)%nat).
  destruct (reflect_idx_rows (arange (- Z.of_nat m2) (Z.of_nat r + Z.of_nat m2) 1) Hr)
    as (xe & Hxe & Hlen & Hrange).
  rewrite Hxe. cbn [bind].
  rewrite length_arange_1 in Hlen.
  destruct HX as [HXlen HXrows].
  destruct (@take_Ok _ P X xe) as (Xe & HXe & HXelen & HXerows);
    [now rewrite HXlen|exact HXrows|].
  rewrite HXe. cbn [bind].
  assert (Hm2 : (m = 2 * m2 + (if Nat.odd m then 1 else 0))%nat).
  { unfold m2. rewrite (Nat.div_mod_eq m 2) at 1.
    rewrite <- Nat.bit0_mod, Nat.bit0_odd. destruct (Nat.odd m); simpl; lia. }
  destruct (@column_convolve_rows Xe (as_column_vector h) (r + 2 * m2))
    as (Y & HY & HYshape).
  - split; auto. lia.
  - rewrite concat_as_column_vector. exact Hm.
  - rewrite concat_as_column_vector. fold m. destruct (Nat.odd m); lia.
  - exact Hc.
  - exists Y. split; auto.
    rewrite concat_as_column_vector in HYshape. fold m in HYshape.
    replace (if Nat.odd m then r else (r + 1)%nat) with (r + 2 * m2 - m + 1)%nat; auto.
    destruct (Nat.odd m); lia.
Qed.

(** ** Gathering rows and filtering them *)

Lemma filter_rows_rows (X : matrix) (xe t : list Z) (h : matrix) (r : nat) :
  rows_in P X r -> (1 <= c)%nat ->
  Forall (fun i => 0 <= i < Z.of_nat r)%Z xe ->
  Forall (fun k => 0 <= k < Z.of_nat (length xe))%Z t ->
  (1 <= length (concat h))%nat -> (length (concat h) <= length t)%nat ->
  exists Y, filter_rows X xe t h = Ok Y
            /\ rows_in P Y (length t - length (concat h) + 1).
Proof.
  intros [HXlen HXrows] Hc Hxe Ht Hm1 Hm2. unfold filter_rows.
  destruct (@take_Ok _ (fun i => 0 <= i < Z.of_nat r)%Z xe t Ht Hxe) as (i & Hi & Hilen & Hirange).
  rewrite Hi. cbn [bind].
  destruct (@take_Ok _ P X i) as (Xi & HXi & HXilen & HXirows);
    [now rewrite HXlen|exact HXrows|].
  rewrite HXi. cbn [bind].
  rewrite <- Hilen, <- HXilen.
  apply column_convolve_rows; auto; try lia.
  split; auto.
Qed.

(** ** Sums and assignments *)

Lemma bzip_sadd (u v : list F) :
  length u = length v -> bzip (fun a b => Ok (sadd a b)) u v = Ok (vadd u v).
Proof.
  intros Hlen. unfold bzip. rewrite (proj2 (Nat.eqb_eq _ _) Hlen).
  unfold vadd. revert v Hlen. induction u as [|a u IH]; intros [|b v] Hlen;
    simpl in *; try discriminate; auto.
  rewrite IH by lia. reflexivity.
Qed.

Lemma madd_rows (A B : matrix) (r : nat) :
  rows_in P A r -> rows_in P B r ->
  exists Y, madd A B = Ok Y /\ rows_in P Y r.
Proof.
  intros [HAlen HArows] [HBlen HBrows]. unfold madd, bzip at 1.
  replace (length A =? length B)%nat with true by (symmetry; apply Nat.eqb_eq; lia).
  destruct (@mapM_combine_Ok (list F) (list F)
              (bzip (fun a b => Ok (sadd a b))) P P A B)
    as (Y & HY & HYlen & HYrows); auto; try lia.
  - intros u v Hu Hv. exists (vadd u v). split.
    + apply bzip_sadd. now rewrite (inv_length HP _ Hu), (inv_length HP _ Hv).
    + now apply (inv_add HP).
  - exists Y. split; auto. split; auto. lia.
Qed.

Lemma write_rows_rows (Y : matrix) (s : list nat) (V : matrix) (r : nat) :
  rows_in P Y r -> Forall P V -> rows_in P (write_rows Y s V) r.
Proof.
  intros HY HV. revert Y s HY.
  induction HV as [|v V Hv _ IH]; intros Y [|k s] HY; simpl; auto.
  apply IH. destruct HY as [Hlen Hrows]. split.
  - now rewrite length_list_set.
  - now apply Forall_list_set.
Qed.

(** [Y[s,:] = V] for in-range rows [s] and a [V] of the matching shape. *)
Lemma set_rows_eq (Y : matrix) (s : list Z) (V : matrix) (r : nat) :
  rows_in P Y r -> (1 <= r)%nat ->
  Forall (fun k => 0 <= k < Z.of_nat r)%Z s ->
  rows_in P V (length s) ->
  set_rows Y s V = Ok (write_rows Y (map Z.to_nat s) V).
Proof.
  intros HY Hr Hs [HVlen HVrows]. unfold set_rows.
  rewrite (rows_in_nrows HY), (rows_in_ncols HY Hr).
  rewrite (@mapM_map _ _ (norm_index r) Z.to_nat s).
  2:{ eapply Forall_impl; [|exact Hs]. intros k Hk. now apply norm_index_in_range. }
  cbn [bind]. rewrite mapM_id.
  2:{ eapply Forall_impl; [|exact HVrows]. intros row Hrow.
      apply bcast_same. now apply (inv_length HP). }
  cbn [bind]. now rewrite bcast_same.
Qed.

Lemma set_rows_rows (Y : matrix) (s : list Z) (V : matrix) (r : nat) :
  rows_in P Y r -> (1 <= r)%nat ->
  Forall (fun k => 0 <= k < Z.of_nat r)%Z s ->
  rows_in P V (length s) ->
  exists Y', set_rows Y s V = Ok Y' /\ rows_in P Y' r.
Proof.
  intros HY Hr Hs HV. rewrite (set_rows_eq HY Hr Hs HV).
  eexists; split; [reflexivity|]. apply write_rows_rows; auto. apply HV.
Qed.

(** ** coldfilt halves the number of rows *)

Lemma coldfilt_rows (X : matrix) (ha hb : list F) (r : nat) :
  rows_in P X r -> (1 <= r)%nat -> (1 <= c)%nat ->
  (r mod 4 = 0)%nat -> length ha = length hb ->
  (length ha mod 2 = 0)%nat -> (1 <= length ha)%nat ->
  exists Y, coldfilt X ha hb = Ok Y /\ rows_in P Y (r / 2).
Proof.
  intros HX Hr Hc Hr4 Hab Heven Hm. unfold coldfilt, shape.
  rewrite (rows_in_nrows HX), (rows_in_ncols HX Hr).
  rewrite Hr4, <- Hab, Heven, !Nat.eqb_refl. simpl negb. cbv iota.
  pose proof (length_polyphase ha Heven (Nat.le_0_l 1)) as Lao.
  pose proof (length_polyphase ha Heven (Nat.le_refl 1)) as Lae.
  assert (Hevenb : (length hb mod 2 = 0)%nat) by now rewrite <- Hab.
  pose proof (length_polyphase hb Hevenb (Nat.le_0_l 1)) as Lbo.
  pose proof (length_polyphase hb Hevenb (Nat.le_refl 1)) as Lbe.
  rewrite <- Hab in Lbo, Lbe.
  destruct (mod4_split r Hr4) as (k & Ek). destruct (mod2_split _ Heven) as (j & Ej).
  set (m := length ha) in *.
  assert (Hm2 : (m / 2 = j)%nat) by (rewrite Ej, Nat.mul_comm; apply Nat.div_mul; lia).
  assert (Hr2 : (r / 2 = 2 * k)%nat).
  { rewrite Ek. replace (4 * k)%nat with (2 * k * 2)%nat by lia. apply Nat.div_mul; lia. }
  rewrite Hm2 in Lao, Lae, Lbo, Lbe. rewrite Hr2.
  destruct (reflect_idx_rows (arange (- Z.of_nat m) (Z.of_nat r + Z.of_nat m) 1) Hr)
    as (xe & Hxe & Hxelen & Hxerange).
  rewrite Hxe. cbn [bind]. rewrite length_arange_1 in Hxelen.
  set (t := arange 5 (Z.of_nat r + 2 * Z.of_nat m - 2) 4).
  assert (Htlen : length t = (k + j - 1)%nat).
  { unfold t. rewrite length_arange.
    rewrite (@div_exact (Z.of_nat k + Z.of_nat j - 1) 4) by lia. lia. }
  assert (Ht : Forall (fun i => 5 <= i < Z.of_nat r + 2 * Z.of_nat m - 2)%Z t)
    by (apply arange_bounds; lia).
  assert (Hs : Forall (fun i => 0 <= i /\ i + 1 < Z.of_nat (2 * k))%Z
                 (arange 0 (Z.of_nat (2 * k)) 2)).
  { apply arange_Forall. intros i Hi.
    rewrite (@div_exact_rem (Z.of_nat k) 2 1) in Hi by lia. lia. }
  assert (Hslen : length (arange 0 (Z.of_nat (2 * k)) 2) = k).
  { rewrite length_arange. rewrite (@div_exact_rem (Z.of_nat k) 2 1) by lia. lia. }
  assert (Hfilt : forall d (h : matrix), (-3 <= d <= 0)%Z -> length (concat h) = j ->
            exists Y, filter_rows X xe (shift d t) h = Ok Y /\ rows_in P Y k).
  { intros d h Hd Hh.
    destruct (@filter_rows_rows X xe (shift d t) h r) as (Y & HY & HYs); auto.
    - apply shift_bounds with (d := d) in Ht.
      eapply Forall_weaken_bounds; [| |exact Ht]; lia.
    - lia.
    - rewrite length_shift. lia.
    - exists Y. split; auto. rewrite length_shift, Htlen, Hh in HYs.
      replace (k + j - 1 - j + 1)%nat with k in HYs by lia. exact HYs. }
  assert (Hfilt0 : forall h : matrix, length (concat h) = j ->
            exists Y, filter_rows X xe t h = Ok Y /\ rows_in P Y k).
  { intros h Hh. destruct (Hfilt 0%Z h ltac:(lia) Hh) as (Y & HY & HYs).
    exists Y. split; auto. rewrite <- HY. f_equal. unfold shift.
    rewrite <- (map_id t) at 1. apply map_ext. intros; lia. }
  assert (Hset : forall (Y : matrix) s (V : matrix), rows_in P Y (2 * k) -> rows_in P V k ->
            length s = k -> Forall (fun i => 0 <= i < Z.of_nat (2 * k))%Z s ->
            exists Y', set_rows Y s V = Ok Y' /\ rows_in P Y' (2 * k)).
  { intros Y s V HY HV Hlen Hrange.
    apply set_rows_rows; auto; try lia. now rewrite Hlen. }
  assert (Hs0 : Forall (fun i => 0 <= i < Z.of_nat (2 * k))%Z (arange 0 (Z.of_nat (2 * k)) 2)).
  { eapply Forall_impl; [|exact Hs]. intros i Hi. cbv beta in Hi. lia. }
  assert (Hs1 : Forall (fun i => 0 <= i < Z.of_nat (2 * k))%Z
                  (shift 1 (arange 0 (Z.of_nat (2 * k)) 2))).
  { unfold shift. apply Forall_map.
    eapply Forall_impl; [|exact Hs]. intros i Hi. cbv beta in Hi. lia. }
  assert (Hslen1 : length (shift 1 (arange 0 (Z.of_nat (2 * k)) 2)) = k)
    by (now rewrite length_shift).
  destruct (Hfilt (-1)%Z _ ltac:(lia) Lao) as (a1 & Ha1 & Sa1).
  destruct (Hfilt (-3)%Z _ ltac:(lia) Lae) as (a2 & Ha2 & Sa2).
  destruct (madd_rows Sa1 Sa2) as (ya & Hya & Sya).
  destruct (Hfilt0 _ Lbo) as (b1 & Hb1 & Sb1).
  destruct (Hfilt (-2)%Z _ ltac:(lia) Lbe) as (b2 & Hb2 & Sb2).
  destruct (madd_rows Sb1 Sb2) as (yb & Hyb & Syb).
  destruct (spos (vsum (vmul ha hb))).
  - rewrite Ha1; cbn [bind]. rewrite Ha2; cbn [bind]. rewrite Hya; cbn [bind].
    destruct (Hset (zeros (2 * k) c) _ ya (rows_in_zeros _) Sya Hslen Hs0)
      as (Y1 & HY1 & SY1).
    rewrite HY1; cbn [bind].
    rewrite Hb1; cbn [bind]. rewrite Hb2; cbn [bind]. rewrite Hyb; cbn [bind].
    destruct (Hset Y1 _ yb SY1 Syb Hslen1 Hs1) as (Y2 & HY2 & SY2).
    rewrite HY2; cbn [bind]. eauto.
  - rewrite Ha1; cbn [bind]. rewrite Ha2; cbn [bind]. rewrite Hya; cbn [bind].
    destruct (Hset (zeros (2 * k) c) _ ya (rows_in_zeros _) Sya Hslen1 Hs1)
      as (Y1 & HY1 & SY1).
    rewrite HY1; cbn [bind].
    rewrite Hb1; cbn [bind]. rewrite Hb2; cbn [bind]. rewrite Hyb; cbn [bind].
    destruct (Hset Y1 _ yb SY1 Syb Hslen Hs0) as (Y2 & HY2 & SY2).
    rewrite HY2; cbn [bind]. eauto.
Qed.

(** ** colifilt doubles the number of rows *)

Lemma shift_within (d lo hi lo' hi' : Z) (t : list Z) :
  Forall (fun k => lo <= k < hi)%Z t -> (lo' <= lo + d)%Z -> (hi + d <= hi')%Z ->
  Forall (fun k => lo' <= k < hi')%Z (shift d t).
Proof.
  intros H H1 H2. eapply Forall_weaken_bounds; [| |apply shift_bounds; exact H]; lia.
Qed.

Lemma colifilt_convolve_rows (X : matrix) (ha hb : list F) (Y0 : matrix) (r : nat) :
  rows_in P X r -> (1 <= r)%nat -> (1 <= c)%nat ->
  (r mod 2 = 0)%nat -> length ha = length hb ->
  (length ha mod 2 = 0)%nat -> (1 <= length ha)%nat ->
  rows_in P Y0 (r * 2) ->
  exists Y, colifilt_convolve X ha hb Y0 = Ok Y /\ rows_in P Y (r * 2).
Proof.
  intros HX Hr Hc Hr2 Hab Heven Hm HY0. unfold colifilt_convolve, shape.
  rewrite (rows_in_nrows HX).
  pose proof (length_polyphase ha Heven (Nat.le_0_l 1)) as Lao.
  pose proof (length_polyphase ha Heven (Nat.le_refl 1)) as Lae.
  assert (Hevenb : (length hb mod 2 = 0)%nat) by now rewrite <- Hab.
  pose proof (length_polyphase hb Hevenb (Nat.le_0_l 1)) as Lbo.
  pose proof (length_polyphase hb Hevenb (Nat.le_refl 1)) as Lbe.
  rewrite <- Hab in Lbo, Lbe.
  destruct (mod2_split r Hr2) as (q & Eq). destruct (mod2_split _ Heven) as (j & Ej).
  set (m := length ha) in *.
  assert (Hm2 : (m / 2 = j)%nat) by (rewrite Ej, Nat.mul_comm; apply Nat.div_mul; lia).
  rewrite Hm2 in *.
  destruct (reflect_idx_rows (arange (- Z.of_nat j) (Z.of_nat r + Z.of_nat j) 1) Hr)
    as (xe & Hxe & Hxelen & Hxerange).
  rewrite Hxe. rewrite length_arange_1 in Hxelen.
  set (s := arange 0 (Z.of_nat r * 2) 4).
  assert (Hs : Forall (fun i => 0 <= i /\ i + 3 < Z.of_nat (r * 2))%Z s).
  { apply arange_Forall. intros i Hi.
    rewrite (@div_exact_rem (Z.of_nat q) 4 3) in Hi by lia. lia. }
  assert (Hslen : length s = q).
  { unfold s. rewrite length_arange. rewrite (@div_exact_rem (Z.of_nat q) 4 3) by lia. lia. }
  assert (Hfilt : forall tt (h : matrix),
            Forall (fun i => 0 <= i < Z.of_nat (length xe))%Z tt ->
            length tt = (q + j - 1)%nat -> length (concat h) = j ->
            exists Y, filter_rows X xe tt h = Ok Y /\ rows_in P Y q).
  { intros tt h Htt Hlen Hh.
    destruct (@filter_rows_rows X xe tt h r) as (Y & HY & HYs); auto; try lia.
    exists Y. split; auto. rewrite Hlen, Hh in HYs.
    replace (q + j - 1 - j + 1)%nat with q in HYs by lia. exact HYs. }
  assert (Hset0 : forall (Y V : matrix), rows_in P Y (r * 2) -> rows_in P V q ->
            exists Y', set_rows Y s V = Ok Y' /\ rows_in P Y' (r * 2)).
  { intros Y V HY HV. apply set_rows_rows; auto; try lia.
    - eapply Forall_impl; [|exact Hs]. intros i Hi. cbv beta in Hi. lia.
    - now rewrite Hslen. }
  assert (Hset : forall d (Y V : matrix), (1 <= d <= 3)%Z ->
            rows_in P Y (r * 2) -> rows_in P V q ->
            exists Y', set_rows Y (shift d s) V = Ok Y' /\ rows_in P Y' (r * 2)).
  { intros d Y V Hd HY HV. apply set_rows_rows; auto; try lia.
    - unfold shift. apply Forall_map.
      eapply Forall_impl; [|exact Hs]. intros i Hi. cbv beta in Hi. lia.
    - now rewrite length_shift, Hslen. }
  assert (Hchain : forall (t0 t1 t2 t3 : list Z) (h0 h1 h2 h3 : matrix),
            (forall tt, In tt [t0; t1; t2; t3] ->
               Forall (fun i => 0 <= i < Z.of_nat (length xe))%Z tt
               /\ length tt = (q + j - 1)%nat) ->
            (forall h, In h [h0; h1; h2; h3] -> length (concat h) = j) ->
            exists Y,
              (let* y0 := filter_rows X xe t0 h0 in
               let* Y := set_rows Y0 s y0 in
               let* y1 := filter_rows X xe t1 h1 in
               let* Y := set_rows Y (shift 1 s) y1 in
               let* y2 := filter_rows X xe t2 h2 in
               let* Y := set_rows Y (shift 2 s) y2 in
               let* y3 := filter_rows X xe t3 h3 in
               let* Y := set_rows Y (shift 3 s) y3 in
               Ok Y) = Ok Y /\ rows_in P Y (r * 2)).
  { intros t0 t1 t2 t3 h0 h1 h2 h3 Ht Hh.
    destruct (Hfilt t0 h0) as (y0 & E0 & S0);
      [apply Ht; simpl; auto | apply Ht; simpl; auto | apply Hh; simpl; auto |].
    destruct (Hset0 Y0 y0 HY0 S0) as (Y1 & F0 & R0).
    destruct (Hfilt t1 h1) as (y1 & E1 & S1);
      [apply Ht; simpl; auto | apply Ht; simpl; auto | apply Hh; simpl; auto |].
    destruct (Hset 1%Z Y1 y1 ltac:(lia) R0 S1) as (Y2 & F1 & R1).
    destruct (Hfilt t2 h2) as (y2 & E2 & S2);
      [apply Ht; simpl; auto | apply Ht; simpl; auto | apply Hh; simpl; auto |].
    destruct (Hset 2%Z Y2 y2 ltac:(lia) R1 S2) as (Y3 & F2 & R2).
    destruct (Hfilt t3 h3) as (y3 & E3 & S3);
      [apply Ht; simpl; auto 6 | apply Ht; simpl; auto 6 | apply Hh; simpl; auto 6 |].
    destruct (Hset 3%Z Y3 y3 ltac:(lia) R2 S3) as (Y4 & F3 & R3).
    exists Y4. rewrite E0; cbn [bind]. rewrite F0; cbn [bind].
    rewrite E1; cbn [bind]. rewrite F1; cbn [bind].
    rewrite E2; cbn [bind]. rewrite F2; cbn [bind].
    rewrite E3; cbn [bind]. rewrite F3; cbn [bind]. auto. }
  assert (Hh : forall h : matrix,
            In h [as_column_vector (slice_step2 0 m ha); as_column_vector (slice_step2 1 m ha);
                  as_column_vector (slice_step2 0 m hb); as_column_vector (slice_step2 1 m hb)] ->
            length (concat h) = j).
  { intros h [<-|[<-|[<-|[<-|[]]]]]; assumption. }
  destruct (j mod 2 =? 0)%nat; cbn [bind].
  - set (t := arange 3 (Z.of_nat r + Z.of_nat m) 2).
    assert (Htlen : length t = (q + j - 1)%nat).
    { unfold t. rewrite length_arange.
      rewrite (@div_exact (Z.of_nat q + Z.of_nat j - 1) 2) by lia. lia. }
    assert (Ht : Forall (fun i => 3 <= i < Z.of_nat r + Z.of_nat m)%Z t)
      by (apply arange_bounds; lia).
    assert (Htt : forall tt,
              In tt [t; shift (-1) t; shift (-2) t; shift (-2) (shift (-1) t)] ->
              Forall (fun i => 0 <= i < Z.of_nat (length xe))%Z tt
              /\ length tt = (q + j - 1)%nat).
    { intros tt [<-|[<-|[<-|[<-|[]]]]]; rewrite ?length_shift; split; auto.
      - eapply Forall_weaken_bounds; [| |exact Ht]; lia.
      - eapply shift_within; [exact Ht| |]; lia.
      - eapply shift_within; [exact Ht| |]; lia.
      - eapply shift_within; [eapply shift_within; [exact Ht|reflexivity|reflexivity]| |]; lia. }
    destruct (spos (vsum (vmul ha hb))); apply Hchain;
      try (intros tt Hin; apply Htt; simpl in *; tauto);
      try (intros h Hin; apply Hh; simpl in *; tauto).
  - set (t := arange 2 (Z.of_nat r + Z.of_nat m - 1) 2).
    assert (Htlen : length t = (q + j - 1)%nat).
    { unfold t. rewrite length_arange.
      rewrite (@div_exact (Z.of_nat q + Z.of_nat j - 1) 2) by lia. lia. }
    assert (Ht : Forall (fun i => 2 <= i < Z.of_nat r + Z.of_nat m - 1)%Z t)
      by (apply arange_bounds; lia).
    assert (Htt : forall tt, In tt [t; shift (-1) t] ->
              Forall (fun i => 0 <= i < Z.of_nat (length xe))%Z tt
              /\ length tt = (q + j - 1)%nat).
    { intros tt [<-|[<-|[]]]; rewrite ?length_shift; split; auto.
      - eapply Forall_weaken_bounds; [| |exact Ht]; lia.
      - eapply shift_within; [exact Ht| |]; lia. }
    destruct (spos (vsum (vmul ha hb))); apply Hchain;
      try (intros tt Hin; apply Htt; simpl in *; tauto);
      try (intros h Hin; apply Hh; simpl in *; tauto).
Qed.

(** The guards of [colifilt] pass on a well-formed call; what runs after
    them is the early return or the convolutions. *)
Lemma colifilt_guards (X : matrix) (ha hb : list F) (r : nat) :
  rows_in P X r -> (1 <= r)%nat ->
  (r mod 2 = 0)%nat -> length ha = length hb -> (length ha mod 2 = 0)%nat ->
  colifilt X ha hb
  = if negb (np_any (fst (nonzero X))) then Ok (zeros (r * 2) c)
    else colifilt_convolve X ha hb (zeros (r * 2) c).
Proof.
  intros HX Hr Hr2 Hab Heven. unfold colifilt, shape.
  rewrite (rows_in_nrows HX), (rows_in_ncols HX Hr).
  rewrite Hr2, <- Hab, Heven, !Nat.eqb_refl. reflexivity.
Qed.

Lemma colifilt_rows (X : matrix) (ha hb : list F) (r : nat) :
  rows_in P X r -> (1 <= r)%nat -> (1 <= c)%nat ->
  (r mod 2 = 0)%nat -> length ha = length hb ->
  (length ha mod 2 = 0)%nat -> (1 <= length ha)%nat ->
  exists Y, colifilt X ha hb = Ok Y /\ rows_in P Y (r * 2).
Proof.
  intros HX Hr Hc Hr2 Hab Heven Hm.
  rewrite (colifilt_guards ha hb HX Hr Hr2 Hab Heven).
  destruct (negb (np_any (fst (nonzero X)))).
  - eexists; split; [reflexivity|]. apply rows_in_zeros.
  - apply colifilt_convolve_rows; auto. apply rows_in_zeros.
Qed.

End RowInvariants.

(** ** Two row invariants: the width of the rows, and being zero *)

Section Invariants.

Context {F : Type} {SF : Scalar F}.

Lemma width_invariant (c : nat) :
  row_invariant c (fun row : list F => length row = c).
Proof.
  constructor.
  - auto.
  - apply repeat_length.
  - intros u v Hu Hv. unfold vadd. rewrite length_zip_with. lia.
  - intros a u Hu. unfold vscale. now rewrite length_map.
Qed.

Lemma zero_invariant (c : nat) :
  zero_laws -> row_invariant c (fun row : list F => row = repeat s0 c).
Proof.
  intros [_ Hmul Hadd]. constructor.
  - intros row ->. apply repeat_length.
  - reflexivity.
  - intros u v -> ->. unfold vadd. induction c as [|c IH]; simpl; auto.
    now rewrite Hadd, IH.
  - intros a u ->. unfold vscale. induction c as [|c IH]; simpl; auto.
    now rewrite Hmul, IH.
Qed.

Lemma rows_in_zero (X : list (list F)) (r c : nat) :
  rows_in (fun row => row = repeat s0 c) X r <-> X = zeros r c.
Proof.
  unfold zeros. split.
  - intros [Hlen Hrows]. subst r.
    induction Hrows as [|row X Hrow _ IH]; simpl; auto. now rewrite Hrow, <- IH.
  - intros ->. split; [apply repeat_length|]. now apply Forall_repeat.
Qed.

Lemma nonzero_zeros (r c : nat) :
  zero_laws -> @nonzero F SF (zeros r c) = ([], []).
Proof.
  intros [Hz _ _]. unfold nonzero.
  assert (E : forall (l : list (nat * list F)),
             Forall (fun ir => snd ir = repeat s0 c) l ->
             concat (map (fun ir =>
                            map (fun jv : nat * F => (fst ir, fst jv))
                              (filter (fun jv => snonzero (snd jv))
                                 (combine (seq 0 (length (snd ir))) (snd ir)))) l) = []).
  { induction 1 as [|ir l Hir _ IH]; simpl; auto.
    rewrite IH, app_nil_r, Hir, repeat_length.
    generalize 0%nat. clear - Hz. induction c as [|c IHc]; intros n; simpl; auto.
    rewrite Hz. apply IHc. }
  rewrite E; auto.
  unfold zeros. generalize 0%nat. induction r as [|r IH]; intros n; simpl; auto.
Qed.

End Invariants.

Lemma zero_laws_R : @zero_laws R Scalar_R.
Proof.
  constructor; simpl.
  - destruct (Req_dec_T 0 0); congruence.
  - intros a. apply Rmult_0_r.
  - apply Rplus_0_l.
Qed.

Lemma zero_laws_Q : @zero_laws Q Scalar_Q.
Proof.
  constructor.
  - reflexivity.
  - intros a. change (Qred (a * 0) = Qred 0). apply Qred_complete. ring.
  - reflexivity.
Qed.

(** C4.  For an image [X] of [R >= 1] rows and [C >= 1] columns and a
    kernel [h] of [m >= 1] taps, [colfilter(X, h)] returns a matrix with
    the [R] rows of [X] when [m] is odd and with [R + 1] rows when [m] is
    even; it has the [C] columns of [X] in both cases. *)
Theorem colfilter_row_count {F : Type} {SF : Scalar F}
    (X : list (list F)) (h : list F) (R C : nat) :
  has_shape X R C -> (1 <= R)%nat -> (1 <= C)%nat -> (1 <= length h)%nat ->
  exists Y,
    colfilter X h = Ok Y
    /\ (Nat.odd (length h) = true -> has_shape Y R C)
    /\ (Nat.even (length h) = true -> has_shape Y (R + 1) C).
Proof.
  intros HX HR HC Hm.
  destruct (colfilter_rows (width_invariant C) h HX HR HC Hm) as (Y & HY & HS).
  exists Y. split; auto. split; intros Hpar.
  - now rewrite Hpar in HS.
  - rewrite <- Nat.negb_odd in Hpar. apply negb_true_iff in Hpar.
    now rewrite Hpar in HS.
Qed.

Lemma colfilter_row_count_witness :
  exists Y,
    colfilter [[1; 0]; [2; 0]; [3; 1]] [1; 1] = Ok Y
    /\ (Nat.odd 2 = true -> has_shape Y 3 2)
    /\ (Nat.even 2 = true -> has_shape Y (3 + 1) 2).
Proof.
  apply (@colfilter_row_count Q Scalar_Q [[1; 0]; [2; 0]; [3; 1]] [1; 1] 3 2).
  - split; [reflexivity | repeat constructor].
  - lia.
  - lia.
  - simpl; lia.
Defined.

(** C5.  For an image [X] of [R] rows, [R] a multiple of 4, and [C]
    columns, and a pair of filters [ha], [hb] of the same even length,
    [coldfilt(X, ha, hb)] returns a matrix of [R/2] rows and [C] columns;
    on that matrix, as on every matrix of [R/2] rows and [C] columns,
    [colifilt] with the same pair returns a matrix of [R] rows and [C]
    columns. *)
Theorem coldfilt_colifilt_shapes {F : Type} {SF : Scalar F}
    (X : list (list F)) (ha hb : list F) (R C : nat) :
  has_shape X R C -> (1 <= R)%nat -> (1 <= C)%nat ->
  (R mod 4 = 0)%nat ->
  length ha = length hb -> (length ha mod 2 = 0)%nat -> (1 <= length ha)%nat ->
  (exists Y, coldfilt X ha hb = Ok Y /\ has_shape Y (R / 2) C
             /\ exists Z, colifilt Y ha hb = Ok Z /\ has_shape Z R C)
  /\ (forall X' : list (list F), has_shape X' (R / 2) C ->
        exists Z, colifilt X' ha hb = Ok Z /\ has_shape Z R C).
Proof.
  intros HX HR HC HR4 Hab Heven Hm.
  destruct (mod4_split R HR4) as (k & Ek).
  assert (HR2 : (R / 2 = 2 * k)%nat).
  { rewrite Ek. replace (4 * k)%nat with (2 * k * 2)%nat by lia. apply Nat.div_mul; lia. }
  assert (Hback : forall X' : list (list F), has_shape X' (R / 2) C ->
            exists Z, colifilt X' ha hb = Ok Z /\ has_shape Z R C).
  { intros X' HX'.
    destruct (@colifilt_rows F SF C _ (width_invariant C) X' ha hb (R / 2))
      as (Z & HZ & SZ); auto.
    - lia.
    - rewrite HR2, Nat.mul_comm. apply Nat.Div0.mod_mul.
    - exists Z. split; auto.
      unfold has_shape. replace R with (R / 2 * 2)%nat at 1 by lia. exact SZ. }
  split; auto.
  destruct (@coldfilt_rows F SF C _ (width_invariant C) X ha hb R)
    as (Y & HY & SY); auto.
  exists Y. split; [exact HY|]. split; [exact SY|]. now apply Hback.
Qed.

Lemma coldfilt_colifilt_shapes_witness :
  (exists Y, coldfilt [[1]; [2]; [3]; [4]] [1; 2] [2; 1] = Ok Y /\ has_shape Y (4 / 2) 1
             /\ exists Z, colifilt Y [1; 2] [2; 1] = Ok Z /\ has_shape Z 4 1)
  /\ (forall X' : list (list Q), has_shape X' (4 / 2) 1 ->
        exists Z, colifilt X' [1; 2] [2; 1] = Ok Z /\ has_shape Z 4 1).
Proof.
  apply (@coldfilt_colifilt_shapes Q Scalar_Q [[1]; [2]; [3]; [4]] [1; 2] [2; 1] 4 1).
  - split; [reflexivity | repeat constructor].
  - lia.
  - lia.
  - reflexivity.
  - reflexivity.
  - reflexivity.
  - simpl; lia.
Defined.

(** C6.  On an image [X] of [R] rows and a pair of filters [ha], [hb],
    [coldfilt] raises [ValueError] exactly when [R] is not a multiple of 4,
    or the lengths of [ha] and [hb] differ, or that length is odd.  Each
    violation has a message of its own, checked in this order, and the
    error is the result of the call; when the three conditions hold the
    call returns a matrix. *)
Theorem coldfilt_value_errors {F : Type} {SF : Scalar F}
    (X : list (list F)) (ha hb : list F) (R C : nat) :
  has_shape X R C -> (1 <= R)%nat -> (1 <= C)%nat ->
  (1 <= length ha)%nat -> (1 <= length hb)%nat ->
  ((R mod 4 <> 0)%nat ->
     coldfilt X ha hb = Err (ValueError "No. of rows in X must be a multiple of 4"))
  /\ ((R mod 4 = 0)%nat -> length ha <> length hb ->
        coldfilt X ha hb = Err (ValueError "Shapes of ha and hb must be the same"))
  /\ ((R mod 4 = 0)%nat -> length ha = length hb -> (length ha mod 2 <> 0)%nat ->
        coldfilt X ha hb = Err (ValueError "Lengths of ha and hb must be even"))
  /\ ((R mod 4 = 0)%nat -> length ha = length hb -> (length ha mod 2 = 0)%nat ->
        exists Y, coldfilt X ha hb = Ok Y)
  /\ ((exists msg, coldfilt X ha hb = Err (ValueError msg))
      <-> ((R mod 4 <> 0)%nat \/ length ha <> length hb \/ (length ha mod 2 <> 0)%nat)).
Proof.
  intros HX HR HC Hma Hmb.
  assert (E1 : (R mod 4 <> 0)%nat ->
     coldfilt X ha hb = Err (ValueError "No. of rows in X must be a multiple of 4")).
  { intros H. unfold coldfilt, shape, nrows. rewrite (proj1 HX).
    now rewrite (proj2 (Nat.eqb_neq _ _) H). }
  assert (E2 : (R mod 4 = 0)%nat -> length ha <> length hb ->
     coldfilt X ha hb = Err (ValueError "Shapes of ha and hb must be the same")).
  { intros H4 H. unfold coldfilt, shape, nrows. rewrite (proj1 HX), H4.
    now rewrite (proj2 (Nat.eqb_neq _ _) H). }
  assert (E3 : (R mod 4 = 0)%nat -> length ha = length hb -> (length ha mod 2 <> 0)%nat ->
     coldfilt X ha hb = Err (ValueError "Lengths of ha and hb must be even")).
  { intros H4 Hab H. unfold coldfilt, shape, nrows. rewrite (proj1 HX), H4, <- Hab, !Nat.eqb_refl.
    now rewrite (proj2 (Nat.eqb_neq _ _) H). }
  assert (E4 : (R mod 4 = 0)%nat -> length ha = length hb -> (length ha mod 2 = 0)%nat ->
     exists Y, coldfilt X ha hb = Ok Y).
  { intros H4 Hab Heven.
    destruct (@coldfilt_rows F SF C _ (width_invariant C) X ha hb R) as (Y & HY & _); eauto. }
  repeat (split; [assumption|]).
  split.
  - intros [msg Hmsg].
    destruct (Nat.eq_dec (R mod 4) 0) as [H4|H4]; [|now left].
    destruct (Nat.eq_dec (length ha) (length hb)) as [Hab|Hab]; [|now right; left].
    destruct (Nat.eq_dec (length ha mod 2) 0) as [Hev|Hev]; [|now right; right].
    destruct (E4 H4 Hab Hev) as [Y HY]. congruence.
  - intros Hviol.
    destruct (Nat.eq_dec (R mod 4) 0) as [H4|H4]; [|eexists; now apply E1].
    destruct (Nat.eq_dec (length ha) (length hb)) as [Hab|Hab]; [|eexists; now apply E2].
    destruct (Nat.eq_dec (length ha mod 2) 0) as [Hev|Hev]; [|eexists; now apply E3].
    tauto.
Qed.

Lemma coldfilt_value_errors_witness :
  ((6 mod 4 <> 0)%nat ->
     coldfilt [[1]; [2]; [3]; [4]; [5]; [6]] [1; 2] [2; 1; 0]
     = Err (ValueError "No. of rows in X must be a multiple of 4"))
  /\ ((6 mod 4 = 0)%nat -> length [1; 2] <> length [2; 1; 0] ->
        coldfilt [[1]; [2]; [3]; [4]; [5]; [6]] [1; 2] [2; 1; 0]
        = Err (ValueError "Shapes of ha and hb must be the same"))
  /\ ((6 mod 4 = 0)%nat -> length [1; 2] = length [2; 1; 0] -> (length [1; 2] mod 2 <> 0)%nat ->
        coldfilt [[1]; [2]; [3]; [4]; [5]; [6]] [1; 2] [2; 1; 0]
        = Err (ValueError "Lengths of ha and hb must be even"))
  /\ ((6 mod 4 = 0)%nat -> length [1; 2] = length [2; 1; 0] -> (length [1; 2] mod 2 = 0)%nat ->
        exists Y, coldfilt [[1]; [2]; [3]; [4]; [5]; [6]] [1; 2] [2; 1; 0] = Ok Y)
  /\ ((exists msg, coldfilt [[1]; [2]; [3]; [4]; [5]; [6]] [1; 2] [2; 1; 0]
                   = Err (ValueError msg))
      <-> ((6 mod 4 <> 0)%nat \/ length [1; 2] <> length [2; 1; 0]
           \/ (length [1; 2] mod 2 <> 0)%nat)).
Proof.
  apply (@coldfilt_value_errors Q Scalar_Q
           [[1]; [2]; [3]; [4]; [5]; [6]] [1; 2] [2; 1; 0] 6 1).
  - split; [reflexivity | repeat constructor].
  - lia.
  - lia.
  - simpl; lia.
  - simpl; lia.
Defined.

Example coldfilt_rows_error :
  coldfilt [[1]; [2]; [3]; [4]; [5]; [6]] [1; 2] [2; 1]
  = Err (ValueError "No. of rows in X must be a multiple of 4").
Proof. reflexivity. Qed.

Example coldfilt_shapes_error :
  coldfilt [[1]; [2]; [3]; [4]] [1; 2] [2; 1; 0; 0]
  = Err (ValueError "Shapes of ha and hb must be the same").
Proof. reflexivity. Qed.

Example coldfilt_parity_error :
  coldfilt [[1]; [2]; [3]; [4]] [1; 2; 1] [1; 2; 1]
  = Err (ValueError "Lengths of ha and hb must be even").
Proof. reflexivity. Qed.

(** C9.  For the zero image of an even number [r] of rows and a pair of
    filters of the same even length, [colifilt] returns early with the
    zero matrix of [2r] rows, and the convolutions that the early return
    skips give, on the same input, the same matrix. *)
Theorem colifilt_zero_fast_path {F : Type} {SF : Scalar F}
    (ha hb : list F) (r c : nat) :
  zero_laws ->
  (1 <= r)%nat -> (1 <= c)%nat -> (r mod 2 = 0)%nat ->
  length ha = length hb -> (length ha mod 2 = 0)%nat -> (1 <= length ha)%nat ->
  np_any (fst (nonzero (zeros r c))) = false
  /\ colifilt (zeros r c) ha hb = Ok (zeros (r * 2) c)
  /\ colifilt_convolve (zeros r c) ha hb (zeros (r * 2) c) = Ok (zeros (r * 2) c).
Proof.
  intros HZ Hr Hc Hr2 Hab Heven Hm.
  assert (Hnz : np_any (fst (nonzero (zeros r c))) = false)
    by (now rewrite nonzero_zeros).
  split; auto. split.
  - rewrite (@colifilt_guards F SF c _ (width_invariant c) (zeros r c) ha hb r
               (has_shape_zeros r c) Hr Hr2 Hab Heven).
    now rewrite Hnz.
  - destruct (@colifilt_convolve_rows F SF c _ (zero_invariant c HZ)
                (zeros r c) ha hb (zeros (r * 2) c) r) as (Y & HY & SY); auto.
    + now apply rows_in_zero.
    + now apply rows_in_zero.
    + rewrite HY. f_equal. now apply rows_in_zero.
Qed.

Lemma colifilt_zero_fast_path_witness :
  np_any (fst (nonzero (@zeros R Scalar_R 2 3))) = false
  /\ colifilt (zeros 2 3) [1; 2; 3; 4]%R [4; 3; 2; 1]%R = Ok (zeros (2 * 2) 3)
  /\ colifilt_convolve (zeros 2 3) [1; 2; 3; 4]%R [4; 3; 2; 1]%R (zeros (2 * 2) 3)
     = Ok (zeros (2 * 2) 3).
Proof.
  apply (@colifilt_zero_fast_path R Scalar_R [1; 2; 3; 4]%R [4; 3; 2; 1]%R 2 3).
  - exact zero_laws_R.
  - lia.
  - lia.
  - reflexivity.
  - reflexivity.
  - reflexivity.
  - simpl; lia.
Defined.

(** The test [np.any(np.nonzero(X)[0])] looks at the row indices of the
    non-zero entries, so it also takes the early return on an input whose
    non-zero entries all lie in row 0; the convolutions give another
    result there. *)
Example colifilt_row0_only :
  colifilt [[1]; [0]] [1; 2] [2; 1] = Ok [[0]; [0]; [0]; [0]]
  /\ colifilt_convolve [[1]; [0]] [1; 2] [2; 1] (zeros 4 1) = Ok [[1]; [0]; [2]; [0]].
Proof. split; vm_compute; reflexivity. Qed.

(** ** Quads *)

Lemma length_unpairs {A : Type} (ps : list (A * A)) :
  length (unpairs ps) = (2 * length ps)%nat.
Proof. induction ps as [|p ps IH]; simpl; auto. rewrite IH. lia. Qed.

Lemma even_unpairs {A : Type} (n : nat) (l : list A) :
  length l = (2 * n)%nat -> exists ps, l = unpairs ps /\ length ps = n.
Proof.
  revert l. induction n as [|n IH]; intros l Hl.
  - destruct l; simpl in Hl; [|lia]. exists []. auto.
  - destruct l as [|a [|b l]]; simpl in Hl; try lia.
    destruct (IH l ltac:(lia)) as (ps & -> & Hps).
    exists ((a, b) :: ps). simpl. auto.
Qed.

Lemma every_other_unpairs {A : Type} (ps : list (A * A)) :
  every_other (unpairs ps) = map fst ps.
Proof. induction ps as [|p ps IH]; simpl; auto. now rewrite IH. Qed.

Lemma every_other_cons_unpairs {A : Type} (b : A) (ps : list (A * A)) :
  every_other (b :: unpairs ps) = b :: map snd ps.
Proof.
  revert b. induction ps as [|p ps IH]; intros b; simpl; auto.
  f_equal. apply IH.
Qed.

Lemma from_step2_unpairs {A : Type} (second : bool) (ps : list (A * A)) :
  from_step2 (if second then 1 else 0) (unpairs ps)
  = map (if second then snd else fst) ps.
Proof.
  unfold from_step2. destruct second; simpl.
  - destruct ps as [|p ps]; simpl; auto. apply every_other_cons_unpairs.
  - apply every_other_unpairs.
Qed.

Lemma upd_step2_unpairs {A B : Type} (f : A -> B -> A) (ps : list (A * A)) (vals : list B) :
  length vals = length ps ->
  upd_step2 f (unpairs ps) vals = unpairs (zip_with (upd_pair false f) ps vals).
Proof.
  revert vals. induction ps as [|p ps IH]; intros [|v vals] Hlen; simpl in *;
    try discriminate; auto.
  rewrite IH by lia. reflexivity.
Qed.

Lemma upd_step2_cons_unpairs {A B : Type} (f : A -> B -> A) (b : A)
    (ps : list (A * A)) (v : B) (vals : list B) :
  length vals = length ps ->
  upd_step2 f (b :: unpairs ps) (v :: vals)
  = f b v :: unpairs (zip_with (upd_pair true f) ps vals).
Proof.
  revert b v vals. induction ps as [|p ps IH]; intros b v [|v2 vals] Hlen; simpl in *;
    try discriminate; auto.
  f_equal. f_equal. apply IH. lia.
Qed.

Lemma upd_from_unpairs {A B : Type} (second : bool) (f : A -> B -> A)
    (ps : list (A * A)) (vals : list B) :
  length vals = length ps ->
  upd_from (if second then 1 else 0) f (unpairs ps) vals
  = unpairs (zip_with (upd_pair second f) ps vals).
Proof.
  intros Hlen. unfold upd_from. destruct second; simpl.
  - destruct ps as [|p ps], vals as [|v vals]; simpl in *; try discriminate; auto.
    f_equal. apply upd_step2_cons_unpairs. lia.
  - now apply upd_step2_unpairs.
Qed.

Lemma zip_with_map {A B C D : Type} (h : B -> C -> D) (f : A -> B) (g : A -> C) (l : list A) :
  zip_with h (map f l) (map g l) = map (fun x => h (f x) (g x)) l.
Proof. induction l as [|x l IH]; simpl; auto. now rewrite IH. Qed.

Lemma mapM_map_Ok {A B C : Type} (f : B -> result C) (g : A -> B) (k : A -> C) (l : list A) :
  (forall x, In x l -> f (g x) = Ok (k x)) -> mapM f (map g l) = Ok (map k l).
Proof.
  induction l as [|x l IH]; intros H; simpl; auto.
  rewrite H by (now left). cbn [bind]. rewrite IH; auto.
  intros y Hy. apply H. now right.
Qed.

Lemma mapM_combine_map {A B C D : Type} (h : B -> C -> result D)
    (f : A -> B) (g : A -> C) (k : A -> D) (l : list A) :
  (forall x, In x l -> h (f x) (g x) = Ok (k x)) ->
  mapM (fun p => h (fst p) (snd p)) (combine (map f l) (map g l)) = Ok (map k l).
Proof.
  induction l as [|x l IH]; intros H; simpl; auto.
  rewrite H by (now left). cbn [bind]. rewrite IH; auto.
  intros y Hy. apply H. now right.
Qed.

Lemma bzip_map {A B : Type} (h : B -> B -> result B)
    (f g : A -> B) (k : A -> B) (l : list A) :
  (forall x, In x l -> h (f x) (g x) = Ok (k x)) ->
  bzip h (map f l) (map g l) = Ok (map k l).
Proof.
  intros H. unfold bzip. rewrite !length_map, Nat.eqb_refl.
  now apply mapM_combine_map.
Qed.

Lemma zip_exact_map {A B C D : Type} (msg : string) (h : B -> C -> result D)
    (f : A -> B) (g : A -> C) (k : A -> D) (l : list A) :
  (forall x, In x l -> h (f x) (g x) = Ok (k x)) ->
  zip_exact msg h (map f l) (map g l) = Ok (map k l).
Proof.
  intros H. unfold zip_exact. rewrite !length_map, Nat.eqb_refl.
  now apply mapM_combine_map.
Qed.

Lemma map_map_map {A B C : Type} (f : B -> C) (g : A -> B) (l : list (list A)) :
  map (map f) (map (map g) l) = map (map (fun x => f (g x))) l.
Proof.
  rewrite map_map. apply map_ext. intros row. apply map_map.
Qed.

(** Element-wise operations on two matrices that are given quad by quad. *)
Lemma bzip2_map {A B : Type} (op : B -> B -> B) (f g : A -> B) (qs : list (list A)) :
  bzip (bzip (fun a b => Ok (op a b))) (map (map f) qs) (map (map g) qs)
  = Ok (map (map (fun q => op (f q) (g q))) qs).
Proof.
  apply bzip_map. intros qrow _. apply bzip_map. auto.
Qed.

Lemma map_fst_combine {A B : Type} (l1 : list A) (l2 : list B) :
  length l1 = length l2 -> map fst (combine l1 l2) = l1.
Proof.
  revert l2. induction l1 as [|a l1 IH]; intros [|b l2] H; simpl in *;
    try discriminate; auto.
  rewrite IH; auto.
Qed.

Lemma map_snd_combine {A B : Type} (l1 : list A) (l2 : list B) :
  length l1 = length l2 -> map snd (combine l1 l2) = l2.
Proof.
  revert l2. induction l1 as [|a l1 IH]; intros [|b l2] H; simpl in *;
    try discriminate; auto.
  rewrite IH; auto.
Qed.

Section Quads.

Context {F : Type} {SF : Scalar F}.

Local Abbreviation quad := ((F * F) * (F * F))%type.

(** A matrix of even dimensions is a matrix of quads. *)
Lemma has_shape_of_quads (y : list (list F)) (h w : nat) :
  has_shape y (2 * h) (2 * w) ->
  exists qs : list (list quad),
    y = of_quads qs /\ length qs = h /\ Forall (fun qrow => length qrow = w) qs.
Proof.
  intros [Hlen Hrows].
  destruct (even_unpairs h y Hlen) as (rps & -> & Hrps).
  clear Hlen. revert h Hrps.
  induction rps as [|[r1 r2] rps IH]; intros h Hrps; simpl in *.
  - exists []. subst. auto.
  - inversion Hrows as [|? ? H1 Hrows']; subst.
    inversion Hrows' as [|? ? H2 Hrows'']; subst.
    destruct (IH Hrows'' _ eq_refl) as (qs & Hqs & Hqlen & Hqw).
    destruct (even_unpairs w r1 H1) as (p1 & -> & Hp1).
    destruct (even_unpairs w r2 H2) as (p2 & -> & Hp2).
    exists (combine p1 p2 :: qs). split; [|split].
    + unfold of_quads in *. simpl. rewrite <- Hqs.
      rewrite map_fst_combine, map_snd_combine by lia. reflexivity.
    + simpl. lia.
    + constructor; auto. rewrite length_combine. lia.
Qed.

Lemma of_quads_shape (qs : list (list quad)) (h w : nat) :
  length qs = h -> Forall (fun qrow => length qrow = w) qs ->
  has_shape (of_quads qs) (2 * h) (2 * w).
Proof.
  intros Hlen Hw. unfold of_quads. split.
  - rewrite length_unpairs, length_map. lia.
  - clear Hlen. induction Hw as [|qrow qs Hq _ IH]; simpl; auto.
    constructor; [|constructor; auto];
      rewrite length_unpairs, length_map; lia.
Qed.

Lemma sub2_of_quads (r0 c0 : bool) (qs : list (list quad)) :
  sub2 (if r0 then 1 else 0) (if c0 then 1 else 0) (of_quads qs)
  = map (map (corner r0 c0)) qs.
Proof.
  unfold sub2, of_quads. rewrite from_step2_unpairs.
  destruct r0; rewrite !map_map; apply map_ext; intros qrow; simpl;
    rewrite from_step2_unpairs, map_map; reflexivity.
Qed.

Lemma q2c_of_quads (qs : list (list quad)) :
  q2c (of_quads qs) = Ok (map (map q2c_quad) qs).
Proof.
  unfold q2c.
  rewrite (sub2_of_quads false false), (sub2_of_quads false true),
          (sub2_of_quads true true), (sub2_of_quads true false).
  rewrite !map_map_map. unfold cmadd, cmsub.
  rewrite !bzip2_map; cbn [bind]. rewrite !bzip2_map; cbn [bind].
  unfold dstack. apply zip_exact_map. intros qrow _.
  apply zip_exact_map. intros q _. reflexivity.
Qed.

Lemma q2c_shape (y : list (list F)) (h w : nat) :
  has_shape y (2 * h) (2 * w) ->
  exists z, q2c y = Ok z /\ has_shape3 z h w 2.
Proof.
  intros Hy. destruct (has_shape_of_quads _ _ Hy) as (qs & -> & Hlen & Hw).
  rewrite q2c_of_quads. eexists; split; [reflexivity|]. split.
  - now rewrite length_map.
  - apply Forall_map. eapply Forall_impl; [|exact Hw]. intros qrow Hq. cbv beta in Hq.
    split; [now rewrite length_map|]. apply Forall_map. apply Forall_forall.
    intros q _. reflexivity.
Qed.

Lemma zeros_of_quads {A : Type} (qs : list (list A)) (w : nat) :
  Forall (fun qrow => length qrow = w) qs ->
  @zeros F SF (length qs * 2) (length (hd [] qs) * 2)
  = of_quads (map (map (fun _ => ((s0, s0), (s0, s0)))) qs).
Proof.
  intros Hw. destruct qs as [|qrow0 qs]; [reflexivity|].
  inversion Hw as [|? ? H0 _]; subst. cbn [hd].
  assert (Hrow : forall qrow : list A, length qrow = length qrow0 ->
            unpairs (map (fun _ : A => (@s0 F SF, @s0 F SF)) qrow)
            = repeat s0 (length qrow0 * 2)).
  { intros qrow <-. induction qrow as [|q qrow IH]; simpl; auto. now rewrite IH. }
  unfold zeros, of_quads.
  induction Hw as [|qrow qs' Hq _ IH]; [reflexivity|].
  cbn [length map]. rewrite !map_map. simpl fst; simpl snd.
  change (S (length qs') * 2)%nat with (S (S (length qs' * 2))).
  cbn [repeat unpairs flat_map app fst snd].
  rewrite !map_map in IH. cbn [fst snd] in IH.
  rewrite (Hrow qrow Hq). f_equal. f_equal. exact IH.
Qed.

Lemma set_strided_of_quads {A : Type} (r0 c0 : bool) (f : A -> quad) (m : A -> F)
    (qs : list (list A)) (w : nat) :
  Forall (fun qrow => length qrow = w) qs ->
  set_strided (of_quads (map (map f) qs))
    (if r0 then 1 else 0) (if c0 then 1 else 0) (map (map m) qs)
  = Ok (of_quads (map (map (fun a => set_corner r0 c0 (f a) (m a))) qs)).
Proof.
  intros Hw. unfold set_strided.
  rewrite mapM_id.
  2:{ apply Forall_map. destruct Hw as [|qrow0 qs' H0 Hw']; [constructor|].
      assert (E : length (from_step2 (if c0 then 1 else 0)
                            (hd [] (of_quads (map (map f) (qrow0 :: qs'))))) = w).
      { unfold of_quads. cbn [map unpairs flat_map fst hd app].
        rewrite from_step2_unpairs. now rewrite !length_map. }
      rewrite E. constructor.
      - apply bcast_same. now rewrite length_map.
      - eapply Forall_impl; [|exact Hw']. intros qrow Hq. cbv beta in Hq.
        apply bcast_same. now rewrite length_map. }
  cbn [bind]. rewrite bcast_same.
  2:{ unfold of_quads. rewrite from_step2_unpairs. now rewrite !length_map. }
  cbn [bind]. f_equal. unfold of_quads.
  rewrite upd_from_unpairs by (now rewrite !length_map).
  rewrite map_map, zip_with_map, map_map. f_equal. apply map_ext_in.
  intros qrow Hin.
  unfold upd_pair at 1. destruct r0; cbn [fst snd].
  - rewrite upd_from_unpairs by (now rewrite !length_map).
    rewrite !map_map, zip_with_map. reflexivity.
  - rewrite upd_from_unpairs by (now rewrite !length_map).
    rewrite !map_map, zip_with_map. reflexivity.
Qed.

Lemma c2q_of_quads {A : Type} (z0 z1 : A -> @complex F) (g0 g1 : F)
    (qs : list (list A)) (w : nat) :
  Forall (fun qrow => length qrow = w) qs ->
  c2q (map (map (fun q => [z0 q; z1 q])) qs) [g0; g1]
  = Ok (of_quads (map (map (fun q => c2q_quad (z0 q) (z1 q) g0 g1)) qs)).
Proof.
  intros Hw. unfold c2q.
  rewrite length_map.
  replace (length (hd [] (map (map (fun q => [z0 q; z1 q])) qs)))
    with (length (hd [] qs)) by (destruct qs; simpl; now rewrite ?length_map).
  rewrite (zeros_of_quads Hw).
  unfold plane.
  rewrite (@mapM_map_Ok _ _ _ _ _ (map z0)).
  2:{ intros qrow _. apply mapM_map_Ok. reflexivity. }
  cbn [bind].
  rewrite (@mapM_map_Ok _ _ _ _ _ (map z1)).
  2:{ intros qrow _. apply mapM_map_Ok. reflexivity. }
  cbn [bind map nth_res nth_error].
  rewrite !map_map_map. unfold cmadd, cmsub. rewrite !bzip2_map. cbn [bind].
  rewrite !map_map_map.
  rewrite (set_strided_of_quads false false _ _ Hw). cbn [bind].
  rewrite (set_strided_of_quads false true _ _ Hw). cbn [bind].
  rewrite (set_strided_of_quads true false _ _ Hw). cbn [bind].
  rewrite (set_strided_of_quads true true _ _ Hw). cbn [bind].
  reflexivity.
Qed.

End Quads.

(** ** The packer round trip, in exact arithmetic *)

Lemma sqrt_half_sq : (sqrt (1 / 2) * sqrt (1 / 2) = 1 / 2)%R.
Proof. apply sqrt_sqrt. lra. Qed.

Lemma c2q_q2c_quad (q : (R * R) * (R * R)) :
  c2q_quad (nth 0 (q2c_quad q) czero) (nth 1 (q2c_quad q) czero) 1%R 1%R = q.
Proof.
  destruct q as [[a b] [c d]].
  unfold c2q_quad, q2c_quad, corner, j2, cadd, csub, rc_mul, cr_mul. simpl.
  pose proof sqrt_half_sq as Hs.
  set (s := sqrt (1 / 2)) in *.
  repeat f_equal;
    match goal with
    | |- ?e = ?v => transitivity (v * (2 * (s * s)))%R; [ring | rewrite Hs; field]
    end.
Qed.

(** C2.  For a real matrix [y] with an even number of rows and of columns,
    in exact arithmetic, [q2c(y)] is defined and [c2q(q2c(y), [1, 1])] is
    [y]. *)
Theorem c2q_q2c_roundtrip (y : list (list R)) (H W : nat) :
  has_shape y (2 * H) (2 * W) ->
  exists z, q2c y = Ok z /\ has_shape3 z H W 2 /\ c2q z [1; 1]%R = Ok y.
Proof.
  intros Hy.
  destruct (q2c_shape _ _ Hy) as (z' & Hz' & Sz').
  destruct (has_shape_of_quads _ _ Hy) as (qs & -> & Hlen & Hw).
  rewrite q2c_of_quads in *. exists (map (map q2c_quad) qs).
  split; [reflexivity|]. split; [congruence|].
  change (map (map q2c_quad) qs)
    with (map (map (fun q => [nth 0 (q2c_quad q) czero; nth 1 (q2c_quad q) czero])) qs).
  rewrite (c2q_of_quads _ _ _ _ Hw). f_equal. f_equal.
  rewrite <- (map_id qs) at 2. apply map_ext. intros qrow.
  rewrite <- (map_id qrow) at 2. apply map_ext. intros q.
  apply c2q_q2c_quad.
Qed.

Lemma c2q_q2c_roundtrip_witness :
  exists z, q2c [[1; 2; 3; 4]; [5; 6; 7; 8]]%R = Ok z /\ has_shape3 z 1 2 2
            /\ c2q z [1; 1]%R = Ok [[1; 2; 3; 4]; [5; 6; 7; 8]]%R.
Proof.
  apply (@c2q_q2c_roundtrip [[1; 2; 3; 4]; [5; 6; 7; 8]]%R 1 2).
  split; [reflexivity | repeat constructor].
Defined.

(** ** Shapes in the forward transform *)

Lemma nth_list_set_same {A : Type} (l : list A) (k : nat) (v d : A) :
  (k < length l)%nat -> nth k (list_set l k v) d = v.
Proof.
  revert k; induction l as [|a l IH]; intros [|k] Hk; simpl in *; try lia; auto.
  apply IH; lia.
Qed.

Lemma nth_list_set_other {A : Type} (l : list A) (k i : nat) (v d : A) :
  i <> k -> nth i (list_set l k v) d = nth i l d.
Proof.
  revert k i; induction l as [|a l IH]; intros [|k] [|i] Hik; simpl; auto; try congruence.
Qed.

Lemma Forall_zip_with {A B C : Type} (f : A -> B -> C)
    (P : A -> Prop) (Q : B -> Prop) (R : C -> Prop) (l1 : list A) (l2 : list B) :
  Forall P l1 -> Forall Q l2 -> (forall a b, P a -> Q b -> R (f a b)) ->
  Forall R (zip_with f l1 l2).
Proof.
  intros H1 H2 Hf. revert l2 H2.
  induction H1 as [|a l1 Ha _ IH]; intros l2 H2; simpl; auto.
  destruct H2 as [|b l2 Hb H2]; auto.
Qed.

Lemma even_up_even (n : nat) :
  (1 <= n)%nat -> exists h, even_up n = (2 * h)%nat /\ (1 <= h)%nat.
Proof.
  intros Hn. unfold even_up. pose proof (Nat.div_mod_eq n 2) as Hd.
  pose proof (Nat.mod_upper_bound n 2 ltac:(lia)) as Hm.
  destruct (n mod 2 =? 0)%nat eqn:E.
  - apply Nat.eqb_eq in E. exists (n / 2)%nat. lia.
  - apply Nat.eqb_neq in E. exists (n / 2 + 1)%nat. lia.
Qed.

Lemma pad4_even (k : nat) :
  (1 <= k)%nat -> exists k', pad4 (2 * k) = (4 * k')%nat /\ (1 <= k')%nat.
Proof.
  intros Hk. unfold pad4. pose proof (Nat.div_mod_eq (2 * k) 4) as Hd.
  pose proof (Nat.mod_upper_bound (2 * k) 4 ltac:(lia)) as Hm.
  destruct (2 * k mod 4 =? 0)%nat eqn:E.
  - apply Nat.eqb_eq in E. exists (2 * k / 4)%nat. lia.
  - apply Nat.eqb_neq in E. exists (2 * k / 4 + 1)%nat. lia.
Qed.

Lemma half_of_4 (k : nat) : (4 * k / 2 = 2 * k)%nat.
Proof. replace (4 * k)%nat with (2 * k * 2)%nat by lia. apply Nat.div_mul; lia. Qed.

Lemma half_of_2 (k : nat) : (2 * k / 2 = k)%nat.
Proof. rewrite Nat.mul_comm. apply Nat.div_mul; lia. Qed.

Lemma lowpass_dim_step (n0 l : nat) :
  lowpass_dim n0 (S (S l)) = (pad4 (lowpass_dim n0 (S l)) / 2)%nat.
Proof. reflexivity. Qed.

Lemma lowpass_dim_even (h l : nat) :
  (1 <= h)%nat -> exists k, lowpass_dim (2 * h) l = (2 * k)%nat /\ (1 <= k)%nat.
Proof.
  intros Hh. induction l as [|[|l] IH].
  - exists h. auto.
  - exists h. auto.
  - destruct IH as (k & Ek & Hk). rewrite lowpass_dim_step, Ek.
    destruct (pad4_even Hk) as (k' & Ek' & Hk'). rewrite Ek', half_of_4. eauto.
Qed.

Section TransformShapes.

Context {F : Type} {SF : Scalar F}.

Local Abbreviation matrix := (@matrix F).
Local Abbreviation tensor := (@tensor F).

Lemma has_shape3_zeros3 (h w : nat) : has_shape3 (@zeros3 F SF h w) h w 6.
Proof.
  unfold zeros3. split; [apply repeat_length|].
  apply Forall_repeat. split; [apply repeat_length|].
  apply Forall_repeat. reflexivity.
Qed.

Lemma set_bands_shape (T z : tensor) (b0 b1 h w : nat) :
  has_shape3 T h w 6 -> has_shape3 z h w 2 -> (1 <= h)%nat ->
  exists T', set_bands T b0 b1 z = Ok T' /\ has_shape3 T' h w 6.
Proof.
  intros [HTlen HTrows] [Hzlen Hzrows] Hh. unfold set_bands.
  rewrite mapM_id.
  2:{ eapply Forall_impl; [|exact Hzrows]. intros row [_ Hcells].
      apply mapM_id. eapply Forall_impl; [|exact Hcells].
      intros cell Hcell. now apply bcast_same. }
  cbn [bind].
  assert (Hw : length (hd [] T) = w).
  { destruct T as [|row T]; simpl in *; [lia|]. inversion HTrows as [|? ? [H _] _]; auto. }
  rewrite Hw, mapM_id.
  2:{ eapply Forall_impl; [|exact Hzrows]. intros row [Hrow _]. now apply bcast_same. }
  cbn [bind]. rewrite bcast_same by lia. cbn [bind].
  eexists; split; [reflexivity|]. split.
  - rewrite length_zip_with. lia.
  - eapply Forall_zip_with; [exact HTrows|exact Hzrows|].
    intros row zrow [Hrow Hcells] [Hzrow Hzcells]. split.
    + rewrite length_zip_with. lia.
    + eapply Forall_zip_with; [exact Hcells|exact Hzcells|].
      intros cell zc Hcell _. cbv beta. now rewrite !length_list_set.
Qed.

Lemma Forall_last {A : Type} (P : A -> Prop) (l : list A) (d : A) :
  l <> [] -> Forall P l -> P (last l d).
Proof.
  intros Hne H. induction H as [|a l Ha Hl IH]; [congruence|].
  destruct l as [|b l]; simpl; auto. apply IH. discriminate.
Qed.

Lemma nonempty_length {A : Type} (l : list A) : (1 <= length l)%nat -> l <> [].
Proof. destruct l; simpl; [lia|discriminate]. Qed.

Lemma has_shape_repeat_last_row (X : matrix) (r c : nat) :
  has_shape X r c -> (1 <= r)%nat -> has_shape (repeat_last_row X) (r + 1) c.
Proof.
  intros [Hlen Hrows] Hr. unfold repeat_last_row. split.
  - rewrite length_app. simpl. lia.
  - apply Forall_app. split; auto. constructor; auto.
    apply Forall_last; auto. apply nonempty_length. lia.
Qed.

Lemma has_shape_repeat_last_col (X : matrix) (r c : nat) :
  has_shape X r c -> has_shape (repeat_last_col X) r (c + 1).
Proof.
  intros [Hlen Hrows]. unfold repeat_last_col. split.
  - now rewrite length_map.
  - apply Forall_map. eapply Forall_impl; [|exact Hrows].
    intros row Hrow. cbv beta in Hrow. rewrite length_app. simpl. lia.
Qed.

Lemma shape_has_shape (X : matrix) (r c : nat) :
  has_shape X r c -> (1 <= r)%nat -> shape X = (r, c).
Proof.
  intros HX Hr. unfold shape.
  now rewrite (rows_in_nrows HX), (rows_in_ncols (width_invariant c) HX Hr).
Qed.

Lemma extend_odd_shape (X : matrix) (r c : nat) :
  has_shape X r c -> (1 <= r)%nat ->
  has_shape (extend_odd X) (even_up r) (even_up c).
Proof.
  intros HX Hr. unfold extend_odd, even_up.
  rewrite (shape_has_shape HX Hr). cbn [fst snd].
  destruct (r mod 2 =? 0)%nat, (c mod 2 =? 0)%nat; cbn [negb]; auto.
  - now apply has_shape_repeat_last_col.
  - now apply has_shape_repeat_last_row.
  - apply has_shape_repeat_last_col. now apply has_shape_repeat_last_row.
Qed.

Lemma pad_lowpass_shape (L : matrix) (r c : nat) :
  has_shape L r c -> (1 <= r)%nat ->
  has_shape (pad_lowpass L) (pad4 r) (pad4 c).
Proof.
  intros HL Hr. unfold pad_lowpass, pad4.
  rewrite (shape_has_shape HL Hr).
  destruct HL as [Hlen Hrows].
  assert (Hrows2 : has_shape (hd [] L :: L ++ [last L []]) (r + 2) c).
  { split.
    - simpl. rewrite length_app. simpl. lia.
    - assert (Hne : L <> []) by (apply nonempty_length; lia).
      constructor.
      + destruct L as [|row L]; [congruence|]. now inversion Hrows.
      + apply Forall_app. split; auto. constructor; auto. now apply Forall_last. }
  assert (Hcols : forall (M : matrix) n, has_shape M n c ->
            has_shape (map (fun row => hd s0 row :: row ++ [last row s0]) M) n (c + 2)).
  { intros M n [HMlen HMrows]. split.
    - now rewrite length_map.
    - apply Forall_map. eapply Forall_impl; [|exact HMrows].
      intros row Hrow. cbv beta in Hrow. simpl. rewrite length_app. simpl. lia. }
  destruct (r mod 4 =? 0)%nat, (c mod 4 =? 0)%nat; cbn [negb].
  - split; auto.
  - apply Hcols. split; auto.
  - exact Hrows2.
  - apply Hcols. exact Hrows2.
Qed.

(** Level 1 keeps the size of the image and halves it in the subbands. *)
Lemma level1_ok (X : matrix) (biort : biort_filters) (h w : nat) :
  has_shape X (2 * h) (2 * w) -> (1 <= h)%nat -> (1 <= w)%nat ->
  biort_ok biort ->
  exists LoLo T,
    level1 X biort = Ok (LoLo, T)
    /\ has_shape LoLo (2 * h) (2 * w) /\ has_shape3 T h w 6.
Proof.
  intros HX Hh Hw [Ho0 Ho1]. unfold level1.
  assert (Hl0 : (1 <= length (h0o biort))%nat)
    by (destruct (length (h0o biort)); [discriminate|lia]).
  assert (Hl1 : (1 <= length (h1o biort))%nat)
    by (destruct (length (h1o biort)); [discriminate|lia]).
  assert (Hcol : forall (M : matrix) (f : list F) r c,
            has_shape M r c -> (1 <= r)%nat -> (1 <= c)%nat ->
            Nat.odd (length f) = true -> (1 <= length f)%nat ->
            exists Y, colfilter M f = Ok Y /\ has_shape (transpose Y) c r).
  { intros M f r c HM Hr Hc Hodd Hlen.
    destruct (colfilter_rows (width_invariant c) f HM Hr Hc Hlen) as (Y & HY & SY).
    rewrite Hodd in SY. exists Y. split; auto. now apply has_shape_transpose. }
  destruct (Hcol X (h0o biort) _ _ HX ltac:(lia) ltac:(lia) Ho0 Hl0) as (Lo & ELo & SLo).
  destruct (Hcol X (h1o biort) _ _ HX ltac:(lia) ltac:(lia) Ho1 Hl1) as (Hi & EHi & SHi).
  destruct (Hcol _ (h0o biort) _ _ SLo ltac:(lia) ltac:(lia) Ho0 Hl0) as (LL & ELL & SLL).
  destruct (Hcol _ (h0o biort) _ _ SHi ltac:(lia) ltac:(lia) Ho0 Hl0) as (y1 & Ey1 & Sy1).
  destruct (Hcol _ (h1o biort) _ _ SLo ltac:(lia) ltac:(lia) Ho1 Hl1) as (y2 & Ey2 & Sy2).
  destruct (Hcol _ (h1o biort) _ _ SHi ltac:(lia) ltac:(lia) Ho1 Hl1) as (y3 & Ey3 & Sy3).
  destruct (q2c_shape _ _ Sy1) as (z1 & Ez1 & Sz1).
  destruct (q2c_shape _ _ Sy2) as (z2 & Ez2 & Sz2).
  destruct (q2c_shape _ _ Sy3) as (z3 & Ez3 & Sz3).
  rewrite ELo; cbn [bind]. rewrite EHi; cbn [bind]. rewrite ELL; cbn [bind].
  rewrite (rows_in_nrows SLL), (rows_in_ncols (width_invariant _) SLL ltac:(lia)).
  rewrite !half_of_2.
  destruct (set_bands_shape 0 5 (has_shape3_zeros3 h w) Sz1 Hh) as (T1 & ET1 & ST1).
  destruct (set_bands_shape 2 3 ST1 Sz2 Hh) as (T2 & ET2 & ST2).
  destruct (set_bands_shape 1 4 ST2 Sz3 Hh) as (T3 & ET3 & ST3).
  rewrite Ey1; cbn [bind]. rewrite Ez1; cbn [bind]. rewrite ET1; cbn [bind].
  rewrite Ey2; cbn [bind]. rewrite Ez2; cbn [bind]. rewrite ET2; cbn [bind].
  rewrite Ey3; cbn [bind]. rewrite Ez3; cbn [bind]. rewrite ET3; cbn [bind].
  eauto.
Qed.

(** A level above the first halves the padded lowpass image and quarters
    it in the subbands. *)
Lemma level_ge2_ok (L : matrix) (qshift : qshift_filters) (k1 k2 : nat) :
  has_shape L (2 * k1) (2 * k2) -> (1 <= k1)%nat -> (1 <= k2)%nat ->
  qshift_ok qshift ->
  exists L' T,
    level_ge2 L qshift = Ok (L', T)
    /\ has_shape L' (pad4 (2 * k1) / 2) (pad4 (2 * k2) / 2)
    /\ has_shape3 T (pad4 (2 * k1) / 2 / 2) (pad4 (2 * k2) / 2 / 2) 6.
Proof.
  intros HL Hk1 Hk2 (Ha0 & He0 & Hl0 & Ha1 & He1 & Hl1). unfold level_ge2.
  pose proof (pad_lowpass_shape HL ltac:(lia)) as HP.
  destruct (pad4_even Hk1) as (p1 & E1 & Hp1).
  destruct (pad4_even Hk2) as (p2 & E2 & Hp2).
  rewrite E1, E2 in *. rewrite !half_of_4, !half_of_2.
  assert (Hcol : forall (M : matrix) (fa fb : list F) a c,
            has_shape M (4 * a) c -> (1 <= a)%nat -> (1 <= c)%nat ->
            length fa = length fb -> (length fa mod 2 = 0)%nat -> (1 <= length fa)%nat ->
            exists Y, coldfilt M fa fb = Ok Y /\ has_shape (transpose Y) c (2 * a)).
  { intros M fa fb a c HM Hr Hc Hab Hev Hlen.
    destruct (@coldfilt_rows F SF c _ (width_invariant c) M fa fb (4 * a))
      as (Y & HY & SY); auto; try lia.
    - rewrite Nat.mul_comm. apply Nat.Div0.mod_mul.
    - rewrite half_of_4 in SY. exists Y. split; auto.
      apply has_shape_transpose; auto. lia. }
  destruct (Hcol _ (h0b qshift) (h0a qshift) _ _ HP Hp1 ltac:(lia) Ha0 He0 Hl0)
    as (Lo & ELo & SLo).
  destruct (Hcol _ (h1b qshift) (h1a qshift) _ _ HP Hp1 ltac:(lia) Ha1 He1 Hl1)
    as (Hi & EHi & SHi).
  destruct (Hcol _ (h0b qshift) (h0a qshift) _ _ SLo Hp2 ltac:(lia) Ha0 He0 Hl0)
    as (LL & ELL & SLL).
  destruct (Hcol _ (h0b qshift) (h0a qshift) _ _ SHi Hp2 ltac:(lia) Ha0 He0 Hl0)
    as (y1 & Ey1 & Sy1).
  destruct (Hcol _ (h1b qshift) (h1a qshift) _ _ SLo Hp2 ltac:(lia) Ha1 He1 Hl1)
    as (y2 & Ey2 & Sy2).
  destruct (Hcol _ (h1b qshift) (h1a qshift) _ _ SHi Hp2 ltac:(lia) Ha1 He1 Hl1)
    as (y3 & Ey3 & Sy3).
  destruct (q2c_shape _ _ Sy1) as (z1 & Ez1 & Sz1).
  destruct (q2c_shape _ _ Sy2) as (z2 & Ez2 & Sz2).
  destruct (q2c_shape _ _ Sy3) as (z3 & Ez3 & Sz3).
  rewrite ELo; cbn [bind]. rewrite EHi; cbn [bind]. rewrite ELL; cbn [bind].
  rewrite (rows_in_nrows SLL), (rows_in_ncols (width_invariant _) SLL ltac:(lia)).
  rewrite !half_of_2.
  destruct (set_bands_shape 0 5 (has_shape3_zeros3 p1 p2) Sz1 Hp1) as (T1 & ET1 & ST1).
  destruct (set_bands_shape 2 3 ST1 Sz2 Hp1) as (T2 & ET2 & ST2).
  destruct (set_bands_shape 1 4 ST2 Sz3 Hp1) as (T3 & ET3 & ST3).
  rewrite Ey1; cbn [bind]. rewrite Ez1; cbn [bind]. rewrite ET1; cbn [bind].
  rewrite Ey2; cbn [bind]. rewrite Ez2; cbn [bind]. rewrite ET2; cbn [bind].
  rewrite Ey3; cbn [bind]. rewrite Ez3; cbn [bind]. rewrite ET3; cbn [bind].
  eauto.
Qed.

(** ** The subbands are sized from the level's own lowpass image

    Whatever the image and the filters: when a level returns, its tensor
    has half the rows and columns of the lowpass image that the same level
    returns. *)

Lemma bcast_Ok {A : Type} (P : A -> Prop) (n : nat) (l l' : list A) :
  bcast n l = Ok l' -> Forall P l -> length l' = n /\ Forall P l'.
Proof.
  unfold bcast. destruct (length l =? n)%nat eqn:E.
  - intros [= <-] Hl. apply Nat.eqb_eq in E. auto.
  - destruct l as [|a [|b l]]; try discriminate.
    intros [= <-] Hl. split; [apply repeat_length|].
    apply Forall_repeat. now inversion Hl.
Qed.

Lemma mapM_Ok_Forall {A B : Type} (f : A -> result B) (P : A -> Prop) (Q : B -> Prop)
    (l : list A) (l' : list B) :
  (forall a b, P a -> f a = Ok b -> Q b) ->
  Forall P l -> mapM f l = Ok l' -> Forall Q l'.
Proof.
  intros Hf Hl. revert l'. induction Hl as [|a l Ha _ IH]; intros l'; simpl.
  - intros [= <-]. constructor.
  - destruct (f a) as [b|e] eqn:Eb; cbn [bind]; [|discriminate].
    destruct (mapM f l) as [bs|e]; cbn [bind]; [|discriminate].
    intros [= <-]. constructor; eauto.
Qed.

Lemma set_bands_keeps_shape (T z T' : tensor) (b0 b1 h w : nat) :
  has_shape3 T h w 6 -> set_bands T b0 b1 z = Ok T' -> has_shape3 T' h w 6.
Proof.
  intros [HTlen HTrows]. unfold set_bands.
  destruct (mapM (mapM (bcast 2)) z) as [z1|e]; cbn [bind]; [|discriminate].
  destruct (mapM (bcast (length (hd [] T))) z1) as [z2|e] eqn:E2; cbn [bind]; [|discriminate].
  destruct (bcast (length T) z2) as [z3|e] eqn:E3; cbn [bind]; [|discriminate].
  intros [= <-].
  assert (H2 : Forall (fun row => length row = length (hd [] T)) z2).
  { eapply (@mapM_Ok_Forall _ _ _ (fun _ => True)); [|apply Forall_forall; auto|exact E2].
    intros a b _ Hb. cbv beta. apply (@bcast_Ok _ (fun _ => True)) in Hb; [tauto|].
    apply Forall_forall; auto. }
  destruct (bcast_Ok _ E3 H2) as [H3len H3rows]. split.
  - rewrite length_zip_with. lia.
  - destruct T as [|row0 T0]; [constructor|].
    assert (Hw : length (hd [] (row0 :: T0)) = w) by (now inversion HTrows).
    rewrite Hw in H3rows.
    eapply Forall_zip_with; [exact HTrows|exact H3rows|].
    intros row zrow [Hrow Hcells] Hzrow. cbv beta in Hzrow. split.
    + rewrite length_zip_with. lia.
    + eapply (@Forall_zip_with _ _ _ _ _ (fun _ => True));
        [exact Hcells|apply Forall_forall; auto|].
      intros cell zc Hcell _. cbv beta. now rewrite !length_list_set.
Qed.

Ltac bind_inv H :=
  repeat match type of H with
         | bind ?e _ = Ok _ => destruct e eqn:?; cbn [bind] in H; [|discriminate H]
         end.

Lemma level1_tensor_shape (X : matrix) (biort : biort_filters) (LoLo : matrix) (T : tensor) :
  level1 X biort = Ok (LoLo, T) ->
  has_shape3 T (nrows LoLo / 2) (ncols LoLo / 2) 6.
Proof.
  unfold level1. intros H. bind_inv H. injection H as <- <-.
  repeat match goal with
         | E : set_bands _ _ _ _ = Ok _ |- _ =>
             apply set_bands_keeps_shape with (h := (nrows (transpose a1) / 2)%nat)
                                              (w := (ncols (transpose a1) / 2)%nat) in E;
             [|first [assumption | apply has_shape3_zeros3]]
         end.
  assumption.
Qed.

Lemma level_ge2_tensor_shape (L : matrix) (qshift : qshift_filters)
    (LoLo : matrix) (T : tensor) :
  level_ge2 L qshift = Ok (LoLo, T) ->
  has_shape3 T (nrows LoLo / 2) (ncols LoLo / 2) 6.
Proof.
  unfold level_ge2. intros H. bind_inv H. injection H as <- <-.
  repeat match goal with
         | E : set_bands _ _ _ _ = Ok _ |- _ =>
             apply set_bands_keeps_shape with (h := (nrows (transpose a1) / 2)%nat)
                                              (w := (ncols (transpose a1) / 2)%nat) in E;
             [|first [assumption | apply has_shape3_zeros3]]
         end.
  assumption.
Qed.

(** ** The loop over the levels *)

Lemma level_step_inv (qshift : qshift_filters) (sc : bool) (h w n l : nat) (st : xfm_state) :
  (1 <= h)%nat -> (1 <= w)%nat -> qshift_ok qshift ->
  (1 <= l)%nat -> (l < n)%nat ->
  xfm_inv (2 * h) (2 * w) n sc l st ->
  exists st', level_step qshift sc l st = Ok st'
              /\ xfm_inv (2 * h) (2 * w) n sc (S l) st'.
Proof.
  intros Hh Hw Hq Hl Hln (HL & HYh & Hsub & Hsc). unfold level_step.
  destruct (lowpass_dim_even l Hh) as (k1 & E1 & Hk1).
  destruct (lowpass_dim_even l Hw) as (k2 & E2 & Hk2).
  rewrite E1, E2 in HL.
  destruct (level_ge2_ok HL Hk1 Hk2 Hq) as (L' & T & EL & SL & ST).
  rewrite EL. cbn [bind fst snd]. eexists; split; [reflexivity|].
  assert (D1 : lowpass_dim (2 * h) (S l) = (pad4 (2 * k1) / 2)%nat)
    by (destruct l; [lia|]; now rewrite lowpass_dim_step, E1).
  assert (D2 : lowpass_dim (2 * w) (S l) = (pad4 (2 * k2) / 2)%nat)
    by (destruct l; [lia|]; now rewrite lowpass_dim_step, E2).
  unfold xfm_inv. cbn [st_LoLo st_Yh st_Yscale]. rewrite D1, D2.
  split; [exact SL|]. split; [now rewrite length_list_set|]. split.
  - intros i Hi. destruct (Nat.eq_dec i l) as [->|Hne].
    + exists T. rewrite nth_list_set_same by lia. rewrite D1, D2. auto.
    + rewrite nth_list_set_other by auto. apply Hsub. lia.
  - rewrite Hsc. destruct sc; reflexivity.
Qed.

Lemma levels_loop_inv (qshift : qshift_filters) (sc : bool) (h w n : nat) :
  (1 <= h)%nat -> (1 <= w)%nat -> qshift_ok qshift ->
  forall k l st,
    (1 <= l)%nat -> (l + k <= n)%nat ->
    xfm_inv (2 * h) (2 * w) n sc l st ->
    exists st', levels_loop qshift sc (seq l k) st = Ok st'
                /\ xfm_inv (2 * h) (2 * w) n sc (l + k) st'.
Proof.
  intros Hh Hw Hq. induction k as [|k IH]; intros l st Hl Hlk Hinv;
    cbn [levels_loop seq].
  - exists st. rewrite Nat.add_0_r. auto.
  - assert (Hln : (l < n)%nat) by lia.
    destruct (level_step_inv Hh Hw Hq Hl Hln Hinv) as (st1 & E1 & Hinv1).
    rewrite E1. cbn [bind].
    assert (Hl1 : (1 <= S l)%nat) by lia.
    assert (Hlk1 : (S l + k <= n)%nat) by lia.
    destruct (IH (S l) st1 Hl1 Hlk1 Hinv1) as (st2 & E2 & Hinv2).
    exists st2. split; auto. now rewrite Nat.add_succ_r.
Qed.

(** The forward transform returns on an image with at least one row and one
    column and filter sets of the accepted lengths, and the shapes of what
    it returns follow [lowpass_dim]. *)
Lemma dtwavexfm2_ok (X : matrix) (R C n : nat)
    (biort : biort_filters) (qshift : qshift_filters) (sc : bool) :
  has_shape X R C -> (1 <= R)%nat -> (1 <= C)%nat ->
  biort_ok biort -> qshift_ok qshift ->
  exists res,
    dtwavexfm2 X n biort qshift sc = Ok res
    /\ has_shape (Yl res) (lowpass_dim (even_up R) n) (lowpass_dim (even_up C) n)
    /\ length (Yh res) = n
    /\ (forall i, (i < n)%nat ->
          exists T, nth i (Yh res) None = Some T
                    /\ has_shape3 T (lowpass_dim (even_up R) (S i) / 2)
                                    (lowpass_dim (even_up C) (S i) / 2) 6)
    /\ ((1 <= n)%nat ->
        Yscale res = if sc then Some (Some (Yl res) :: repeat None (n - 1)) else None).
Proof.
  intros HX HR HC Hb Hq. unfold dtwavexfm2.
  pose proof (extend_odd_shape HX HR) as HE.
  destruct (even_up_even HR) as (h & Eh & Hh).
  destruct (even_up_even HC) as (w & Ew & Hw).
  rewrite Eh, Ew in *.
  destruct n as [|n].
  - cbn [Nat.eqb]. eexists; split; [reflexivity|]. cbn [Yl Yh Yscale lowpass_dim].
    split; [exact HE|]. split; [reflexivity|]. split; [intros i Hi; lia|lia].
  - cbn [Nat.eqb].
    destruct (level1_ok HE Hh Hw Hb) as (LoLo & T & E1 & SL & ST).
    rewrite E1. cbn [bind fst snd].
    replace (S n - 1)%nat with n by lia.
    set (st1 := {| st_LoLo := LoLo;
                   st_Yh := list_set (repeat None (S n)) 0 (Some T);
                   st_Yscale := if sc then list_set (repeat None (S n)) 0 (Some LoLo)
                                else [] |}).
    assert (Hinv : xfm_inv (2 * h) (2 * w) (S n) sc 1 st1).
    { unfold xfm_inv, st1. cbn [st_LoLo st_Yh st_Yscale lowpass_dim].
      split; [exact SL|]. split; [now rewrite length_list_set, repeat_length|]. split.
      - intros i Hi. assert (i = 0)%nat as -> by lia. exists T.
        cbn [repeat list_set nth]. rewrite !half_of_2. auto.
      - destruct sc; auto. cbn [repeat list_set]. do 2 f_equal. lia. }
    assert (H11 : (1 <= 1)%nat) by lia.
    assert (H1n : (1 + n <= S n)%nat) by lia.
    destruct (levels_loop_inv Hh Hw Hq n H11 H1n Hinv)
      as (st' & E' & (SL' & HYh' & Hsub' & Hsc')).
    match goal with
    | |- context [levels_loop _ _ _ ?s] =>
        replace s with st1 by (unfold st1; destruct sc; reflexivity)
    end.
    rewrite E'. cbn [bind]. eexists; split; [reflexivity|].
    cbn [Yl Yh Yscale]. replace (1 + n)%nat with (S n) in * by lia.
    split; [exact SL'|]. split; [exact HYh'|]. split; [exact Hsub'|].
    intros _. rewrite Hsc'. replace (S n - 1)%nat with n by lia.
    destruct sc; reflexivity.
Qed.

(** Whatever the filters, when [dtwavexfm2] returns with [include_scale]
    set, slot 0 of [Yscale] holds the last lowpass image and no other slot
    was assigned. *)
Lemma levels_loop_scale (qshift : qshift_filters) (levels : list nat)
    (st st' : xfm_state) (rest : list (option matrix)) :
  levels_loop qshift true levels st = Ok st' ->
  st_Yscale st = Some (st_LoLo st) :: rest ->
  st_Yscale st' = Some (st_LoLo st') :: rest.
Proof.
  revert st. induction levels as [|level levels IH]; intros st; simpl.
  - now intros [= <-].
  - unfold level_step at 1.
    destruct (level_ge2 (st_LoLo st) qshift) as [r|e]; cbn [bind]; [|discriminate].
    intros Hrun Hsc. apply (IH _ Hrun). cbn [st_LoLo st_Yscale].
    now rewrite Hsc.
Qed.

Lemma dtwavexfm2_scale (X : matrix) (n : nat)
    (biort : biort_filters) (qshift : qshift_filters) (res : xfm_result) :
  (1 <= n)%nat ->
  dtwavexfm2 X n biort qshift true = Ok res ->
  Yscale res = Some (Some (Yl res) :: repeat None (n - 1)).
Proof.
  intros Hn. unfold dtwavexfm2.
  destruct n as [|n]; [lia|]. cbn [Nat.eqb].
  destruct (level1 (extend_odd X) biort) as [r|e]; cbn [bind]; [|discriminate].
  destruct (levels_loop _ _ _ _) as [st'|e] eqn:E; cbn [bind]; [|discriminate].
  intros [= <-]. cbn [Yl Yscale]. f_equal.
  apply (levels_loop_scale _ _ _ E). cbn [st_LoLo st_Yscale repeat list_set].
  do 2 f_equal. lia.
Qed.

End TransformShapes.

(** C3, as stated, fails: on a 4x4 image and two levels the lowpass image
    that enters level 2 is 4x4 (no padding is needed), and the subband
    tensor of level 2 is 1x1x6, not 2x2x6. *)
Lemma subband_not_half_of_input :
  exists res prev T,
    dtwavexfm2 image4 2 legall two_taps false = Ok res
    /\ dtwavexfm2 image4 1 legall two_taps false = Ok prev
    /\ nth 1 (Yh res) None = Some T
    /\ shape (pad_lowpass (Yl prev)) = (4, 4)%nat
    /\ shape3 T = (1, 1, 6)%nat
    /\ shape3 T <> (nrows (pad_lowpass (Yl prev)) / 2,
                    ncols (pad_lowpass (Yl prev)) / 2, 6)%nat.
Proof.
  eexists _, _, _.
  split; [vm_compute; reflexivity|].
  split; [vm_compute; reflexivity|].
  split; [vm_compute; reflexivity|].
  split; [vm_compute; reflexivity|].
  split; [vm_compute; reflexivity|].
  vm_compute. discriminate.
Qed.

(** C3, amended.  For an image with at least one row and one column and
    filter sets of the accepted lengths, [dtwavexfm2] returns one subband
    tensor per level, of shape [(H/2, W/2, 6)] for [(H, W)] the shape of the
    lowpass image that the level computes.  At level 1 that is the shape of
    the extended input, so the tensor has half its rows and columns.  At a
    level [>= 2] the lowpass image has half the rows and columns of the
    padded lowpass image that enters the level, so the tensor has a
    quarter of them. *)
Theorem subband_shapes {F : Type} {SF : Scalar F}
    (X : list (list F)) (R C n : nat)
    (biort : biort_filters) (qshift : qshift_filters) (sc : bool) :
  has_shape X R C -> (1 <= R)%nat -> (1 <= C)%nat ->
  biort_ok biort -> qshift_ok qshift ->
  exists res,
    dtwavexfm2 X n biort qshift sc = Ok res
    /\ length (Yh res) = n
    /\ ((1 <= n)%nat ->
        exists T,
          nth 0 (Yh res) None = Some T
          /\ has_shape3 T (nrows (extend_odd X) / 2) (ncols (extend_odd X) / 2) 6)
    /\ (forall l, (1 <= l)%nat -> (l < n)%nat ->
        exists T prev cur,
          nth l (Yh res) None = Some T
          /\ dtwavexfm2 X l biort qshift sc = Ok prev
          /\ dtwavexfm2 X (S l) biort qshift sc = Ok cur
          /\ has_shape3 T (nrows (Yl cur) / 2) (ncols (Yl cur) / 2) 6
          /\ nrows (Yl cur) = (nrows (pad_lowpass (Yl prev)) / 2)%nat
          /\ ncols (Yl cur) = (ncols (pad_lowpass (Yl prev)) / 2)%nat
          /\ has_shape3 T (nrows (pad_lowpass (Yl prev)) / 4)
                          (ncols (pad_lowpass (Yl prev)) / 4) 6).
Proof.
  intros HX HR HC Hb Hq.
  destruct (dtwavexfm2_ok n sc HX HR HC Hb Hq) as (res & E & _ & Hlen & Hsub & _).
  exists res. split; [exact E|]. split; [exact Hlen|].
  destruct (even_up_even HR) as (h & Eh & Hh).
  destruct (even_up_even HC) as (w & Ew & Hw).
  pose proof (extend_odd_shape HX HR) as HE.
  split.
  - intros Hn. destruct (Hsub 0%nat ltac:(lia)) as (T & HT & ST).
    exists T. split; [exact HT|].
    rewrite (rows_in_nrows HE), (rows_in_ncols (width_invariant _) HE ltac:(lia)).
    exact ST.
  - intros l Hl Hln. destruct (Hsub l Hln) as (T & HT & ST).
    destruct (dtwavexfm2_ok l sc HX HR HC Hb Hq) as (prev & Eprev & Sprev & _).
    destruct (dtwavexfm2_ok (S l) sc HX HR HC Hb Hq) as (cur & Ecur & Scur & _).
    exists T, prev, cur.
    rewrite Eh, Ew in *.
    destruct (lowpass_dim_even l Hh) as (k1 & E1 & Hk1).
    destruct (lowpass_dim_even l Hw) as (k2 & E2 & Hk2).
    destruct (lowpass_dim_even (S l) Hh) as (c1 & F1 & Hc1).
    destruct (lowpass_dim_even (S l) Hw) as (c2 & F2 & Hc2).
    assert (D1 : lowpass_dim (2 * h) (S l) = (pad4 (lowpass_dim (2 * h) l) / 2)%nat)
      by (destruct l; [lia|]; apply lowpass_dim_step).
    assert (D2 : lowpass_dim (2 * w) (S l) = (pad4 (lowpass_dim (2 * w) l) / 2)%nat)
      by (destruct l; [lia|]; apply lowpass_dim_step).
    assert (HPs : has_shape (pad_lowpass (Yl prev))
                    (pad4 (lowpass_dim (2 * h) l)) (pad4 (lowpass_dim (2 * w) l))).
    { apply pad_lowpass_shape; [exact Sprev|]. lia. }
    assert (Hp1 : (1 <= pad4 (lowpass_dim (2 * h) l))%nat).
    { unfold pad4. destruct (_ =? 0)%nat; lia. }
    rewrite (rows_in_nrows HPs), (rows_in_ncols (width_invariant _) HPs Hp1).
    rewrite (rows_in_nrows Scur), (rows_in_ncols (width_invariant _) Scur ltac:(lia)).
    repeat (split; [first [assumption | exact D1 | exact D2]|]).
    replace 4%nat with (2 * 2)%nat by reflexivity.
    rewrite <- !Nat.Div0.div_div, <- D1, <- D2. exact ST.
Qed.

Lemma subband_shapes_witness :
  exists res,
    dtwavexfm2 image4 2 legall two_taps false = Ok res
    /\ length (Yh res) = 2%nat
    /\ ((1 <= 2)%nat ->
        exists T,
          nth 0 (Yh res) None = Some T
          /\ has_shape3 T (nrows (extend_odd image4) / 2) (ncols (extend_odd image4) / 2) 6)
    /\ (forall l, (1 <= l)%nat -> (l < 2)%nat ->
        exists T prev cur,
          nth l (Yh res) None = Some T
          /\ dtwavexfm2 image4 l legall two_taps false = Ok prev
          /\ dtwavexfm2 image4 (S l) legall two_taps false = Ok cur
          /\ has_shape3 T (nrows (Yl cur) / 2) (ncols (Yl cur) / 2) 6
          /\ nrows (Yl cur) = (nrows (pad_lowpass (Yl prev)) / 2)%nat
          /\ ncols (Yl cur) = (ncols (pad_lowpass (Yl prev)) / 2)%nat
          /\ has_shape3 T (nrows (pad_lowpass (Yl prev)) / 4)
                          (ncols (pad_lowpass (Yl prev)) / 4) 6).
Proof.
  apply (@subband_shapes Q Scalar_Q image4 4 4 2 legall two_taps false).
  - split; [reflexivity | repeat constructor].
  - lia.
  - lia.
  - split; reflexivity.
  - repeat split; simpl; lia.
Defined.

(** C8.  With [include_scale] set and two levels, [dtwavexfm2] returns a
    [Yscale] whose slot 0 holds the lowpass image of level 2, which is not
    the one of level 1, and whose slot 1 was never assigned. *)
Theorem yscale_slot_0_overwritten :
  exists res one,
    dtwavexfm2 image4 2 legall two_taps true = Ok res
    /\ dtwavexfm2 image4 1 legall two_taps true = Ok one
    /\ Yscale one = Some [Some (Yl one)]
    /\ Yscale res = Some [Some (Yl res); None]
    /\ shape (Yl one) = (4, 4)%nat
    /\ shape (Yl res) = (2, 2)%nat.
Proof.
  eexists _, _.
  split; [vm_compute; reflexivity|].
  split; [vm_compute; reflexivity|].
  repeat split; vm_compute; reflexivity.
Qed.

(* ================================================================= *)
(** * Further properties *)
(* ================================================================= *)

(** ** What reflect computes for the filters *)

Lemma sym_ext_in_range (r : nat) (z : Z) :
  (0 <= z < Z.of_nat r)%Z -> sym_ext r z = z.
Proof.
  intros Hz. unfold sym_ext. cbv zeta.
  rewrite Z.mod_small by lia.
  now rewrite (proj2 (Z.ltb_lt _ _)) by lia.
Qed.

Lemma sym_ext_bounds (r : nat) (z : Z) :
  (1 <= r)%nat -> (0 <= sym_ext r z < Z.of_nat r)%Z.
Proof.
  intros Hr. unfold sym_ext. cbv zeta.
  pose proof (Z.mod_pos_bound z (2 * Z.of_nat r) ltac:(lia)) as Hp.
  destruct (z mod (2 * Z.of_nat r) <? Z.of_nat r)%Z eqn:E.
  - apply Z.ltb_lt in E. lia.
  - apply Z.ltb_ge in E. lia.
Qed.

Lemma mod_mirror (n z : Z) :
  (0 < n)%Z -> ((n - 1 - z) mod n = n - 1 - z mod n)%Z.
Proof.
  intros Hn. pose proof (Z.mod_pos_bound z n Hn) as Hp.
  symmetry. apply (Z.mod_unique _ _ (- (z / n))); [left; lia|].
  pose proof (Z.div_mod z n ltac:(lia)) as Hd. lia.
Qed.

Lemma sym_ext_mirror (r : nat) (z : Z) :
  (1 <= r)%nat -> sym_ext r (2 * Z.of_nat r - 1 - z) = sym_ext r z.
Proof.
  intros Hr. unfold sym_ext. cbv zeta.
  rewrite mod_mirror by lia.
  pose proof (Z.mod_pos_bound z (2 * Z.of_nat r) ltac:(lia)) as Hp.
  destruct (z mod (2 * Z.of_nat r) <? Z.of_nat r)%Z eqn:E1;
    destruct (2 * Z.of_nat r - 1 - z mod (2 * Z.of_nat r) <? Z.of_nat r)%Z eqn:E2;
    try apply Z.ltb_lt in E1; try apply Z.ltb_ge in E1;
    try apply Z.ltb_lt in E2; try apply Z.ltb_ge in E2; lia.
Qed.

Lemma sym_ext_mirror_0 (r : nat) (z : Z) :
  (1 <= r)%nat -> sym_ext r (- 1 - z) = sym_ext r z.
Proof.
  intros Hr. rewrite <- (sym_ext_mirror (-1 - z) Hr).
  unfold sym_ext. cbv zeta.
  replace (2 * Z.of_nat r - 1 - (-1 - z))%Z with (z + 1 * (2 * Z.of_nat r))%Z by lia.
  now rewrite Z.mod_add by lia.
Qed.

(** A relation between the argument and the array in the loop that both
    reflections keep is kept by the loop. *)
Lemma reflect_loop_keeps (I : Q -> Q -> Prop) (minx maxx : Q) :
  (forall v0 v, I v0 v -> I v0 (fold_up minx v)) ->
  (forall v0 v, I v0 v -> I v0 (fold_down maxx v)) ->
  forall fuel l0 l l',
    Forall2 I l0 l -> reflect_loop fuel minx maxx l = Some l' -> Forall2 I l0 l'.
Proof.
  intros Hup Hdown. induction fuel as [|fuel IH]; intros l0 l l' Hl; simpl;
    destruct (existsb _ l); try discriminate; try (intros [= <-]; auto).
  apply IH. clear - Hl Hup Hdown.
  induction Hl; simpl; constructor; auto.
Qed.

Lemma same_row_refl (r : nat) (z : Z) : same_row r (inject_Z z) (inject_Z z).
Proof. exists z, z. repeat split; reflexivity. Qed.

Lemma fold_down_same_row (r : nat) (v0 v : Q) :
  (1 <= r)%nat -> same_row r v0 v ->
  same_row r v0 (fold_down (inject_Z (Z.of_nat r) - (1#2)) v).
Proof.
  intros Hr (z0 & z & H0 & Hv & Hs). unfold fold_down.
  destruct (Qltb _ v); [|exists z0, z; auto].
  exists z0, (2 * Z.of_nat r - 1 - z)%Z. split; [exact H0|]. split.
  - rewrite Hv. unfold Zminus.
    rewrite !inject_Z_plus, inject_Z_mult, !inject_Z_opp. simpl. ring.
  - now rewrite sym_ext_mirror.
Qed.

Lemma fold_up_same_row (r : nat) (v0 v : Q) :
  (1 <= r)%nat -> same_row r v0 v -> same_row r v0 (fold_up (-(1#2)) v).
Proof.
  intros Hr (z0 & z & H0 & Hv & Hs). unfold fold_up.
  destruct (Qltb v _); [|exists z0, z; auto].
  exists z0, (- 1 - z)%Z. split; [exact H0|]. split.
  - rewrite Hv. unfold Zminus.
    rewrite !inject_Z_plus, !inject_Z_opp. simpl. ring.
  - now rewrite sym_ext_mirror_0.
Qed.

Lemma half_lt_rows (r : nat) :
  (1 <= r)%nat -> -(1#2) < inject_Z (Z.of_nat r) - (1#2).
Proof.
  intros Hr.
  assert (H : inject_Z 1 <= inject_Z (Z.of_nat r)) by (rewrite <- Zle_Qle; lia).
  change (inject_Z 1) with 1 in H. lra.
Qed.

(** On the index arrays of the filters [reflect] is the symmetric
    extension: index [i] becomes [sym_ext r i]. *)
Lemma reflect_idx_sym_ext (x : list Z) (r : nat) :
  (1 <= r)%nat ->
  reflect_idx x (-(1#2)) (inject_Z (Z.of_nat r) - (1#2)) = Ok (map (sym_ext r) x).
Proof.
  intros Hr. unfold reflect_idx.
  pose proof (half_lt_rows Hr) as Hlt.
  set (maxx := inject_Z (Z.of_nat r) - (1#2)) in *.
  destruct (reflect_spec (map inject_Z x) Hlt) as (l' & Hrun & Hrel).
  rewrite Hrun. f_equal.
  assert (Hsame : Forall2 (same_row r) (map inject_Z x) l').
  { unfold reflect in Hrun. rewrite reflect_at_loop in Hrun. simpl in Hrun.
    destruct (reflect_loop _ _ _ _) as [l|] eqn:E; simpl in Hrun; [|discriminate].
    injection Hrun as <-. unfold load; simpl.
    eapply (@reflect_loop_keeps (same_row r)); [| |
      |exact E].
    - intros v0 v. now apply fold_up_same_row.
    - intros v0 v. now apply fold_down_same_row.
    - unfold load; simpl. clear - Hr. induction x as [|z x IH]; simpl; constructor; auto.
      apply fold_down_same_row; [|apply same_row_refl]. exact Hr. }
  clear Hrun. revert l' Hrel Hsame.
  induction x as [|z0 x IH]; intros l' Hrel Hsame; simpl in *;
    inversion Hrel as [|? v ? l'' [[H1 H2] _] Hrel']; subst;
    inversion Hsame as [|? ? ? ? (y0 & y & E0 & Ev & Es) Hsame']; subst; simpl; auto.
  f_equal; [|now apply IH].
  assert (Ey : z0 = y0) by (unfold Qeq in E0; simpl in E0; lia). subst y0.
  rewrite (Qfloor_comp _ _ Ev), Qfloor_Z.
  rewrite <- Es. symmetry. apply sym_ext_in_range.
  rewrite Ev in H1, H2. unfold maxx in H2. split.
  - assert (H : inject_Z (-1) < inject_Z y) by (change (inject_Z (-1)) with (-(1)); lra).
    rewrite <- Zlt_Qlt in H. lia.
  - assert (H : inject_Z y < inject_Z (Z.of_nat r)) by lra.
    rewrite <- Zlt_Qlt in H. lia.
Qed.

Lemma nth_map_seq {A : Type} (f : nat -> A) (n k : nat) (d : A) :
  (k < n)%nat -> nth k (map f (seq 0 n)) d = f k.
Proof.
  intros Hk. rewrite (nth_indep _ d (f 0%nat)) by (now rewrite length_map, length_seq).
  rewrite (map_nth f (seq 0 n) 0%nat k). now rewrite seq_nth.
Qed.

(** The index array of the filters, extended by [m <= r] rows at both
    ends: the first [m] rows backwards, the rows, the last [m] rows
    backwards. *)
Lemma sym_ext_arange (r m : nat) :
  (1 <= r)%nat -> (m <= r)%nat ->
  map (sym_ext r) (arange (- Z.of_nat m) (Z.of_nat r + Z.of_nat m) 1)
  = map Z.of_nat (rev (seq 0 m) ++ seq 0 r ++ rev (seq (r - m) m)).
Proof.
  intros Hr Hm.
  apply (nth_ext _ _ 0%Z 0%Z).
  - rewrite !length_map, length_arange_1, !length_app, !length_rev, !length_seq. lia.
  - intros k Hk. rewrite length_map, length_arange_1 in Hk.
    unfold arange. rewrite map_map.
    replace (Z.to_nat ((Z.of_nat r + Z.of_nat m - - Z.of_nat m + 1 - 1) / 1))
      with (m + r + m)%nat by (rewrite Z.div_1_r; lia).
    rewrite nth_map_seq by lia.
    match goal with
    | |- _ = nth k (map Z.of_nat ?L) 0%Z =>
        change (nth k (map Z.of_nat L) 0%Z) with (nth k (map Z.of_nat L) (Z.of_nat 0));
        rewrite (map_nth Z.of_nat L 0%nat k)
    end.
    destruct (Nat.lt_ge_cases k m) as [H1|H1].
    + rewrite app_nth1 by (now rewrite length_rev, length_seq).
      rewrite rev_nth, length_seq, seq_nth by (rewrite ?length_seq; lia).
      rewrite <- sym_ext_mirror_0 by exact Hr.
      rewrite sym_ext_in_range; lia.
    + rewrite app_nth2 by (rewrite length_rev, length_seq; lia).
      rewrite length_rev, length_seq.
      destruct (Nat.lt_ge_cases (k - m) r) as [H2|H2].
      * rewrite app_nth1 by (now rewrite length_seq).
        rewrite seq_nth by lia. rewrite sym_ext_in_range; lia.
      * rewrite app_nth2 by (rewrite length_seq; lia). rewrite length_seq.
        rewrite rev_nth, length_seq, seq_nth by (rewrite ?length_seq; lia).
        rewrite <- sym_ext_mirror by exact Hr.
        rewrite sym_ext_in_range; lia.
Qed.

(** ** Columns and centred blocks *)

(** X3.  [as_column_vector(v)] of a one-dimensional [v] is a column of
    [len(v)] rows that holds the values of [v] in order, and applying the
    function to that column changes nothing.  A two-dimensional array
    whose number of rows is not 1 is returned as it is. *)
Theorem as_column_vector_is_column {F : Type} {SF : Scalar F}
    (v : list F) (M : list (list F)) :
  has_shape (as_column_vector v) (length v) 1
  /\ concat (as_column_vector v) = v
  /\ as_column_vector_2d (as_column_vector v) = as_column_vector v
  /\ as_column_vector_2d [v] = as_column_vector v
  /\ ((nrows M =? 1)%nat = false -> as_column_vector_2d M = M).
Proof.
  split; [|split; [|split; [|split]]].
  - rewrite as_column_vector_column. split.
    + now rewrite length_map.
    + apply Forall_map. apply Forall_forall. reflexivity.
  - apply concat_as_column_vector.
  - rewrite as_column_vector_column. unfold as_column_vector_2d, nrows.
    rewrite length_map. destruct v as [|a [|b v]]; reflexivity.
  - reflexivity.
  - intros H. unfold as_column_vector_2d. now rewrite H.
Qed.

Lemma half_diff_le (R r : nat) : (r <= R)%nat -> ((R - r) / 2 + r <= R)%nat.
Proof.
  intros H. pose proof (Nat.div_mod_eq (R - r) 2). lia.
Qed.

Lemma centered_start (R r : nat) :
  (r <= R)%nat -> ((Z.of_nat R - Z.of_nat r) / 2)%Z = Z.of_nat ((R - r) / 2).
Proof.
  intros H. rewrite <- Nat2Z.inj_sub by exact H.
  change 2%Z with (Z.of_nat 2). now rewrite <- Nat2Z.inj_div.
Qed.

(** [_centered] as a block of the array. *)
Lemma centered_eq {F : Type} {SF : Scalar F} (arr : list (list F)) (R C r c : nat) :
  has_shape arr R C -> (1 <= R)%nat -> (r <= R)%nat -> (c <= C)%nat ->
  _centered arr (r, c)
  = map (fun row => firstn c (skipn ((C - c) / 2) row))
        (firstn r (skipn ((R - r) / 2) arr)).
Proof.
  intros Harr HR Hr Hc. unfold _centered.
  rewrite (shape_has_shape Harr HR). cbn [fst snd].
  rewrite (centered_start Hr), (centered_start Hc), <- !Nat2Z.inj_add.
  pose proof (half_diff_le Hr) as H1. pose proof (half_diff_le Hc) as H2.
  destruct Harr as [Hlen Hrows].
  rewrite py_slice_length by lia.
  replace ((R - r) / 2 + r - (R - r) / 2)%nat with r by lia.
  apply map_ext_in. intros row Hin.
  assert (Hrow : length row = C).
  { pose proof (Forall_firstn r (Forall_skipn ((R - r) / 2) Hrows)) as Hsub.
    rewrite Forall_forall in Hsub. now apply Hsub. }
  rewrite py_slice_length by lia.
  f_equal. lia.
Qed.

(** X4.  [_centered(arr, newsize)] of an array of [R x C] for a size
    [r x c] that fits is the block of [r] rows and [c] columns that starts
    at row [(R - r) // 2] and column [(C - c) // 2]; for the size of the
    array itself it is the array. *)
Theorem centered_block {F : Type} {SF : Scalar F}
    (arr : list (list F)) (R C r c : nat) (d : F) :
  has_shape arr R C -> (1 <= R)%nat -> (r <= R)%nat -> (c <= C)%nat ->
  has_shape (_centered arr (r, c)) r c
  /\ (forall i j, (i < r)%nat -> (j < c)%nat ->
        nth j (nth i (_centered arr (r, c)) []) d
        = nth ((C - c) / 2 + j) (nth ((R - r) / 2 + i) arr []) d)
  /\ _centered arr (R, C) = arr.
Proof.
  intros Harr HR Hr Hc.
  pose proof (half_diff_le Hr) as H1. pose proof (half_diff_le Hc) as H2.
  split; [|split].
  - rewrite (centered_eq Harr HR Hr Hc). destruct Harr as [Hlen Hrows]. split.
    + rewrite length_map, length_firstn, length_skipn. lia.
    + apply Forall_map. apply Forall_firstn, Forall_skipn.
      eapply Forall_impl; [|exact Hrows]. intros row Hrow. cbv beta in Hrow.
      rewrite length_firstn, length_skipn. lia.
  - intros i j Hi Hj. rewrite (centered_eq Harr HR Hr Hc).
    destruct Harr as [Hlen Hrows].
    set (g := fun row : list F => firstn c (skipn ((C - c) / 2) row)).
    rewrite (nth_indep _ [] (g []))
      by (rewrite length_map, length_firstn, length_skipn; lia).
    rewrite map_nth. unfold g.
    rewrite nth_firstn, (proj2 (Nat.ltb_lt _ _) Hj), nth_skipn.
    rewrite nth_firstn, (proj2 (Nat.ltb_lt _ _) Hi), nth_skipn. reflexivity.
  - assert (HRR : (R <= R)%nat) by lia. assert (HCC : (C <= C)%nat) by lia.
    rewrite (centered_eq Harr HR HRR HCC). destruct Harr as [Hlen Hrows].
    rewrite !Nat.sub_diag. change (0 / 2)%nat with 0%nat. cbn [skipn].
    rewrite <- Hlen, firstn_all. rewrite <- (map_id arr) at 2.
    apply map_ext_in. intros row Hin.
    rewrite Forall_forall in Hrows. rewrite <- (Hrows row Hin). apply firstn_all.
Qed.

Lemma centered_block_witness :
  has_shape (_centered [[1; 2; 3; 4]; [5; 6; 7; 8]; [9; 10; 11; 12]] (1, 2)%nat) 1 2
  /\ (forall i j, (i < 1)%nat -> (j < 2)%nat ->
        nth j (nth i (_centered [[1; 2; 3; 4]; [5; 6; 7; 8]; [9; 10; 11; 12]] (1, 2)%nat) []) 0
        = nth ((4 - 2) / 2 + j)
              (nth ((3 - 1) / 2 + i) [[1; 2; 3; 4]; [5; 6; 7; 8]; [9; 10; 11; 12]] []) 0)
  /\ _centered [[1; 2; 3; 4]; [5; 6; 7; 8]; [9; 10; 11; 12]] (3, 4)%nat
     = [[1; 2; 3; 4]; [5; 6; 7; 8]; [9; 10; 11; 12]].
Proof.
  apply (@centered_block Q Scalar_Q [[1; 2; 3; 4]; [5; 6; 7; 8]; [9; 10; 11; 12]] 3 4 1 2 0).
  - split; [reflexivity | repeat constructor].
  - lia.
  - lia.
  - lia.
Defined.

(** ** The two paths of _column_convolve *)

Lemma firstn_seq_le (s k len : nat) : (k <= len)%nat -> firstn k (seq s len) = seq s k.
Proof.
  revert s len. induction k as [|k IH]; intros s [|len] H; simpl; try lia; auto.
  f_equal. apply IH. lia.
Qed.

Lemma seq_from (s len : nat) : seq s len = map (fun i => (s + i)%nat) (seq 0 len).
Proof.
  induction s as [|s IH].
  - simpl. now rewrite map_id.
  - rewrite <- seq_shift, IH, map_map. reflexivity.
Qed.

Section ConvolutionPaths.

Context {F : Type} {SF : Scalar F}.

Hypothesis Hmul0 : forall a : F, smul s0 a = s0.
Hypothesis Hadd0 : sadd s0 s0 = s0.

Lemma vadd_zero_scaled (c : nat) (row : list F) :
  length row = c -> vadd (vscale s0 row) (repeat s0 c) = repeat s0 c.
Proof.
  intros <-. unfold vadd, vscale. induction row as [|a row IH]; simpl; auto.
  now rewrite Hmul0, Hadd0, IH.
Qed.

Lemma lincomb_zero_taps (c k : nat) (rows : list (list F)) :
  Forall (fun row => length row = c) rows ->
  lincomb c (repeat s0 k) rows = repeat s0 c.
Proof.
  intros H. revert k. induction H as [|row rows Hrow _ IH]; intros [|k]; simpl; auto.
  rewrite IH. now apply vadd_zero_scaled.
Qed.

(** Taps that are zero do not contribute. *)
Lemma lincomb_padded (c k : nat) (h : list F) (rows1 rows2 : list (list F)) :
  length rows1 = length h -> Forall (fun row => length row = c) rows2 ->
  lincomb c (h ++ repeat s0 k) (rows1 ++ rows2) = lincomb c h rows1.
Proof.
  revert rows1. induction h as [|a h IH]; intros [|row rows1] Hlen H2; simpl in *;
    try discriminate.
  - now apply lincomb_zero_taps.
  - f_equal. apply IH; auto.
Qed.

(** Where the kernel overlaps the image entirely, the rows that the
    circular convolution combines are the rows under the kernel. *)
Lemma rows_under_kernel (X : list (list F)) (zr : list F) (n r m i : nat) :
  length X = r -> (1 <= m)%nat -> (i + m <= r)%nat -> (r <= n)%nat ->
  map (fun k => nth ((m - 1 + i + n - k) mod n) (fft_pad zr n X) zr) (seq 0 m)
  = rev (firstn m (skipn i X)).
Proof.
  intros Hlen Hm Him Hrn.
  assert (HL : length (firstn m (skipn i X)) = m)
    by (rewrite length_firstn, length_skipn; lia).
  apply (nth_ext _ _ zr zr).
  - now rewrite length_map, length_seq, length_rev.
  - intros k Hk. rewrite length_map, length_seq in Hk.
    rewrite nth_map_seq by exact Hk.
    replace (m - 1 + i + n - k)%nat with ((m - 1 + i - k) + 1 * n)%nat by lia.
    rewrite Nat.Div0.mod_add, Nat.mod_small by lia.
    unfold fft_pad.
    rewrite nth_firstn, (proj2 (Nat.ltb_lt _ _)) by lia.
    rewrite app_nth1 by lia.
    rewrite rev_nth, HL by lia.
    rewrite nth_firstn, (proj2 (Nat.ltb_lt _ _)) by lia.
    rewrite nth_skipn. f_equal. lia.
Qed.

(** On either path, direct or by FFT, row [i] of the result is
    [sum_k h[k] * X[i + m - 1 - k]]. *)
Lemma column_convolve_valid (X : list (list F)) (h : list F) (r c : nat) :
  has_shape X r c -> (1 <= c)%nat -> (1 <= length h)%nat -> (length h <= r)%nat ->
  _column_convolve X (as_column_vector h)
  = Ok (map (fun i => lincomb c h (rev (firstn (length h) (skipn i X))))
            (seq 0 (r - length h + 1))).
Proof.
  intros HX Hc Hm1 Hmr. unfold _column_convolve.
  rewrite concat_as_column_vector, (rows_in_nrows HX).
  assert (Hr : (1 <= r)%nat) by lia.
  rewrite (rows_in_ncols (width_invariant c) HX Hr).
  set (m := length h) in *.
  destruct (Z.of_nat r + Z.of_nat m - 1 <? 32)%Z eqn:E.
  - unfold convolve2d_valid.
    rewrite concat_as_column_vector, (rows_in_nrows HX),
      (rows_in_ncols (width_invariant c) HX Hr). fold m.
    replace ((1 <=? m)%nat && (m <=? r)%nat && (1 <=? c)%nat) with true
      by (symmetry; rewrite !andb_true_iff; repeat split; apply Nat.leb_le; lia).
    reflexivity.
  - apply Z.ltb_ge in E. f_equal.
    replace (Z.of_nat r + Z.of_nat m - 1)%Z with (Z.of_nat (r + m - 1)) in * by lia.
    set (full := (r + m - 1)%nat) in *.
    assert (Hf : (Z.of_nat full <= 2 ^ Z.log2_up (Z.of_nat full))%Z)
      by (apply Z.log2_up_spec; lia).
    set (n := Z.to_nat (2 ^ Z.log2_up (Z.of_nat full))) in *.
    assert (Hn : (full <= n)%nat) by (unfold n; lia).
    rewrite Nat2Z.id.
    replace (Z.abs_nat (Z.of_nat r - Z.of_nat m) + 1)%nat with (r - m + 1)%nat by lia.
    unfold circular_convolve.
    rewrite (rows_in_ncols (width_invariant c) HX Hr).
    set (zr := repeat s0 c).
    set (g := fun i => lincomb c (fft_pad s0 n h)
                         (map (fun k => nth ((i + n - k) mod n) (fft_pad zr n X) zr)
                              (seq 0 n))).
    assert (Hpad : Forall (fun row => length row = c) (fft_pad zr n X)).
    { unfold fft_pad. apply Forall_firstn. apply Forall_app. split; [apply HX|].
      apply Forall_repeat. apply repeat_length. }
    assert (Hg : forall i, length (g i) = c).
    { intros i. unfold g. apply (lincomb_inv (width_invariant c)).
      apply Forall_map. apply Forall_forall. intros k _.
      destruct (nth_in_or_default ((i + n - k) mod n) (fft_pad zr n X) zr) as [Hin|Hd].
      - rewrite Forall_forall in Hpad. now apply Hpad.
      - rewrite Hd. apply repeat_length. }
    rewrite firstn_map, (firstn_seq_le 0) by exact Hn.
    assert (Hconv : has_shape (map g (seq 0 full)) full c).
    { split; [now rewrite length_map, length_seq|].
      apply Forall_map. apply Forall_forall. intros i _. apply Hg. }
    assert (H1f : (1 <= full)%nat) by lia.
    assert (Hrf : (r - m + 1 <= full)%nat) by lia.
    rewrite (centered_eq Hconv H1f Hrf (Nat.le_refl c)).
    rewrite Nat.sub_diag. change (0 / 2)%nat with 0%nat. cbn [skipn].
    replace ((full - (r - m + 1)) / 2)%nat with (m - 1)%nat
      by (unfold full; replace (r + m - 1 - (r - m + 1))%nat with ((m - 1) * 2)%nat by lia;
          now rewrite Nat.div_mul).
    rewrite skipn_map, skipn_seq, firstn_map, firstn_seq_le by lia.
    rewrite map_map. cbn [Nat.add]. rewrite (seq_from (m - 1)), map_map.
    apply map_ext_in. intros i Hi. apply in_seq in Hi.
    rewrite <- (Hg (m - 1 + i)%nat) at 1. rewrite firstn_all.
    unfold g. clear g Hg Hconv.
    assert (Ehp : fft_pad s0 n h = h ++ repeat s0 (n - m)).
    { unfold fft_pad. apply firstn_all2. rewrite length_app, repeat_length. fold m. lia. }
    rewrite Ehp.
    replace (seq 0 n) with (seq 0 m ++ seq m (n - m))
      by (rewrite <- seq_app; f_equal; lia).
    rewrite map_app, lincomb_padded.
    + f_equal. apply rows_under_kernel with (r := r); try lia. apply HX.
    + now rewrite length_map, length_seq.
    + apply Forall_map. apply Forall_forall. intros k _.
      destruct (nth_in_or_default ((m - 1 + i + n - k) mod n) (fft_pad zr n X) zr) as [Hin|Hd].
      * rewrite Forall_forall in Hpad. now apply Hpad.
      * rewrite Hd. apply repeat_length.
Qed.

End ConvolutionPaths.

Lemma Q_mul_zero_l (a : Q) : @smul Q Scalar_Q s0 a = s0.
Proof. change (Qred (0 * a) = Qred 0). apply Qred_complete. ring. Qed.

Lemma Q_add_zero_zero : @sadd Q Scalar_Q s0 s0 = s0.
Proof. reflexivity. Qed.

(** X5.  For an image of [r] rows and a kernel of [1 <= m <= r] taps,
    [_column_convolve] returns the [r - m + 1] rows
    [sum_k h[k] * X[i + m - 1 - k]] on both of its paths: the path by FFT,
    taken from [r + m - 1 >= 32] on, returns what the direct convolution
    returns.  The scalars are assumed to satisfy [0 * a = 0] and
    [0 + 0 = 0]. *)
Theorem column_convolve_paths_agree {F : Type} {SF : Scalar F}
    (X : list (list F)) (h : list F) (r c : nat) :
  (forall a : F, smul s0 a = s0) -> sadd s0 s0 = s0 ->
  has_shape X r c -> (1 <= c)%nat -> (1 <= length h)%nat -> (length h <= r)%nat ->
  _column_convolve X (as_column_vector h)
  = Ok (map (fun i => lincomb c h (rev (firstn (length h) (skipn i X))))
            (seq 0 (r - length h + 1)))
  /\ _column_convolve X (as_column_vector h) = convolve2d_valid X (as_column_vector h).
Proof.
  intros Hmul0 Hadd0 HX Hc Hm1 Hmr.
  rewrite (column_convolve_valid Hmul0 Hadd0 h HX Hc Hm1 Hmr). split; [reflexivity|].
  unfold convolve2d_valid.
  rewrite concat_as_column_vector, (rows_in_nrows HX),
    (rows_in_ncols (width_invariant c) HX ltac:(lia)).
  replace ((1 <=? length h)%nat && (length h <=? r)%nat && (1 <=? c)%nat) with true
    by (symmetry; rewrite !andb_true_iff; repeat split; apply Nat.leb_le; lia).
  reflexivity.
Qed.

Lemma column_convolve_paths_agree_witness :
  _column_convolve (map (fun k => [inject_Z (Z.of_nat k)]) (seq 0 32)) (as_column_vector [1; 2])
  = Ok (map (fun i => lincomb 1 [1; 2]
                        (rev (firstn (length [1; 2])
                                (skipn i (map (fun k => [inject_Z (Z.of_nat k)]) (seq 0 32))))))
            (seq 0 (32 - length [1; 2] + 1)))
  /\ _column_convolve (map (fun k => [inject_Z (Z.of_nat k)]) (seq 0 32)) (as_column_vector [1; 2])
     = convolve2d_valid (map (fun k => [inject_Z (Z.of_nat k)]) (seq 0 32))
                        (as_column_vector [1; 2]).
Proof.
  apply (@column_convolve_paths_agree Q Scalar_Q
           (map (fun k => [inject_Z (Z.of_nat k)]) (seq 0 32)) [1; 2] 32 1).
  - exact Q_mul_zero_l.
  - exact Q_add_zero_zero.
  - split; [reflexivity | repeat constructor].
  - lia.
  - simpl; lia.
  - simpl; lia.
Defined.

(** ** colfilter filters the symmetric extension *)

Lemma take_in_range {A : Type} (l : list A) (idx : list Z) (d : A) :
  Forall (fun i => 0 <= i < Z.of_nat (length l))%Z idx ->
  take l idx = Ok (map (fun i => nth (Z.to_nat i) l d) idx).
Proof.
  intros H. unfold take. apply mapM_map.
  eapply Forall_impl; [|exact H]. intros i Hi. cbv beta in Hi.
  rewrite norm_index_in_range by exact Hi. cbn [bind].
  destruct (nth_error l (Z.to_nat i)) as [a|] eqn:E.
  - now rewrite (nth_error_nth _ _ d E).
  - apply nth_error_None in E. lia.
Qed.

Lemma rev_seq (i m : nat) :
  rev (seq i m) = map (fun k => (i + m - 1 - k)%nat) (seq 0 m).
Proof.
  apply (nth_ext _ _ 0%nat 0%nat).
  - now rewrite length_rev, length_map, !length_seq.
  - intros k Hk. rewrite length_rev, length_seq in Hk.
    rewrite rev_nth, length_seq, seq_nth by (rewrite ?length_seq; lia).
    rewrite nth_map_seq by exact Hk. lia.
Qed.

Lemma rows_under_kernel_map {A : Type} (G : nat -> A) (L i m : nat) :
  (i + m <= L)%nat ->
  rev (firstn m (skipn i (map G (seq 0 L))))
  = map (fun k => G (i + m - 1 - k)%nat) (seq 0 m).
Proof.
  intros H. rewrite skipn_map, skipn_seq, firstn_map, firstn_seq_le by lia.
  cbn [Nat.add]. now rewrite <- map_rev, rev_seq, map_map.
Qed.

Section ColfilterValues.

Context {F : Type} {SF : Scalar F}.

(** [colfilter] is the convolution of the rows of the symmetric
    extension. *)
Lemma colfilter_extension (X : list (list F)) (h : list F) (r c : nat) :
  has_shape X r c -> (1 <= r)%nat ->
  colfilter X h
  = _column_convolve
      (map (fun j => nth (Z.to_nat (sym_ext r (- Z.of_nat (length h / 2) + Z.of_nat j))) X [])
           (seq 0 (r + 2 * (length h / 2))))
      (as_column_vector h).
Proof.
  intros HX Hr. unfold colfilter, shape.
  rewrite (rows_in_nrows HX), nrows_as_column_vector.
  rewrite (reflect_idx_sym_ext _ Hr). cbn [bind].
  rewrite (@take_in_range _ X _ []).
  2:{ apply Forall_map. apply Forall_forall. intros i _.
      rewrite (proj1 HX). now apply sym_ext_bounds. }
  cbn [bind]. f_equal. unfold arange. rewrite !map_map.
  replace (Z.to_nat ((Z.of_nat r + Z.of_nat (length h / 2)
                      - - Z.of_nat (length h / 2) + 1 - 1) / 1))
    with (r + 2 * (length h / 2))%nat by (rewrite Z.div_1_r; lia).
  apply map_ext. intros j. do 3 f_equal. lia.
Qed.

End ColfilterValues.

(** X6.  For an image [X] of [r >= 1] rows and a kernel [h] of [m >= 1]
    taps, row [i] of [colfilter(X, h)] is
    [sum_k h[k] * Xs[i + (m - 1 - m // 2) - k]] for [Xs] the symmetric
    extension of [X] with repeated end samples, [Xs[j] = X[sym_ext r j]]:
    for an odd [m] the kernel is centred on row [i].  The scalars are
    assumed to satisfy [0 * a = 0] and [0 + 0 = 0]. *)
Theorem colfilter_is_symmetric_convolution {F : Type} {SF : Scalar F}
    (X : list (list F)) (h : list F) (r c : nat) :
  (forall a : F, smul s0 a = s0) -> sadd s0 s0 = s0 ->
  has_shape X r c -> (1 <= r)%nat -> (1 <= c)%nat -> (1 <= length h)%nat ->
  colfilter X h
  = Ok (map (fun i =>
               lincomb c h
                 (map (fun k =>
                         nth (Z.to_nat (sym_ext r (Z.of_nat i
                                                   + Z.of_nat (length h - 1 - length h / 2)
                                                   - Z.of_nat k))) X [])
                      (seq 0 (length h))))
            (seq 0 (if Nat.odd (length h) then r else r + 1))).
Proof.
  intros Hmul0 Hadd0 HX Hr Hc Hm1.
  rewrite (colfilter_extension h HX Hr).
  set (m := length h) in *. set (m2 := (m / 2)%nat).
  assert (Hm2 : (m = 2 * m2 + (if Nat.odd m then 1 else 0))%nat).
  { unfold m2. rewrite (Nat.div_mod_eq m 2) at 1.
    rewrite <- Nat.bit0_mod, Nat.bit0_odd. destruct (Nat.odd m); simpl; lia. }
  set (G := fun j => nth (Z.to_nat (sym_ext r (- Z.of_nat m2 + Z.of_nat j))) X []).
  assert (HXe : has_shape (map G (seq 0 (r + 2 * m2))) (r + 2 * m2) c).
  { split; [now rewrite length_map, length_seq|].
    apply Forall_map. apply Forall_forall. intros j _. unfold G.
    destruct HX as [Hlen Hrows]. rewrite Forall_forall in Hrows. apply Hrows.
    apply nth_In. pose proof (sym_ext_bounds (- Z.of_nat m2 + Z.of_nat j) Hr). lia. }
  assert (Hle : (m <= r + 2 * m2)%nat) by (destruct (Nat.odd m); lia).
  rewrite (column_convolve_valid Hmul0 Hadd0 h HXe Hc Hm1 Hle). fold m.
  f_equal.
  replace (r + 2 * m2 - m + 1)%nat with (if Nat.odd m then r else (r + 1)%nat)
    by (destruct (Nat.odd m); lia).
  apply map_ext_in. intros i Hi. apply in_seq in Hi. f_equal.
  rewrite rows_under_kernel_map by (destruct (Nat.odd m); lia).
  apply map_ext_in. intros k Hk. apply in_seq in Hk. unfold G.
  do 3 f_equal. destruct (Nat.odd m); lia.
Qed.

Lemma colfilter_is_symmetric_convolution_witness :
  colfilter [[1]; [2]; [3]; [4]] [1; 2; 1]
  = Ok (map (fun i =>
               lincomb 1 [1; 2; 1]
                 (map (fun k =>
                         nth (Z.to_nat (sym_ext 4 (Z.of_nat i
                                                   + Z.of_nat (length [1; 2; 1] - 1
                                                               - length [1; 2; 1] / 2)
                                                   - Z.of_nat k)))
                             [[1]; [2]; [3]; [4]] [])
                      (seq 0 (length [1; 2; 1]))))
            (seq 0 (if Nat.odd (length [1; 2; 1]) then 4 else 4 + 1))).
Proof.
  apply (@colfilter_is_symmetric_convolution Q Scalar_Q [[1]; [2]; [3]; [4]] [1; 2; 1] 4 1).
  - exact Q_mul_zero_l.
  - exact Q_add_zero_zero.
  - split; [reflexivity | repeat constructor].
  - lia.
  - lia.
  - simpl; lia.
Defined.

(** ** The guards and the early return of colifilt *)

(** X7.  On an image [X] of [R] rows and a pair of filters [ha], [hb],
    [colifilt] raises [ValueError] exactly when [R] is odd, or the lengths
    of [ha] and [hb] differ, or that length is odd; the three checks are
    made in this order, each with a message of its own.  When they pass
    the call returns a matrix of [2R] rows and the columns of [X]. *)
Theorem colifilt_value_errors {F : Type} {SF : Scalar F}
    (X : list (list F)) (ha hb : list F) (R C : nat) :
  has_shape X R C -> (1 <= R)%nat -> (1 <= C)%nat ->
  (1 <= length ha)%nat -> (1 <= length hb)%nat ->
  ((R mod 2 <> 0)%nat ->
     colifilt X ha hb = Err (ValueError "No. of rows in X must be a multiple of 2"))
  /\ ((R mod 2 = 0)%nat -> length ha <> length hb ->
        colifilt X ha hb = Err (ValueError "Shapes of ha and hb must be the same"))
  /\ ((R mod 2 = 0)%nat -> length ha = length hb -> (length ha mod 2 <> 0)%nat ->
        colifilt X ha hb = Err (ValueError "Lengths of ha and hb must be even"))
  /\ ((R mod 2 = 0)%nat -> length ha = length hb -> (length ha mod 2 = 0)%nat ->
        exists Y, colifilt X ha hb = Ok Y /\ has_shape Y (R * 2) C)
  /\ ((exists msg, colifilt X ha hb = Err (ValueError msg))
      <-> ((R mod 2 <> 0)%nat \/ length ha <> length hb \/ (length ha mod 2 <> 0)%nat)).
Proof.
  intros HX HR HC Hma Hmb.
  assert (E1 : (R mod 2 <> 0)%nat ->
     colifilt X ha hb = Err (ValueError "No. of rows in X must be a multiple of 2")).
  { intros H. unfold colifilt, shape, nrows. rewrite (proj1 HX).
    now rewrite (proj2 (Nat.eqb_neq _ _) H). }
  assert (E2 : (R mod 2 = 0)%nat -> length ha <> length hb ->
     colifilt X ha hb = Err (ValueError "Shapes of ha and hb must be the same")).
  { intros H2 H. unfold colifilt, shape, nrows. rewrite (proj1 HX), H2.
    now rewrite (proj2 (Nat.eqb_neq _ _) H). }
  assert (E3 : (R mod 2 = 0)%nat -> length ha = length hb -> (length ha mod 2 <> 0)%nat ->
     colifilt X ha hb = Err (ValueError "Lengths of ha and hb must be even")).
  { intros H2 Hab H. unfold colifilt, shape, nrows.
    rewrite (proj1 HX), H2, <- Hab, !Nat.eqb_refl.
    now rewrite (proj2 (Nat.eqb_neq _ _) H). }
  assert (E4 : (R mod 2 = 0)%nat -> length ha = length hb -> (length ha mod 2 = 0)%nat ->
     exists Y, colifilt X ha hb = Ok Y /\ has_shape Y (R * 2) C).
  { intros H2 Hab Heven.
    apply (@colifilt_rows F SF C _ (width_invariant C) X ha hb R); auto. }
  repeat (split; [assumption|]).
  split.
  - intros [msg Hmsg].
    destruct (Nat.eq_dec (R mod 2) 0) as [H2|H2]; [|now left].
    destruct (Nat.eq_dec (length ha) (length hb)) as [Hab|Hab]; [|now right; left].
    destruct (Nat.eq_dec (length ha mod 2) 0) as [Hev|Hev]; [|now right; right].
    destruct (E4 H2 Hab Hev) as (Y & HY & _). congruence.
  - intros Hviol.
    destruct (Nat.eq_dec (R mod 2) 0) as [H2|H2]; [|eexists; now apply E1].
    destruct (Nat.eq_dec (length ha) (length hb)) as [Hab|Hab]; [|eexists; now apply E2].
    destruct (Nat.eq_dec (length ha mod 2) 0) as [Hev|Hev]; [|eexists; now apply E3].
    tauto.
Qed.

Lemma colifilt_value_errors_witness :
  ((3 mod 2 <> 0)%nat ->
     colifilt [[1]; [2]; [3]] [1; 2] [2; 1; 0]
     = Err (ValueError "No. of rows in X must be a multiple of 2"))
  /\ ((3 mod 2 = 0)%nat -> length [1; 2] <> length [2; 1; 0] ->
        colifilt [[1]; [2]; [3]] [1; 2] [2; 1; 0]
        = Err (ValueError "Shapes of ha and hb must be the same"))
  /\ ((3 mod 2 = 0)%nat -> length [1; 2] = length [2; 1; 0] -> (length [1; 2] mod 2 <> 0)%nat ->
        colifilt [[1]; [2]; [3]] [1; 2] [2; 1; 0]
        = Err (ValueError "Lengths of ha and hb must be even"))
  /\ ((3 mod 2 = 0)%nat -> length [1; 2] = length [2; 1; 0] -> (length [1; 2] mod 2 = 0)%nat ->
        exists Y, colifilt [[1]; [2]; [3]] [1; 2] [2; 1; 0] = Ok Y /\ has_shape Y (3 * 2) 1)
  /\ ((exists msg, colifilt [[1]; [2]; [3]] [1; 2] [2; 1; 0] = Err (ValueError msg))
      <-> ((3 mod 2 <> 0)%nat \/ length [1; 2] <> length [2; 1; 0]
           \/ (length [1; 2] mod 2 <> 0)%nat)).
Proof.
  apply (@colifilt_value_errors Q Scalar_Q [[1]; [2]; [3]] [1; 2] [2; 1; 0] 3 1).
  - split; [reflexivity | repeat constructor].
  - lia.
  - lia.
  - simpl; lia.
  - simpl; lia.
Defined.

Section EarlyReturn.

Context {F : Type} {SF : Scalar F}.

Lemma no_nonzero_in_row (row : list F) (t : nat) :
  filter (fun jv : nat * F => snonzero (snd jv)) (combine (seq t (length row)) row) = []
  <-> Forall (fun v => snonzero v = false) row.
Proof.
  revert t. induction row as [|v row IH]; intros t; simpl.
  - split; auto.
  - destruct (snonzero v) eqn:E.
    + split; [discriminate|]. intros H. inversion H; congruence.
    + rewrite IH. split; [auto|]. intros H. now inversion H.
Qed.

Lemma any_row_index (s : nat) (L : list (nat * F)) :
  existsb (fun i => negb (i =? 0)%nat) (map fst (map (fun jv : nat * F => (s, fst jv)) L))
  = negb (s =? 0)%nat && negb (length L =? 0)%nat.
Proof.
  induction L as [|jv L IH]; simpl.
  - now rewrite andb_false_r.
  - rewrite IH. destruct (s =? 0)%nat; reflexivity.
Qed.

(** The row indices of the non-zero entries, for rows numbered from
    [s >= 1]: none of them is non-zero exactly when there is no non-zero
    entry. *)
Lemma any_row_indices (s : nat) (X : list (list F)) :
  (1 <= s)%nat ->
  existsb (fun i => negb (i =? 0)%nat)
    (map fst
       (concat (map (fun ir : nat * list F =>
                       map (fun jv : nat * F => (fst ir, fst jv))
                           (filter (fun jv => snonzero (snd jv))
                                   (combine (seq 0 (length (snd ir))) (snd ir))))
                    (combine (seq s (length X)) X)))) = false
  <-> Forall (Forall (fun v => snonzero v = false)) X.
Proof.
  revert s. induction X as [|row X IH]; intros s Hs; simpl.
  - split; auto.
  - rewrite map_app, existsb_app, orb_false_iff, any_row_index.
    rewrite (IH (S s)) by lia.
    replace (s =? 0)%nat with false by (symmetry; apply Nat.eqb_neq; lia).
    cbn [negb andb]. rewrite negb_false_iff, Nat.eqb_eq, length_zero_iff_nil.
    rewrite no_nonzero_in_row. split.
    + intros [H1 H2]. now constructor.
    + intros H. now inversion H.
Qed.

(** The test of [colifilt] for a zero input passes exactly when the rows
    after the first hold no non-zero entry. *)
Lemma any_nonzero_rows (X : list (list F)) :
  np_any (fst (nonzero X)) = false
  <-> Forall (Forall (fun v => snonzero v = false)) (tl X).
Proof.
  unfold np_any, nonzero. cbn [fst]. destruct X as [|row X]; simpl.
  - split; auto.
  - rewrite map_app, existsb_app, orb_false_iff, any_row_index.
    cbn [Nat.eqb negb andb]. rewrite (any_row_indices X (Nat.le_refl 1)). tauto.
Qed.

End EarlyReturn.

(** X8.  When its guards pass, [colifilt] takes the early return, and
    returns the zero matrix of [2r] rows, exactly when no entry of [X]
    after the first row is non-zero: the test [np.any(np.nonzero(X)[0])]
    looks at the row indices of the non-zero entries, and row 0 has index
    0.  In every other case the result is that of the convolutions. *)
Theorem colifilt_early_return {F : Type} {SF : Scalar F}
    (X : list (list F)) (ha hb : list F) (r c : nat) :
  has_shape X r c -> (1 <= r)%nat ->
  (r mod 2 = 0)%nat -> length ha = length hb -> (length ha mod 2 = 0)%nat ->
  (Forall (Forall (fun v => snonzero v = false)) (tl X) ->
     colifilt X ha hb = Ok (zeros (r * 2) c))
  /\ (~ Forall (Forall (fun v => snonzero v = false)) (tl X) ->
     colifilt X ha hb = colifilt_convolve X ha hb (zeros (r * 2) c)).
Proof.
  intros HX Hr Hr2 Hab Heven.
  rewrite (@colifilt_guards F SF c _ (width_invariant c) X ha hb r HX Hr Hr2 Hab Heven).
  split; intros H.
  - apply any_nonzero_rows in H. now rewrite H.
  - destruct (np_any (fst (nonzero X))) eqn:E; [reflexivity|].
    apply any_nonzero_rows in E. contradiction.
Qed.

Lemma colifilt_early_return_witness :
  (Forall (Forall (fun v => snonzero v = false)) (tl [[1; 2]; [0; 0]]) ->
     colifilt [[1; 2]; [0; 0]] [1; 2] [2; 1] = Ok (zeros (2 * 2) 2))
  /\ (~ Forall (Forall (fun v => snonzero v = false)) (tl [[1; 2]; [0; 0]]) ->
     colifilt [[1; 2]; [0; 0]] [1; 2] [2; 1]
     = colifilt_convolve [[1; 2]; [0; 0]] [1; 2] [2; 1] (zeros (2 * 2) 2)).
Proof.
  apply (@colifilt_early_return Q Scalar_Q [[1; 2]; [0; 0]] [1; 2] [2; 1] 2 2).
  - split; [reflexivity | repeat constructor].
  - lia.
  - reflexivity.
  - reflexivity.
  - reflexivity.
Defined.

(** ** Zero images and images without rows *)

(** X9.  [colfilter] and [coldfilt] turn the zero image into the zero
    matrix of their output shape, for scalars with [a * 0 = 0] and
    [0 + 0 = 0]. *)
Theorem filters_keep_zero {F : Type} {SF : Scalar F}
    (h ha hb : list F) (r c : nat) :
  zero_laws -> (1 <= r)%nat -> (1 <= c)%nat ->
  ((1 <= length h)%nat ->
     colfilter (zeros r c) h = Ok (zeros (if Nat.odd (length h) then r else r + 1) c))
  /\ ((r mod 4 = 0)%nat -> length ha = length hb ->
      (length ha mod 2 = 0)%nat -> (1 <= length ha)%nat ->
      coldfilt (zeros r c) ha hb = Ok (zeros (r / 2) c)).
Proof.
  intros HZ Hr Hc.
  assert (H0 : rows_in (fun row : list F => row = repeat s0 c) (zeros r c) r)
    by (now apply rows_in_zero).
  split.
  - intros Hm.
    destruct (colfilter_rows (zero_invariant c HZ) h H0 Hr Hc Hm) as (Y & HY & SY).
    rewrite HY. f_equal. now apply rows_in_zero.
  - intros Hr4 Hab Heven Hm.
    destruct (@coldfilt_rows F SF c _ (zero_invariant c HZ) (zeros r c) ha hb r)
      as (Y & HY & SY); auto.
    rewrite HY. f_equal. now apply rows_in_zero.
Qed.

Lemma filters_keep_zero_witness :
  ((1 <= length [1; 2; 1]%R)%nat ->
     colfilter (zeros 4 2) [1; 2; 1]%R
     = Ok (zeros (if Nat.odd (length [1; 2; 1]%R) then 4 else 4 + 1) 2))
  /\ ((4 mod 4 = 0)%nat -> length [1; 2]%R = length [2; 1]%R ->
      (length [1; 2]%R mod 2 = 0)%nat -> (1 <= length [1; 2]%R)%nat ->
      coldfilt (zeros 4 2) [1; 2]%R [2; 1]%R = Ok (zeros (4 / 2) 2)).
Proof.
  apply (@filters_keep_zero R Scalar_R [1; 2; 1]%R [1; 2]%R [2; 1]%R 4 2).
  - exact zero_laws_R.
  - lia.
  - lia.
Defined.

(** The index array [arange(-m, m)] of an image without rows, with the
    bounds [minx = maxx = -0.5]: the loop of [reflect] never stops. *)
Lemma reflect_no_rows_diverges (m : nat) (fuel : nat) :
  (1 <= m)%nat ->
  reflect_at fuel 0 (-(1#2)) (inject_Z (Z.of_nat 0) - (1#2))
    [map inject_Z (arange (- Z.of_nat m) (Z.of_nat 0 + Z.of_nat m) 1)] = None.
Proof.
  intros Hm. rewrite reflect_at_loop.
  rewrite (@reflect_loop_diverges (-(1#2)) (inject_Z (Z.of_nat 0) - (1#2)) fuel);
    [reflexivity| | |].
  - unfold Qle; simpl; lia.
  - apply Forall_map. apply Forall_forall. intros v _. apply fold_down_le.
  - apply existsb_exists.
    exists (fold_down (inject_Z (Z.of_nat 0) - (1#2)) (inject_Z (- Z.of_nat m))). split.
    + apply in_map. unfold load; simpl. apply in_map.
      unfold arange. apply in_map_iff. exists 0%nat. split; [lia|].
      apply in_seq. rewrite Z.div_1_r. lia.
    + apply Qltb_lt.
      assert (Hv : inject_Z (- Z.of_nat m) <= inject_Z (-1)) by (rewrite <- Zle_Qle; lia).
      change (inject_Z (-1)) with (-(1)) in Hv.
      change (inject_Z (Z.of_nat 0)) with 0.
      unfold fold_down.
      assert (E : Qltb (0 - (1#2)) (inject_Z (- Z.of_nat m)) = false) by (apply Qltb_ge; lra).
      rewrite E. lra.
Qed.

Lemma reflect_idx_no_rows (m : nat) :
  (1 <= m)%nat ->
  reflect_idx (arange (- Z.of_nat m) (Z.of_nat 0 + Z.of_nat m) 1)
              (-(1#2)) (inject_Z (Z.of_nat 0) - (1#2)) = Err NoReturn.
Proof.
  intros Hm. unfold reflect_idx, reflect.
  now rewrite reflect_no_rows_diverges.
Qed.

(** X10.  On an image without rows the bounds that the filters pass to
    [reflect] are [minx = maxx = -0.5], and the extension of the index
    array does not return, whatever the number of passes: [colfilter] with
    a kernel of at least two taps and [coldfilt] hang.  [colifilt] returns
    at once, as its test for a zero input comes before the extension. *)
Theorem filters_without_rows {F : Type} {SF : Scalar F} (h ha hb : list F) :
  (forall m fuel, (1 <= m)%nat ->
     reflect_at fuel 0 (-(1#2)) (inject_Z (Z.of_nat 0) - (1#2))
       [map inject_Z (arange (- Z.of_nat m) (Z.of_nat 0 + Z.of_nat m) 1)] = None)
  /\ ((2 <= length h)%nat -> colfilter [] h = Err NoReturn)
  /\ (length ha = length hb -> (length ha mod 2 = 0)%nat -> (1 <= length ha)%nat ->
      coldfilt [] ha hb = Err NoReturn /\ colifilt [] ha hb = Ok []).
Proof.
  split; [|split].
  - intros m fuel Hm. now apply reflect_no_rows_diverges.
  - intros Hm. unfold colfilter, shape. cbn [nrows length].
    rewrite nrows_as_column_vector, reflect_idx_no_rows; [reflexivity|].
    pose proof (Nat.div_mod_eq (length h) 2).
    pose proof (Nat.mod_upper_bound (length h) 2). lia.
  - intros Hab Heven Hm. split.
    + unfold coldfilt, shape. cbn [nrows length].
      change (0 mod 4 =? 0)%nat with true.
      rewrite <- Hab, Heven, !Nat.eqb_refl. cbn [negb].
      now rewrite reflect_idx_no_rows.
    + unfold colifilt, shape. cbn [nrows length].
      change (0 mod 2 =? 0)%nat with true.
      rewrite <- Hab, Heven, !Nat.eqb_refl. reflexivity.
Qed.

(** ** The packer, the other way round *)

Lemma q2c_c2q_quad (z0 z1 : @complex R) :
  q2c_quad (c2q_quad z0 z1 1%R 1%R) = [z0; z1].
Proof.
  destruct z0 as [a b], z1 as [c d].
  unfold c2q_quad, q2c_quad, corner, j2, cadd, csub, rc_mul, cr_mul. simpl.
  pose proof sqrt_half_sq as Hs.
  set (s := sqrt (1 / 2)) in *.
  repeat f_equal;
    match goal with
    | |- ?e = ?v => transitivity (v * (2 * (s * s)))%R; [ring | rewrite Hs; field]
    end.
Qed.

Lemma two_bands {F : Type} {SF : Scalar F} (w : @tensor F) (H W : nat) :
  has_shape3 w H W 2 ->
  w = map (map (fun cell => [nth 0 cell czero; nth 1 cell czero])) w
  /\ Forall (fun row => length row = W) w.
Proof.
  intros [_ Hrows]. split.
  - rewrite <- (map_id w) at 1. apply map_ext_in. intros row Hrow.
    rewrite Forall_forall in Hrows. destruct (Hrows row Hrow) as [_ Hcells].
    rewrite <- (map_id row) at 1. apply map_ext_in. intros cell Hcell.
    rewrite Forall_forall in Hcells. specialize (Hcells cell Hcell).
    destruct cell as [|a [|b [|? ?]]]; simpl in Hcells; try discriminate. reflexivity.
  - eapply Forall_impl; [|exact Hrows]. now intros row [Hrow _].
Qed.

(** X11.  For a complex array [w] of shape [(H, W, 2)], in exact
    arithmetic, [c2q(w, [1, 1])] is defined, has [2H] rows and [2W]
    columns, and [q2c] of it is [w]: with unit gains the unpacking and the
    packing are inverse to each other in this order too. *)
Theorem q2c_c2q_roundtrip (w : @tensor R) (H W : nat) :
  has_shape3 w H W 2 ->
  exists y, c2q w [1; 1]%R = Ok y /\ has_shape y (2 * H) (2 * W) /\ q2c y = Ok w.
Proof.
  intros Hw. destruct (two_bands Hw) as [Ew Hrows].
  set (w' := map (map (fun cell => [nth 0 cell czero; nth 1 cell czero])) w) in Ew.
  exists (of_quads (map (map (fun q => c2q_quad (nth 0 q czero) (nth 1 q czero) 1%R 1%R)) w)).
  split; [|split].
  - transitivity (c2q w' [1; 1]%R); [now rewrite <- Ew|].
    unfold w'. apply (c2q_of_quads _ _ _ _ Hrows).
  - apply of_quads_shape.
    + rewrite length_map. apply Hw.
    + apply Forall_map. eapply Forall_impl; [|exact Hrows].
      intros row Hrow. cbv beta in Hrow. now rewrite length_map.
  - rewrite q2c_of_quads, map_map_map. f_equal.
    transitivity w'; [|symmetry; exact Ew].
    unfold w'. apply map_ext. intros row. apply map_ext. intros cell.
    apply q2c_c2q_quad.
Qed.

Lemma q2c_c2q_roundtrip_witness :
  exists y,
    c2q [[[Cx 1 2; Cx 3 4]; [Cx 5 6; Cx 7 8]]]%R [1; 1]%R = Ok y
    /\ has_shape y (2 * 1) (2 * 2)
    /\ q2c y = Ok [[[Cx 1 2; Cx 3 4]; [Cx 5 6; Cx 7 8]]]%R.
Proof.
  apply (@q2c_c2q_roundtrip [[[Cx 1 2; Cx 3 4]; [Cx 5 6; Cx 7 8]]]%R 1 2).
  split; [reflexivity|]. repeat constructor.
Defined.

(** ** Shapes and errors of the packer *)

Lemma plane_two_bands {F : Type} {SF : Scalar F} (w : @tensor F) (H W : nat) (k : nat) :
  has_shape3 w H W 2 -> (k < 2)%nat ->
  plane k w = Ok (map (map (fun cell => nth k cell czero)) w).
Proof.
  intros [_ Hrows] Hk. unfold plane. apply mapM_map.
  eapply Forall_impl; [|exact Hrows]. intros row [_ Hcells]. apply mapM_map.
  eapply Forall_impl; [|exact Hcells]. intros cell Hcell. cbv beta in Hcell.
  destruct cell as [|a [|b [|? ?]]]; simpl in Hcell; try discriminate.
  destruct k as [|[|k]]; [reflexivity|reflexivity|lia].
Qed.

(** X12.  For a complex array [w] of shape [(H, W, 2)], [c2q(w, gain)]
    reads the first two gains: with at least two of them it returns a real
    matrix of [2H] rows and [2W] columns, the one that the first two gains
    give, and with fewer it raises [IndexError]. *)
Theorem c2q_shape_and_gains {F : Type} {SF : Scalar F}
    (w : @tensor F) (gain : list F) (H W : nat) :
  has_shape3 w H W 2 ->
  ((2 <= length gain)%nat ->
     exists x, c2q w gain = Ok x /\ has_shape x (2 * H) (2 * W)
               /\ c2q w (firstn 2 gain) = Ok x)
  /\ ((length gain < 2)%nat -> c2q w gain = Err IndexError).
Proof.
  intros Hw. split.
  - intros Hg. destruct gain as [|g0 [|g1 rest]]; simpl in Hg; try lia.
    destruct (two_bands Hw) as [Ew Hrows].
    set (w' := map (map (fun cell => [nth 0 cell czero; nth 1 cell czero])) w) in Ew.
    assert (E2 : c2q w [g0; g1]
                 = Ok (of_quads (map (map (fun q => c2q_quad (nth 0 q czero) (nth 1 q czero)
                                                             g0 g1)) w))).
    { transitivity (c2q w' [g0; g1]); [now rewrite <- Ew|].
      unfold w'. apply (c2q_of_quads _ _ _ _ Hrows). }
    eexists. split; [|split].
    + exact E2.
    + apply of_quads_shape.
      * rewrite length_map. apply Hw.
      * apply Forall_map. eapply Forall_impl; [|exact Hrows].
        intros row Hrow. cbv beta in Hrow. now rewrite length_map.
    + exact E2.
  - intros Hg. unfold c2q.
    rewrite (plane_two_bands Hw (Nat.lt_0_2)), (plane_two_bands Hw (Nat.lt_1_2)).
    cbn [bind]. destruct gain as [|g0 [|g1 rest]]; simpl in Hg; try lia; reflexivity.
Qed.

Lemma c2q_shape_and_gains_witness :
  ((2 <= length [1; 2; 3])%nat ->
     exists x, c2q [[[Cx 1 2; Cx 3 4]]] [1; 2; 3] = Ok x /\ has_shape x (2 * 1) (2 * 1)
               /\ c2q [[[Cx 1 2; Cx 3 4]]] (firstn 2 [1; 2; 3]) = Ok x)
  /\ ((length [1; 2; 3] < 2)%nat -> c2q [[[Cx 1 2; Cx 3 4]]] [1; 2; 3] = Err IndexError).
Proof.
  apply (@c2q_shape_and_gains Q Scalar_Q [[[Cx 1 2; Cx 3 4]]] [1; 2; 3] 1 1).
  split; [reflexivity|]. repeat constructor.
Defined.

Lemma mapM_length {A B : Type} (f : A -> result B) (l : list A) (l' : list B) :
  mapM f l = Ok l' -> length l' = length l.
Proof.
  revert l'. induction l as [|a l IH]; intros l'; simpl.
  - now intros [= <-].
  - destruct (f a); cbn [bind]; [|discriminate].
    destruct (mapM f l); cbn [bind]; [|discriminate].
    intros [= <-]. simpl. f_equal. now apply IH.
Qed.

Lemma mapM_Err {A B : Type} (f : A -> result B) (l : list A) (e : error) :
  mapM f l = Err e -> exists a, In a l /\ f a = Err e.
Proof.
  induction l as [|a l IH]; simpl; [discriminate|].
  destruct (f a) as [b|e'] eqn:E; cbn [bind].
  - destruct (mapM f l); cbn [bind]; [discriminate|].
    intros [= <-]. destruct (IH eq_refl) as (a' & Hin & Ha'). eauto.
  - intros [= <-]. eauto.
Qed.

(** Broadcasting fails with one error only. *)
Lemma bzip_Err {A : Type} (f : A -> A -> result A) (l1 l2 : list A) (e : error) :
  (forall a b e', f a b = Err e' -> e' = ValueError broadcast_msg) ->
  bzip f l1 l2 = Err e -> e = ValueError broadcast_msg.
Proof.
  intros Hf. unfold bzip. destruct (length l1 =? length l2)%nat.
  - intros H. apply mapM_Err in H. destruct H as (p & _ & Hp). eauto.
  - destruct l1 as [|a [|a' l1]], l2 as [|b [|b' l2]]; cbv beta iota;
      try (intros [= <-]; reflexivity);
      intros H; apply mapM_Err in H; destruct H as (p & _ & Hp); eauto.
Qed.

Lemma bzip_length {A : Type} (f : A -> A -> result A) (l1 l2 l : list A) :
  length l1 = length l2 -> bzip f l1 l2 = Ok l -> length l = length l1.
Proof.
  intros Hlen. unfold bzip. rewrite (proj2 (Nat.eqb_eq _ _) Hlen).
  intros H. apply mapM_length in H. rewrite H, length_combine. lia.
Qed.

Lemma bzip_mismatch {A : Type} (f : A -> A -> result A) (l1 l2 : list A) :
  length l1 <> length l2 -> length l1 <> 1%nat -> length l2 <> 1%nat ->
  bzip f l1 l2 = Err (ValueError broadcast_msg).
Proof.
  intros H H1 H2. unfold bzip. rewrite (proj2 (Nat.eqb_neq _ _) H).
  destruct l1 as [|a [|a' l1]], l2 as [|b [|b' l2]]; simpl in *; congruence.
Qed.

(** X13.  On a matrix with an odd number [2H + 1 >= 5] of rows [q2c]
    raises the broadcasting [ValueError] of numpy: the rows [0::2] and the
    rows [1::2] cannot be combined. *)
Theorem q2c_odd_rows {F : Type} {SF : Scalar F} (y : list (list F)) (H C : nat) :
  has_shape y (2 * H + 1) C -> (2 <= H)%nat ->
  q2c y = Err (ValueError broadcast_msg).
Proof.
  intros [Hlen _] HH. unfold q2c, cmadd, cmsub.
  assert (Hin : forall (g : @complex F -> @complex F -> @complex F) a b e',
            bzip (fun a b : @complex F => Ok (g a b)) a b = Err e' ->
            e' = ValueError broadcast_msg).
  { intros g a b e'. apply bzip_Err. discriminate. }
  assert (L0 : forall c0, length (sub2 0 c0 y) = (H + 1)%nat).
  { intros c0. unfold sub2, from_step2. cbn [skipn].
    rewrite length_map, length_every_other, Hlen.
    replace (2 * H + 1 + 1)%nat with ((H + 1) * 2)%nat by lia. now rewrite Nat.div_mul. }
  assert (L1 : forall c0, length (sub2 1 c0 y) = H).
  { intros c0. unfold sub2, from_step2.
    rewrite length_map, length_every_other, length_skipn, Hlen.
    replace (2 * H + 1 - 1 + 1)%nat with (1 + H * 2)%nat by lia.
    rewrite Nat.div_add by lia. reflexivity. }
  match goal with
  | |- bind ?e _ = _ => destruct e as [p|e1] eqn:Ep; cbn [bind]
  end.
  2:{ f_equal. apply (bzip_Err _ _ _ (Hin cadd) Ep). }
  apply bzip_length in Ep; [|now rewrite !length_map, !L0].
  rewrite length_map, L0 in Ep.
  match goal with
  | |- bind ?e _ = _ => destruct e as [q|e2] eqn:Eq; cbn [bind]
  end.
  2:{ f_equal. apply (bzip_Err _ _ _ (Hin csub) Eq). }
  apply bzip_length in Eq; [|now rewrite !length_map, !L1].
  rewrite length_map, L1 in Eq.
  rewrite bzip_mismatch by lia. reflexivity.
Qed.

Lemma q2c_odd_rows_witness :
  q2c [[1; 2]; [3; 4]; [5; 6]; [7; 8]; [9; 10]] = Err (ValueError broadcast_msg).
Proof.
  apply (@q2c_odd_rows Q Scalar_Q [[1; 2]; [3; 4]; [5; 6]; [7; 8]; [9; 10]] 2 2).
  - split; [reflexivity | repeat constructor].
  - lia.
Defined.

(** ** The extension of an image of odd size *)

Lemma last_nth_pred {A : Type} (l : list A) (d : A) : last l d = nth (length l - 1) l d.
Proof.
  induction l as [|a l IH]; [reflexivity|].
  destruct l as [|b l]; [reflexivity|].
  change (last (a :: b :: l) d) with (last (b :: l) d). rewrite IH.
  simpl. now rewrite Nat.sub_0_r.
Qed.

Section ExtendOdd.

Context {F : Type} {SF : Scalar F}.

Lemma repeat_last_row_block (X : list (list F)) (R : nat) :
  length X = R -> (1 <= R)%nat ->
  firstn R (repeat_last_row X) = X
  /\ nth R (repeat_last_row X) [] = nth (R - 1) (repeat_last_row X) [].
Proof.
  intros Hlen HR. unfold repeat_last_row. split.
  - rewrite <- Hlen, firstn_app, Nat.sub_diag, firstn_all. simpl. apply app_nil_r.
  - rewrite app_nth2 by lia. rewrite app_nth1 by lia.
    rewrite Hlen, Nat.sub_diag. simpl. rewrite last_nth_pred. now rewrite Hlen.
Qed.

Lemma repeat_last_col_block (X : list (list F)) (R C : nat) (d : F) :
  has_shape X R C -> (1 <= C)%nat ->
  map (firstn C) (repeat_last_col X) = X
  /\ Forall (fun row => nth C row d = nth (C - 1) row d) (repeat_last_col X).
Proof.
  intros [Hlen Hrows] HC. unfold repeat_last_col. rewrite map_map. split.
  - rewrite <- (map_id X) at 2. apply map_ext_in. intros row Hin.
    rewrite Forall_forall in Hrows. specialize (Hrows row Hin).
    rewrite <- Hrows, firstn_app, Nat.sub_diag, firstn_all. simpl. apply app_nil_r.
  - apply Forall_map. eapply Forall_impl; [|exact Hrows].
    intros row Hrow. cbv beta in Hrow.
    rewrite app_nth2 by lia. rewrite app_nth1 by lia.
    rewrite Hrow, Nat.sub_diag. simpl. rewrite last_nth_pred.
    rewrite Hrow. apply nth_indep. lia.
Qed.

End ExtendOdd.

(** X14.  With [nlevels = 0] the forward transform returns no subband and,
    as [Yl], the image made even in both dimensions: the image itself is
    its top left block, a last row added to an odd number of rows repeats
    the row above it, and a last column added to an odd number of columns
    repeats the column to its left. *)
Theorem dtwavexfm2_no_levels {F : Type} {SF : Scalar F}
    (X : list (list F)) (R C : nat)
    (biort : biort_filters) (qshift : qshift_filters) (sc : bool) (d : F) :
  has_shape X R C -> (1 <= R)%nat -> (1 <= C)%nat ->
  exists res,
    dtwavexfm2 X 0 biort qshift sc = Ok res
    /\ Yh res = [] /\ Yscale res = (if sc then Some [] else None)
    /\ has_shape (Yl res) (even_up R) (even_up C)
    /\ map (firstn C) (firstn R (Yl res)) = X
    /\ ((R mod 2 = 1)%nat -> nth R (Yl res) [] = nth (R - 1) (Yl res) [])
    /\ ((C mod 2 = 1)%nat ->
        Forall (fun row => nth C row d = nth (C - 1) row d) (Yl res)).
Proof.
  intros HX HR HC. unfold dtwavexfm2. cbn [Nat.eqb].
  eexists. split; [reflexivity|]. cbn [Yl Yh Yscale].
  split; [reflexivity|]. split; [reflexivity|].
  split; [now apply extend_odd_shape|].
  unfold extend_odd. rewrite (shape_has_shape HX HR). cbn [fst snd].
  destruct (@repeat_last_row_block F X R (proj1 HX) HR) as [Hr1 Hr2].
  pose proof (has_shape_repeat_last_row HX HR) as HXr.
  destruct (@repeat_last_col_block F SF X R C d HX HC) as [Hc1 Hc2].
  destruct (@repeat_last_col_block F SF _ (R + 1) C d HXr HC) as [Hc3 Hc4].
  assert (HidC : map (firstn C) X = X).
  { rewrite <- (map_id X) at 2. apply map_ext_in. intros row Hin.
    destruct HX as [_ Hrows]. rewrite Forall_forall in Hrows.
    rewrite <- (Hrows row Hin). apply firstn_all. }
  assert (HidR : firstn R X = X) by (rewrite <- (proj1 HX); apply firstn_all).
  destruct (Nat.eq_dec (R mod 2) 0) as [ER|ER];
    destruct (Nat.eq_dec (C mod 2) 0) as [EC|EC];
    rewrite ?(proj2 (Nat.eqb_eq _ _) ER), ?(proj2 (Nat.eqb_neq _ _) ER),
            ?(proj2 (Nat.eqb_eq _ _) EC), ?(proj2 (Nat.eqb_neq _ _) EC);
    cbn [negb].
  - rewrite HidR, HidC. repeat split; intros; lia.
  - rewrite <- firstn_map, Hc1, HidR. repeat split; [intros; lia|]. intros _. exact Hc2.
  - rewrite Hr1, HidC. repeat split; [|intros; lia]. intros _. exact Hr2.
  - rewrite <- firstn_map, Hc3, Hr1. repeat split.
    + intros _. unfold repeat_last_col.
      set (g := fun row : list F => row ++ [last row s0]).
      assert (Hl : length (repeat_last_row X) = (R + 1)%nat) by apply HXr.
      rewrite (nth_indep _ [] (g [])) by (rewrite length_map; lia).
      rewrite (nth_indep _ [] (g []) (n := (R - 1)%nat)) by (rewrite length_map; lia).
      rewrite !map_nth. f_equal. exact Hr2.
    + intros _. exact Hc4.
Qed.

Lemma dtwavexfm2_no_levels_witness :
  exists res,
    dtwavexfm2 [[1; 2; 3]; [4; 5; 6]; [7; 8; 9]] 0 legall two_taps true = Ok res
    /\ Yh res = [] /\ Yscale res = (if true then Some [] else None)
    /\ has_shape (Yl res) (even_up 3) (even_up 3)
    /\ map (firstn 3) (firstn 3 (Yl res)) = [[1; 2; 3]; [4; 5; 6]; [7; 8; 9]]
    /\ ((3 mod 2 = 1)%nat -> nth 3 (Yl res) [] = nth (3 - 1) (Yl res) [])
    /\ ((3 mod 2 = 1)%nat ->
        Forall (fun row => nth 3 row 0 = nth (3 - 1) row 0) (Yl res)).
Proof.
  apply (@dtwavexfm2_no_levels Q Scalar_Q [[1; 2; 3]; [4; 5; 6]; [7; 8; 9]] 3 3
           legall two_taps true 0).
  - split; [reflexivity | repeat constructor].
  - lia.
  - lia.
Defined.

(** ** The pyramid on dyadic sizes *)

Lemma pow2_even (n k : nat) : (1 <= n)%nat -> even_up (2 ^ n * k) = (2 ^ n * k)%nat.
Proof.
  intros Hn. unfold even_up. destruct n as [|n]; [lia|].
  rewrite Nat.pow_succ_r'.
  replace (2 * 2 ^ n * k)%nat with (2 ^ n * k * 2)%nat by lia.
  now rewrite Nat.Div0.mod_mul.
Qed.

Lemma lowpass_dim_dyadic (n k l : nat) :
  (1 <= l)%nat -> (l <= n)%nat -> lowpass_dim (2 ^ n * k) l = (2 ^ (n + 1 - l) * k)%nat.
Proof.
  intros Hl. induction l as [|l IH]; [lia|]. intros Hln.
  destruct l as [|l].
  - cbn [lowpass_dim]. do 2 f_equal. lia.
  - rewrite lowpass_dim_step, IH by lia.
    replace (n + 1 - S l)%nat with (S (S (n - 1 - S l))) by lia.
    replace (n + 1 - S (S l))%nat with (S (n - 1 - S l)) by lia.
    set (j := (n - 1 - S l)%nat). rewrite !Nat.pow_succ_r'.
    unfold pad4.
    replace (2 * (2 * 2 ^ j) * k)%nat with (2 ^ j * k * 4)%nat by lia.
    rewrite Nat.Div0.mod_mul. cbn [Nat.eqb].
    replace (2 ^ j * k * 4)%nat with (2 * (2 ^ j) * k * 2)%nat by lia.
    now rewrite Nat.div_mul.
Qed.

(** X15.  On an image whose numbers of rows and columns are multiples of
    [2^n] the [n]-level transform needs no padding: it returns, the
    subband tensor of level [i + 1] has [1 / 2^(i+1)] of the rows and
    columns of the image and 6 bands, and [Yl] has [1 / 2^(n-1)] of
    them. *)
Theorem dtwavexfm2_dyadic {F : Type} {SF : Scalar F}
    (X : list (list F)) (n k1 k2 : nat)
    (biort : biort_filters) (qshift : qshift_filters) (sc : bool) :
  has_shape X (2 ^ n * k1) (2 ^ n * k2) ->
  (1 <= n)%nat -> (1 <= k1)%nat -> (1 <= k2)%nat ->
  biort_ok biort -> qshift_ok qshift ->
  exists res,
    dtwavexfm2 X n biort qshift sc = Ok res
    /\ has_shape (Yl res) (2 * k1) (2 * k2)
    /\ length (Yh res) = n
    /\ (forall i, (i < n)%nat ->
          exists T, nth i (Yh res) None = Some T
                    /\ has_shape3 T (2 ^ (n - 1 - i) * k1) (2 ^ (n - 1 - i) * k2) 6).
Proof.
  intros HX Hn Hk1 Hk2 Hb Hq.
  assert (HR : (1 <= 2 ^ n * k1)%nat).
  { pose proof (Nat.pow_nonzero 2 n ltac:(lia)). nia. }
  assert (HC : (1 <= 2 ^ n * k2)%nat).
  { pose proof (Nat.pow_nonzero 2 n ltac:(lia)). nia. }
  destruct (dtwavexfm2_ok n sc HX HR HC Hb Hq) as (res & E & SL & Hlen & Hsub & _).
  exists res. split; [exact E|].
  rewrite !pow2_even in * by exact Hn.
  split; [|split; [exact Hlen|]].
  - rewrite !lowpass_dim_dyadic in SL by lia.
    replace (n + 1 - n)%nat with 1%nat in SL by lia. exact SL.
  - intros i Hi. destruct (Hsub i Hi) as (T & HT & ST). exists T. split; [exact HT|].
    rewrite !lowpass_dim_dyadic in ST by lia.
    replace (n + 1 - S i)%nat with (S (n - 1 - i)) in ST by lia.
    rewrite Nat.pow_succ_r' in ST.
    replace (2 * 2 ^ (n - 1 - i) * k1)%nat with (2 * (2 ^ (n - 1 - i) * k1))%nat in ST by lia.
    replace (2 * 2 ^ (n - 1 - i) * k2)%nat with (2 * (2 ^ (n - 1 - i) * k2))%nat in ST by lia.
    now rewrite !half_of_2 in ST.
Qed.

Lemma dtwavexfm2_dyadic_witness :
  exists res,
    dtwavexfm2 image4 2 legall two_taps false = Ok res
    /\ has_shape (Yl res) (2 * 1) (2 * 1)
    /\ length (Yh res) = 2%nat
    /\ (forall i, (i < 2)%nat ->
          exists T, nth i (Yh res) None = Some T
                    /\ has_shape3 T (2 ^ (2 - 1 - i) * 1) (2 ^ (2 - 1 - i) * 1) 6).
Proof.
  apply (@dtwavexfm2_dyadic Q Scalar_Q image4 2 1 1 legall two_taps false).
  - split; [reflexivity | repeat constructor].
  - lia.
  - lia.
  - lia.
  - split; reflexivity.
  - repeat split; simpl; lia.
Defined.

(** ** What include_scale changes *)

Ltac invert_bind H :=
  repeat match type of H with
         | bind ?e _ = Ok _ => destruct e eqn:?; cbn [bind] in H; [|discriminate H]
         end.

(** X16.  Whatever the image and the filters, when [dtwavexfm2] returns,
    [Yscale] is absent without [include_scale]; with it, [Yscale] is the
    empty tuple for [nlevels = 0] and otherwise a tuple of [nlevels] slots
    of which slot 0 holds [Yl], the lowpass image of the last level, and
    no other slot was assigned. *)
Theorem yscale_holds_last_lowpass {F : Type} {SF : Scalar F}
    (X : list (list F)) (n : nat)
    (biort : biort_filters) (qshift : qshift_filters) (sc : bool) (res : xfm_result) :
  dtwavexfm2 X n biort qshift sc = Ok res ->
  Yscale res
  = if sc
    then Some (match n with
               | O => []
               | S n' => Some (Yl res) :: repeat None n'
               end)
    else None.
Proof.
  intros E. destruct sc.
  - destruct n as [|n].
    + unfold dtwavexfm2 in E. cbn [Nat.eqb] in E. now injection E as <-.
    + assert (Hn : (1 <= S n)%nat) by lia.
      rewrite (@dtwavexfm2_scale F SF X (S n) biort qshift res Hn E).
      do 3 f_equal. lia.
  - unfold dtwavexfm2 in E. destruct n as [|n]; cbn [Nat.eqb] in E.
    + now injection E as <-.
    + invert_bind E. now injection E as <-.
Qed.

Lemma yscale_holds_last_lowpass_witness :
  Yscale (match dtwavexfm2 image4 3 legall two_taps true with
          | Ok r => r
          | Err _ => {| Yl := []; Yh := []; Yscale := None |}
          end)
  = if true
    then Some (match 3%nat with
               | O => []
               | S n' => Some (Yl (match dtwavexfm2 image4 3 legall two_taps true with
                                   | Ok r => r
                                   | Err _ => {| Yl := []; Yh := []; Yscale := None |}
                                   end)) :: repeat None n'
               end)
    else None.
Proof.
  apply (@yscale_holds_last_lowpass Q Scalar_Q image4 3 legall two_taps true).
  vm_compute. reflexivity.
Defined.

Section ScaleIndependence.

Context {F : Type} {SF : Scalar F}.

Lemma levels_loop_same_subbands (qshift : @qshift_filters F) (levels : list nat) :
  forall st1 st2 : @xfm_state F,
    st_LoLo st1 = st_LoLo st2 -> st_Yh st1 = st_Yh st2 ->
    match levels_loop qshift true levels st1, levels_loop qshift false levels st2 with
    | Ok a, Ok b => st_LoLo a = st_LoLo b /\ st_Yh a = st_Yh b
    | Err e1, Err e2 => e1 = e2
    | _, _ => False
    end.
Proof.
  induction levels as [|level levels IH]; intros st1 st2 HL HY; cbn [levels_loop].
  - auto.
  - unfold level_step. rewrite HL, HY.
    destruct (level_ge2 (st_LoLo st2) qshift) as [r|e]; cbn [bind]; [|reflexivity].
    apply IH; reflexivity.
Qed.

End ScaleIndependence.

(** X17.  [include_scale] changes nothing but the presence of [Yscale]:
    with and without it [dtwavexfm2] fails with the same error or returns
    the same [Yl] and the same subband tensors [Yh]. *)
Theorem include_scale_keeps_results {F : Type} {SF : Scalar F}
    (X : list (list F)) (n : nat) (biort : biort_filters) (qshift : qshift_filters) :
  match dtwavexfm2 X n biort qshift true, dtwavexfm2 X n biort qshift false with
  | Ok r1, Ok r2 => Yl r1 = Yl r2 /\ Yh r1 = Yh r2
  | Err e1, Err e2 => e1 = e2
  | _, _ => False
  end.
Proof.
  unfold dtwavexfm2. destruct n as [|n]; cbn [Nat.eqb]; [split; reflexivity|].
  destruct (level1 (extend_odd X) biort) as [r|e]; cbn [bind]; [|reflexivity].
  match goal with
  | |- context [levels_loop _ true ?l ?s1] =>
      match goal with
      | |- context [levels_loop _ false _ ?s2] =>
          pose proof (levels_loop_same_subbands qshift l s1 s2 eq_refl eq_refl) as H
      end
  end.
  destruct (levels_loop qshift true _ _) as [a|e1];
    destruct (levels_loop qshift false _ _) as [b|e2]; cbn [bind]; auto.
Qed.

(** ** One level after the other *)

Lemma list_set_app_l {A : Type} (l l' : list A) (k : nat) (v : A) :
  (k < length l)%nat -> list_set (l ++ l') k v = list_set l k v ++ l'.
Proof.
  revert k. induction l as [|a l IH]; intros [|k] Hk; simpl in *; try lia; auto.
  f_equal. apply IH. lia.
Qed.

Lemma list_set_app_last {A : Type} (l : list A) (a v : A) :
  list_set (l ++ [a]) (length l) v = l ++ [v].
Proof. induction l as [|b l IH]; simpl; auto. now rewrite IH. Qed.

Lemma repeat_snoc {A : Type} (a : A) (n : nat) : repeat a (S n) = repeat a n ++ [a].
Proof. induction n as [|n IH]; simpl in *; auto. now rewrite <- IH. Qed.

Section OneMoreLevel.

Context {F : Type} {SF : Scalar F}.

Variable qshift : @qshift_filters F.
Variable sc : bool.

Lemma levels_loop_app (l1 l2 : list nat) (st : @xfm_state F) :
  levels_loop qshift sc (l1 ++ l2) st
  = let* st' := levels_loop qshift sc l1 st in levels_loop qshift sc l2 st'.
Proof.
  revert st. induction l1 as [|level l1 IH]; intros st; cbn [levels_loop app bind]; auto.
  destruct (level_step qshift sc level st) as [st1|e]; cbn [bind]; auto.
Qed.

(** The loop of a transform that was asked for one more level runs, up to
    the last level but one, as the loop of the shorter transform. *)
Lemma levels_loop_longer (levels : list nat) :
  forall st st' : @xfm_state F,
    Forall (fun level => level < length (st_Yh st))%nat levels ->
    (sc = true -> (1 <= length (st_Yscale st))%nat) ->
    st_LoLo st' = st_LoLo st ->
    st_Yh st' = st_Yh st ++ [None] ->
    st_Yscale st' = (if sc then st_Yscale st ++ [None] else st_Yscale st) ->
    match levels_loop qshift sc levels st, levels_loop qshift sc levels st' with
    | Ok a, Ok a' =>
        st_LoLo a' = st_LoLo a
        /\ st_Yh a' = st_Yh a ++ [None]
        /\ st_Yscale a' = (if sc then st_Yscale a ++ [None] else st_Yscale a)
        /\ length (st_Yh a) = length (st_Yh st)
        /\ length (st_Yscale a) = length (st_Yscale st)
    | Err e, Err e' => e = e'
    | _, _ => False
    end.
Proof.
  induction levels as [|level levels IH]; intros st st' Hlv Hsc HL HY HS;
    cbn [levels_loop].
  - auto.
  - inversion Hlv as [|? ? Hlevel Hlv']; subst.
    unfold level_step. rewrite HL.
    destruct (level_ge2 (st_LoLo st) qshift) as [r|e]; cbn [bind]; [|reflexivity].
    set (a := {| st_LoLo := fst r;
                 st_Yh := list_set (st_Yh st) level (Some (snd r));
                 st_Yscale := if sc then list_set (st_Yscale st) 0 (Some (fst r))
                              else st_Yscale st |}).
    set (a' := {| st_LoLo := fst r;
                  st_Yh := list_set (st_Yh st') level (Some (snd r));
                  st_Yscale := if sc then list_set (st_Yscale st') 0 (Some (fst r))
                               else st_Yscale st' |}).
    assert (Hlen : length (st_Yh a) = length (st_Yh st))
      by (unfold a; cbn [st_Yh]; apply length_list_set).
    assert (Hlens : length (st_Yscale a) = length (st_Yscale st))
      by (unfold a; cbn [st_Yscale]; destruct sc; [apply length_list_set|reflexivity]).
    specialize (IH a a').
    destruct (levels_loop qshift sc levels a) as [b|e1];
      destruct (levels_loop qshift sc levels a') as [b'|e2];
      rewrite <- ?Hlen, <- ?Hlens; apply IH;
      try (now rewrite Hlen); try (now rewrite Hlens); try reflexivity;
      try (unfold a, a'; cbn [st_Yh]; rewrite HY; now apply list_set_app_l);
      try (unfold a, a'; cbn [st_Yscale]; rewrite HS; destruct sc; [|reflexivity];
           apply list_set_app_l; now apply Hsc).
Qed.

End OneMoreLevel.

(** X18.  The levels are computed one after the other: for [n >= 1] the
    transform with [n + 1] levels is the transform with [n] levels followed
    by one more level on its [Yl].  It fails where the shorter transform or
    that level fails; otherwise it returns the lowpass image of that level
    as [Yl] and the subband tensors of the shorter transform followed by
    the new one.  [Yscale], when asked for, is the one of the shorter
    transform with the new lowpass image written to slot 0 and one
    unassigned slot more. *)
Theorem one_more_level {F : Type} {SF : Scalar F}
    (X : list (list F)) (n : nat)
    (biort : biort_filters) (qshift : qshift_filters) (sc : bool) :
  (1 <= n)%nat ->
  dtwavexfm2 X (S n) biort qshift sc
  = let* prev := dtwavexfm2 X n biort qshift sc in
    let* r := level_ge2 (Yl prev) qshift in
    Ok {| Yl := fst r;
          Yh := Yh prev ++ [Some (snd r)];
          Yscale := option_map (fun s => list_set s 0 (Some (fst r)) ++ [None])
                               (Yscale prev) |}.
Proof.
  intros Hn. unfold dtwavexfm2. destruct n as [|n]; [lia|]. cbn [Nat.eqb].
  destruct (level1 (extend_odd X) biort) as [r1|e]; cbn [bind]; [|reflexivity].
  replace (S (S n) - 1)%nat with (S n) by lia.
  replace (S n - 1)%nat with n by lia.
  rewrite seq_S, levels_loop_app. cbn [Nat.add].
  set (st := {| st_LoLo := fst r1;
                st_Yh := list_set (repeat None (S n)) 0 (Some (snd r1));
                st_Yscale := if sc then list_set (repeat None (S n)) 0 (Some (fst r1))
                             else [] |}).
  set (st' := {| st_LoLo := fst r1;
                 st_Yh := list_set (repeat None (S (S n))) 0 (Some (snd r1));
                 st_Yscale := if sc then list_set (repeat None (S (S n))) 0 (Some (fst r1))
                              else [] |}).
  match goal with
  | |- context [levels_loop _ _ _ ?s1] =>
      match goal with
      | |- _ = bind (bind (levels_loop _ _ _ ?s2) _) _ =>
          replace s1 with st' by (unfold st'; destruct sc; reflexivity);
          replace s2 with st by (unfold st; destruct sc; reflexivity)
      end
  end.
  pose proof (@levels_loop_longer F SF qshift sc (seq 1 n) st st') as H.
  assert (Hlv : Forall (fun level => level < length (st_Yh st))%nat (seq 1 n)).
  { apply Forall_forall. intros l Hl. apply in_seq in Hl.
    unfold st. cbn [st_Yh]. rewrite length_list_set, repeat_length. lia. }
  assert (Hsc : sc = true -> (1 <= length (st_Yscale st))%nat).
  { intros ->. unfold st. cbn [st_Yscale]. rewrite length_list_set, repeat_length. lia. }
  assert (HY : st_Yh st' = st_Yh st ++ [None]).
  { unfold st, st'. cbn [st_Yh]. rewrite (repeat_snoc None (S n)).
    apply list_set_app_l. rewrite repeat_length. lia. }
  assert (HS : st_Yscale st' = (if sc then st_Yscale st ++ [None] else st_Yscale st)).
  { unfold st, st'. cbn [st_Yscale]. destruct sc; [|reflexivity].
    rewrite (repeat_snoc None (S n)). apply list_set_app_l. rewrite repeat_length. lia. }
  specialize (H Hlv Hsc eq_refl HY HS).
  assert (Hl0 : length (st_Yh st) = S n)
    by (unfold st; cbn [st_Yh]; now rewrite length_list_set, repeat_length).
  assert (Hs0 : sc = true -> length (st_Yscale st) = S n).
  { intros ->. unfold st; cbn [st_Yscale]. now rewrite length_list_set, repeat_length. }
  destruct (levels_loop qshift sc (seq 1 n) st) as [a|e1];
    destruct (levels_loop qshift sc (seq 1 n) st') as [a'|e2]; cbn [bind];
    try contradiction; [|now subst].
  destruct H as (HL & HYa & HSa & Hla & Hlsa).
  cbn [levels_loop]. unfold level_step. rewrite HL. cbn [Yl].
  destruct (level_ge2 (st_LoLo a) qshift) as [r|e]; cbn [bind]; [|reflexivity].
  cbn [st_LoLo st_Yh st_Yscale Yh Yscale]. f_equal. f_equal.
  - rewrite HYa. rewrite <- Hl0, <- Hla. apply list_set_app_last.
  - rewrite HSa. destruct sc; [|reflexivity]. cbn [option_map]. f_equal.
    apply list_set_app_l. rewrite Hlsa, (Hs0 eq_refl). lia.
Qed.

Lemma one_more_level_witness :
  dtwavexfm2 image4 (S 1) legall two_taps true
  = let* prev := dtwavexfm2 image4 1 legall two_taps true in
    let* r := level_ge2 (Yl prev) two_taps in
    Ok {| Yl := fst r;
          Yh := Yh prev ++ [Some (snd r)];
          Yscale := option_map (fun s => list_set s 0 (Some (fst r)) ++ [None])
                               (Yscale prev) |}.
Proof.
  apply (@one_more_level Q Scalar_Q image4 1 legall two_taps true). lia.
Defined.

(** ** The inverse transform: shapes *)

Lemma nth_res_Ok {A : Type} (l : list A) (k : nat) (d : A) :
  (k < length l)%nat -> nth_res l k = Ok (nth k l d).
Proof.
  intros Hk. unfold nth_res. destruct (nth_error l k) as [a|] eqn:E.
  - now rewrite (nth_error_nth _ _ d E).
  - apply nth_error_None in E. lia.
Qed.

Lemma py_slice_inner {A : Type} (l : list A) :
  (2 <= length l)%nat -> length (py_slice 1 (-1) l) = (length l - 2)%nat.
Proof.
  intros H. unfold py_slice, slice_bound. cbn [Z.ltb Z.compare].
  rewrite length_firstn, length_skipn. lia.
Qed.

Section InverseShapes.

Context {F : Type} {SF : Scalar F}.

Local Abbreviation matrix := (@matrix F).
Local Abbreviation tensor := (@tensor F).

Lemma bands_Ok (T : tensor) (h w b0 b1 : nat) :
  has_shape3 T h w 6 -> (b0 < 6)%nat -> (b1 < 6)%nat ->
  bands T b0 b1 = Ok (map (map (fun cell => [nth b0 cell czero; nth b1 cell czero])) T).
Proof.
  intros [_ Hrows] H0 H1. unfold bands. apply mapM_map.
  eapply Forall_impl; [|exact Hrows]. intros row [_ Hcells]. apply mapM_map.
  eapply Forall_impl; [|exact Hcells]. intros cell Hcell. cbv beta in Hcell.
  rewrite (nth_res_Ok cell czero) by lia. cbn [bind].
  rewrite (nth_res_Ok cell czero) by lia. reflexivity.
Qed.

Lemma gains_Ok (gm : matrix) (a d0 d1 l : nat) :
  has_shape gm 6 a -> (d0 < 6)%nat -> (d1 < 6)%nat -> (l < a)%nat ->
  exists g0 g1, gains gm d0 d1 l = Ok [g0; g1].
Proof.
  intros [Hlen Hrows] H0 H1 Hl. unfold gains.
  assert (Hrow : forall d, (d < 6)%nat -> length (nth d gm []) = a).
  { intros d Hd. rewrite Forall_forall in Hrows. apply Hrows. apply nth_In. lia. }
  rewrite (nth_res_Ok gm []) by lia. cbn [bind].
  rewrite (nth_res_Ok _ s0) by (rewrite Hrow; lia). cbn [bind].
  rewrite (nth_res_Ok gm []) by lia. cbn [bind].
  rewrite (nth_res_Ok _ s0) by (rewrite Hrow; lia). cbn [bind].
  eauto.
Qed.

(** The quad image of a pair of bands has twice the rows and columns of
    the subband tensor. *)
Lemma quad_image (T : tensor) (h w b0 b1 : nat) (g0 g1 : F) :
  has_shape3 T h w 6 -> (b0 < 6)%nat -> (b1 < 6)%nat ->
  exists M, (let* z := bands T b0 b1 in c2q z [g0; g1]) = Ok M
            /\ has_shape M (2 * h) (2 * w).
Proof.
  intros HT H0 H1. rewrite (bands_Ok HT H0 H1). cbn [bind].
  assert (Hw : Forall (fun row => length row = w) T).
  { destruct HT as [_ Hrows]. eapply Forall_impl; [|exact Hrows]. now intros row [Hrow _]. }
  rewrite (c2q_of_quads _ _ _ _ Hw). eexists; split; [reflexivity|].
  apply of_quads_shape.
  - rewrite length_map. apply HT.
  - apply Forall_map. eapply Forall_impl; [|exact Hw].
    intros row Hrow. cbv beta in Hrow. now rewrite length_map.
Qed.

Lemma subband_quads_Ok (Yh : list tensor) (gm : matrix) (cl a h w : nat) (T : tensor) :
  nth_error Yh (cl - 1) = Some T -> has_shape3 T h w 6 ->
  has_shape gm 6 a -> (cl - 1 < a)%nat ->
  exists lh hl hh,
    subband_quads Yh gm cl = Ok (lh, hl, hh)
    /\ has_shape lh (2 * h) (2 * w) /\ has_shape hl (2 * h) (2 * w)
    /\ has_shape hh (2 * h) (2 * w).
Proof.
  intros HY HT Hgm Hl. unfold subband_quads, nth_res. rewrite HY. cbn [bind].
  destruct (gains_Ok (d0 := 0) (d1 := 5) Hgm ltac:(lia) ltac:(lia) Hl) as (a0 & a1 & Ea).
  destruct (gains_Ok (d0 := 2) (d1 := 3) Hgm ltac:(lia) ltac:(lia) Hl) as (b0 & b1 & Eb).
  destruct (gains_Ok (d0 := 1) (d1 := 4) Hgm ltac:(lia) ltac:(lia) Hl) as (c0 & c1 & Ec).
  destruct (quad_image a0 a1 HT (b0 := 0) (b1 := 5) ltac:(lia) ltac:(lia)) as (lh & Elh & Slh).
  destruct (quad_image b0 b1 HT (b0 := 2) (b1 := 3) ltac:(lia) ltac:(lia)) as (hl & Ehl & Shl).
  destruct (quad_image c0 c1 HT (b0 := 1) (b1 := 4) ltac:(lia) ltac:(lia)) as (hh & Ehh & Shh).
  exists lh, hl, hh.
  destruct (bands T 0 5) as [z1|e]; cbn [bind] in *; [|discriminate].
  rewrite Ea; cbn [bind]. rewrite Elh; cbn [bind].
  destruct (bands T 2 3) as [z2|e]; cbn [bind] in *; [|discriminate].
  rewrite Eb; cbn [bind]. rewrite Ehl; cbn [bind].
  destruct (bands T 1 4) as [z3|e]; cbn [bind] in *; [|discriminate].
  rewrite Ec; cbn [bind]. rewrite Ehh; cbn [bind].
  auto.
Qed.

Lemma has_shape_ones (r c : nat) : has_shape (@ones F SF r c) r c.
Proof.
  unfold ones; split; [apply repeat_length|].
  apply Forall_repeat. apply repeat_length.
Qed.

Lemma has_shape_inner_rows (M : matrix) (r c : nat) :
  has_shape M r c -> (2 <= r)%nat -> has_shape (py_slice 1 (-1) M) (r - 2) c.
Proof.
  intros [Hlen Hrows] Hr. split.
  - rewrite py_slice_inner by lia. lia.
  - unfold py_slice. apply Forall_firstn, Forall_skipn. exact Hrows.
Qed.

Lemma has_shape_inner_cols (M : matrix) (r c : nat) :
  has_shape M r c -> (2 <= c)%nat -> has_shape (map (py_slice 1 (-1)) M) r (c - 2).
Proof.
  intros [Hlen Hrows] Hc. split.
  - now rewrite length_map.
  - apply Forall_map. eapply Forall_impl; [|exact Hrows].
    intros row Hrow. cbv beta in Hrow. rewrite py_slice_inner by lia. lia.
Qed.

(** One step of the loop of the inverse transform: the image is
    interpolated to twice its size in both directions, cropped by one
    sample at both ends where the subbands of the level below ask for it,
    and refused if it does not fit them then. *)
Lemma inverse_level_ge2_spec (qshift : qshift_filters) (Yh : list tensor) (gm : matrix)
    (cl a h w p q : nat) (Z : matrix) (T Tprev : tensor) :
  qshift_inv_ok qshift -> (1 <= h)%nat -> (1 <= w)%nat -> (1 <= p)%nat ->
  has_shape Z (2 * h) (2 * w) ->
  nth_error Yh (cl - 1) = Some T -> has_shape3 T h w 6 ->
  nth_error Yh (cl - 2) = Some Tprev -> has_shape3 Tprev p q 6 ->
  has_shape gm 6 a -> (cl - 1 < a)%nat ->
  (((2 * p = 4 * h \/ 2 * p + 2 = 4 * h) /\ (2 * q = 4 * w \/ 2 * q + 2 = 4 * w))%nat ->
     exists Z', inverse_level_ge2 qshift Yh gm cl Z = Ok Z'
                /\ has_shape Z' (2 * p) (2 * q))
  /\ (~ ((2 * p = 4 * h \/ 2 * p + 2 = 4 * h) /\ (2 * q = 4 * w \/ 2 * q + 2 = 4 * w))%nat ->
     inverse_level_ge2 qshift Yh gm cl Z = Err (ValueError invalid_sizes_msg)).
Proof.
  intros (Ha0 & He0 & Hl0 & Ha1 & He1 & Hl1) Hh Hw Hp HZ HT ST HTp STp Hgm Hcl.
  unfold inverse_level_ge2.
  destruct (@subband_quads_Ok Yh gm cl a h w T HT ST Hgm Hcl)
    as (lh & hl & hh & E & Slh & Shl & Shh).
  rewrite E. cbn [bind].
  assert (Hcol : forall (M : matrix) (fa fb : list F) r c,
            has_shape M (2 * r) c -> (1 <= r)%nat -> (1 <= c)%nat ->
            length fa = length fb -> (length fa mod 2 = 0)%nat -> (1 <= length fa)%nat ->
            exists Y, colifilt M fa fb = Ok Y /\ has_shape Y (4 * r) c).
  { intros M fa fb r c HM Hr Hc Hab Hev Hlen.
    destruct (@colifilt_rows F SF c _ (width_invariant c) M fa fb (2 * r))
      as (Y & HY & SY); auto; try lia.
    - rewrite Nat.mul_comm. apply Nat.Div0.mod_mul.
    - exists Y. split; auto.
      replace (4 * r)%nat with (2 * r * 2)%nat by lia. exact SY. }
  assert (Hadd : forall (A B : matrix) r c,
            has_shape A r c -> has_shape B r c ->
            exists Y, madd A B = Ok Y /\ has_shape Y r c).
  { intros A B r c HA HB. exact (madd_rows (width_invariant c) HA HB). }
  destruct (Hcol Z (g0b qshift) (g0a qshift) _ _ HZ Hh ltac:(lia) Ha0 He0 Hl0)
    as (a1 & Ea1 & Sa1).
  destruct (Hcol lh (g1b qshift) (g1a qshift) _ _ Slh Hh ltac:(lia) Ha1 He1 Hl1)
    as (b1 & Eb1 & Sb1).
  destruct (Hadd _ _ _ _ Sa1 Sb1) as (y1 & Ey1 & Sy1).
  destruct (Hcol hl (g0b qshift) (g0a qshift) _ _ Shl Hh ltac:(lia) Ha0 He0 Hl0)
    as (a2 & Ea2 & Sa2).
  destruct (Hcol hh (g1b qshift) (g1a qshift) _ _ Shh Hh ltac:(lia) Ha1 He1 Hl1)
    as (b2 & Eb2 & Sb2).
  destruct (Hadd _ _ _ _ Sa2 Sb2) as (y2 & Ey2 & Sy2).
  pose proof (has_shape_transpose Sy1 ltac:(lia)) as St1.
  pose proof (has_shape_transpose Sy2 ltac:(lia)) as St2.
  destruct (Hcol _ (g0b qshift) (g0a qshift) _ _ St1 Hw ltac:(lia) Ha0 He0 Hl0)
    as (a3 & Ea3 & Sa3).
  destruct (Hcol _ (g1b qshift) (g1a qshift) _ _ St2 Hw ltac:(lia) Ha1 He1 Hl1)
    as (b3 & Eb3 & Sb3).
  destruct (Hadd _ _ _ _ Sa3 Sb3) as (Zt & EZt & SZt).
  pose proof (has_shape_transpose SZt ltac:(lia)) as SZ4.
  rewrite Ea1; cbn [bind]. rewrite Eb1; cbn [bind]. rewrite Ey1; cbn [bind].
  rewrite Ea2; cbn [bind]. rewrite Eb2; cbn [bind]. rewrite Ey2; cbn [bind].
  rewrite Ea3; cbn [bind]. rewrite Eb3; cbn [bind]. rewrite EZt; cbn [bind].
  set (Z4 := transpose Zt) in *.
  rewrite (shape_has_shape SZ4 ltac:(lia)).
  unfold nth_res. rewrite HTp. cbn [bind fst snd].
  assert (Ep : length Tprev = p) by apply STp.
  assert (Eq : length (hd [] Tprev) = q).
  { destruct STp as [Hlen Hrows]. destruct Tprev as [|row Tp]; simpl in *; [lia|].
    now inversion Hrows as [|? ? [Hrow _] _]. }
  rewrite Ep, Eq.
  assert (Hrow_crop : has_shape (py_slice 1 (-1) Z4) (4 * h - 2) (4 * w))
    by (apply has_shape_inner_rows; [exact SZ4|lia]).
  set (Z5 := if negb (4 * h =? 2 * p)%nat then py_slice 1 (-1) Z4 else Z4).
  assert (S5 : has_shape Z5 (if (4 * h =? 2 * p)%nat then 4 * h else 4 * h - 2)%nat (4 * w)).
  { unfold Z5. destruct (4 * h =? 2 * p)%nat; cbn [negb]; assumption. }
  set (r5 := (if (4 * h =? 2 * p)%nat then 4 * h else 4 * h - 2)%nat) in *.
  assert (Hr5 : (2 <= r5)%nat) by (unfold r5; destruct (4 * h =? 2 * p)%nat; lia).
  set (Z6 := if negb (4 * w =? 2 * q)%nat then map (py_slice 1 (-1)) Z5 else Z5).
  assert (S6 : has_shape Z6 r5 (if (4 * w =? 2 * q)%nat then 4 * w else 4 * w - 2)%nat).
  { unfold Z6. destruct (4 * w =? 2 * q)%nat; cbn [negb]; [assumption|].
    apply has_shape_inner_cols; [exact S5|lia]. }
  set (c6 := (if (4 * w =? 2 * q)%nat then 4 * w else 4 * w - 2)%nat) in *.
  rewrite (rows_in_nrows S6), (rows_in_ncols (width_invariant c6) S6 ltac:(lia)).
  split.
  - intros [Hrows Hcols].
    assert (E5 : r5 = (2 * p)%nat).
    { unfold r5. destruct (4 * h =? 2 * p)%nat eqn:E5; [apply Nat.eqb_eq in E5|apply Nat.eqb_neq in E5]; lia. }
    assert (E6 : c6 = (2 * q)%nat).
    { unfold c6. destruct (4 * w =? 2 * q)%nat eqn:E6; [apply Nat.eqb_eq in E6|apply Nat.eqb_neq in E6]; lia. }
    rewrite E5, E6, !Nat.eqb_refl. cbn [negb orb].
    exists Z6. split; [reflexivity|]. now rewrite <- E5, <- E6.
  - intros Hno.
    destruct (r5 =? 2 * p)%nat eqn:E5; [|reflexivity].
    destruct (c6 =? 2 * q)%nat eqn:E6; [|reflexivity].
    exfalso. apply Hno. apply Nat.eqb_eq in E5, E6. unfold r5 in E5. unfold c6 in E6.
    destruct (4 * h =? 2 * p)%nat eqn:F5; [apply Nat.eqb_eq in F5|apply Nat.eqb_neq in F5];
      destruct (4 * w =? 2 * q)%nat eqn:F6; [apply Nat.eqb_eq in F6|apply Nat.eqb_neq in F6| |];
      try apply Nat.eqb_eq in F6; try apply Nat.eqb_neq in F6; lia.
Qed.

End InverseShapes.

Section InverseLoop.

Context {F : Type} {SF : Scalar F}.

Local Abbreviation matrix := (@matrix F).
Local Abbreviation tensor := (@tensor F).

Lemma inverse_level1_shape (biort : biort_filters) (Yh : list tensor) (gm : matrix)
    (a h w : nat) (Z : matrix) (T : tensor) :
  biort_inv_ok biort -> (1 <= h)%nat -> (1 <= w)%nat ->
  has_shape Z (2 * h) (2 * w) ->
  nth_error Yh 0 = Some T -> has_shape3 T h w 6 ->
  has_shape gm 6 a -> (0 < a)%nat ->
  exists Z', inverse_level1 biort Yh gm 1 Z = Ok Z' /\ has_shape Z' (2 * h) (2 * w).
Proof.
  intros [Ho0 Ho1] Hh Hw HZ HT ST Hgm Ha. unfold inverse_level1.
  destruct (@subband_quads_Ok F SF Yh gm 1 a h w T HT ST Hgm Ha)
    as (lh & hl & hh & E & Slh & Shl & Shh).
  rewrite E. cbn [bind].
  assert (Hl0 : (1 <= length (g0o biort))%nat)
    by (destruct (length (g0o biort)); [discriminate|lia]).
  assert (Hl1 : (1 <= length (g1o biort))%nat)
    by (destruct (length (g1o biort)); [discriminate|lia]).
  assert (Hcol : forall (M : matrix) (f : list F) r c,
            has_shape M r c -> (1 <= r)%nat -> (1 <= c)%nat ->
            Nat.odd (length f) = true -> (1 <= length f)%nat ->
            exists Y, colfilter M f = Ok Y /\ has_shape Y r c).
  { intros M f r c HM Hr Hc Hodd Hlen.
    destruct (colfilter_rows (width_invariant c) f HM Hr Hc Hlen) as (Y & HY & SY).
    rewrite Hodd in SY. eauto. }
  assert (Hadd : forall (A B : matrix) r c,
            has_shape A r c -> has_shape B r c ->
            exists Y, madd A B = Ok Y /\ has_shape Y r c).
  { intros A B r c HA HB. exact (madd_rows (width_invariant c) HA HB). }
  destruct (Hcol Z (g0o biort) _ _ HZ ltac:(lia) ltac:(lia) Ho0 Hl0) as (a1 & Ea1 & Sa1).
  destruct (Hcol lh (g1o biort) _ _ Slh ltac:(lia) ltac:(lia) Ho1 Hl1) as (b1 & Eb1 & Sb1).
  destruct (Hadd _ _ _ _ Sa1 Sb1) as (y1 & Ey1 & Sy1).
  destruct (Hcol hl (g0o biort) _ _ Shl ltac:(lia) ltac:(lia) Ho0 Hl0) as (a2 & Ea2 & Sa2).
  destruct (Hcol hh (g1o biort) _ _ Shh ltac:(lia) ltac:(lia) Ho1 Hl1) as (b2 & Eb2 & Sb2).
  destruct (Hadd _ _ _ _ Sa2 Sb2) as (y2 & Ey2 & Sy2).
  pose proof (has_shape_transpose Sy1 ltac:(lia)) as St1.
  pose proof (has_shape_transpose Sy2 ltac:(lia)) as St2.
  destruct (Hcol _ (g0o biort) _ _ St1 ltac:(lia) ltac:(lia) Ho0 Hl0) as (a3 & Ea3 & Sa3).
  destruct (Hcol _ (g1o biort) _ _ St2 ltac:(lia) ltac:(lia) Ho1 Hl1) as (b3 & Eb3 & Sb3).
  destruct (Hadd _ _ _ _ Sa3 Sb3) as (Zt & EZt & SZt).
  rewrite Ea1; cbn [bind]. rewrite Eb1; cbn [bind]. rewrite Ey1; cbn [bind].
  rewrite Ea2; cbn [bind]. rewrite Eb2; cbn [bind]. rewrite Ey2; cbn [bind].
  rewrite Ea3; cbn [bind]. rewrite Eb3; cbn [bind]. rewrite EZt; cbn [bind].
  eexists; split; [reflexivity|]. apply has_shape_transpose; [exact SZt|lia].
Qed.

(** The loop of the inverse transform on subbands whose sizes fit: level
    [i] has subbands of [hs i] rows and [ws i] columns, and the image that
    enters the level has twice as many. *)
Lemma inverse_loop_shape (qshift : qshift_filters) (Yh : list tensor) (gm : matrix)
    (hs ws : nat -> nat) :
  qshift_inv_ok qshift -> has_shape gm 6 (length Yh) ->
  forall (l : nat) (Z : matrix),
    (1 <= l)%nat -> (l <= length Yh)%nat ->
    (forall i, (1 <= i)%nat -> (i <= l)%nat ->
       (1 <= hs i)%nat /\ (1 <= ws i)%nat
       /\ exists T, nth_error Yh (i - 1) = Some T /\ has_shape3 T (hs i) (ws i) 6) ->
    (forall i, (1 <= i)%nat -> (S i <= l)%nat ->
       (2 * hs i = 4 * hs (S i) \/ 2 * hs i + 2 = 4 * hs (S i))%nat
       /\ (2 * ws i = 4 * ws (S i) \/ 2 * ws i + 2 = 4 * ws (S i))%nat) ->
    has_shape Z (2 * hs l) (2 * ws l) ->
    exists Z', inverse_loop qshift Yh gm l Z = Ok (1%nat, Z')
               /\ has_shape Z' (2 * hs 1%nat) (2 * ws 1%nat).
Proof.
  intros Hq Hgm. induction l as [|l IH]; intros Z Hl Hla Hsub Hfit HZ; [lia|].
  destruct l as [|l].
  - exists Z. split; [reflexivity|exact HZ].
  - cbn [inverse_loop].
    destruct (Hsub (S (S l)) ltac:(lia) ltac:(lia)) as (Hh & Hw & T & HT & ST).
    destruct (Hsub (S l) ltac:(lia) ltac:(lia)) as (Hp & Hq' & Tp & HTp & STp).
    destruct (Hfit (S l) ltac:(lia) ltac:(lia)) as [Fr Fc].
    replace (S l - 1)%nat with (S (S l) - 2)%nat in HTp by lia.
    destruct (@inverse_level_ge2_spec F SF qshift Yh gm (S (S l)) (length Yh)
                (hs (S (S l))) (ws (S (S l))) (hs (S l)) (ws (S l)) Z T Tp
                Hq Hh Hw Hp HZ HT ST HTp STp Hgm ltac:(lia)) as [Hok _].
    destruct (Hok (conj Fr Fc)) as (Z1 & E1 & S1).
    rewrite E1. cbn [bind].
    apply IH; auto; try lia.
Qed.

(** The inverse transform on subbands whose sizes fit returns an image of
    twice the size of the subbands of level 1. *)
Lemma dtwaveifm2_shape (Yl : matrix) (Yh : list tensor)
    (biort : biort_filters) (qshift : qshift_filters) (gain_mask : option matrix)
    (hs ws : nat -> nat) :
  biort_inv_ok biort -> qshift_inv_ok qshift ->
  (forall g, gain_mask = Some g -> has_shape g 6 (length Yh)) ->
  (1 <= length Yh)%nat ->
  (forall i, (1 <= i)%nat -> (i <= length Yh)%nat ->
     (1 <= hs i)%nat /\ (1 <= ws i)%nat
     /\ exists T, nth_error Yh (i - 1) = Some T /\ has_shape3 T (hs i) (ws i) 6) ->
  (forall i, (1 <= i)%nat -> (S i <= length Yh)%nat ->
     (2 * hs i = 4 * hs (S i) \/ 2 * hs i + 2 = 4 * hs (S i))%nat
     /\ (2 * ws i = 4 * ws (S i) \/ 2 * ws i + 2 = 4 * ws (S i))%nat) ->
  has_shape Yl (2 * hs (length Yh)) (2 * ws (length Yh)) ->
  exists Z, dtwaveifm2 Yl Yh biort qshift gain_mask = Ok Z
            /\ has_shape Z (2 * hs 1%nat) (2 * ws 1%nat).
Proof.
  intros Hb Hq Hg Hn Hsub Hfit HYl. unfold dtwaveifm2.
  set (gm := match gain_mask with None => ones 6 (length Yh) | Some g => g end).
  assert (Hgm : has_shape gm 6 (length Yh)).
  { unfold gm. destruct gain_mask as [g|]; [now apply Hg|apply has_shape_ones]. }
  destruct (@inverse_loop_shape qshift Yh gm hs ws Hq Hgm (length Yh) Yl Hn
              (Nat.le_refl _) Hsub Hfit HYl) as (Z1 & E1 & S1).
  rewrite E1. cbn [bind Nat.eqb].
  destruct (Hsub 1%nat (Nat.le_refl 1) Hn) as (Hh & Hw & T & HT & ST).
  cbn [Nat.sub] in HT.
  apply (@inverse_level1_shape biort Yh gm (length Yh) (hs 1%nat) (ws 1%nat) Z1 T);
    auto.
Qed.

End InverseLoop.

(** X19.  For two levels, a lowpass image of [2h x 2w] and subbands of
    [h x w] at level 2 and of [p x q] at level 1: the inverse transform
    interpolates the lowpass image to [4h x 4w] and returns an image of
    [2p x 2q] when, in each direction, the size of level 1 is the
    interpolated one or that less one sample at both ends
    ([2p = 4h] or [2p = 4h - 2], and the same for the columns); in every
    other case it raises [ValueError]. *)
Theorem dtwaveifm2_subband_sizes {F : Type} {SF : Scalar F}
    (Yl : list (list F)) (T1 T2 : @tensor F)
    (biort : biort_filters) (qshift : qshift_filters) (h w p q : nat) :
  biort_inv_ok biort -> qshift_inv_ok qshift ->
  (1 <= h)%nat -> (1 <= w)%nat -> (1 <= p)%nat -> (1 <= q)%nat ->
  has_shape Yl (2 * h) (2 * w) -> has_shape3 T2 h w 6 -> has_shape3 T1 p q 6 ->
  (((2 * p = 4 * h \/ 2 * p + 2 = 4 * h) /\ (2 * q = 4 * w \/ 2 * q + 2 = 4 * w))%nat ->
     exists Z, dtwaveifm2 Yl [T1; T2] biort qshift None = Ok Z
               /\ has_shape Z (2 * p) (2 * q))
  /\ (~ ((2 * p = 4 * h \/ 2 * p + 2 = 4 * h) /\ (2 * q = 4 * w \/ 2 * q + 2 = 4 * w))%nat ->
     dtwaveifm2 Yl [T1; T2] biort qshift None = Err (ValueError invalid_sizes_msg)).
Proof.
  intros Hb Hq Hh Hw Hp Hq' HYl ST2 ST1.
  unfold dtwaveifm2. cbn [length inverse_loop].
  destruct (@inverse_level_ge2_spec F SF qshift [T1; T2] (ones 6 2) 2 2 h w p q Yl T2 T1
              Hq Hh Hw Hp HYl eq_refl ST2 eq_refl ST1 (has_shape_ones 6 2) ltac:(lia))
    as [Hok Herr].
  split.
  - intros Hfit. destruct (Hok Hfit) as (Z1 & E1 & S1).
    rewrite E1. cbn [bind inverse_loop Nat.eqb].
    apply (@inverse_level1_shape F SF biort [T1; T2] (ones 6 2) 2 p q Z1 T1); auto.
    apply has_shape_ones.
  - intros Hno. rewrite (Herr Hno). reflexivity.
Qed.

Lemma dtwaveifm2_subband_sizes_witness :
  (((2 * 1 = 4 * 1 \/ 2 * 1 + 2 = 4 * 1) /\ (2 * 2 = 4 * 1 \/ 2 * 2 + 2 = 4 * 1))%nat ->
     exists Z, dtwaveifm2 [[1; 2]; [3; 4]] [zeros3 1 2; zeros3 1 1] legall two_taps None = Ok Z
               /\ has_shape Z (2 * 1) (2 * 2))
  /\ (~ ((2 * 1 = 4 * 1 \/ 2 * 1 + 2 = 4 * 1) /\ (2 * 2 = 4 * 1 \/ 2 * 2 + 2 = 4 * 1))%nat ->
     dtwaveifm2 [[1; 2]; [3; 4]] [zeros3 1 2; zeros3 1 1] legall two_taps None
     = Err (ValueError invalid_sizes_msg)).
Proof.
  apply (@dtwaveifm2_subband_sizes Q Scalar_Q [[1; 2]; [3; 4]] (zeros3 1 2) (zeros3 1 1)
           legall two_taps 1 1 1 2).
  - split; reflexivity.
  - repeat split; simpl; lia.
  - lia.
  - lia.
  - lia.
  - lia.
  - split; [reflexivity | repeat constructor].
  - apply has_shape3_zeros3.
  - apply has_shape3_zeros3.
Defined.

(** ** The inverse transform accepts what the forward transform returns *)

Lemma all_assigned {A : Type} (l : list (option A)) :
  (forall i, (i < length l)%nat -> exists a, nth i l None = Some a) ->
  exists ts, l = map Some ts.
Proof.
  induction l as [|o l IH]; intros H.
  - exists []. reflexivity.
  - destruct (H 0%nat ltac:(simpl; lia)) as (a & Ha). simpl in Ha. subst o.
    destruct IH as (ts & ->).
    + intros i Hi. apply (H (S i)). simpl. lia.
    + exists (a :: ts). reflexivity.
Qed.

Lemma nth_map_Some {A : Type} (ts : list A) (i : nat) (a : A) :
  nth i (map Some ts) None = Some a -> nth_error ts i = Some a.
Proof.
  revert i. induction ts as [|t ts IH]; intros [|i]; simpl; try discriminate; auto.
Qed.

Lemma lowpass_dim_half (h i : nat) :
  (1 <= h)%nat ->
  (2 * (lowpass_dim (2 * h) i / 2) = lowpass_dim (2 * h) i)%nat
  /\ (1 <= lowpass_dim (2 * h) i / 2)%nat.
Proof.
  intros Hh. destruct (lowpass_dim_even i Hh) as (k & Ek & Hk).
  rewrite Ek, half_of_2. lia.
Qed.

Lemma lowpass_dim_fit (h i : nat) :
  (1 <= h)%nat -> (1 <= i)%nat ->
  (2 * (lowpass_dim (2 * h) i / 2) = 4 * (lowpass_dim (2 * h) (S i) / 2)
   \/ 2 * (lowpass_dim (2 * h) i / 2) + 2 = 4 * (lowpass_dim (2 * h) (S i) / 2))%nat.
Proof.
  intros Hh Hi. destruct i as [|i]; [lia|].
  rewrite lowpass_dim_step.
  destruct (lowpass_dim_even (S i) Hh) as (k & Ek & Hk). rewrite Ek, half_of_2.
  destruct (pad4_even Hk) as (k' & Ek' & Hk'). rewrite Ek', half_of_4, half_of_2.
  unfold pad4 in Ek'. destruct (2 * k mod 4 =? 0)%nat; lia.
Qed.

(** X20.  On an image with at least one row and one column and filter sets
    of the accepted lengths, the forward transform with any number of
    levels returns subband tensors for all its levels, and the inverse
    transform accepts them, with the default gains or with any gain mask
    of 6 rows and one column per level: it raises no error and returns an
    image of the size of the image made even in both dimensions. *)
Theorem inverse_accepts_forward {F : Type} {SF : Scalar F}
    (X : list (list F)) (R C n : nat)
    (biort : biort_filters) (qshift : qshift_filters) (sc : bool)
    (gain_mask : option (list (list F))) :
  has_shape X R C -> (1 <= R)%nat -> (1 <= C)%nat ->
  biort_ok biort -> qshift_ok qshift -> biort_inv_ok biort -> qshift_inv_ok qshift ->
  (forall g, gain_mask = Some g -> has_shape g 6 n) ->
  exists res Ts Z,
    dtwavexfm2 X n biort qshift sc = Ok res
    /\ Yh res = map Some Ts
    /\ dtwaveifm2 (Yl res) Ts biort qshift gain_mask = Ok Z
    /\ has_shape Z (even_up R) (even_up C).
Proof.
  intros HX HR HC Hb Hq Hbi Hqi Hg.
  destruct (dtwavexfm2_ok n sc HX HR HC Hb Hq) as (res & E & SL & Hlen & Hsub & _).
  destruct (even_up_even HR) as (h & Eh & Hh).
  destruct (even_up_even HC) as (w & Ew & Hw).
  rewrite Eh, Ew in *.
  destruct (@all_assigned _ (Yh res)) as (Ts & ETs).
  { intros i Hi. rewrite Hlen in Hi. destruct (Hsub i Hi) as (T & HT & _). eauto. }
  assert (HlenT : length Ts = n) by (rewrite <- Hlen, ETs; now rewrite length_map).
  exists res, Ts. destruct n as [|n].
  - exists (Yl res). split; [exact E|]. split; [exact ETs|].
    destruct Ts; [|discriminate]. split; [reflexivity|exact SL].
  - destruct (@dtwaveifm2_shape F SF (Yl res) Ts biort qshift gain_mask
                (fun i => lowpass_dim (2 * h) i / 2)%nat
                (fun i => lowpass_dim (2 * w) i / 2)%nat) as (Z & EZ & SZ); auto.
    + now rewrite HlenT.
    + lia.
    + intros i Hi1 Hi2. rewrite HlenT in Hi2.
      split; [apply (lowpass_dim_half i Hh)|]. split; [apply (lowpass_dim_half i Hw)|].
      destruct (Hsub (i - 1)%nat ltac:(lia)) as (T & HT & ST).
      exists T. split.
      * apply nth_map_Some. now rewrite <- ETs.
      * replace (S (i - 1)) with i in ST by lia. exact ST.
    + intros i Hi1 Hi2. split; now apply lowpass_dim_fit.
    + rewrite HlenT.
      rewrite (proj1 (lowpass_dim_half (S n) Hh)), (proj1 (lowpass_dim_half (S n) Hw)).
      exact SL.
    + exists Z. split; [exact E|]. split; [exact ETs|]. split; [exact EZ|].
      rewrite (proj1 (lowpass_dim_half 1 Hh)), (proj1 (lowpass_dim_half 1 Hw)) in SZ.
      exact SZ.
Qed.

Lemma inverse_accepts_forward_witness :
  exists res Ts Z,
    dtwavexfm2 image4 2 legall two_taps false = Ok res
    /\ Yh res = map Some Ts
    /\ dtwaveifm2 (Yl res) Ts legall two_taps None = Ok Z
    /\ has_shape Z (even_up 4) (even_up 4).
Proof.
  apply (@inverse_accepts_forward Q Scalar_Q image4 4 4 2 legall two_taps false None).
  - split; [reflexivity | repeat constructor].
  - lia.
  - lia.
  - split; reflexivity.
  - repeat split; simpl; lia.
  - split; reflexivity.
  - repeat split; simpl; lia.
  - intros g Hgm. discriminate Hgm.
Defined.

(** ** The cache of the coefficient loader *)

Lemma dict_get_set_same {A : Type} (d : dict A) (k : string) (v : A) :
  dict_get (dict_set d k v) k = Some v.
Proof. unfold dict_set. simpl. now rewrite String.eqb_refl. Qed.

Lemma dict_get_set_other {A : Type} (d : dict A) (k k' : string) (v : A) :
  k' <> k -> dict_get (dict_set d k v) k' = dict_get d k'.
Proof.
  intros Hne. unfold dict_set. simpl.
  rewrite (proj2 (String.eqb_neq k' k) Hne).
  induction d as [|[k0 v0] d IH]; simpl; auto.
  destruct (String.eqb k k0) eqn:E0; simpl.
  - apply String.eqb_eq in E0. subst k0.
    now rewrite (proj2 (String.eqb_neq k' k) Hne).
  - destruct (String.eqb k' k0); auto.
Qed.

Section CoeffsCache.

Variable V : Type.
Variable E : Type.
Variable DATADIR : string.
Variable path_join : string -> string -> string.

Local Abbreviation load := (@_load_from_file V E DATADIR path_join).

(** A call leaves every binding of the cache as it is, and binds the file
    that [loadmat] has read. *)
Lemma load_cache (fs : file_system V E) (basename : string) (varnames : list string)
    (cache : dict (mat V)) :
  (forall k m, dict_get cache k = Some m ->
     dict_get (snd (load fs basename varnames cache)) k = Some m)
  /\ (forall k, k <> path_join DATADIR (basename ++ ".mat")%string ->
        dict_get (snd (load fs basename varnames cache)) k = dict_get cache k)
  /\ ((forall e, fst (load fs basename varnames cache) <> Raised (LoadmatError e)) ->
      exists m, dict_get (snd (load fs basename varnames cache))
                         (path_join DATADIR (basename ++ ".mat")%string)
                = Some m).
Proof.
  unfold _load_from_file. cbv zeta.
  destruct (dict_get cache (path_join DATADIR (basename ++ ".mat")%string)) as [m|] eqn:Ec.
  - destruct (coefficients m varnames); cbn [fst snd]; eauto.
  - destruct (fs (path_join DATADIR (basename ++ ".mat")%string)) as [m|e] eqn:Ef.
    + destruct (coefficients m varnames); cbn [fst snd];
        (split; [|split]);
        try (intros k m' Hk; rewrite dict_get_set_other; [exact Hk|congruence]);
        try (intros k Hk; now apply dict_get_set_other);
        try (intros _; exists m; apply dict_get_set_same).
    + cbn [fst snd]. split; [auto|]. split; [auto|].
      intros H. exfalso. now apply (H e).
Qed.

(** Once a file is in the cache, the file system is not consulted. *)
Lemma load_cached (fs : file_system V E) (basename : string) (varnames : list string)
    (cache : dict (mat V)) (m : mat V) :
  dict_get cache (path_join DATADIR (basename ++ ".mat")%string) = Some m ->
  load fs basename varnames cache
  = (match coefficients m varnames with
     | Some vs => Loaded vs
     | None => Raised (LoadValueError (missing_msg varnames))
     end, cache).
Proof.
  intros Hc. unfold _load_from_file. cbv zeta. rewrite Hc.
  destruct (coefficients m varnames); reflexivity.
Qed.

(** A call in which [loadmat] raises leaves the cache as it is: the file
    is looked for again by the next call. *)
Lemma load_raises (fs : file_system V E) (basename : string) (varnames : list string)
    (cache : dict (mat V)) (e : E) :
  dict_get cache (path_join DATADIR (basename ++ ".mat")%string) = None ->
  fs (path_join DATADIR (basename ++ ".mat")%string) = LoadmatRaises e ->
  load fs basename varnames cache = (Raised (LoadmatError e), cache).
Proof.
  intros Hc Hf. unfold _load_from_file. cbv zeta. now rewrite Hc, Hf.
Qed.

End CoeffsCache.

(** X21.  A data file is read once: after a call of [_load_from_file] in
    which [loadmat] did not raise, every later call for the same file,
    whatever the variables it asks for, is answered from the cache; its
    result does not depend on what the file system holds by then, and it
    leaves the cache as it is.  After a call in which [loadmat] raised,
    whatever the exception, the file is not in the cache and the next call
    asks the file system again. *)
Theorem load_reads_file_once (V E : Type) (DATADIR : string)
    (path_join : string -> string -> string)
    (fs fs1 fs2 : file_system V E) (basename : string) (varnames varnames' : list string)
    (cache : dict (mat V)) :
  let filename := path_join DATADIR (basename ++ ".mat")%string in
  let call := _load_from_file DATADIR path_join fs basename varnames cache in
  ((forall e, fst call <> Raised (LoadmatError e)) ->
     _load_from_file DATADIR path_join fs1 basename varnames' (snd call)
     = _load_from_file DATADIR path_join fs2 basename varnames' (snd call)
     /\ snd (_load_from_file DATADIR path_join fs1 basename varnames' (snd call)) = snd call)
  /\ (forall e, fst call = Raised (LoadmatError e) ->
        snd call = cache
        /\ dict_get cache filename = None
        /\ forall e1, fs1 filename = LoadmatRaises e1 ->
             _load_from_file DATADIR path_join fs1 basename varnames' (snd call)
             = (Raised (LoadmatError e1), cache)).
Proof.
  intros filename call. split.
  - intros Hio.
    destruct (load_cache DATADIR path_join fs basename varnames cache) as (_ & _ & Hin).
    destruct (Hin Hio) as (m & Hm). fold call in Hm.
    rewrite (load_cached DATADIR path_join fs1 basename varnames' (snd call) Hm).
    rewrite (load_cached DATADIR path_join fs2 basename varnames' (snd call) Hm).
    split; reflexivity.
  - intros e He. subst call filename. unfold _load_from_file in *. cbv zeta in *.
    destruct (dict_get cache (path_join DATADIR (basename ++ ".mat")%string)) as [m|] eqn:Ec.
    { destruct (coefficients m varnames); discriminate He. }
    destruct (fs (path_join DATADIR (basename ++ ".mat")%string)) as [m|e0] eqn:Ef.
    { destruct (coefficients m varnames); discriminate He. }
    cbn [snd]. split; [reflexivity|]. split; [reflexivity|].
    intros e1 H1. now rewrite Ec, H1.
Qed.

Lemma load_reads_file_once_witness :
  let filename := (fun a b => a ++ "/" ++ b)%string "data"%string ("legall" ++ ".mat")%string in
  let call :=
    _load_from_file "data" (fun a b => a ++ "/" ++ b)%string
      (fun f => if String.eqb f "data/legall.mat"
                then LoadmatReturns [("h0o"%string, 1%nat)]
                else LoadmatRaises "IOError"%string)
      "legall" ["h0o"%string] [] in
  ((forall e, fst call <> Raised (LoadmatError e)) ->
     _load_from_file "data" (fun a b => a ++ "/" ++ b)%string
       (fun _ => LoadmatRaises "IOError"%string) "legall" ["h0o"; "g0o"]%string (snd call)
     = _load_from_file "data" (fun a b => a ++ "/" ++ b)%string
         (fun _ => LoadmatReturns []) "legall" ["h0o"; "g0o"]%string (snd call)
     /\ snd (_load_from_file "data" (fun a b => a ++ "/" ++ b)%string
               (fun _ => LoadmatRaises "IOError"%string) "legall" ["h0o"; "g0o"]%string
               (snd call)) = snd call)
  /\ (forall e, fst call = Raised (LoadmatError e) ->
        snd call = []
        /\ dict_get (@nil (string * mat nat)) filename = None
        /\ forall e1, (fun _ : string => @LoadmatRaises string (mat nat) "IOError"%string) filename
                      = LoadmatRaises e1 ->
             _load_from_file "data" (fun a b => a ++ "/" ++ b)%string
               (fun _ => LoadmatRaises "IOError"%string) "legall" ["h0o"; "g0o"]%string
               (snd call)
             = (Raised (LoadmatError e1), [])).
Proof.
  exact (@load_reads_file_once nat string "data" (fun a b => a ++ "/" ++ b)%string
           (fun f => if String.eqb f "data/legall.mat"
                     then LoadmatReturns [("h0o"%string, 1%nat)]
                     else LoadmatRaises "IOError"%string)
           (fun _ => LoadmatRaises "IOError"%string) (fun _ => LoadmatReturns [])
           "legall" ["h0o"%string] ["h0o"; "g0o"]%string []).
Defined.

(** X22.  The cache only grows: a call of [_load_from_file] keeps every
    binding of the cache, changes no binding of another file, and, unless
    [loadmat] raises in it, leaves the file it was asked for bound, also
    when the call then raises [ValueError] for a variable that the file
    does not define. *)
Theorem load_keeps_cache (V E : Type) (DATADIR : string)
    (path_join : string -> string -> string)
    (fs : file_system V E) (basename : string) (varnames : list string)
    (cache : dict (mat V)) :
  (forall k m, dict_get cache k = Some m ->
     dict_get (snd (_load_from_file DATADIR path_join fs basename varnames cache)) k = Some m)
  /\ (forall k, k <> path_join DATADIR (basename ++ ".mat")%string ->
        dict_get (snd (_load_from_file DATADIR path_join fs basename varnames cache)) k
        = dict_get cache k)
  /\ ((forall e, fst (_load_from_file DATADIR path_join fs basename varnames cache)
                 <> Raised (LoadmatError e)) ->
      exists m,
        dict_get (snd (_load_from_file DATADIR path_join fs basename varnames cache))
                 (path_join DATADIR (basename ++ ".mat")%string) = Some m).
Proof. apply load_cache. Qed.

(** X23.  For a file that is not in the cache, [biort(name)] passes on the
    exception of [loadmat] and leaves the cache as it is when [loadmat]
    raises ([IOError] for a name that the library does not know); it
    returns the arrays [h0o], [g0o], [h1o], [g1o] of the file, in this
    order, when the file defines the four of them; and it raises
    [ValueError] with the message that names the four variables when one
    is missing, as in the file of a qshift wavelet.  In the last two cases
    the file is in the cache afterwards. *)
Theorem biort_outcomes (V E : Type) (DATADIR : string)
    (path_join : string -> string -> string)
    (fs : file_system V E) (name : string) (cache : dict (mat V)) :
  dict_get cache (path_join DATADIR (name ++ ".mat")%string) = None ->
  match fs (path_join DATADIR (name ++ ".mat")%string) with
  | LoadmatRaises e =>
      biort DATADIR path_join fs name cache = (Raised (LoadmatError e), cache)
  | LoadmatReturns m =>
      dict_get (snd (biort DATADIR path_join fs name cache))
               (path_join DATADIR (name ++ ".mat")%string) = Some m
      /\ match dict_get m "h0o", dict_get m "g0o", dict_get m "h1o", dict_get m "g1o" with
         | Some a, Some b, Some c, Some d =>
             fst (biort DATADIR path_join fs name cache) = Loaded [a; b; c; d]
         | _, _, _, _ =>
             fst (biort DATADIR path_join fs name cache)
             = Raised (LoadValueError
                         "Wavelet does not define (h0o, g0o, h1o, g1o) coefficients")
         end
  end.
Proof.
  intros Hc. unfold biort, _load_from_file. cbv zeta. rewrite Hc.
  destruct (fs (path_join DATADIR (name ++ ".mat")%string)) as [m|e]; [|reflexivity].
  split.
  - destruct (coefficients m _); cbn [snd]; apply dict_get_set_same.
  - cbn [coefficients].
    destruct (dict_get m "h0o"), (dict_get m "g0o"), (dict_get m "h1o"), (dict_get m "g1o");
      reflexivity.
Qed.

Lemma biort_outcomes_witness :
  dict_get (@nil (string * mat nat))
           ((fun a b => a ++ "/" ++ b)%string "data"%string ("qshift_a" ++ ".mat")%string) = None
  /\ match (fun f => if String.eqb f "data/qshift_a.mat"
                     then LoadmatReturns [("h0a"%string, 1%nat); ("h0b"%string, 2%nat)]
                     else @LoadmatRaises string (mat nat) "IOError"%string)
             ((fun a b => a ++ "/" ++ b)%string "data"%string ("qshift_a" ++ ".mat")%string) with
     | LoadmatRaises e =>
         biort "data" (fun a b => a ++ "/" ++ b)%string
           (fun f => if String.eqb f "data/qshift_a.mat"
                     then LoadmatReturns [("h0a"%string, 1%nat); ("h0b"%string, 2%nat)]
                     else LoadmatRaises "IOError"%string)
           "qshift_a" []
         = (Raised (LoadmatError e), [])
     | LoadmatReturns m =>
         dict_get (snd (biort "data" (fun a b => a ++ "/" ++ b)%string
                          (fun f => if String.eqb f "data/qshift_a.mat"
                                    then LoadmatReturns [("h0a"%string, 1%nat); ("h0b"%string, 2%nat)]
                                    else LoadmatRaises "IOError"%string)
                          "qshift_a" []))
                  ((fun a b => a ++ "/" ++ b)%string "data"%string ("qshift_a" ++ ".mat")%string)
         = Some m
         /\ match dict_get m "h0o", dict_get m "g0o", dict_get m "h1o", dict_get m "g1o" with
            | Some a, Some b, Some c, Some d =>
                fst (biort "data" (fun a b => a ++ "/" ++ b)%string
                       (fun f => if String.eqb f "data/qshift_a.mat"
                                 then LoadmatReturns [("h0a"%string, 1%nat); ("h0b"%string, 2%nat)]
                                 else LoadmatRaises "IOError"%string)
                       "qshift_a" []) = Loaded [a; b; c; d]
            | _, _, _, _ =>
                fst (biort "data" (fun a b => a ++ "/" ++ b)%string
                       (fun f => if String.eqb f "data/qshift_a.mat"
                                 then LoadmatReturns [("h0a"%string, 1%nat); ("h0b"%string, 2%nat)]
                                 else LoadmatRaises "IOError"%string)
                       "qshift_a" [])
                = Raised (LoadValueError
                            "Wavelet does not define (h0o, g0o, h1o, g1o) coefficients")
            end
     end.
Proof.
  split; [reflexivity|].
  apply (@biort_outcomes nat string "data" (fun a b => a ++ "/" ++ b)%string
           (fun f => if String.eqb f "data/qshift_a.mat"
                     then LoadmatReturns [("h0a"%string, 1%nat); ("h0b"%string, 2%nat)]
                     else LoadmatRaises "IOError"%string)
           "qshift_a" []).
  reflexivity.
Defined.

(** ** Errors that the transforms pass on *)

(** X24.  With level 1 filters of odd lengths and at least two levels, the
    forward transform fails at level 2 on a pair [h0b], [h0a] that
    [coldfilt] refuses, with the error of [coldfilt]: the lengths differ,
    or they are equal and odd.  The lowpass image is padded to a multiple
    of 4 rows before, so the first check of [coldfilt] passes. *)
Theorem dtwavexfm2_qshift_errors {F : Type} {SF : Scalar F}
    (X : list (list F)) (R C n : nat)
    (biort : biort_filters) (qshift : qshift_filters) (sc : bool) :
  has_shape X R C -> (1 <= R)%nat -> (1 <= C)%nat -> biort_ok biort -> (2 <= n)%nat ->
  (length (h0b qshift) <> length (h0a qshift) ->
     dtwavexfm2 X n biort qshift sc
     = Err (ValueError "Shapes of ha and hb must be the same"))
  /\ (length (h0b qshift) = length (h0a qshift) ->
      (length (h0b qshift) mod 2 <> 0)%nat ->
      dtwavexfm2 X n biort qshift sc
      = Err (ValueError "Lengths of ha and hb must be even")).
Proof.
  intros HX HR HC Hb Hn.
  pose proof (extend_odd_shape HX HR) as HE.
  destruct (even_up_even HR) as (h & Eh & Hh).
  destruct (even_up_even HC) as (w & Ew & Hw).
  rewrite Eh, Ew in HE.
  destruct (level1_ok HE Hh Hw Hb) as (LoLo & T & E1 & SL & ST).
  pose proof (pad_lowpass_shape SL ltac:(lia)) as HP.
  destruct (pad4_even Hh) as (k & Ek & Hk). rewrite Ek in HP.
  assert (Hrun : forall e,
            coldfilt (pad_lowpass LoLo) (h0b qshift) (h0a qshift) = Err e ->
            dtwavexfm2 X n biort qshift sc = Err e).
  { intros e He. unfold dtwavexfm2.
    destruct n as [|[|n]]; try lia. cbn [Nat.eqb]. rewrite E1. cbn [bind fst snd].
    replace (S (S n) - 1)%nat with (S n) by lia.
    cbn [seq levels_loop]. unfold level_step, level_ge2. cbn [st_LoLo].
    rewrite He. reflexivity. }
  assert (H4 : (nrows (pad_lowpass LoLo) mod 4 =? 0)%nat = true).
  { rewrite (rows_in_nrows HP). apply Nat.eqb_eq.
    rewrite Nat.mul_comm. apply Nat.Div0.mod_mul. }
  split.
  - intros Hne. apply Hrun. unfold coldfilt, shape. rewrite H4. cbn [negb].
    now rewrite (proj2 (Nat.eqb_neq _ _) Hne).
  - intros Heq Hodd. apply Hrun. unfold coldfilt, shape. rewrite H4. cbn [negb].
    rewrite Heq, Nat.eqb_refl. cbn [negb]. rewrite <- Heq.
    now rewrite (proj2 (Nat.eqb_neq _ _) Hodd).
Qed.

Lemma dtwavexfm2_qshift_errors_witness :
  (length (h0b {| h0a := [1; 2]; h0b := [1; 2; 3]; g0a := []; g0b := [];
                  h1a := []; h1b := []; g1a := []; g1b := [] |})
   <> length (h0a {| h0a := [1; 2]; h0b := [1; 2; 3]; g0a := []; g0b := [];
                     h1a := []; h1b := []; g1a := []; g1b := [] |}) ->
     dtwavexfm2 image4 2 legall
       {| h0a := [1; 2]; h0b := [1; 2; 3]; g0a := []; g0b := [];
          h1a := []; h1b := []; g1a := []; g1b := [] |} false
     = Err (ValueError "Shapes of ha and hb must be the same"))
  /\ (length (h0b {| h0a := [1; 2]; h0b := [1; 2; 3]; g0a := []; g0b := [];
                     h1a := []; h1b := []; g1a := []; g1b := [] |})
      = length (h0a {| h0a := [1; 2]; h0b := [1; 2; 3]; g0a := []; g0b := [];
                       h1a := []; h1b := []; g1a := []; g1b := [] |}) ->
      (length (h0b {| h0a := [1; 2]; h0b := [1; 2; 3]; g0a := []; g0b := [];
                      h1a := []; h1b := []; g1a := []; g1b := [] |}) mod 2 <> 0)%nat ->
      dtwavexfm2 image4 2 legall
        {| h0a := [1; 2]; h0b := [1; 2; 3]; g0a := []; g0b := [];
           h1a := []; h1b := []; g1a := []; g1b := [] |} false
      = Err (ValueError "Lengths of ha and hb must be even")).
Proof.
  apply (@dtwavexfm2_qshift_errors Q Scalar_Q image4 4 4 2 legall
           {| h0a := [1; 2]; h0b := [1; 2; 3]; g0a := []; g0b := [];
              h1a := []; h1b := []; g1a := []; g1b := [] |} false).
  - split; [reflexivity | repeat constructor].
  - lia.
  - lia.
  - split; reflexivity.
  - lia.
Defined.

Lemma gains_short {F : Type} {SF : Scalar F} (gm : list (list F)) (l : nat) :
  (length gm < 6)%nat -> gains gm 0 5 l = Err IndexError.
Proof.
  intros H. unfold gains, nth_res.
  destruct (nth_error gm 0) as [row0|]; cbn [bind]; [|reflexivity].
  destruct (nth_error row0 l); cbn [bind]; [|reflexivity].
  assert (E : nth_error gm 5 = None) by (apply nth_error_None; lia).
  now rewrite E.
Qed.

(** X25.  A gain mask with fewer than 6 rows makes the inverse transform
    raise [IndexError] at the first level it treats, the last of [Yh]:
    the gains of the directions 0 and 5 are read first. *)
Theorem gain_mask_needs_six_rows {F : Type} {SF : Scalar F}
    (Yl : list (list F)) (Ts : list (@tensor F)) (T : @tensor F) (h w : nat)
    (biort : biort_filters) (qshift : qshift_filters) (gm : list (list F)) :
  has_shape3 T h w 6 -> (length gm < 6)%nat ->
  dtwaveifm2 Yl (Ts ++ [T]) biort qshift (Some gm) = Err IndexError.
Proof.
  intros HT Hgm. unfold dtwaveifm2.
  assert (Hq : subband_quads (Ts ++ [T]) gm (length (Ts ++ [T])) = Err IndexError).
  { unfold subband_quads, nth_res.
    replace (length (Ts ++ [T]) - 1)%nat with (length Ts)
      by (rewrite length_app; simpl; lia).
    rewrite nth_error_app2, Nat.sub_diag by lia. cbn [nth_error bind].
    rewrite (bands_Ok HT) by lia. cbn [bind].
    now rewrite gains_short. }
  destruct (length (Ts ++ [T])) as [|[|l]] eqn:El.
  - rewrite length_app in El. simpl in El. lia.
  - cbn [inverse_loop bind Nat.eqb]. unfold inverse_level1. now rewrite Hq.
  - cbn [inverse_loop]. unfold inverse_level_ge2. now rewrite Hq.
Qed.

Lemma gain_mask_needs_six_rows_witness :
  dtwaveifm2 [[1; 2]; [3; 4]] ([] ++ [zeros3 1 1]) legall two_taps (Some [[1]; [1]])
  = Err IndexError.
Proof.
  apply (@gain_mask_needs_six_rows Q Scalar_Q [[1; 2]; [3; 4]] [] (zeros3 1 1) 1 1
           legall two_taps [[1]; [1]]).
  - apply has_shape3_zeros3.
  - simpl; lia.
Defined.

(** ** The crop of the inverse transform undoes the padding of the forward one *)

Lemma py_slice_inner_eq {A : Type} (a b : A) (l : list A) :
  py_slice 1 (-1) (a :: l ++ [b]) = l.
Proof.
  assert (Hlen : length (a :: l ++ [b]) = S (S (length l)))
    by (simpl; rewrite length_app; simpl; lia).
  unfold py_slice, slice_bound. cbn [Z.ltb Z.compare]. rewrite Hlen.
  replace (Nat.min (Z.to_nat 1) (S (S (length l)))) with 1%nat by lia.
  replace (Z.to_nat (Z.max 0 (-1 + Z.of_nat (S (S (length l)))))) with (S (length l))
    by lia.
  cbn [skipn]. replace (S (length l) - 1)%nat with (length l) by lia.
  rewrite firstn_app, Nat.sub_diag, firstn_all. simpl. apply app_nil_r.
Qed.

(** X28.  The forward transform pads a lowpass image whose number of rows
    (or of columns) is not a multiple of 4 by one row (column) at both
    ends, and the inverse transform crops an image that is larger than the
    subbands ask for by [Z[1:-1,:]] and [Z[:,1:-1]]: that crop, applied to
    the padded image with the size of the image as the size asked for,
    gives the image back. *)
Theorem crop_undoes_padding {F : Type} {SF : Scalar F}
    (L : list (list F)) (r c : nat) :
  has_shape L r c -> (1 <= r)%nat -> (1 <= c)%nat ->
  let P := pad_lowpass L in
  let P1 := if negb (nrows P =? r)%nat then py_slice 1 (-1) P else P in
  let P2 := if negb (ncols P =? c)%nat then map (py_slice 1 (-1)) P1 else P1 in
  has_shape P (pad4 r) (pad4 c) /\ P2 = L.
Proof.
  intros HL Hr Hc. cbv zeta.
  pose proof (pad_lowpass_shape HL Hr) as HP. split; [exact HP|].
  assert (Hp4 : (1 <= pad4 r)%nat) by (unfold pad4; destruct (r mod 4 =? 0)%nat; lia).
  rewrite (rows_in_nrows HP), (rows_in_ncols (width_invariant _) HP Hp4).
  unfold pad_lowpass, pad4. rewrite (shape_has_shape HL Hr).
  destruct HL as [Hlen Hrows].
  assert (Hcols : forall M : list (list F),
            map (py_slice 1 (-1)) (map (fun row => hd s0 row :: row ++ [last row s0]) M) = M).
  { intros M. rewrite map_map. rewrite <- (map_id M) at 2. apply map_ext.
    intros row. apply py_slice_inner_eq. }
  destruct (r mod 4 =? 0)%nat, (c mod 4 =? 0)%nat; cbn [negb];
    rewrite ?Nat.eqb_refl;
    rewrite ?(proj2 (Nat.eqb_neq (r + 2) r)) by lia;
    rewrite ?(proj2 (Nat.eqb_neq (c + 2) c)) by lia;
    cbn [negb].
  - reflexivity.
  - apply Hcols.
  - apply py_slice_inner_eq.
  - cbn [map]. rewrite map_app. cbn [map]. rewrite py_slice_inner_eq. apply Hcols.
Qed.

Lemma crop_undoes_padding_witness :
  let P := pad_lowpass [[1; 2]; [3; 4]] in
  let P1 := if negb (nrows P =? 2)%nat then py_slice 1 (-1) P else P in
  let P2 := if negb (ncols P =? 2)%nat then map (py_slice 1 (-1)) P1 else P1 in
  has_shape P (pad4 2) (pad4 2) /\ P2 = [[1; 2]; [3; 4]].
Proof.
  apply (@crop_undoes_padding Q Scalar_Q [[1; 2]; [3; 4]] 2 2).
  - split; [reflexivity | repeat constructor].
  - lia.
  - lia.
Defined.

(** ** Zero gains *)

Lemma c2q_quad_zero_gain (z0 z1 : @complex R) :
  c2q_quad z0 z1 0%R 0%R = ((0, 0), (0, 0))%R.
Proof.
  destruct z0 as [a b], z1 as [c d].
  unfold c2q_quad, cadd, csub, cr_mul. simpl.
  repeat f_equal; ring.
Qed.

(** X29.  With the gains [[0, 0]], in exact arithmetic, [c2q] returns the
    zero matrix of [2H] rows and [2W] columns whatever the subbands hold:
    a pair of bands whose gains are zero adds nothing to the
    reconstruction. *)
Theorem c2q_zero_gain (w : @tensor R) (H W : nat) :
  has_shape3 w H W 2 ->
  c2q w [0; 0]%R = Ok (zeros (2 * H) (2 * W)).
Proof.
  intros Hw. destruct (two_bands Hw) as [Ew Hrows].
  set (w' := map (map (fun cell => [nth 0 cell czero; nth 1 cell czero])) w) in Ew.
  transitivity (c2q w' [0; 0]%R); [now rewrite <- Ew|].
  unfold w'. rewrite (c2q_of_quads _ _ _ _ Hrows). apply f_equal.
  transitivity (@zeros R Scalar_R (length w * 2) (length (hd [] w) * 2)).
  - rewrite (zeros_of_quads Hrows). f_equal.
    apply map_ext. intros row. apply map_ext. intros cell. apply c2q_quad_zero_gain.
  - destruct Hw as [Hlen Hcells]. rewrite Hlen.
    replace (H * 2)%nat with (2 * H)%nat by lia.
    destruct w as [|row w0]; simpl in Hlen.
    + subst H. reflexivity.
    + cbn [hd]. inversion Hrows as [|? ? Hrow _]; subst.
      now rewrite (Nat.mul_comm (length row) 2).
Qed.

Lemma c2q_zero_gain_witness :
  c2q [[[Cx 1 2; Cx 3 4]; [Cx 5 6; Cx 7 8]]]%R [0; 0]%R = Ok (zeros (2 * 1) (2 * 2)).
Proof.
  apply (@c2q_zero_gain [[[Cx 1 2; Cx 3 4]; [Cx 5 6; Cx 7 8]]]%R 1 2).
  split; [reflexivity|]. repeat constructor.
Defined.

(* ================================================================= *)
(** * reflect on arrays that carry their dtype *)
(* ================================================================= *)

(** ** Doubles that are exact *)

Lemma Qred_lowest (n : Z) (d : positive) :
  Z.gcd n (Zpos d) = 1%Z -> Qred (n # d) = n # d.
Proof.
  intros Hg. unfold Qred.
  pose proof (Z.ggcd_gcd n (Zpos d)) as H1.
  pose proof (Z.ggcd_correct_divisors n (Zpos d)) as H2.
  destruct (Z.ggcd n (Zpos d)) as [g [r1 r2]]. cbn [fst snd] in *.
  rewrite Hg in H1. subst g. destruct H2 as [E1 E2].
  rewrite Z.mul_1_l in E1, E2. subst r1. rewrite <- E2. reflexivity.
Qed.

Lemma Qred_inject_Z (z : Z) : Qred (inject_Z z) = inject_Z z.
Proof.
  apply Qred_lowest. apply Z.gcd_1_r.
Qed.

Lemma round64_compat (p q : Q) : p == q -> Ndarray.round64 p = Ndarray.round64 q.
Proof.
  intros H. unfold Ndarray.round64. now rewrite (Qred_complete p q H).
Qed.

Lemma Q2pow_inv (j : Z) (z : Z) :
  (0 <= j)%Z -> inject_Z (z * 2 ^ j) * Ndarray.Q2pow (- j) == inject_Z z.
Proof.
  intros Hj. unfold Ndarray.Q2pow.
  destruct (Z.eq_dec j 0) as [->|Hne].
  - simpl. rewrite Z.mul_1_r. ring.
  - rewrite (proj2 (Z.leb_gt _ _)) by lia.
    rewrite Z.opp_involutive.
    assert (Hp : (0 < 2 ^ j)%Z) by (apply Z.pow_pos_nonneg; lia).
    unfold Qeq, Qmult, inject_Z. cbn [Qnum Qden].
    rewrite Pos.mul_1_l, Z2Pos.id by exact Hp. ring.
Qed.

Lemma pow2_53_lt : (2 ^ 53 < 2 ^ 1024)%Z.
Proof. apply Z.pow_lt_mono_r; lia. Qed.

(** An integer below [2^53] is a double. *)
Lemma round64_Z (z : Z) :
  (Z.abs z < 2 ^ 53)%Z -> Ndarray.round64 (inject_Z z) = Ndarray.Fin (inject_Z z).
Proof.
  intros Hz. unfold Ndarray.round64. rewrite Qred_inject_Z.
  cbn [inject_Z Qnum Qden].
  destruct (Z.eqb_spec z 0) as [->|Hne]; [reflexivity|].
  assert (Hk0 : (0 <= Z.log2 (Z.abs z))%Z) by apply Z.log2_nonneg.
  assert (Hk : (Z.log2 (Z.abs z) < 53)%Z) by (apply Z.log2_lt_pow2; lia).
  assert (Hlog : Ndarray.Qlog2 (inject_Z z) = Z.log2 (Z.abs z)).
  { unfold Ndarray.Qlog2. cbn [inject_Z Qnum Qden].
    change (Z.log2 1) with 0%Z. rewrite Z.sub_0_r.
    rewrite (Z.max_l 0 (- Z.log2 (Z.abs z))), (Z.max_r 0 (Z.log2 (Z.abs z))) by lia.
    pose proof (Z.log2_spec (Z.abs z) ltac:(lia)) as [Hlo _].
    rewrite (proj2 (Z.ltb_ge _ _)) by lia. reflexivity. }
  rewrite Hlog.
  set (k := Z.log2 (Z.abs z)) in *.
  rewrite (Z.max_l (k - 52) (-1074)) by lia.
  rewrite (Z.max_r 0 (- (k - 52))), (Z.max_l 0 (k - 52)) by lia.
  change (2 ^ 0)%Z with 1%Z.
  assert (Hr : Ndarray.round_half_even (z * 2 ^ (- (k - 52))) (1 * 1) = (z * 2 ^ (- (k - 52)))%Z).
  { unfold Ndarray.round_half_even. cbn [Z.mul Pos.mul].
    now rewrite Z.mod_1_r, Z.div_1_r. }
  rewrite Hr.
  assert (Hov : (2 ^ 1024 <=? Z.abs (z * 2 ^ (- (k - 52))) * 2 ^ (k - 52))%Z = false).
  { apply Z.leb_gt.
    destruct (Z.eq_dec k 52) as [E|E].
    - rewrite E. change (2 ^ (- (52 - 52)))%Z with 1%Z. change (2 ^ (52 - 52))%Z with 1%Z.
      rewrite !Z.mul_1_r. pose proof pow2_53_lt. lia.
    - rewrite (Z.pow_neg_r 2 (k - 52)) by lia. rewrite Z.mul_0_r.
      apply Z.pow_pos_nonneg; lia. }
  rewrite Hov. f_equal.
  rewrite <- (Qred_inject_Z z). apply Qred_complete.
  replace (k - 52)%Z with (- (52 - k))%Z by lia.
  rewrite Z.opp_involutive. apply Q2pow_inv. lia.
Qed.

Lemma round64_int (q : Q) (z : Z) :
  q == inject_Z z -> (Z.abs z < 2 ^ 53)%Z -> Ndarray.round64 q = Ndarray.Fin (inject_Z z).
Proof.
  intros Hq Hz. rewrite (round64_compat Hq). now apply round64_Z.
Qed.

Lemma gcd_odd_2 (B : Z) : Z.odd B = true -> Z.gcd B 2 = 1%Z.
Proof.
  intros Ho. rewrite (Zodd_div2 B) by (now apply Zodd_bool_iff).
  rewrite Z.gcd_comm.
  replace (2 * Z.div2 B + 1)%Z with (1 + Z.div2 B * 2)%Z by lia.
  rewrite Z.gcd_add_mult_diag_r. reflexivity.
Qed.

(** An odd multiple of one half below [2^52] is a double. *)
Lemma round64_half (B : Z) :
  Z.odd B = true -> (Z.abs B < 2 ^ 53)%Z ->
  Ndarray.round64 (B # 2) = Ndarray.Fin (B # 2).
Proof.
  intros Ho HB. unfold Ndarray.round64.
  rewrite (Qred_lowest B 2 (gcd_odd_2 B Ho)). cbn [Qnum Qden].
  assert (Hne : B <> 0%Z) by (intros ->; discriminate Ho).
  rewrite (proj2 (Z.eqb_neq _ _) Hne).
  assert (HL0 : (0 <= Z.log2 (Z.abs B))%Z) by apply Z.log2_nonneg.
  assert (HL : (Z.log2 (Z.abs B) < 53)%Z) by (apply Z.log2_lt_pow2; lia).
  pose proof (Z.log2_spec (Z.abs B) ltac:(lia)) as [Hlo _].
  set (L := Z.log2 (Z.abs B)) in *.
  assert (Hlog : Ndarray.Qlog2 (B # 2) = (L - 1)%Z).
  { unfold Ndarray.Qlog2. cbn [Qnum Qden]. change (Z.log2 2) with 1%Z. fold L.
    destruct (Z.eq_dec L 0) as [E|E].
    - rewrite E in *. change (Z.max 0 (- (0 - 1))) with 1%Z.
      change (Z.max 0 (0 - 1)) with 0%Z.
      rewrite (proj2 (Z.ltb_ge _ _)); [reflexivity|]. change (2 ^ 0)%Z with 1%Z in *.
      change (2 ^ 1)%Z with 2%Z. lia.
    - rewrite (Z.max_l 0 (- (L - 1))), (Z.max_r 0 (L - 1)) by lia.
      rewrite (proj2 (Z.ltb_ge _ _)); [reflexivity|].
      change (2 ^ 0)%Z with 1%Z. rewrite Z.mul_1_r.
      replace (2 * 2 ^ (L - 1))%Z with (2 ^ L)%Z; [exact Hlo|].
      replace L with (Z.succ (L - 1)) at 1 by lia. apply Z.pow_succ_r. lia. }
  rewrite Hlog.
  rewrite (Z.max_l (L - 1 - 52) (-1074)) by lia.
  rewrite (Z.max_r 0 (- (L - 1 - 52))), (Z.max_l 0 (L - 1 - 52)) by lia.
  change (2 ^ 0)%Z with 1%Z. change (2 * 1)%Z with 2%Z.
  assert (Hp : (2 ^ (- (L - 1 - 52)) = 2 * 2 ^ (52 - L))%Z).
  { replace (- (L - 1 - 52))%Z with (Z.succ (52 - L)) by lia. apply Z.pow_succ_r. lia. }
  assert (Hr : Ndarray.round_half_even (B * 2 ^ (- (L - 1 - 52))) 2 = (B * 2 ^ (52 - L))%Z).
  { unfold Ndarray.round_half_even. rewrite Hp.
    replace (B * (2 * 2 ^ (52 - L)))%Z with (B * 2 ^ (52 - L) * 2)%Z by ring.
    now rewrite Z.mod_mul, Z.div_mul by lia. }
  rewrite Hr.
  rewrite (Z.pow_neg_r 2 (L - 1 - 52)) by lia. rewrite Z.mul_0_r.
  rewrite (proj2 (Z.leb_gt _ _)) by (apply Z.pow_pos_nonneg; lia).
  f_equal. transitivity (Qred (B # 2)); [|exact (Qred_lowest B 2 (gcd_odd_2 B Ho))].
  apply Qred_complete.
  unfold Ndarray.Q2pow. rewrite (proj2 (Z.leb_gt _ _)) by lia.
  rewrite Hp.
  assert (Hpos : (0 < 2 ^ (52 - L))%Z) by (apply Z.pow_pos_nonneg; lia).
  unfold Qeq, Qmult, inject_Z. cbn [Qnum Qden].
  rewrite Pos.mul_1_l, Z2Pos.id by lia. ring.
Qed.

(** Whatever its parity, [B/2] with [|B| < 2^53] is a double. *)
Lemma round64_halves (q : Q) (B : Z) :
  q == B # 2 -> (Z.abs B < 2 ^ 53)%Z ->
  exists q', Ndarray.round64 q = Ndarray.Fin q' /\ q' == B # 2.
Proof.
  intros Hq HB. destruct (Z.odd B) eqn:Ho.
  - exists (B # 2). split; [|reflexivity].
    rewrite (round64_compat Hq). now apply round64_half.
  - exists (inject_Z (B / 2)).
    assert (He : B = (2 * (B / 2))%Z).
    { pose proof (Z.div_mod B 2 ltac:(lia)) as Hd.
      rewrite <- Z.negb_even in Ho. apply negb_false_iff in Ho.
      rewrite Zmod_even, Ho in Hd. lia. }
    assert (Hv : B # 2 == inject_Z (B / 2)).
    { rewrite He at 1. unfold Qeq, inject_Z. cbn [Qnum Qden]. lia. }
    split; [|now symmetry].
    apply round64_int; [now rewrite Hq|]. lia.
Qed.

Module NdarrayFacts.

Import Ndarray.

(** ** The store *)

Lemma load_after_store (h : heap) (a : nat) (v : ndarray) :
  (a < length h)%nat -> load (store h a v) a = v.
Proof. intros Ha. unfold load, store. now apply nth_list_set_same. Qed.

Lemma store_twice (h : heap) (a : nat) (v w : ndarray) :
  store (store h a v) a w = store h a w.
Proof.
  unfold store; revert a; induction h as [|u h IH]; intros [|a]; simpl; auto.
  now rewrite IH.
Qed.

Lemma store_loaded (h : heap) (a : nat) : store h a (load h a) = h.
Proof.
  unfold load, store; revert a; induction h as [|u h IH]; intros [|a]; simpl; auto.
  now rewrite IH.
Qed.

Lemma length_after_store (h : heap) (a : nat) (v : ndarray) : length (store h a v) = length h.
Proof. apply length_list_set. Qed.

Lemma load_copy (h : heap) (x : nat) : load (h ++ [load h x]) (length h) = load h x.
Proof. unfold load at 1. now rewrite app_nth2, Nat.sub_diag by lia. Qed.

Lemma store_copy (h : heap) (v w : ndarray) : store (h ++ [v]) (length h) w = h ++ [w].
Proof. apply list_set_app_last. Qed.

(** ** Masks on an array of integers *)

Lemma mask_get_map {A B : Type} (f : A -> B) (l : list A) (t : list bool) :
  mask_get (map f l) t = map f (mask_get l t).
Proof.
  revert t; induction l as [|a l IH]; intros [|b t]; simpl; auto.
  destruct b; simpl; now rewrite IH.
Qed.

Lemma Forall_mask_get {A : Type} (P : A -> Prop) (l : list A) (t : list bool) :
  Forall P l -> Forall P (mask_get l t).
Proof.
  intros H. revert t. induction H as [|a l Ha _ IH]; intros [|b t]; simpl; auto.
  destruct b; auto.
Qed.

Lemma traverse_map {A B C : Type} (f : B -> option C) (g : A -> B) (k : A -> C)
    (l : list A) :
  Forall (fun a => f (g a) = Some (k a)) l -> traverse f (map g l) = Some (map k l).
Proof.
  induction 1 as [|a l Ha _ IH]; simpl; auto. now rewrite Ha, IH.
Qed.

(** ** One value

    A bound [q] with [2q = B] and an integer [y], both small enough for
    every double that occurs to be exact. *)

Lemma int64_of_Z (z : Z) :
  (Z.abs z < 2 ^ 53)%Z -> int64_of_f64 (Fin (inject_Z z)) = Some z.
Proof.
  intros Hz. unfold int64_of_f64, Qtrunc. cbn [inject_Z Qnum Qden].
  rewrite Z.quot_1_r.
  assert (H : (2 ^ 53 < 2 ^ 63)%Z) by (apply Z.pow_lt_mono_r; lia).
  rewrite (proj2 (Z.leb_le _ _)), (proj2 (Z.ltb_lt _ _)) by lia. reflexivity.
Qed.

Lemma above_int (q : Q) (B y : Z) :
  q == B # 2 -> (Z.abs y < 2 ^ 53)%Z ->
  f64_ltb (Fin q) (f64_of_Z y) = (B <? 2 * y)%Z.
Proof.
  intros Hq Hy. unfold f64_of_Z. rewrite round64_Z by exact Hy. cbn [f64_ltb].
  destruct (Z.ltb_spec B (2 * y)) as [H|H].
  - apply Qltb_lt. rewrite Hq. unfold Qlt, inject_Z. cbn [Qnum Qden]. lia.
  - apply Qltb_ge. rewrite Hq. unfold Qle, inject_Z. cbn [Qnum Qden]. lia.
Qed.

Lemma below_int (q : Q) (A y : Z) :
  q == A # 2 -> (Z.abs y < 2 ^ 53)%Z ->
  f64_ltb (f64_of_Z y) (Fin q) = (2 * y <? A)%Z.
Proof.
  intros Hq Hy. unfold f64_of_Z. rewrite round64_Z by exact Hy. cbn [f64_ltb].
  destruct (Z.ltb_spec (2 * y) A) as [H|H].
  - apply Qltb_lt. rewrite Hq. unfold Qlt, inject_Z. cbn [Qnum Qden]. lia.
  - apply Qltb_ge. rewrite Hq. unfold Qle, inject_Z. cbn [Qnum Qden]. lia.
Qed.

Lemma twice_bound (q : Q) (B : Z) :
  q == B # 2 -> (Z.abs B < 2 ^ 53)%Z -> f64_mul (Fin 2) (Fin q) = Fin (inject_Z B).
Proof.
  intros Hq HB. cbn [f64_mul]. apply round64_int; [|exact HB].
  rewrite Hq. unfold Qeq, Qmult, inject_Z. cbn [Qnum Qden]. lia.
Qed.

Lemma mirror_int (q : Q) (B y : Z) :
  q == B # 2 -> (Z.abs B < 2 ^ 53)%Z -> (Z.abs y < 2 ^ 53)%Z -> (Z.abs (B - y) < 2 ^ 53)%Z ->
  int64_of_f64 (f64_sub (f64_mul (Fin 2) (Fin q)) (f64_of_Z y)) = Some (B - y)%Z.
Proof.
  intros Hq HB Hy Hd. rewrite (twice_bound Hq HB).
  unfold f64_of_Z. rewrite round64_Z by exact Hy. cbn [f64_sub].
  rewrite (@round64_int _ (B - y)); [now apply int64_of_Z| |exact Hd].
  unfold Qeq, Qminus, Qplus, Qopp, inject_Z. cbn [Qnum Qden]. lia.
Qed.

(** ** One masked assignment *)

Lemma reflect_in_maxx_int (q : Q) (B : Z) (y : nat) (h : heap) (l : list Z) :
  q == B # 2 -> (Z.abs B < 2 ^ 53)%Z ->
  load h y = IntArray l -> Forall (fits B) l ->
  reflect_in_maxx (Fin q) y h = Some (store h y (IntArray (map (fold_down B) l))).
Proof.
  intros Hq HB Hl Hfit. unfold reflect_in_maxx. rewrite Hl. cbn [values assign].
  assert (Ht : map (fun v => f64_ltb (Fin q) v) (map f64_of_Z l)
               = map (fun v => (B <? 2 * v)%Z) l).
  { rewrite map_map. apply map_ext_in. intros v Hv.
    rewrite Forall_forall in Hfit. apply above_int; [exact Hq|apply (Hfit v Hv)]. }
  rewrite Ht, mask_get_map, map_map.
  rewrite (traverse_map int64_of_f64 _ (fun v => (B - v)%Z)).
  - rewrite mask_set_get. reflexivity.
  - apply Forall_mask_get. eapply Forall_impl; [|exact Hfit].
    intros v [H1 H2]. now apply mirror_int.
Qed.

Lemma reflect_in_minx_int (q : Q) (A : Z) (y : nat) (h : heap) (l : list Z) :
  q == A # 2 -> (Z.abs A < 2 ^ 53)%Z ->
  load h y = IntArray l -> Forall (fits A) l ->
  reflect_in_minx (Fin q) y h = Some (store h y (IntArray (map (fold_up A) l))).
Proof.
  intros Hq HA Hl Hfit. unfold reflect_in_minx. rewrite Hl. cbn [values assign].
  assert (Ht : map (fun v => f64_ltb v (Fin q)) (map f64_of_Z l)
               = map (fun v => (2 * v <? A)%Z) l).
  { rewrite map_map. apply map_ext_in. intros v Hv.
    rewrite Forall_forall in Hfit. apply below_int; [exact Hq|apply (Hfit v Hv)]. }
  rewrite Ht, mask_get_map, map_map.
  rewrite (traverse_map int64_of_f64 _ (fun v => (A - v)%Z)).
  - rewrite mask_set_get. reflexivity.
  - apply Forall_mask_get. eapply Forall_impl; [|exact Hfit].
    intros v [H1 H2]. now apply mirror_int.
Qed.

(** ** The loop *)

Lemma existsb_values (q : Q) (A : Z) (l : list Z) :
  q == A # 2 -> Forall (fun v => (Z.abs v < 2 ^ 53)%Z) l ->
  existsb (fun v => f64_ltb v (Fin q)) (map f64_of_Z l)
  = existsb (fun y => (2 * y <? A)%Z) l.
Proof.
  intros Hq. induction 1 as [|v l Hv _ IH]; simpl; auto.
  now rewrite IH, (below_int v Hq Hv).
Qed.

Section Simulation.

Variables (qa qb : Q) (A B : Z).
Hypothesis HqA : qa == A # 2.
Hypothesis HqB : qb == B # 2.
Hypothesis HA : (Z.abs A <= 2 ^ 50)%Z.
Hypothesis HB : (Z.abs B <= 2 ^ 50)%Z.
Hypothesis HAB : (A < B)%Z.

Lemma pow_50_51 : (2 ^ 51 = 2 * 2 ^ 50)%Z /\ (2 ^ 53 = 8 * 2 ^ 50)%Z /\ (0 < 2 ^ 50)%Z.
Proof. repeat split; reflexivity. Qed.

Lemma folded_fits_low (y : Z) : folded B y -> fits A y.
Proof.
  destruct pow_50_51 as (E1 & E2 & E3). unfold folded, fits. rewrite E1, E2. lia.
Qed.

Lemma fold_up_fits (y : Z) : folded B y -> fits B (fold_up A y).
Proof.
  destruct pow_50_51 as (E1 & E2 & E3). unfold folded, fits, fold_up. rewrite E1, E2.
  destruct (Z.ltb_spec (2 * y) A); lia.
Qed.

Lemma pass_folded (y : Z) : folded B y -> folded B (fold_down B (fold_up A y)).
Proof.
  destruct pow_50_51 as (E1 & E2 & E3). unfold folded, fold_down, fold_up. rewrite E1.
  destruct (Z.ltb_spec (2 * y) A); destruct (Z.ltb_spec B (2 * (A - y)));
    destruct (Z.ltb_spec B (2 * y)); lia.
Qed.

Lemma first_folded (y : Z) : (Z.abs y <= 2 ^ 50)%Z -> fits B y /\ folded B (fold_down B y).
Proof.
  destruct pow_50_51 as (E1 & E2 & E3). unfold folded, fits, fold_down. rewrite E1, E2.
  destruct (Z.ltb_spec B (2 * y)); lia.
Qed.

(** On an array of integers the loop does what [reflect_loop] does. *)
Lemma reflect_while_int (y : nat) (fuel : nat) :
  forall (h : heap) (l : list Z),
    (y < length h)%nat -> load h y = IntArray l -> Forall (folded B) l ->
    reflect_while fuel (Fin qa) (Fin qb) y h
    = match reflect_loop fuel A B l with
      | Some l' => Returned (store h y (IntArray l'))
      | None => Running
      end.
Proof.
  destruct pow_50_51 as (E1 & E2 & E3).
  induction fuel as [|fuel IH]; intros h l Hy Hl Hinv.
  - cbn [reflect_while reflect_loop]. rewrite Hl. cbn [values].
    rewrite (existsb_values HqA).
    + destruct (existsb _ l); [reflexivity|]. now rewrite <- Hl, store_loaded.
    + eapply Forall_impl; [|exact Hinv]. intros v Hv. apply (folded_fits_low Hv).
  - cbn [reflect_while reflect_loop]. rewrite Hl. cbn [values].
    rewrite (existsb_values HqA)
      by (eapply Forall_impl; [|exact Hinv]; intros v Hv; apply (folded_fits_low Hv)).
    destruct (existsb _ l); [|now rewrite <- Hl, store_loaded].
    rewrite (reflect_in_minx_int y h HqA ltac:(lia) Hl)
      by (eapply Forall_impl; [|exact Hinv]; intros v Hv; apply (folded_fits_low Hv)).
    rewrite (@reflect_in_maxx_int qb B y _ (map (fold_up A) l) HqB ltac:(lia)).
    + rewrite store_twice.
      rewrite (IH _ (map (fold_down B) (map (fold_up A) l))).
      * rewrite map_map. destruct (reflect_loop fuel A B _); [|reflexivity].
        now rewrite store_twice.
      * now rewrite length_after_store.
      * now apply load_after_store.
      * rewrite map_map. apply Forall_map. eapply Forall_impl; [|exact Hinv].
        intros v Hv. now apply pass_folded.
    + now apply load_after_store.
    + apply Forall_map. eapply Forall_impl; [|exact Hinv].
      intros v Hv. now apply fold_up_fits.
Qed.

(** The call on an array of integers of magnitude at most [2^50]. *)
Lemma reflect_at_int (x : nat) (fuel : nat) (h : heap) (l : list Z) :
  load h x = IntArray l -> Forall (fun v => (Z.abs v <= 2 ^ 50)%Z) l ->
  reflect_at fuel x (Fin qa) (Fin qb) h
  = match reflect_loop fuel A B (map (fold_down B) l) with
    | Some l' => Returned (length h, h ++ [IntArray l'])
    | None => Running
    end.
Proof.
  intros Hl Hsmall. unfold reflect_at, array_copy.
  rewrite (@reflect_in_maxx_int qb B (length h) _ l HqB ltac:(lia)).
  - rewrite store_copy.
    rewrite (@reflect_while_int (length h) fuel _ (map (fold_down B) l)).
    + destruct (reflect_loop fuel A B _); [|reflexivity]. now rewrite store_copy.
    + rewrite length_app. simpl. lia.
    + unfold load. now rewrite app_nth2, Nat.sub_diag by lia.
    + apply Forall_map. eapply Forall_impl; [|exact Hsmall].
      intros v Hv. apply (first_folded v Hv).
  - now rewrite load_copy.
  - eapply Forall_impl; [|exact Hsmall]. intros v Hv. apply (first_folded v Hv).
Qed.

End Simulation.

(** ** The loop on integers *)

Section IntegerLoop.

Variables A B : Z.
Hypothesis HAB : (A < B)%Z.

Lemma settled_refl (y : Z) : (A <= 2 * y <= B)%Z -> settled A B y y.
Proof. intros H. repeat split; auto; lia. Qed.

Lemma settled_pass (y y' : Z) :
  (2 * y <= B)%Z -> settled A B (fold_down B (fold_up A y)) y' -> settled A B y y'.
Proof.
  intros Hy (Hin & Hid & Horb). unfold fold_down, fold_up in *.
  destruct (Z.ltb_spec (2 * y) A) as [H1|H1].
  - destruct (Z.ltb_spec B (2 * (A - y))) as [H2|H2].
    + repeat split; try lia.
      intros f Hf1 Hf2. rewrite (Horb f Hf1 Hf2), Hf2, Hf1. reflexivity.
    + repeat split; try lia.
      intros f Hf1 Hf2. rewrite (Horb f Hf1 Hf2), Hf1. reflexivity.
  - destruct (Z.ltb_spec B (2 * y)) as [H2|H2]; [lia|].
    repeat split; try lia; auto.
Qed.

Lemma settled_first (y y' : Z) :
  settled A B (fold_down B y) y' -> settled A B y y'.
Proof.
  intros (Hin & Hid & Horb). unfold fold_down in *.
  destruct (Z.ltb_spec B (2 * y)) as [H|H].
  - repeat split; try lia.
    intros f Hf1 Hf2. rewrite (Horb f Hf1 Hf2), Hf2. reflexivity.
  - repeat split; auto; lia.
Qed.

(** A value that is at most [n] below the lower bound is in range after at
    most [n] passes. *)
Lemma reflect_loop_settles (n : nat) :
  forall l,
    Forall (fun y => (2 * y <= B)%Z /\ (A - 2 * y <= 2 * Z.of_nat n)%Z) l ->
    exists l',
      (forall fuel, (n <= fuel)%nat -> reflect_loop fuel A B l = Some l')
      /\ Forall2 (settled A B) l l'.
Proof.
  induction n as [|n IH]; intros l Hl.
  - exists l. split.
    + intros fuel _.
      assert (E : existsb (fun y => (2 * y <? A)%Z) l = false).
      { apply existsb_false_Forall. eapply Forall_impl; [|exact Hl].
        intros v [_ Hv]. apply Z.ltb_ge. lia. }
      destruct fuel; cbn [reflect_loop]; now rewrite E.
    + induction Hl as [|v l [H1 H2] _ IHl]; constructor; auto.
      apply settled_refl. lia.
  - destruct (existsb (fun y => (2 * y <? A)%Z) l) eqn:E.
    + destruct (IH (map (fun y => fold_down B (fold_up A y)) l)) as (l' & Hrun & Hrel).
      { apply Forall_map. eapply Forall_impl; [|exact Hl].
        intros v [H1 H2]. unfold fold_down, fold_up.
        destruct (Z.ltb_spec (2 * v) A); destruct (Z.ltb_spec B (2 * (A - v)));
          destruct (Z.ltb_spec B (2 * v)); lia. }
      exists l'. split.
      * intros [|fuel] Hf; [lia|]. cbn [reflect_loop]. rewrite E. apply Hrun. lia.
      * clear - Hrel Hl HAB. revert l' Hrel.
        induction Hl as [|v l [H1 _] _ IHl]; intros l' Hrel;
          inversion Hrel; subst; constructor; auto.
        now apply settled_pass.
    + exists l. split.
      * intros fuel _. destruct fuel; cbn [reflect_loop]; now rewrite E.
      * apply existsb_false_Forall in E.
        clear - Hl E. induction Hl as [|v l [H1 _] _ IHl]; constructor.
        -- inversion E; subst. apply settled_refl.
           match goal with H : (_ <? _)%Z = false |- _ => apply Z.ltb_ge in H end. lia.
        -- inversion E; subst. auto.
Qed.

Lemma passes_exist (l : list Z) :
  exists n : nat, Forall (fun y => (A - 2 * y <= 2 * Z.of_nat n)%Z) l.
Proof.
  induction l as [|v l [n IH]].
  - exists 0%nat. constructor.
  - exists (Nat.max n (Z.to_nat (A - 2 * v))). constructor.
    + lia.
    + eapply Forall_impl; [|exact IH]. intros w Hw. cbv beta in *. lia.
Qed.

(** The whole call, on integers. *)
Lemma reflect_loop_total (l : list Z) :
  exists n l',
    (forall fuel, (n <= fuel)%nat ->
       reflect_loop fuel A B (map (fold_down B) l) = Some l')
    /\ Forall2 (settled A B) l l'.
Proof.
  destruct (passes_exist (map (fold_down B) l)) as [n Hn].
  destruct (@reflect_loop_settles n (map (fold_down B) l)) as (l' & Hrun & Hrel).
  { apply Forall_forall. intros v Hv. split.
    - apply in_map_iff in Hv. destruct Hv as (w & <- & _). unfold fold_down.
      destruct (Z.ltb_spec B (2 * w)); lia.
    - rewrite Forall_forall in Hn. now apply Hn. }
  exists n, l'. split; [exact Hrun|].
  clear - Hrel HAB. revert l' Hrel.
  induction l as [|v l IHl]; intros l' Hrel; simpl in Hrel;
    inversion Hrel; subst; constructor; auto.
  now apply settled_first.
Qed.

End IntegerLoop.

(** ** The call on an array of integers *)

Lemma reflect_at_settles (qa qb : Q) (A B : Z) (h : heap) (x : nat) (l : list Z) :
  qa == A # 2 -> qb == B # 2 ->
  (Z.abs A <= 2 ^ 50)%Z -> (Z.abs B <= 2 ^ 50)%Z -> (A < B)%Z ->
  load h x = IntArray l -> Forall (fun v => (Z.abs v <= 2 ^ 50)%Z) l ->
  exists n l',
    (forall fuel, (n <= fuel)%nat ->
       reflect_at fuel x (Fin qa) (Fin qb) h = Returned (length h, h ++ [IntArray l']))
    /\ Forall2 (settled A B) l l'.
Proof.
  intros HqA HqB HA HB HAB Hl Hsmall.
  destruct (reflect_loop_total HAB l) as (n & l' & Hrun & Hrel).
  exists n, l'. split; [|exact Hrel].
  intros fuel Hf. rewrite (reflect_at_int HqA HqB HA HB HAB x fuel h Hl Hsmall).
  now rewrite (Hrun fuel Hf).
Qed.

Lemma reflect_settles (qa qb : Q) (A B : Z) (l : list Z) :
  qa == A # 2 -> qb == B # 2 ->
  (Z.abs A <= 2 ^ 50)%Z -> (Z.abs B <= 2 ^ 50)%Z -> (A < B)%Z ->
  Forall (fun v => (Z.abs v <= 2 ^ 50)%Z) l ->
  exists n l',
    (forall fuel, (n <= fuel)%nat ->
       reflect fuel (IntArray l) (Fin qa) (Fin qb) = Returned (IntArray l'))
    /\ Forall2 (settled A B) l l'.
Proof.
  intros HqA HqB HA HB HAB Hsmall.
  destruct (@reflect_at_settles qa qb A B [IntArray l] 0%nat l HqA HqB HA HB HAB
              eq_refl Hsmall) as (n & l' & Hrun & Hrel).
  exists n, l'. split; [|exact Hrel].
  intros fuel Hf. unfold reflect. now rewrite (Hrun fuel Hf).
Qed.

Lemma settled_in_range (A B : Z) (l l' : list Z) :
  Forall2 (settled A B) l l' -> Forall (fun v' => (A <= 2 * v' <= B)%Z) l'.
Proof.
  induction 1 as [|v v' l l' (H & _) _ IH]; constructor; auto.
Qed.

Lemma settled_identity (A B : Z) (l l' : list Z) :
  Forall2 (settled A B) l l' ->
  forall i, (A <= 2 * nth i l 0 <= B)%Z -> nth i l' 0%Z = nth i l 0%Z.
Proof.
  induction 1 as [|v v' l l' (_ & Hid & _) _ IH]; intros [|i] Hi; simpl in *; auto.
Qed.

Lemma settled_fixed (A B : Z) (l l' : list Z) :
  Forall (fun v => (A <= 2 * v <= B)%Z) l -> Forall2 (settled A B) l l' -> l' = l.
Proof.
  intros Hin Hrel. induction Hrel as [|v v' l l' (_ & Hid & _) _ IH]; [reflexivity|].
  inversion Hin; subst. f_equal; auto.
Qed.

(** A state of the loop that a pass leaves as it is: the loop does not end. *)
Lemma reflect_while_cycle (minx maxx : f64) (y : nat) (h h1 : heap) :
  existsb (fun v => f64_ltb v minx) (values (load h y)) = true ->
  reflect_in_minx minx y h = Some h1 ->
  reflect_in_maxx maxx y h1 = Some h ->
  forall fuel, reflect_while fuel minx maxx y h = Running.
Proof.
  intros Ht H1 H2 fuel. induction fuel as [|fuel IH]; cbn [reflect_while]; rewrite Ht.
  - reflexivity.
  - now rewrite H1, H2.
Qed.

(** The bound [r - 0.5] of the filters, as Python computes it. *)
Lemma rows_minus_half (r : nat) :
  (Z.of_nat r <= 2 ^ 49)%Z ->
  exists q, f64_sub (f64_of_Z (Z.of_nat r)) (Fin (1#2)) = Fin q
            /\ q == (2 * Z.of_nat r - 1) # 2.
Proof.
  intros Hr.
  assert (E : (2 ^ 53 = 16 * 2 ^ 49)%Z) by reflexivity.
  assert (E0 : (0 < 2 ^ 49)%Z) by reflexivity.
  unfold f64_of_Z. rewrite round64_Z by lia. cbn [f64_sub].
  apply round64_halves; [|lia].
  unfold Qeq, Qminus, Qplus, Qopp, inject_Z. cbn [Qnum Qden]. lia.
Qed.

End NdarrayFacts.

(** On the index arrays of the filters, up to [2^49] rows, the array with
    its dtype and the exact arithmetic of [reflect_idx] give the same
    indices: those of the symmetric extension. *)
Lemma reflect_idx_dtype (x : list Z) (r : nat) :
  (1 <= r)%nat -> (Z.of_nat r <= 2 ^ 49)%Z -> Forall (fun v => (Z.abs v <= 2 ^ 50)%Z) x ->
  (exists n, forall fuel, (n <= fuel)%nat ->
     Ndarray.reflect fuel (Ndarray.IntArray x) (Ndarray.Fin (-(1#2)))
       (Ndarray.f64_sub (Ndarray.f64_of_Z (Z.of_nat r)) (Ndarray.Fin (1#2)))
     = Ndarray.Returned (Ndarray.IntArray (map (sym_ext r) x)))
  /\ reflect_idx x (-(1#2)) (inject_Z (Z.of_nat r) - (1#2)) = Ok (map (sym_ext r) x).
Proof.
  intros Hr Hr49 Hx. split; [|now apply reflect_idx_sym_ext].
  destruct (NdarrayFacts.rows_minus_half r Hr49) as (q & -> & Hq).
  assert (E : (2 ^ 50 = 2 * 2 ^ 49)%Z) by reflexivity.
  assert (E0 : (0 < 2 ^ 49)%Z) by reflexivity.
  destruct (@NdarrayFacts.reflect_settles (-(1#2)) q (-1) (2 * Z.of_nat r - 1) x)
    as (n & l' & Hrun & Hrel); try lia; try exact Hq; try exact Hx; [reflexivity|].
  exists n. intros fuel Hf. rewrite (Hrun fuel Hf). do 2 f_equal.
  clear - Hrel Hr. induction Hrel as [|v v' l l' (Hin & _ & Horb) _ IH]; [reflexivity|].
  cbn [map]. f_equal; [|exact IH].
  rewrite <- (sym_ext_in_range r (z := v')) by lia.
  apply (Horb (sym_ext r)).
  - intros w. now apply sym_ext_mirror_0.
  - intros w. now apply sym_ext_mirror.
Qed.

Lemma half_le_int (A v : Z) : A # 2 <= inject_Z v <-> (A <= 2 * v)%Z.
Proof. unfold Qle, inject_Z. cbn [Qnum Qden]. lia. Qed.

Lemma int_le_half (B v : Z) : inject_Z v <= B # 2 <-> (2 * v <= B)%Z.
Proof. unfold Qle, inject_Z. cbn [Qnum Qden]. lia. Qed.

(** C7.  For an index array [x] (dtype int64) anywhere in the store, with
    values of magnitude at most [2^50], and bounds [minx = A/2 < maxx = B/2]
    whose doubles [A], [B] are integers of magnitude at most [2^50] (the
    integers and the integers + 0.5 of the docstring): the call
    [reflect(x, minx, maxx)] returns a new array [y] of the same length
    whose every value lies in [[minx, maxx]]; a value of [x] that was in
    range already is returned unchanged in the same place; and the store
    after the call is the store before it with [y] added, so [x] itself is
    not modified. *)
Theorem reflect_range_identity (h : Ndarray.heap) (x : nat) (l : list Z) (A B : Z) :
  Ndarray.load h x = Ndarray.IntArray l ->
  Forall (fun v => (Z.abs v <= 2 ^ 50)%Z) l ->
  (A < B)%Z -> (Z.abs A <= 2 ^ 50)%Z -> (Z.abs B <= 2 ^ 50)%Z ->
  exists n l',
    (forall fuel, (n <= fuel)%nat ->
       Ndarray.reflect_at fuel x (Ndarray.Fin (A # 2)) (Ndarray.Fin (B # 2)) h
       = Ndarray.Returned (length h, h ++ [Ndarray.IntArray l']))
    /\ length l' = length l
    /\ Forall (fun v' => A # 2 <= inject_Z v' /\ inject_Z v' <= B # 2) l'
    /\ (forall i, (i < length l)%nat ->
          A # 2 <= inject_Z (nth i l 0%Z) /\ inject_Z (nth i l 0%Z) <= B # 2 ->
          nth i l' 0%Z = nth i l 0%Z).
Proof.
  intros Hl Hsmall HAB HA HB.
  destruct (@NdarrayFacts.reflect_at_settles (A # 2) (B # 2) A B h x l)
    as (n & l' & Hrun & Hrel); try assumption; try reflexivity.
  exists n, l'. split; [exact Hrun|].
  split; [symmetry; eapply Forall2_length; exact Hrel|].
  split.
  - eapply Forall_impl; [|exact (NdarrayFacts.settled_in_range Hrel)].
    intros v [H1 H2]. split; [now apply half_le_int|now apply int_le_half].
  - intros i _ [H1 H2]. apply (NdarrayFacts.settled_identity Hrel).
    apply half_le_int in H1. apply int_le_half in H2. lia.
Qed.

Lemma reflect_range_identity_witness :
  exists n l',
    (forall fuel, (n <= fuel)%nat ->
       Ndarray.reflect_at fuel 0 (Ndarray.Fin (-1 # 2)) (Ndarray.Fin (5 # 2))
         [Ndarray.IntArray [-4; -1; 0; 2; 3; 7]%Z]
       = Ndarray.Returned (length [Ndarray.IntArray [-4; -1; 0; 2; 3; 7]%Z],
                           [Ndarray.IntArray [-4; -1; 0; 2; 3; 7]%Z]
                             ++ [Ndarray.IntArray l']))
    /\ length l' = length [-4; -1; 0; 2; 3; 7]%Z
    /\ Forall (fun v' => -1 # 2 <= inject_Z v' /\ inject_Z v' <= 5 # 2) l'
    /\ (forall i, (i < length [-4; -1; 0; 2; 3; 7]%Z)%nat ->
          -1 # 2 <= inject_Z (nth i [-4; -1; 0; 2; 3; 7]%Z 0%Z)
          /\ inject_Z (nth i [-4; -1; 0; 2; 3; 7]%Z 0%Z) <= 5 # 2 ->
          nth i l' 0%Z = nth i [-4; -1; 0; 2; 3; 7]%Z 0%Z).
Proof.
  apply (@reflect_range_identity [Ndarray.IntArray [-4; -1; 0; 2; 3; 7]%Z] 0%nat
           [-4; -1; 0; 2; 3; 7]%Z (-1) 5).
  - reflexivity.
  - repeat constructor; vm_compute; discriminate.
  - lia.
  - vm_compute; discriminate.
  - vm_compute; discriminate.
Defined.

(** The claim C7 fails on an index array in two ways.  When the double of
    a bound is not an integer the store truncates: with [minx = -5] and
    [maxx = -0.25] the value [0] is above [maxx], the assignment stores
    [2 * (-0.25) - 0 = -0.5] in the int64 array as [0], and the call
    returns [[0]], outside the range.  From [2^53] on the comparison is
    rounded: with [minx = 0] and [maxx = 2^53] the double of the value
    [2^53 + 1] is [2^53], which is not above [maxx], and the call returns
    [[2^53 + 1]], outside the range. *)
Lemma reflect_out_of_range :
  ((forall fuel,
      Ndarray.reflect fuel (Ndarray.IntArray [0%Z])
        (Ndarray.Fin (-(5#1))) (Ndarray.Fin (-(1#4)))
      = Ndarray.Returned (Ndarray.IntArray [0%Z]))
   /\ -(5#1) < -(1#4)
   /\ ~ (inject_Z 0 <= -(1#4)))
  /\ ((forall fuel,
         Ndarray.reflect fuel (Ndarray.IntArray [(2 ^ 53 + 1)%Z])
           (Ndarray.Fin 0) (Ndarray.Fin (inject_Z (2 ^ 53)))
         = Ndarray.Returned (Ndarray.IntArray [(2 ^ 53 + 1)%Z]))
      /\ 0 < inject_Z (2 ^ 53)
      /\ ~ (inject_Z (2 ^ 53 + 1) <= inject_Z (2 ^ 53))).
Proof.
  split; (split; [|split]).
  - intros fuel. destruct fuel; vm_compute; reflexivity.
  - reflexivity.
  - intros H. vm_compute in H. now apply H.
  - intros fuel. destruct fuel; vm_compute; reflexivity.
  - reflexivity.
  - intros H. vm_compute in H. now apply H.
Qed.

(** C10.  For an index array (dtype int64) with values of magnitude at
    most [2^50] and bounds [minx = A/2 < maxx = B/2] whose doubles are
    integers of magnitude at most [2^50], the [while] loop of [reflect]
    stops: there is a number [n] of passes after which the call has
    returned, with the same result whatever larger budget it is given; and
    a pass moves every value that is still below [minx] strictly up
    without taking it above [maxx]. *)
Theorem reflect_terminates (x : list Z) (A B : Z) :
  Forall (fun v => (Z.abs v <= 2 ^ 50)%Z) x ->
  (A < B)%Z -> (Z.abs A <= 2 ^ 50)%Z -> (Z.abs B <= 2 ^ 50)%Z ->
  (exists n y, forall fuel, (n <= fuel)%nat ->
     Ndarray.reflect fuel (Ndarray.IntArray x) (Ndarray.Fin (A # 2)) (Ndarray.Fin (B # 2))
     = Ndarray.Returned (Ndarray.IntArray y))
  /\ (forall v, (2 * v < A)%Z ->
        (v < Ndarray.fold_down B (Ndarray.fold_up A v))%Z
        /\ (2 * Ndarray.fold_down B (Ndarray.fold_up A v) <= B)%Z).
Proof.
  intros Hsmall HAB HA HB. split.
  - destruct (@NdarrayFacts.reflect_settles (A # 2) (B # 2) A B x)
      as (n & l' & Hrun & _); try assumption; try reflexivity.
    exists n, l'. exact Hrun.
  - intros v Hv. unfold Ndarray.fold_down, Ndarray.fold_up.
    rewrite (proj2 (Z.ltb_lt _ _) Hv).
    destruct (Z.ltb_spec B (2 * (A - v))); lia.
Qed.

Lemma reflect_terminates_witness :
  (exists n y, forall fuel, (n <= fuel)%nat ->
     Ndarray.reflect fuel (Ndarray.IntArray [-9; 0; 1; 12]%Z)
       (Ndarray.Fin (-1 # 2)) (Ndarray.Fin (3 # 2))
     = Ndarray.Returned (Ndarray.IntArray y))
  /\ (forall v, (2 * v < -1)%Z ->
        (v < Ndarray.fold_down 3 (Ndarray.fold_up (-1) v))%Z
        /\ (2 * Ndarray.fold_down 3 (Ndarray.fold_up (-1) v) <= 3)%Z).
Proof.
  apply (@reflect_terminates [-9; 0; 1; 12]%Z (-1) 3).
  - repeat constructor; vm_compute; discriminate.
  - lia.
  - vm_compute; discriminate.
  - vm_compute; discriminate.
Defined.

(** The claim C10 fails on index arrays in two ways.  With bounds whose
    doubles are not integers the store truncates: for [[0]] with
    [minx = 0.25] and [maxx = 1.25] a pass assigns [2 * 0.25 - 0 = 0.5],
    stored as [0], and the array is as before.  With values from [2^53]
    on the subtraction is rounded: for [[10^17]] with [minx = -0.5] and
    [maxx = 2.5], [5.0 - 1e17] is [-1e17] and [-1.0 + 1e17] is [1e17], and
    a pass leaves [-10^17] as it is.  In both cases the loop does not end,
    whatever the number of passes. *)
Lemma reflect_does_not_return :
  (forall fuel,
     Ndarray.reflect fuel (Ndarray.IntArray [0%Z]) (Ndarray.Fin (1#4)) (Ndarray.Fin (5#4))
     = Ndarray.Running)
  /\ (forall fuel,
        Ndarray.reflect fuel (Ndarray.IntArray [(10 ^ 17)%Z])
          (Ndarray.Fin (-(1#2))) (Ndarray.Fin (5#2))
        = Ndarray.Running).
Proof.
  split; intros fuel; unfold Ndarray.reflect, Ndarray.reflect_at, Ndarray.array_copy.
  - assert (E : Ndarray.reflect_in_maxx (Ndarray.Fin (5#4)) (length [Ndarray.IntArray [0%Z]])
                  ([Ndarray.IntArray [0%Z]]
                     ++ [Ndarray.load [Ndarray.IntArray [0%Z]] 0])
                = Some [Ndarray.IntArray [0%Z]; Ndarray.IntArray [0%Z]])
      by (vm_compute; reflexivity).
    rewrite E.
    rewrite (@NdarrayFacts.reflect_while_cycle (Ndarray.Fin (1#4)) (Ndarray.Fin (5#4)) 1
               [Ndarray.IntArray [0%Z]; Ndarray.IntArray [0%Z]]
               [Ndarray.IntArray [0%Z]; Ndarray.IntArray [0%Z]]);
      [reflexivity|vm_compute; reflexivity..].
  - assert (E : Ndarray.reflect_in_maxx (Ndarray.Fin (5#2))
                  (length [Ndarray.IntArray [(10 ^ 17)%Z]])
                  ([Ndarray.IntArray [(10 ^ 17)%Z]]
                     ++ [Ndarray.load [Ndarray.IntArray [(10 ^ 17)%Z]] 0])
                = Some [Ndarray.IntArray [(10 ^ 17)%Z]; Ndarray.IntArray [(- 10 ^ 17)%Z]])
      by (vm_compute; reflexivity).
    rewrite E.
    rewrite (@NdarrayFacts.reflect_while_cycle (Ndarray.Fin (-(1#2))) (Ndarray.Fin (5#2)) 1
               [Ndarray.IntArray [(10 ^ 17)%Z]; Ndarray.IntArray [(- 10 ^ 17)%Z]]
               [Ndarray.IntArray [(10 ^ 17)%Z]; Ndarray.IntArray [(10 ^ 17)%Z]]);
      [reflexivity|vm_compute; reflexivity..].
Qed.

(** What the model gives on the ramp of the docstring and on an index
    array with bounds whose doubles are not integers. *)
Example reflect_int_ramp :
  Ndarray.reflect 2 (Ndarray.IntArray [-4; -3; -2; -1; 0; 1; 2; 3; 4; 5; 6; 7]%Z)
    (Ndarray.Fin (-(1#2))) (Ndarray.Fin (5#2))
  = Ndarray.Returned (Ndarray.IntArray [2; 2; 1; 0; 0; 1; 2; 2; 1; 0; 0; 1]%Z).
Proof. vm_compute. reflexivity. Qed.

Example reflect_int_truncation :
  Ndarray.reflect 2 (Ndarray.IntArray [4; 3; 7; -2]%Z) (Ndarray.Fin (1#2)) (Ndarray.Fin (9#4))
  = Ndarray.Returned (Ndarray.IntArray [1; 1; 1; 1]%Z).
Proof. vm_compute. reflexivity. Qed.

(** Python's [0.1] and the rounding of a sum that is not a double. *)
Example round64_tenth :
  Ndarray.round64 (1#10) = Ndarray.Fin (3602879701896397 # 36028797018963968)
  /\ Ndarray.round64 (inject_Z (2 ^ 53 + 1)) = Ndarray.Fin (inject_Z (2 ^ 53))
  /\ Ndarray.round64 (inject_Z (2 ^ 53 + 3)) = Ndarray.Fin (inject_Z (2 ^ 53 + 4))
  /\ Ndarray.round64 (inject_Z (2 ^ 1024)) = Ndarray.Inf false.
Proof. repeat split; vm_compute; reflexivity. Qed.

(** X1.  For an image of [1 <= r <= 2^49] rows and an index array with
    values of magnitude at most [2^50], [reflect] with the bounds [-0.5]
    and [r - 0.5] that the filters pass turns every index [i] into
    [sym_ext r i], the row at position [i] of the symmetric extension, on
    the int64 array as in the exact arithmetic of [reflect_idx]; on the
    index array [arange(-m, r + m)] with [m <= r] that is the first [m]
    rows backwards, the [r] rows, and the last [m] rows backwards: the end
    samples are repeated. *)
Theorem reflect_symmetric_extension (x : list Z) (r m : nat) :
  (1 <= r)%nat -> (Z.of_nat r <= 2 ^ 49)%Z ->
  Forall (fun v => (Z.abs v <= 2 ^ 50)%Z) x ->
  (exists n, forall fuel, (n <= fuel)%nat ->
     Ndarray.reflect fuel (Ndarray.IntArray x) (Ndarray.Fin (-(1#2)))
       (Ndarray.f64_sub (Ndarray.f64_of_Z (Z.of_nat r)) (Ndarray.Fin (1#2)))
     = Ndarray.Returned (Ndarray.IntArray (map (sym_ext r) x)))
  /\ reflect_idx x (-(1#2)) (inject_Z (Z.of_nat r) - (1#2)) = Ok (map (sym_ext r) x)
  /\ ((m <= r)%nat ->
      map (sym_ext r) (arange (- Z.of_nat m) (Z.of_nat r + Z.of_nat m) 1)
      = map Z.of_nat (rev (seq 0 m) ++ seq 0 r ++ rev (seq (r - m) m))).
Proof.
  intros Hr Hr49 Hx.
  destruct (reflect_idx_dtype Hr Hr49 Hx) as [H1 H2].
  split; [exact H1|]. split; [exact H2|].
  intros Hm. now apply sym_ext_arange.
Qed.

Lemma reflect_symmetric_extension_witness :
  (exists n, forall fuel, (n <= fuel)%nat ->
     Ndarray.reflect fuel (Ndarray.IntArray [-4; 7; 1]%Z) (Ndarray.Fin (-(1#2)))
       (Ndarray.f64_sub (Ndarray.f64_of_Z (Z.of_nat 3)) (Ndarray.Fin (1#2)))
     = Ndarray.Returned (Ndarray.IntArray (map (sym_ext 3) [-4; 7; 1]%Z)))
  /\ reflect_idx [-4; 7; 1]%Z (-(1#2)) (inject_Z (Z.of_nat 3) - (1#2))
     = Ok (map (sym_ext 3) [-4; 7; 1]%Z)
  /\ ((2 <= 3)%nat ->
      map (sym_ext 3) (arange (- Z.of_nat 2) (Z.of_nat 3 + Z.of_nat 2) 1)
      = map Z.of_nat (rev (seq 0 2) ++ seq 0 3 ++ rev (seq (3 - 2) 2))).
Proof.
  apply (@reflect_symmetric_extension [-4; 7; 1]%Z 3 2).
  - lia.
  - vm_compute; discriminate.
  - repeat constructor; vm_compute; discriminate.
Defined.

(** X26.  For an index array with values of magnitude at most [2^50] and
    bounds [A/2 < B/2] whose doubles are integers of magnitude at most
    [2^50], reflecting what [reflect] has returned changes nothing: the
    call returns an array that a second call returns as it is. *)
Theorem reflect_idempotent (x : list Z) (A B : Z) :
  Forall (fun v => (Z.abs v <= 2 ^ 50)%Z) x ->
  (A < B)%Z -> (Z.abs A <= 2 ^ 50)%Z -> (Z.abs B <= 2 ^ 50)%Z ->
  exists n y, forall fuel, (n <= fuel)%nat ->
    Ndarray.reflect fuel (Ndarray.IntArray x) (Ndarray.Fin (A # 2)) (Ndarray.Fin (B # 2))
    = Ndarray.Returned (Ndarray.IntArray y)
    /\ Ndarray.reflect fuel (Ndarray.IntArray y) (Ndarray.Fin (A # 2)) (Ndarray.Fin (B # 2))
       = Ndarray.Returned (Ndarray.IntArray y).
Proof.
  intros Hsmall HAB HA HB.
  destruct (@NdarrayFacts.reflect_settles (A # 2) (B # 2) A B x)
    as (n1 & y & Hrun1 & Hrel1); try assumption; try reflexivity.
  pose proof (NdarrayFacts.settled_in_range Hrel1) as Hin.
  destruct (@NdarrayFacts.reflect_settles (A # 2) (B # 2) A B y)
    as (n2 & y2 & Hrun2 & Hrel2); try assumption; try reflexivity.
  { eapply Forall_impl; [|exact Hin]. intros v Hv. cbv beta in Hv. lia. }
  rewrite (NdarrayFacts.settled_fixed Hin Hrel2) in Hrun2.
  exists (Nat.max n1 n2), y. intros fuel Hf. split.
  - apply Hrun1. lia.
  - apply Hrun2. lia.
Qed.

Lemma reflect_idempotent_witness :
  exists n y, forall fuel, (n <= fuel)%nat ->
    Ndarray.reflect fuel (Ndarray.IntArray [-4; 0; 7]%Z) (Ndarray.Fin (-1 # 2)) (Ndarray.Fin (5 # 2))
    = Ndarray.Returned (Ndarray.IntArray y)
    /\ Ndarray.reflect fuel (Ndarray.IntArray y) (Ndarray.Fin (-1 # 2)) (Ndarray.Fin (5 # 2))
       = Ndarray.Returned (Ndarray.IntArray y).
Proof.
  apply (@reflect_idempotent [-4; 0; 7]%Z (-1) 5).
  - repeat constructor; vm_compute; discriminate.
  - lia.
  - vm_compute; discriminate.
  - vm_compute; discriminate.
Defined.

(* ================================================================= *)
(** * Reconstruction *)
(* ================================================================= *)

(** With the filter sets [legall_pr] and [haar] the inverse transform gives
    the image back, for 1, 2 and 3 levels, up to what the decimal value of
    [sqrt_half] loses. *)
Example roundtrip_image4 :
  forall n, In n [1; 2; 3]%nat ->
  exists Z, roundtrip image4 n legall_pr haar = Ok Z
            /\ close_to (1 # 10 ^ 12) image4 Z = true.
Proof.
  intros n [<-|[<-|[<-|[]]]]; eexists; (split; [vm_compute; reflexivity|]);
    vm_compute; reflexivity.
Qed.

Example roundtrip_image_row0_one_level :
  exists Z, roundtrip image_row0 1 legall_pr haar = Ok Z
            /\ close_to (1 # 10 ^ 12) image_row0 Z = true.
Proof.
  eexists. split; [vm_compute; reflexivity|]. vm_compute. reflexivity.
Qed.

(** C1.  On the image [image_row0], with two levels and the filter sets
    [legall_pr] and [haar], the lowpass image [Yl] that the forward
    transform returns has its non-zero entries in row 0 only.  [colifilt]
    takes it for a zero image and returns zeros where its convolutions give
    a non-zero image, and what the inverse transform returns is further
    than [1/2] from the image in every entry. *)
Theorem reconstruction_fails_on_row0 :
  exists res Z,
    dtwavexfm2 image_row0 2 legall_pr haar false = Ok res
    /\ (exists z, Yl res = [[z; z]; [0; 0]] /\ 5 < z)
    /\ colifilt (Yl res) (g0b haar) (g0a haar) = Ok (zeros 4 2)
    /\ (exists Y, colifilt_convolve (Yl res) (g0b haar) (g0a haar) (zeros 4 2) = Ok Y
                  /\ apart_from 4 (zeros 1 2) (firstn 1 Y) = true)
    /\ roundtrip image_row0 2 legall_pr haar = Ok Z
    /\ apart_from (1#2) image_row0 Z = true.
Proof.
  eexists. eexists.
  split; [vm_compute; reflexivity|].
  split; [eexists; split; [reflexivity|vm_compute; reflexivity]|].
  split; [vm_compute; reflexivity|].
  split; [eexists; split; vm_compute; reflexivity|].
  split; vm_compute; reflexivity.
Qed.
